(** * D3Sample: the bar chart component [AppComponent]

    A shallow embedding of [src/app/app.component.ts] together with a model
    of the part of the d3 library the component calls (scales, the data
    join, selections acting on an element tree).

    Conventions of the model.
    - A JavaScript number is a rational, or one of the three special
      values NaN, +Infinity, -Infinity. Addition, multiplication and
      division round their result to binary64, to the nearest number with
      ties to even, and overflow to an infinity; the sign of zero is not
      represented. [Math.log] and [Math.pow], which the language leaves to
      the implementation, are taken as the exact decimal exponent and the
      correctly rounded power of ten. The band scale computes on the
      rationals without rounding.
    - The graphic is a tree of elements; every element carries an identity
      (a natural number) that plays the role of the JavaScript object
      reference held by a d3 selection.
    - A callback that dereferences an unbound datum raises a TypeError in
      JavaScript; the model's monad returns [None] there. *)

From Stdlib Require Import List String Ascii Bool Arith ZArith QArith Qround Qpower
  Qminmax Qabs Lia Lqa.
Import ListNotations.

Set Implicit Arguments.

Open Scope string_scope.
Open Scope list_scope.

(** Method chaining, [obj.f(a).g(b)], reads [obj |> f a |> g b]. *)
Notation "x |> f" := (f x) (at level 45, left associativity, only parsing).

(* ================================================================== *)
(** ** JavaScript numbers *)

Module Js.

Inductive number : Type :=
| Fin (q : Q)
| NaN
| PosInf
| NegInf.

Definition Qlt_bool (a b : Q) : bool := negb (Qle_bool b a).

Definition Qsign (q : Q) : comparison := (q ?= 0)%Q.

Definition neg (a : number) : number :=
  match a with
  | Fin q => Fin (- q)
  | NaN => NaN
  | PosInf => NegInf
  | NegInf => PosInf
  end.

(** *** Rounding to binary64

    The result of an arithmetic operation is the real result rounded to
    the nearest number of the format, ties to the even significand: 53
    bits of precision, the unit in the last place no smaller than 2^-1074,
    and an infinity from 2^1024 on. *)

Definition pow2 (e : Z) : Q := Qpower 2 e.

(** The integer part of the binary logarithm of a positive rational. *)
Definition ilog2 (q : Q) : Z :=
  let a := Z.log2 (Qnum q) in
  let b := Z.log2 (Zpos (Qden q)) in
  if Qle_bool (pow2 (a - b)) q then (a - b)%Z else (a - b - 1)%Z.

(** The nearest integer, the even one of two that are equally near. *)
Definition round_even (x : Q) : Z :=
  let f := Qfloor x in
  match Qcompare (x - inject_Z f) (1 # 2) with
  | Lt => f
  | Gt => (f + 1)%Z
  | Eq => if Z.even f then f else (f + 1)%Z
  end.

(** The exponent of the unit in the last place of a positive number. *)
Definition ulp_exp (q : Q) : Z := Z.max (ilog2 q - 52) (-1074).

(** The nearest multiple of the unit in the last place. *)
Definition nearest (q : Q) : Q :=
  inject_Z (round_even (q / pow2 (ulp_exp q))) * pow2 (ulp_exp q).

Definition round_pos (q : Q) : number :=
  if Qle_bool (pow2 1024) (nearest q) then PosInf else Fin (Qred (nearest q)).

Definition round64 (q : Q) : number :=
  match Qcompare q 0 with
  | Eq => Fin 0
  | Gt => round_pos q
  | Lt => neg (round_pos (- q))
  end.

(** The finite numbers of the format. *)
Definition is_double (q : Q) : bool :=
  match round64 q with
  | Fin r => Qeq_bool r q
  | _ => false
  end.

(** The relative error of one rounding, 2^-53, and its absolute error in
    the range of the subnormal numbers, 2^-1075. *)
Definition eps : Q := pow2 (-53).
Definition eta : Q := pow2 (-1075).

(** *** The operations *)

Definition add (a b : number) : number :=
  match a, b with
  | NaN, _ | _, NaN => NaN
  | Fin x, Fin y => round64 (x + y)
  | PosInf, NegInf | NegInf, PosInf => NaN
  | PosInf, _ | _, PosInf => PosInf
  | NegInf, _ | _, NegInf => NegInf
  end.

Definition sub (a b : number) : number := add a (neg b).

(** The sign of an infinite product or quotient. *)
Definition signed_inf (s : comparison) : number :=
  match s with
  | Gt => PosInf
  | Lt => NegInf
  | Eq => NaN
  end.

Definition flip (s : comparison) : comparison := CompOpp s.

Definition mul (a b : number) : number :=
  match a, b with
  | NaN, _ | _, NaN => NaN
  | Fin x, Fin y => round64 (x * y)
  | Fin x, PosInf | PosInf, Fin x => signed_inf (Qsign x)
  | Fin x, NegInf | NegInf, Fin x => signed_inf (flip (Qsign x))
  | PosInf, PosInf | NegInf, NegInf => PosInf
  | PosInf, NegInf | NegInf, PosInf => NegInf
  end.

(** Division; a zero divisor is taken as +0. *)
Definition div (a b : number) : number :=
  match a, b with
  | NaN, _ | _, NaN => NaN
  | Fin x, Fin y =>
      if Qeq_bool y 0 then signed_inf (Qsign x) else round64 (x / y)
  | Fin _, PosInf | Fin _, NegInf => Fin 0
  | PosInf, Fin y => if Qlt_bool y 0 then NegInf else PosInf
  | NegInf, Fin y => if Qlt_bool y 0 then PosInf else NegInf
  | _, _ => NaN
  end.

(** [Math.floor] and [Math.ceil]. *)
Definition floor (a : number) : number :=
  match a with
  | Fin q => Fin (inject_Z (Qfloor q))
  | _ => a
  end.

Definition ceil (a : number) : number :=
  match a with
  | Fin q => Fin (inject_Z (Qceiling q))
  | _ => a
  end.

(** The comparisons [a < b], [a > b] and [a >= b]; false as soon as one
    side is NaN. *)
Definition lt (a b : number) : bool :=
  match a, b with
  | NaN, _ | _, NaN => false
  | Fin x, Fin y => Qlt_bool x y
  | NegInf, NegInf => false
  | NegInf, _ => true
  | _, PosInf => match a with PosInf => false | _ => true end
  | _, _ => false
  end.

Definition gt (a b : number) : bool := lt b a.

Definition ge (a b : number) : bool :=
  match a, b with
  | NaN, _ | _, NaN => false
  | Fin x, Fin y => Qle_bool y x
  | PosInf, _ => true
  | _, NegInf => true
  | _, _ => false
  end.

(** Truthiness of a number: neither zero nor NaN. *)
Definition truthy (a : number) : bool :=
  match a with
  | Fin q => negb (Qeq_bool q 0)
  | NaN => false
  | _ => true
  end.

Definition isNaN (a : number) : bool :=
  match a with NaN => true | _ => false end.

(** The comparison [a === b] of two numbers. *)
Definition same (a b : number) : bool :=
  match a, b with
  | Fin x, Fin y => Qeq_bool x y
  | PosInf, PosInf | NegInf, NegInf => true
  | _, _ => false
  end.

(** Equality of numbers up to the representation of the rational. *)
Definition eqn (a b : number) : Prop :=
  match a, b with
  | Fin x, Fin y => x == y
  | NaN, NaN => False
  | PosInf, PosInf | NegInf, NegInf => True
  | _, _ => False
  end.

(** The order of the numbers; NaN is not compared. *)
Definition num_le (a b : number) : Prop :=
  match a, b with
  | NaN, _ | _, NaN => False
  | NegInf, _ => True
  | _, PosInf => True
  | Fin x, Fin y => (x <= y)%Q
  | _, _ => False
  end.

End Js.

Import Js.

(* ================================================================== *)
(** ** The data of the chart *)

(** interface Datum { name: string; value: number; primary?: boolean }
    A datum's value is a finite number, given as a rational; the values
    of the format are those [is_double] accepts, and a statement on the
    arithmetic of the scales asks for them. NaN and the infinities as
    values of data are outside the model. *)
Record Datum : Type := mkDatum {
  name : string;
  value : Q;
  primary : option bool
}.

Definition Data : Type := list Datum.

(** Truthiness of the optional flag, as [classed] reads it. *)
Definition flag (p : option bool) : bool :=
  match p with
  | Some true => true
  | _ => false
  end.

(* ================================================================== *)
(** ** The element tree *)

Module Dom.

(** An attribute value: a number or a string. *)
Inductive AttrValue : Type :=
| VNum (n : number)
| VStr (s : string).

(** Text content written by the program: a label [`${v}pts`], or the
    label of an axis tick. *)
Inductive Text : Type :=
| Pts (v : Q)
| TickName (s : string)
| TickNumber (n : number).

(** The element itself: identity, local tag name, attributes other than
    [class], the class list, the bound datum [__data__] and the text. *)
Record Elem : Type := mkElem {
  eid : nat;
  tag : string;
  attrs : list (string * AttrValue);
  classes : list string;
  datum : option Datum;
  text : option Text
}.

#[local] Unset Elimination Schemes.
Inductive Node : Type :=
| N (e : Elem) (cs : list Node).
#[local] Set Elimination Schemes.

Definition root_elem (t : Node) : Elem := let '(N e _) := t in e.
Definition children (t : Node) : list Node := let '(N _ cs) := t in cs.

(** The elements of a tree in document order. *)
Fixpoint elems (t : Node) : list Elem :=
  match t with
  | N e cs => e :: flat_map elems cs
  end.

Definition elemsF (f : list Node) : list Elem := flat_map elems f.

Definition descendants (t : Node) : list Elem := elemsF (children t).

Definition ids (t : Node) : list nat := map eid (elems t).

Definition has_id (id : nat) (e : Elem) : bool := Nat.eqb (eid e) id.

Definition find (id : nat) (t : Node) : option Elem :=
  List.find (has_id id) (elems t).

(** The subtree rooted at the element of the given identity. *)
Fixpoint subtree (id : nat) (t : Node) : option Node :=
  match t with
  | N e cs =>
      if has_id id e then Some t
      else (fix first (l : list Node) : option Node :=
              match l with
              | [] => None
              | c :: r =>
                  match subtree id c with
                  | Some n => Some n
                  | None => first r
                  end
              end) cs
  end.

(** *** Attributes and classes of one element *)

Fixpoint assoc_set (k : string) (v : AttrValue) (l : list (string * AttrValue))
  : list (string * AttrValue) :=
  match l with
  | [] => [(k, v)]
  | (k', v') :: r =>
      if String.eqb k k' then (k, v) :: r else (k', v') :: assoc_set k v r
  end.

Definition assoc_remove (k : string) (l : list (string * AttrValue))
  : list (string * AttrValue) :=
  filter (fun kv => negb (String.eqb k (fst kv))) l.

Fixpoint assoc_get (k : string) (l : list (string * AttrValue)) : option AttrValue :=
  match l with
  | [] => None
  | (k', v) :: r => if String.eqb k k' then Some v else assoc_get k r
  end.

Definition has_class (c : string) (e : Elem) : bool :=
  existsb (String.eqb c) (classes e).

Definition with_attrs (f : list (string * AttrValue) -> list (string * AttrValue))
  (e : Elem) : Elem :=
  {| eid := eid e; tag := tag e; attrs := f (attrs e);
     classes := classes e; datum := datum e; text := text e |}.

Definition with_classes (f : list string -> list string) (e : Elem) : Elem :=
  {| eid := eid e; tag := tag e; attrs := attrs e;
     classes := f (classes e); datum := datum e; text := text e |}.

Definition with_datum (d : option Datum) (e : Elem) : Elem :=
  {| eid := eid e; tag := tag e; attrs := attrs e;
     classes := classes e; datum := d; text := text e |}.

Definition with_text (x : option Text) (e : Elem) : Elem :=
  {| eid := eid e; tag := tag e; attrs := attrs e;
     classes := classes e; datum := datum e; text := x |}.

(** [setAttribute(name, v)]; the [class] attribute is the class list, and
    the program only ever writes a single class name to it. *)
Definition setAttribute (k : string) (v : AttrValue) (e : Elem) : Elem :=
  match v with
  | VStr s =>
      if String.eqb k "class" then with_classes (fun _ => [s]) e
      else with_attrs (assoc_set k v) e
  | VNum _ => with_attrs (assoc_set k v) e
  end.

Definition removeAttribute (k : string) (e : Elem) : Elem :=
  if String.eqb k "class" then with_classes (fun _ => []) e
  else with_attrs (assoc_remove k) e.

Definition getAttribute (k : string) (e : Elem) : option AttrValue :=
  assoc_get k (attrs e).

(** [classList.add] and [classList.remove]. *)
Definition classList_add (c : string) (e : Elem) : Elem :=
  if has_class c e then e else with_classes (fun l => l ++ [c]) e.

Definition classList_remove (c : string) (e : Elem) : Elem :=
  with_classes (filter (fun c' => negb (String.eqb c c'))) e.

(** *** Operations on the tree, addressed by identity *)

Fixpoint tmap (h : Elem -> Elem) (t : Node) : Node :=
  match t with
  | N e cs => N (h e) (map (tmap h) cs)
  end.

Definition modify (id : nat) (g : Elem -> Elem) : Node -> Node :=
  tmap (fun e => if has_id id e then g e else e).

(** [parent.appendChild(c)]. *)
Fixpoint appendChild (pid : nat) (c : Node) (t : Node) : Node :=
  match t with
  | N e cs =>
      if has_id pid e then N e (cs ++ [c])
      else N e (map (appendChild pid c) cs)
  end.

(** [node.textContent = x]: the children go, the text is set. *)
Fixpoint setTextContent (id : nat) (x : Text) (t : Node) : Node :=
  match t with
  | N e cs =>
      if has_id id e then N (with_text (Some x) e) []
      else N e (map (setTextContent id x) cs)
  end.

(** Keeps the elements that satisfy [keep], dropping the others with
    their subtrees; the root stays. *)
Fixpoint prune (keep : Elem -> bool) (t : Node) : Node :=
  match t with
  | N e cs =>
      N e (filter (fun c => keep (root_elem c)) (map (prune keep) cs))
  end.

(** [node.parentNode.removeChild(node)]. *)
Definition removeNode (id : nat) : Node -> Node :=
  prune (fun e => negb (has_id id e)).

(** *** Selectors *)

Inductive Selector : Type :=
| ByTag (t : string)
| ByClass (c : string).

(** A CSS identifier with its backslash escapes resolved. *)
Fixpoint unescape (s : string) : string :=
  match s with
  | EmptyString => EmptyString
  | String c r =>
      if Ascii.eqb c "\" then unescape r else String c (unescape r)
  end.

(** The two selector forms the program uses: [.class] and a type selector. *)
Definition selector (s : string) : Selector :=
  match s with
  | String c r => if Ascii.eqb c "." then ByClass (unescape r)
                  else ByTag (unescape s)
  | EmptyString => ByTag EmptyString
  end.

Definition matches (s : Selector) (e : Elem) : bool :=
  match s with
  | ByTag t => String.eqb (tag e) t
  | ByClass c => has_class c e
  end.

(** [node.querySelectorAll(s)] and [node.querySelector(s)]. *)
Definition querySelectorAll (s : Selector) (t : Node) : list Elem :=
  filter (matches s) (descendants t).

Definition querySelector (s : Selector) (t : Node) : option Elem :=
  List.find (matches s) (descendants t).

End Dom.

Import Dom.

(* ================================================================== *)
(** ** The graphic as state *)

(** The svg element the component owns, and the next unused identity. *)
Record State : Type := mkState {
  svg : Node;
  fresh : nat
}.

(** Computations on the graphic; [None] stands for a raised exception. *)
Definition M (A : Type) : Type := State -> option (A * State).

Definition ret {A} (a : A) : M A := fun st => Some (a, st).

Definition bind {A B} (m : M A) (k : A -> M B) : M B :=
  fun st =>
    match m st with
    | Some (a, st') => k a st'
    | None => None
    end.

Notation "x <- m ;; k" := (bind m (fun x => k))
  (at level 61, m at next level, right associativity).
Notation "m >>= k" := (bind m k) (at level 50, left associativity).

(** The state a computation ends in, when it ends normally. *)
Definition exec {A} (m : M A) (st : State) : option State :=
  match m st with
  | Some (_, st') => Some st'
  | None => None
  end.

(* ================================================================== *)
(** ** The d3 library: arrays, scales, selections, axes

    The library is a dependency of the component, not part of its
    sources. The model follows the library's version 5 (d3-array 1.2,
    d3-scale 2, d3-selection 1, d3-axis 1), for the calls the component
    makes. *)

Module d3.

(** [d3.max(values)]: the greatest value, [undefined] for no value. *)
Definition max (values : list Q) : option Q :=
  fold_left
    (fun acc v =>
       match acc with
       | None => Some v
       | Some m => if Qlt_bool m v then Some v else Some m
       end)
    values None.

(** [Math.floor(Math.log(q) / Math.LN10)] for a positive rational [q]. *)
Fixpoint ilog10 (fuel : nat) (z : Z) : Z :=
  match fuel with
  | O => 0
  | S f => if (z <? 10)%Z then 0%Z else (1 + ilog10 f (z / 10))%Z
  end.

Fixpoint neg_log10 (fuel : nat) (q : Q) : Z :=
  match fuel with
  | O => 0
  | S f =>
      let q' := Qred (q * 10) in
      if Qle_bool 1 q' then (-1)%Z else (-1 + neg_log10 f q')%Z
  end.

Definition floor_log10 (q : Q) : Z :=
  if Qle_bool 1 q
  then ilog10 (S (Z.to_nat (Z.log2 (Qfloor q)))) (Qfloor q)
  else neg_log10 (S (Z.to_nat (Z.log2 (Zpos (Qden q))))) q.

(** [Math.pow(10, p)] for an integer [p]. *)
Definition pow10 (p : Z) : number := round64 (Qpower 10 p).

(** e10 = [Math.sqrt(50)], e5 = [Math.sqrt(10)] and e2 = [Math.sqrt(2)],
    the binary64 numbers nearest to the square roots. *)
Definition e10 : Q := 124395540479019 # 17592186044416.
Definition e5 : Q := 7120816245988179 # 2251799813685248.
Definition e2 : Q := 6369051672525773 # 4503599627370496.

(** error >= e10 ? 10 : error >= e5 ? 5 : error >= e2 ? 2 : 1 *)
Definition tick_factor (error : number) : number :=
  if ge error (Fin e10) then Fin 10
  else if ge error (Fin e5) then Fin 5
  else if ge error (Fin e2) then Fin 2
  else Fin 1.

(** [tickIncrement(start, stop, count)]:
      step  = (stop - start) / Math.max(0, count)
      power = Math.floor(Math.log(step) / Math.LN10)
      error = step / Math.pow(10, power)
      power >= 0 ? factor * Math.pow(10, power)
                 : -Math.pow(10, -power) / factor
    A zero step has power -Infinity and error NaN, hence the result
    -Infinity; a negative or NaN step has power NaN, hence NaN; an infinite
    step has power +Infinity and error NaN, hence +Infinity. *)
Definition tickIncrement (start stop : number) (count : Q) : number :=
  let step := div (sub stop start) (Fin (Qmax 0 count)) in
  match step with
  | Fin q =>
      if Qlt_bool 0 q then
        let power := floor_log10 q in
        let error := div step (pow10 power) in
        if (0 <=? power)%Z
        then mul (tick_factor error) (pow10 power)
        else div (neg (pow10 (- power))) (tick_factor error)
      else if Qeq_bool q 0 then NegInf
      else NaN
  | PosInf => PosInf
  | NegInf => NaN
  | NaN => NaN
  end.

(** *** Band scales *)

Record BandScale : Type := mkBand {
  band_domain : list string;
  band_range : Q * Q;
  paddingInner : Q;
  paddingOuter : Q;
  align : Q
}.

Definition scaleBand : BandScale :=
  {| band_domain := []; band_range := (0, 1);
     paddingInner := 0; paddingOuter := 0; align := 1 # 2 |}.

(** [scale.domain(names)] keeps the first occurrence of every name. *)
Fixpoint intern (seen : list string) (names : list string) : list string :=
  match names with
  | [] => []
  | s :: rest =>
      if existsb (String.eqb s) seen then intern seen rest
      else s :: intern (s :: seen) rest
  end.

Definition band_set_domain (names : list string) (s : BandScale) : BandScale :=
  {| band_domain := intern [] names; band_range := band_range s;
     paddingInner := paddingInner s; paddingOuter := paddingOuter s;
     align := align s |}.

Definition band_set_range (r : Q * Q) (s : BandScale) : BandScale :=
  {| band_domain := band_domain s; band_range := r;
     paddingInner := paddingInner s; paddingOuter := paddingOuter s;
     align := align s |}.

(** [scale.padding(p)]: paddingInner = paddingOuter = max(0, min(1, p)). *)
Definition padding (p : Q) (s : BandScale) : BandScale :=
  let p' := Qmax 0 (Qmin 1 p) in
  {| band_domain := band_domain s; band_range := band_range s;
     paddingInner := p'; paddingOuter := p'; align := align s |}.

(** The quantities of [rescale()]; the program's range is increasing. *)
Definition band_n (s : BandScale) : Q :=
  inject_Z (Z.of_nat (List.length (band_domain s))).

Definition band_reverse (s : BandScale) : bool :=
  Qlt_bool (snd (band_range s)) (fst (band_range s)).

Definition band_lo (s : BandScale) : Q :=
  if band_reverse s then snd (band_range s) else fst (band_range s).

Definition band_hi (s : BandScale) : Q :=
  if band_reverse s then fst (band_range s) else snd (band_range s).

Definition step (s : BandScale) : Q :=
  (band_hi s - band_lo s)
  / Qmax 1 (band_n s - paddingInner s + paddingOuter s * 2).

Definition band_start (s : BandScale) : Q :=
  band_lo s
  + (band_hi s - band_lo s - step s * (band_n s - paddingInner s)) * align s.

Definition bandwidth (s : BandScale) : Q := step s * (1 - paddingInner s).

Fixpoint index_of (x : string) (l : list string) : option nat :=
  match l with
  | [] => None
  | y :: r => if String.eqb x y then Some O
              else option_map S (index_of x r)
  end.

(** The positions [start + step * i], reversed for a decreasing range. *)
Definition band_values (s : BandScale) : list Q :=
  let vs := map (fun i => band_start s + step s * inject_Z (Z.of_nat i))
                (seq 0 (List.length (band_domain s))) in
  if band_reverse s then rev vs else vs.

(** [scale(name)]: the position of the name's band, [undefined] for a name
    outside the domain. *)
Definition band_apply (s : BandScale) (x : string) : option Q :=
  match index_of x (band_domain s) with
  | Some i => nth_error (band_values s) i
  | None => None
  end.

(** *** Linear scales *)

Record LinearScale : Type := mkLinear {
  lin_domain : number * number;
  lin_range : Q * Q
}.

Definition scaleLinear : LinearScale :=
  {| lin_domain := (Fin 0, Fin 1); lin_range := (0, 1) |}.

(** [scale.domain([a, b])]; an [undefined] bound is coerced to NaN. *)
Definition coerce (v : option Q) : number :=
  match v with
  | Some q => Fin q
  | None => NaN
  end.

Definition lin_set_domain (d : option Q * option Q) (s : LinearScale)
  : LinearScale :=
  {| lin_domain := (coerce (fst d), coerce (snd d)); lin_range := lin_range s |}.

Definition lin_set_range (r : Q * Q) (s : LinearScale) : LinearScale :=
  {| lin_domain := lin_domain s; lin_range := r |}.

(** One rounding of an interval outwards to multiples of the step; a
    negative step stands for the inverse of the increment. *)
Definition nice_lo (stp x : number) : number :=
  if gt stp (Fin 0) then mul (floor (div x stp)) stp
  else div (ceil (mul x stp)) stp.

Definition nice_hi (stp x : number) : number :=
  if gt stp (Fin 0) then mul (ceil (div x stp)) stp
  else div (floor (mul x stp)) stp.

Definition nonzero_step (stp : number) : bool :=
  gt stp (Fin 0) || lt stp (Fin 0).

(** [scale.nice()] with the default count of 10: the interval is rounded
    with the tick increment, the increment recomputed, and the domain set
    to the interval rounded again. An increment that is zero or NaN
    leaves the domain as it is. *)
Definition nice_interval (lo hi : number) : number * number :=
  let step1 := tickIncrement lo hi 10 in
  let '(lo1, hi1, step2) :=
    if nonzero_step step1
    then (nice_lo step1 lo, nice_hi step1 hi,
          tickIncrement (nice_lo step1 lo) (nice_hi step1 hi) 10)
    else (lo, hi, step1) in
  if nonzero_step step2
  then (nice_lo step2 lo1, nice_hi step2 hi1)
  else (lo, hi).

Definition nice (s : LinearScale) : LinearScale :=
  let '(d0, d1) := lin_domain s in
  let d' :=
    if lt d1 d0
    then let '(lo, hi) := nice_interval d1 d0 in (hi, lo)
    else nice_interval d0 d1 in
  {| lin_domain := d'; lin_range := lin_range s |}.

(** [normalize(a, b)]: x => (x - a) / (b - a), and for a degenerate
    domain the constant 0.5 (NaN for a NaN bound). *)
Definition normalize (a b : number) (x : number) : number :=
  let b' := sub b a in
  if truthy b' then div (sub x a) b'
  else if isNaN b' then NaN else Fin (1 # 2).

(** [interpolateNumber(a, b)]: t => a * (1 - t) + b * t. *)
Definition interpolateNumber (a b : Q) (t : number) : number :=
  add (mul (Fin a) (sub (Fin 1) t)) (mul (Fin b) t).

(** [scale(x)] for a two-element domain without clamping. *)
Definition lin_apply (s : LinearScale) (x : Q) : number :=
  let '(d0, d1) := lin_domain s in
  let '(r0, r1) := lin_range s in
  if lt d1 d0
  then interpolateNumber r1 r0 (normalize d1 d0 (Fin x))
  else interpolateNumber r0 r1 (normalize d0 d1 (Fin x)).

(** [d3.ticks(start, stop, count)], the tick values of a linear axis. *)
Definition count_of (n : number) : nat :=
  match ceil n with
  | Fin q => Z.to_nat (Qfloor q)
  | _ => O
  end.

Definition ticks (start stop : number) (count : Q) : list number :=
  if same start stop && Qlt_bool 0 count then [start] else
  let reverse := lt stop start in
  let lo := if reverse then stop else start in
  let hi := if reverse then start else stop in
  let stp := tickIncrement lo hi count in
  let ts :=
    match stp with
    | Fin _ =>
        if gt stp (Fin 0) then
          let a := ceil (div lo stp) in
          let b := floor (div hi stp) in
          map (fun i => mul (add a (Fin (inject_Z (Z.of_nat i)))) stp)
              (seq 0 (count_of (add (sub b a) (Fin 1))))
        else if lt stp (Fin 0) then
          let a := floor (mul lo stp) in
          let b := ceil (mul hi stp) in
          map (fun i => div (sub a (Fin (inject_Z (Z.of_nat i)))) stp)
              (seq 0 (count_of (add (sub a b) (Fin 1))))
        else []
    | _ => []
    end in
  if reverse then rev ts else ts.

Definition lin_ticks (s : LinearScale) : list number :=
  ticks (fst (lin_domain s)) (snd (lin_domain s)) 10.

(** *** Selections *)

(** A selection holds one group of element identities (with holes) and
    the identity of the group's parent element, if it is in the graphic. *)
Record Selection : Type := mkSelection {
  nodes : list (option nat);
  parent : option nat
}.

(** The result of [selection.data(values)]: the update selection with its
    enter and exit parts. *)
Record Join : Type := mkJoin {
  update : Selection;
  enter_data : list (option Datum);
  exit_nodes : list (option nat)
}.

Definition enter (j : Join) : list (option Datum) * option nat :=
  (enter_data j, parent (update j)).

Definition exit (j : Join) : Selection :=
  {| nodes := exit_nodes j; parent := parent (update j) |}.

(** [d3.namespace(name)]: the local name after a prefix other than xmlns. *)
Fixpoint split_colon (s : string) : option (string * string) :=
  match s with
  | EmptyString => None
  | String c r =>
      if Ascii.eqb c ":" then Some (EmptyString, r)
      else match split_colon r with
           | Some (p, q) => Some (String c p, q)
           | None => None
           end
  end.

Definition local_name (nm : string) : string :=
  match split_colon nm with
  | Some (p, r) => if String.eqb p "xmlns" then nm else r
  | None => nm
  end.

Definition create (nm : string) (d : option Datum) (id : nat) : Node :=
  N {| eid := id; tag := local_name nm; attrs := []; classes := [];
       datum := d; text := None |} [].

(** [d3.select('#' + svgId)]: the selection of the svg element. *)
Definition select_svg : M Selection :=
  fun st => Some ({| nodes := [Some (eid (root_elem (svg st)))];
                     parent := None |}, st).

(** [selection.selectAll(selector)] on a selection of one element. *)
Definition selectAll (sel : string) (s : Selection) : M Selection :=
  fun st =>
    match nodes s with
    | Some p :: _ =>
        match subtree p (svg st) with
        | Some n =>
            Some ({| nodes := map (fun e => Some (eid e))
                                  (querySelectorAll (selector sel) n);
                     parent := Some p |}, st)
        | None => Some ({| nodes := []; parent := Some p |}, st)
        end
    | _ => Some ({| nodes := []; parent := None |}, st)
    end.

(** [bindIndex]: the i-th element takes the i-th datum; data without an
    element enter, elements without a datum exit. *)
Fixpoint join_update (group : list (option nat)) (data : Data)
  : list (option nat) :=
  match data, group with
  | [], _ => []
  | _ :: ds, [] => None :: join_update [] ds
  | _ :: ds, g :: gs => g :: join_update gs ds
  end.

Fixpoint join_enter (group : list (option nat)) (data : Data)
  : list (option Datum) :=
  match data, group with
  | [], _ => []
  | d :: ds, [] => Some d :: join_enter [] ds
  | d :: ds, Some _ :: gs => None :: join_enter gs ds
  | d :: ds, None :: gs => Some d :: join_enter gs ds
  end.

Fixpoint join_exit (group : list (option nat)) (data : Data)
  : list (option nat) :=
  match group, data with
  | [], _ => []
  | g :: gs, [] => g :: join_exit gs []
  | _ :: gs, _ :: ds => None :: join_exit gs ds
  end.

Fixpoint bind_data (group : list (option nat)) (data : Data) (t : Node) : Node :=
  match group, data with
  | Some id :: gs, d :: ds => bind_data gs ds (modify id (with_datum (Some d)) t)
  | None :: gs, _ :: ds => bind_data gs ds t
  | _, _ => t
  end.

Definition data (values : Data) (s : Selection) : M Join :=
  fun st =>
    Some ({| update := {| nodes := join_update (nodes s) values;
                          parent := parent s |};
             enter_data := join_enter (nodes s) values;
             exit_nodes := join_exit (nodes s) values |},
          {| svg := bind_data (nodes s) values (svg st); fresh := fresh st |}).

(** A fresh identity for a created element. *)
Definition new_id : M nat :=
  fun st => Some (fresh st, {| svg := svg st; fresh := S (fresh st) |}).

Definition on_tree (f : Node -> Node) : M unit :=
  fun st => Some (tt, {| svg := f (svg st); fresh := fresh st |}).

(** [enter.append(name)]: one new element per entering datum, appended
    to the parent (the groups the program joins have no hole, so no
    entering element has a following sibling to go before). *)
Fixpoint append_to (nm : string) (p : nat) (en : list (option Datum))
  : M (list (option nat)) :=
  match en with
  | [] => ret []
  | None :: r =>
      s <- append_to nm p r ;;
      ret (None :: s)
  | Some d :: r =>
      id <- new_id ;;
      _ <- on_tree (appendChild p (create nm (Some d) id)) ;;
      s <- append_to nm p r ;;
      ret (Some id :: s)
  end.

Definition enter_append (nm : string) (en : list (option Datum) * option nat)
  : M Selection :=
  match snd en with
  | Some p =>
      s <- append_to nm p (fst en) ;;
      ret {| nodes := s; parent := Some p |}
  | None => ret {| nodes := map (fun _ => None) (fst en); parent := None |}
  end.

(** [selection.append(name)]: a new last child for every element, which
    inherits the element's datum. *)
Fixpoint append_each (nm : string) (s : list (option nat))
  : M (list (option nat)) :=
  match s with
  | [] => ret []
  | None :: r =>
      s' <- append_each nm r ;;
      ret (None :: s')
  | Some p :: r =>
      e <- (fun st => Some (find p (svg st), st)) ;;
      match e with
      | Some pe =>
          id <- new_id ;;
          _ <- on_tree (appendChild p (create nm (datum pe) id)) ;;
          s' <- append_each nm r ;;
          ret (Some id :: s')
      | None =>
          s' <- append_each nm r ;;
          ret (None :: s')
      end
  end.

Definition append (nm : string) (s : Selection) : M Selection :=
  s' <- append_each nm (nodes s) ;;
  ret {| nodes := s'; parent := parent s |}.

(** [selection.select(selector)]: the first matching descendant of every
    element, to which the element's datum is propagated. *)
Definition select_one (sel : Selector) (id : nat) (t : Node)
  : option nat * Node :=
  match subtree id t with
  | Some n =>
      match querySelector sel n with
      | Some c =>
          (Some (eid c),
           match datum (root_elem n) with
           | Some d => modify (eid c) (with_datum (Some d)) t
           | None => t
           end)
      | None => (None, t)
      end
  | None => (None, t)
  end.

Fixpoint select_each (sel : Selector) (s : list (option nat)) (t : Node)
  : list (option nat) * Node :=
  match s with
  | [] => ([], t)
  | None :: r =>
      let '(s', t') := select_each sel r t in (None :: s', t')
  | Some id :: r =>
      let '(c, t1) := select_one sel id t in
      let '(s', t2) := select_each sel r t1 in
      (c :: s', t2)
  end.

Definition select (sel : string) (s : Selection) : M Selection :=
  fun st =>
    let '(s', t) := select_each (selector sel) (nodes s) (svg st) in
    Some ({| nodes := s'; parent := parent s |},
          {| svg := t; fresh := fresh st |}).

(** [selection.each]: the step runs on every element of the selection in
    order; an element that left the graphic is skipped. *)
Fixpoint each (stp : nat -> Node -> option Node) (s : list (option nat))
  (t : Node) : option Node :=
  match s with
  | [] => Some t
  | None :: r => each stp r t
  | Some id :: r =>
      match stp id t with
      | Some t' => each stp r t'
      | None => None
      end
  end.

Definition for_each (stp : nat -> Node -> option Node) (s : Selection)
  : M Selection :=
  fun st =>
    match each stp (nodes s) (svg st) with
    | Some t => Some (s, {| svg := t; fresh := fresh st |})
    | None => None
    end.

(** A callback [d => ...] reads a property of the element's datum: on an
    element without datum it raises. *)
Definition callback (k : Datum -> Node -> Node) (id : nat) (t : Node)
  : option Node :=
  match find id t with
  | None => Some t
  | Some e =>
      match datum e with
      | Some d => Some (k d t)
      | None => None
      end
  end.

(** [selection.attr(name, d => v)]: a null value removes the attribute. *)
Definition attr_fn (k : string) (f : Datum -> option AttrValue) (s : Selection)
  : M Selection :=
  for_each
    (fun id => callback (fun d =>
       modify id match f d with
                 | Some v => setAttribute k v
                 | None => removeAttribute k
                 end) id) s.

(** [selection.attr(name, v)] for a constant. *)
Definition attr (k : string) (v : AttrValue) (s : Selection) : M Selection :=
  for_each (fun id t => Some (modify id (setAttribute k v) t)) s.

(** [selection.classed(name, d => b)] and [selection.classed(name, b)]. *)
Definition classed_fn (c : string) (f : Datum -> bool) (s : Selection)
  : M Selection :=
  for_each
    (fun id => callback (fun d =>
       modify id (if f d then classList_add c else classList_remove c)) id) s.

Definition classed (c : string) (b : bool) (s : Selection) : M Selection :=
  for_each
    (fun id t =>
       Some (modify id (if b then classList_add c else classList_remove c) t))
    s.

(** [selection.text(d => x)]. *)
Definition text_fn (f : Datum -> Text) (s : Selection) : M Selection :=
  for_each (fun id => callback (fun d => setTextContent id (f d)) id) s.

(** [selection.merge(other)]: index by index, the first non-null node. *)
Fixpoint merge_nodes (g0 g1 : list (option nat)) : list (option nat) :=
  match g0, g1 with
  | [], _ => []
  | a :: r0, [] => a :: merge_nodes r0 []
  | Some a :: r0, _ :: r1 => Some a :: merge_nodes r0 r1
  | None :: r0, b :: r1 => b :: merge_nodes r0 r1
  end.

Definition merge (other : Selection) (s : Selection) : Selection :=
  {| nodes := merge_nodes (nodes s) (nodes other); parent := parent s |}.

(** [selection.remove()]. *)
Definition remove (s : Selection) : M unit :=
  _ <- for_each (fun id t => Some (removeNode id t)) s ;;
  ret tt.

(** [selection.data()]: the data of the selection's elements. Reading a
    property of an undefined entry raises later, in the scale's [map];
    the model raises here. *)
Fixpoint node_data (s : list (option nat)) (t : Node) : option Data :=
  match s with
  | [] => Some []
  | None :: r => node_data r t
  | Some id :: r =>
      match find id t with
      | None => node_data r t
      | Some e =>
          match datum e, node_data r t with
          | Some d, Some ds => Some (d :: ds)
          | _, _ => None
          end
      end
  end.

Definition get_data (s : Selection) : M Data :=
  fun st =>
    match node_data (nodes s) (svg st) with
    | Some ds => Some (ds, st)
    | None => None
    end.

(** [selection.call(f)]. *)
Definition call {A} (f : Selection -> M A) (s : Selection) : M Selection :=
  _ <- f s ;;
  ret s.

(** *** Axes *)

Inductive Orient : Type := Bottom | Left.

Record Axis : Type := mkAxis {
  orient : Orient;
  tick_labels : list Text;
  tick_size : Q
}.

(** What an axis needs of its scale: the values to put a tick at. *)
Class AxisScale (S : Type) : Type := {
  axis_ticks : S -> list Text
}.

#[global] Instance band_axis : AxisScale BandScale :=
  {| axis_ticks := fun s => map TickName (band_domain s) |}.

#[global] Instance linear_axis : AxisScale LinearScale :=
  {| axis_ticks := fun s => map TickNumber (lin_ticks s) |}.

Definition axisBottom {S} `{AxisScale S} (s : S) : Axis :=
  {| orient := Bottom; tick_labels := axis_ticks s; tick_size := 6 |}.

Definition axisLeft {S} `{AxisScale S} (s : S) : Axis :=
  {| orient := Left; tick_labels := axis_ticks s; tick_size := 6 |}.

Definition tickSize (k : Q) (a : Axis) : Axis :=
  {| orient := orient a; tick_labels := tick_labels a; tick_size := k |}.

(** The elements an axis draws into its group: the domain path and, per
    tick, a group of class [tick] holding a line and a text. Of these
    elements only the structure, the classes and the text are modelled,
    not the presentation attributes, nor the data the axis binds to them
    (the tick value to a tick, null to the domain path): the component
    reads the data of bars and labels only, and removes the axis groups
    before it draws them anew. *)
Definition element (id : nat) (tg : string) (cl : list string)
  (x : option Text) : Elem :=
  {| eid := id; tag := tg; attrs := []; classes := cl; datum := None;
     text := x |}.

Definition tick_node (id : nat) (lbl : Text) : Node :=
  N (element id "g" ["tick"] None)
    [N (element (id + 1) "line" [] None) [];
     N (element (id + 2) "text" [] (Some lbl)) []].

Fixpoint tick_nodes (id : nat) (labels : list Text) : list Node :=
  match labels with
  | [] => []
  | l :: r => tick_node id l :: tick_nodes (id + 3) r
  end.

Definition axis_nodes (id : nat) (a : Axis) : list Node :=
  N (element id "path" ["domain"] None) []
  :: tick_nodes (id + 1) (tick_labels a).

Definition appendChildren (p : nat) (cs : list Node) (t : Node) : Node :=
  fold_left (fun t c => appendChild p c t) cs t.

(** The attributes an axis writes on the group it is called on, when it
    draws into it for the first time: [fill], [font-size], [font-family]
    and [text-anchor], the last by the orientation. The program calls an
    axis only on a group it has just appended. *)
Definition anchor (o : Orient) : string :=
  match o with
  | Bottom => "middle"
  | Left => "end"
  end.

Definition axis_style (a : Axis) (e : Elem) : Elem :=
  e
  |> setAttribute "fill" (VStr "none")
  |> setAttribute "font-size" (VNum (Fin 10))
  |> setAttribute "font-family" (VStr "sans-serif")
  |> setAttribute "text-anchor" (VStr (anchor (orient a))).

Fixpoint render_each (a : Axis) (s : list (option nat)) : M unit :=
  match s with
  | [] => ret tt
  | None :: r => render_each a r
  | Some g :: r =>
      _ <- (fun st =>
              Some (tt,
                    {| svg := modify g (axis_style a)
                                (appendChildren g (axis_nodes (fresh st) a)
                                                (svg st));
                       fresh := fresh st + 1
                                + 3 * List.length (tick_labels a) |})) ;;
      render_each a r
  end.

Definition render (a : Axis) (s : Selection) : M unit :=
  render_each a (nodes s).

End d3.

(* ================================================================== *)
(** ** The component *)

Module AppComponent.

Definition svgWidth : Q := 600.
Definition svgHeight : Q := 300.

Record Margin : Type := mkMargin {
  left : Q;
  right : Q;
  top : Q;
  bottom : Q
}.

Definition svgMargin : Margin :=
  {| left := 25; right := 5; top := 5; bottom := 15 |}.

(** get svgRootElement() *)
Definition svgRootElement : M d3.Selection := d3.select_svg.

(** svgSelectAll(selector) *)
Definition svgSelectAll (sel : string) : M d3.Selection :=
  svgRootElement >>= d3.selectAll sel.

Definition svgRectElements : M d3.Selection := svgSelectAll "rect".

Definition svgForeignObjectElements : M d3.Selection :=
  svgSelectAll "foreignObject".

(** xScale(data) *)
Definition xScale (data : Data) : d3.BandScale :=
  d3.scaleBand
  |> d3.band_set_domain (map name data)
  |> d3.band_set_range (left svgMargin, svgWidth - right svgMargin)
  |> d3.padding (4 # 10).

(** yScale(data) *)
Definition yScale (data : Data) : d3.LinearScale :=
  d3.scaleLinear
  |> d3.lin_set_domain (Some 0, d3.max (map value data))
  |> d3.lin_set_range (svgHeight - bottom svgMargin, top svgMargin)
  |> d3.nice.

(** setSizeAndPositionToRect(selection, data = selection.data()) *)
Definition setSizeAndPositionToRect (selection : d3.Selection)
  (data : option Data) : M d3.Selection :=
  data <- match data with
          | Some d => ret d
          | None => d3.get_data selection
          end ;;
  let x := xScale data in
  let y := yScale data in
  ret selection
  >>= d3.attr_fn "x"
        (fun d => option_map (fun q => VNum (Fin q)) (d3.band_apply x (name d)))
  >>= d3.attr_fn "y" (fun d => Some (VNum (d3.lin_apply y (value d))))
  >>= d3.attr "width" (VNum (Fin (d3.bandwidth x)))
  >>= d3.attr_fn "height"
        (fun d => Some (VNum (Js.sub (Fin (svgHeight - bottom svgMargin))
                                     (d3.lin_apply y (value d))))).

(** updateBars(data) *)
Definition updateBars (data : Data) : M unit :=
  rects <- svgRectElements >>= d3.data data ;;
  entered <- d3.enter_append "rect" (d3.enter rects) ;;
  _ <- setSizeAndPositionToRect (entered |> d3.merge (d3.update rects)) None
       >>= d3.classed_fn "primaryBar" (fun d => flag (primary d))
       >>= d3.classed_fn "secondaryBar" (fun d => negb (flag (primary d))) ;;
  d3.remove (d3.exit rects).

(** updateLabels(data) *)
Definition updateLabels (data : Data) : M unit :=
  dataLabels <- svgForeignObjectElements >>= d3.data data ;;
  _ <- setSizeAndPositionToRect (d3.update dataLabels) (Some data)
       >>= d3.select "xhtml\:div"
       >>= d3.text_fn (fun d => Pts (value d)) ;;
  entered <- d3.enter_append "foreignObject" (d3.enter dataLabels) ;;
  _ <- setSizeAndPositionToRect entered (Some data)
       >>= d3.append "xhtml:div"
       >>= d3.classed "label" true
       >>= d3.classed_fn "primaryLabel" (fun d => flag (primary d))
       >>= d3.classed_fn "secondaryLabel" (fun d => negb (flag (primary d)))
       >>= d3.text_fn (fun d => Pts (value d)) ;;
  d3.remove (d3.exit dataLabels).

(** updateAxises(data) *)
Definition updateAxises (data : Data) : M unit :=
  _ <- svgRootElement >>= d3.selectAll ".axis" >>= d3.remove ;;
  _ <- svgRootElement
       >>= d3.append "g"
       >>= d3.attr "class" (VStr "axis")
       >>= d3.attr "transform" (VStr "translate(0, 285)")
       >>= d3.call (d3.render (d3.axisBottom (xScale data) |> d3.tickSize 0)) ;;
  _ <- svgRootElement
       >>= d3.append "g"
       >>= d3.attr "class" (VStr "axis")
       >>= d3.attr "transform" (VStr "translate(25, 0)")
       >>= d3.call (d3.render
             (d3.axisLeft (yScale data)
              |> d3.tickSize (- svgWidth + (left svgMargin + right svgMargin)))) ;;
  ret tt.

(** updateSvg(data = []) *)
Definition updateSvg (arg : option Data) : M unit :=
  let data := match arg with Some d => d | None => [] end in
  _ <- updateAxises data ;;
  _ <- updateBars data ;;
  updateLabels data.

(** The data built by ngAfterViewInit(). *)
Definition initial_data : Data :=
  [ {| name := "競合A社"; value := 53; primary := None |};
    {| name := "当社"; value := 72; primary := Some true |};
    {| name := "競合B社"; value := 81; primary := None |};
    {| name := "競合C社"; value := 69; primary := None |};
    {| name := "競合D社"; value := 57; primary := None |};
    {| name := "競合E社"; value := 34; primary := None |};
    {| name := "競合F社"; value := 13; primary := None |} ].


End AppComponent.

Import AppComponent.

(** The graphic before the first update: the svg element of the template,
    without children. *)
Definition empty_svg : State :=
  {| svg := N {| eid := 0; tag := "svg"; attrs := []; classes := [];
                 datum := None; text := None |} [];
     fresh := 1 |}.

(* ================================================================== *)
(** ** The public surface of the component

    The methods and accessors of the class, each with the access the
    source declares for it: a member without a modifier is public. *)

Module Surface.












End Surface.

(* ================================================================== *)
(** ** Induction on the element tree *)

Open Scope nat_scope.

Section NodeInduction.
Variable P : Node -> Prop.
Hypothesis step : forall e cs, Forall P cs -> P (N e cs).

Fixpoint Node_ind (t : Node) : P t :=
  match t with
  | N e cs =>
      step e
        ((fix all (l : list Node) : Forall P l :=
            match l with
            | [] => Forall_nil P
            | c :: r => Forall_cons c (Node_ind c) (all r)
            end) cs)
  end.
End NodeInduction.

(* ================================================================== *)
(** ** Notions of the statements and the proofs

    Predicates on the element tree, the trees the three routines leave,
    the invariant of the chart, and the datasets and graphics the
    theorems are instantiated at. *)

(** The elements of a group, its holes left out. *)
Definition present {A} (l : list (option A)) : list A :=
  flat_map (fun o => match o with Some a => [a] | None => [] end) l.

(** Membership of an identity in a list of identities. *)
Definition mem (i : nat) (l : list nat) : bool := existsb (Nat.eqb i) l.

(** The elements of a selection restyled, each from its own datum. *)
Definition on (I : list nat) (g : Datum -> Elem -> Elem) (e : Elem) : Elem :=
  if mem (eid e) I
  then match datum e with Some d => g d e | None => e end
  else e.

(** A style function changes neither identity, tag nor datum. *)
Definition stylish (h : Elem -> Elem) : Prop :=
  forall e, eid (h e) = eid e /\ tag (h e) = tag e /\ datum (h e) = datum e.

(** The elements of the selection all carry a datum. *)
Definition bound (I : list nat) (t : Node) : Prop :=
  forall e, In e (elems t) -> In (eid e) I -> datum e <> None.

(** The identities given to created elements: the i-th entering datum
    gets the i-th unused identity. *)
Fixpoint relabel (en : list (option Datum)) (f : nat) : list (option nat) :=
  match en with
  | [] => []
  | None :: r => None :: relabel r f
  | Some _ :: r => Some f :: relabel r (S f)
  end.

(** The elements appended for the entering data, with the identities from
    [f] on. *)
Fixpoint created (nm : string) (f : nat) (ds : Data) : list Node :=
  match ds with
  | [] => []
  | d :: r => d3.create nm (Some d) f :: created nm (S f) r
  end.

(** The data bound by the join, as one pass over the tree. *)
Fixpoint assoc_nat (i : nat) (al : list (nat * Datum)) : option Datum :=
  match al with
  | [] => None
  | (j, d) :: r => if Nat.eqb i j then Some d else assoc_nat i r
  end.

Definition bindf (al : list (nat * Datum)) (e : Elem) : Elem :=
  match assoc_nat (eid e) al with
  | Some d => with_datum (Some d) e
  | None => e
  end.

(** The elements that are not among the removed ones. *)
Definition outside (I : list nat) (e : Elem) : bool := negb (mem (eid e) I).

(** No element of the list satisfies [P]. *)
Definition nowhere (P : Elem -> bool) (l : list Elem) : Prop :=
  Forall (fun e => P e = false) l.

(** The elements satisfying [P] are children of the root, none deeper. *)
Definition top_level (P : Elem -> bool) (t : Node) : Prop :=
  Forall (fun c => nowhere P (descendants c)) (children t).

(** The elements [svgSelectAll(sel)] selects, in document order. *)
Definition selected (sel : string) (t : Node) : list Elem :=
  querySelectorAll (selector sel) t.

(** What [setSizeAndPositionToRect] does to one element: the x attribute
    (removed when the name has no band), and the height it computes. *)
Definition set_x (data : Data) (d : Datum) : Elem -> Elem :=
  match option_map (fun q => VNum (Fin q)) (d3.band_apply (xScale data) (name d)) with
  | Some v => setAttribute "x" v
  | None => removeAttribute "x"
  end.

Definition height_of (data : Data) (d : Datum) : number :=
  Js.sub (Fin (svgHeight - bottom svgMargin))
         (d3.lin_apply (yScale data) (value d)).

(** The four attributes written from the datum [d]. *)
Definition geometry (data : Data) (d : Datum) (e : Elem) : Elem :=
  setAttribute "height" (VNum (height_of data d))
    (setAttribute "width" (VNum (Fin (d3.bandwidth (xScale data))))
       (setAttribute "y" (VNum (d3.lin_apply (yScale data) (value d)))
          (set_x data d e))).

(** Identities are pairwise distinct and below the next unused one. *)
Definition wf (st : State) : Prop :=
  NoDup (ids (svg st)) /\ Forall (fun i => i < fresh st) (ids (svg st)).

(** The two classes a bar takes from the flag. *)
Definition bar_class (d : Datum) (e : Elem) : Elem :=
  (if negb (flag (primary d))
   then classList_add "secondaryBar" else classList_remove "secondaryBar")
    ((if flag (primary d)
      then classList_add "primaryBar" else classList_remove "primaryBar") e).

Definition bar_style (data : Data) (d : Datum) (e : Elem) : Elem :=
  bar_class d (geometry data d e).

(** The tree [updateBars] leaves: the data bound to the first rects, new
    rects appended for the data beyond, all of them styled, and the rects
    beyond the data removed. *)
Definition joined_tree (sel nm : string) (data : Data) (st : State) : Node :=
  let R := map eid (selected sel (svg st)) in
  N (root_elem (svg st))
    (map (tmap (bindf (combine R data))) (children (svg st))
     ++ created nm (fresh st) (skipn (List.length R) data)).

Definition merged_ids (sel : string) (data : Data) (st : State) : list nat :=
  let R := map eid (selected sel (svg st)) in
  firstn (List.length data) R
  ++ seq (fresh st) (List.length data - List.length R).

Definition exit_ids (sel : string) (data : Data) (st : State) : list nat :=
  skipn (List.length data) (map eid (selected sel (svg st))).

Definition bars_tree (data : Data) (st : State) : Node :=
  prune (outside (exit_ids "rect" data st))
    (tmap (on (merged_ids "rect" data st) (bar_style data))
          (joined_tree "rect" "rect" data st)).

(** The kinds of element the component selects. *)
Definition is_bar : Elem -> bool := matches (selector "rect").
Definition is_label : Elem -> bool := matches (selector "foreignObject").
Definition is_axis : Elem -> bool := matches (selector ".axis").
Definition is_xdiv : Elem -> bool := matches (selector "xhtml\:div").

(** An element styled from its own datum. *)
Definition styled (sty : Datum -> Elem -> Elem) (e : Elem) : Elem :=
  match datum e with
  | Some d => sty d e
  | None => e
  end.

(** The old elements paired with the data, as far as both go. *)
Fixpoint zip_style (sty : Datum -> Elem -> Elem) (es : list Elem) (ds : Data)
  : list Elem :=
  match es, ds with
  | e :: es', d :: ds' => sty d (with_datum (Some d) e) :: zip_style sty es' ds'
  | _, _ => []
  end.

Definition idsF (f : list Node) : list nat := map eid (elemsF f).

Definition axis_group (id : nat) (transform : string) (d : option Datum)
  (a : d3.Axis) : Node :=
  N {| eid := id; tag := "g";
       attrs := [("transform", VStr transform); ("fill", VStr "none");
                 ("font-size", VNum (Fin 10));
                 ("font-family", VStr "sans-serif");
                 ("text-anchor", VStr (d3.anchor (d3.orient a)))];
       classes := ["axis"]; datum := d; text := None |}
    (d3.axis_nodes (S id) a).

Definition bottom_axis (data : Data) : d3.Axis :=
  d3.axisBottom (xScale data) |> d3.tickSize 0%Q.

Definition left_axis (data : Data) : d3.Axis :=
  d3.axisLeft (yScale data)
  |> d3.tickSize (- svgWidth + (left svgMargin + right svgMargin))%Q.

Definition axis_span (a : d3.Axis) : nat := 2 + 3 * List.length (d3.tick_labels a).

(** The tree [updateAxises] leaves: the elements of class [axis] removed,
    the two new axis groups appended. *)
Definition axes_tree (data : Data) (st : State) : Node :=
  let t := prune (outside (map eid (selected ".axis" (svg st)))) (svg st) in
  N (root_elem t)
    (children t
     ++ [axis_group (fresh st) "translate(0, 285)" (datum (root_elem t))
           (bottom_axis data);
         axis_group (fresh st + axis_span (bottom_axis data))
           "translate(25, 0)" (datum (root_elem t)) (left_axis data)]).

(** The elements an axis draws are of no kind the component selects. *)
Definition axis_blind (P : Elem -> bool) : Prop :=
  forall id x,
    P (d3.element id "path" ["domain"] x) = false
    /\ P (d3.element id "g" ["tick"] x) = false
    /\ P (d3.element id "line" [] x) = false
    /\ P (d3.element id "text" [] x) = false.

(** The labels appended for the entering data: a foreignObject for each,
    with its children. *)
Fixpoint lab_nodes (fo : nat -> Datum -> Elem)
  (kids : nat -> Datum -> list Node) (f g : nat) (ds : Data) : list Node :=
  match ds with
  | [] => []
  | d :: r => N (fo f d) (kids g d) :: lab_nodes fo kids (S f) (S g) r
  end.

Definition label_class (d : Datum) (e : Elem) : Elem :=
  (if negb (flag (primary d))
   then classList_add "secondaryLabel" else classList_remove "secondaryLabel")
    ((if flag (primary d)
      then classList_add "primaryLabel" else classList_remove "primaryLabel") e).

Definition new_div (id : nat) (d : Datum) : Elem :=
  root_elem (d3.create "xhtml:div" (Some d) id).

(** The div of a new label, and the label itself. *)
Definition div_elem (id : nat) (d : Datum) : Elem :=
  with_text (Some (Pts (value d)))
    (label_class d (classList_add "label" (new_div id d))).

Definition fo_elem (data : Data) (id : nat) (d : Datum) : Elem :=
  geometry data d (root_elem (d3.create "foreignObject" (Some d) id)).

(** The children the svg had, after the join of the labels: the data
    bound, the first labels placed again. *)
Definition old_children (data : Data) (st : State) : list Node :=
  let R := map eid (selected "foreignObject" (svg st)) in
  map (tmap (fun e => on (firstn (List.length data) R) (geometry data)
                         (bindf (combine R data) e)))
      (children (svg st)).

Definition new_labels (data : Data) (st : State) : list Node :=
  let m := List.length (selected "foreignObject" (svg st)) in
  lab_nodes (fo_elem data) (fun j d => [N (div_elem j d) []])
    (fresh st) (fresh st + (List.length data - m)) (skipn m data).

Definition labels_tree (data : Data) (st : State) : Node :=
  prune (outside (exit_ids "foreignObject" data st))
    (N (root_elem (svg st)) (old_children data st ++ new_labels data st)).

Definition styled_div (j : nat) (d : Datum) : Elem :=
  label_class d (classList_add "label" (new_div j d)).

(** What [updateLabels] does to an element that was there before. *)
Definition place (data : Data) (st : State) (e : Elem) : Elem :=
  on (firstn (List.length data) (map eid (selected "foreignObject" (svg st))))
     (geometry data)
     (bindf (combine (map eid (selected "foreignObject" (svg st))) data) e).

(** Identities are well formed, bars and labels are children of the svg,
    and no element is named [xhtml:div]. *)
Definition chart_inv (st : State) : Prop :=
  wf st
  /\ top_level is_bar (svg st)
  /\ top_level is_label (svg st)
  /\ nowhere is_xdiv (descendants (svg st)).

(** The graphics the three routines leave. *)
Definition axes_state (data : Data) (st : State) : State :=
  {| svg := axes_tree data st;
     fresh := fresh st + axis_span (bottom_axis data)
              + axis_span (left_axis data) |}.

Definition bars_state (data : Data) (st : State) : State :=
  {| svg := bars_tree data st;
     fresh := fresh st
              + (List.length data - List.length (selected "rect" (svg st))) |}.

Definition labels_state (data : Data) (st : State) : State :=
  {| svg := labels_tree data st;
     fresh := fresh st
              + 2 * (List.length data
                     - List.length (selected "foreignObject" (svg st))) |}.

(** The graphic one call of [updateSvg] leaves. *)
Definition redraw (data : Data) (st : State) : State :=
  labels_state data (bars_state data (axes_state data st)).

(** The dataset of a call: the argument, or the default []. *)
Definition data_of (arg : option Data) : Data :=
  match arg with Some d => d | None => [] end.

(** The elements of class [axis] after [updateAxises]. *)
Definition axis_roots (data : Data) (st : State) : list Elem :=
  selected ".axis" (axes_tree data st).

(** The tag names of the children of the svg element, in document order. *)
Definition child_tags (t : Node) : list string :=
  map (fun c => tag (root_elem c)) (children t).

(** The redraw in the order the specification words it (bars, labels,
    axes); the program's order is that of [updateSvg]. *)
Definition updateSvg_as_specified (arg : option Data) : M unit :=
  let data := match arg with Some d => d | None => [] end in
  _ <- updateBars data ;;
  _ <- updateLabels data ;;
  updateAxises data.

(** The children's tag names after a computation. *)
Definition tags_after (m : M unit) (st : State) : option (list string) :=
  option_map (fun r => child_tags (svg (snd r))) (m st).

(** Successive calls of [updateSvg], one for each argument. *)
Fixpoint updates (args : list (option Data)) : M unit :=
  match args with
  | [] => ret tt
  | a :: r => _ <- updateSvg a ;; updates r
  end.

(** The graphics the component can show: the empty one of the template,
    and whatever a call of [updateSvg] makes of one of them. *)
Inductive reachable : State -> Prop :=
| reach_init : reachable empty_svg
| reach_update (arg : option Data) (st st' : State) :
    reachable st -> updateSvg arg st = Some (tt, st') -> reachable st'.

(** The attribute list [setSizeAndPositionToRect] makes of the list [l]
    for a datum of name [nm] and value [v], under the scales [x] and [y]. *)
Definition box_attrs (x : d3.BandScale) (y : d3.LinearScale) (nm : string)
  (v : Q) (l : list (string * AttrValue)) : list (string * AttrValue) :=
  assoc_set "height"
    (VNum (Js.sub (Fin (svgHeight - bottom svgMargin)%Q) (d3.lin_apply y v)))
    (assoc_set "width" (VNum (Fin (d3.bandwidth x)))
       (assoc_set "y" (VNum (d3.lin_apply y v))
          (match d3.band_apply x nm with
           | Some q => assoc_set "x" (VNum (Fin q)) l
           | None => assoc_remove "x" l
           end))).

Fixpoint zip_box (F : string -> Q -> list (string * AttrValue)
                      -> list (string * AttrValue))
  (ls : list (list (string * AttrValue))) (nvs : list (string * Q))
  : list (list (string * AttrValue)) :=
  match ls, nvs with
  | l :: ls', (n, v) :: nvs' => F n v l :: zip_box F ls' nvs'
  | _, _ => []
  end.

(** The attribute lists of a selection after its elements were placed:
    the old elements' lists rewritten, the new elements' lists written. *)
Definition boxes (x : d3.BandScale) (y : d3.LinearScale)
  (ls : list (list (string * AttrValue))) (nvs : list (string * Q))
  : list (list (string * AttrValue)) :=
  zip_box (box_attrs x y) ls nvs
  ++ map (fun nv => box_attrs x y (fst nv) (snd nv) []) (skipn (List.length ls) nvs).

(** A datum without its flag. *)
Definition name_value (d : Datum) : string * Q := (name d, value d).

(** The four attributes of the bounding box. *)
Definition box (e : Elem)
  : option AttrValue * option AttrValue * option AttrValue * option AttrValue :=
  (getAttribute "x" e, getAttribute "y" e,
   getAttribute "width" e, getAttribute "height" e).

(** The element carries both classes of a pair. *)
Definition clash (e : Elem) : bool :=
  (has_class "primaryBar" e && has_class "secondaryBar" e)
  || (has_class "primaryLabel" e && has_class "secondaryLabel" e).

(** A bar carries exactly one of the two bar classes, by the flag of its
    datum. *)
Definition bar_classed (e : Elem) : Prop :=
  exists d, datum e = Some d
            /\ has_class "primaryBar" e = flag (primary d)
            /\ has_class "secondaryBar" e = negb (flag (primary d)).

(** The invariant as a function to bool. *)
Fixpoint distinct (l : list nat) : bool :=
  match l with
  | [] => true
  | i :: r => negb (mem i r) && distinct r
  end.

Definition noneb (P : Elem -> bool) (l : list Elem) : bool :=
  forallb (fun e => negb (P e)) l.

Definition chart_invb (st : State) : bool :=
  distinct (ids (svg st))
  && forallb (fun i => i <? fresh st) (ids (svg st))
  && forallb (fun c => noneb is_bar (descendants c)) (children (svg st))
  && forallb (fun c => noneb is_label (descendants c)) (children (svg st))
  && noneb is_xdiv (descendants (svg st)).

(** The graphic after the component's initialisation, and a dataset of two
    of its seven data, used to instantiate the theorems below. *)
Definition first_view : State := redraw initial_data empty_svg.

Definition two_data : Data := firstn 2 initial_data.

(** Two data of the same name. *)
Definition twins : Data :=
  [ {| name := "A"; value := 1; primary := None |};
    {| name := "A"; value := 2; primary := None |} ].

(** One datum, of the binary64 number next above 0.0018. *)
Definition just_above : Data :=
  [ {| name := "A"; value := 8301034833169299 # 4611686018427387904;
       primary := None |} ].

(** Three data, of the values 1, 1 + 2^-52 and 81. *)
Definition close_pair : Data :=
  [ {| name := "A"; value := 1; primary := None |};
    {| name := "B"; value := 4503599627370497 # 4503599627370496;
       primary := None |};
    {| name := "C"; value := 81; primary := None |} ].

(** One datum, of the value 31 * 2^1019. *)
Definition huge : Data :=
  [ {| name := "A"; value := 31 * pow2 1019; primary := None |} ].

(** Two data, of the values 3 and -1. *)
Definition below_zero : Data :=
  [ {| name := "A"; value := 3; primary := None |};
    {| name := "B"; value := - (1); primary := None |} ].

(** Two data, of the values 1 and -10^20. *)
Definition far_below : Data :=
  [ {| name := "A"; value := 1; primary := None |};
    {| name := "B"; value := - 100000000000000000000; primary := None |} ].

(** The data of [ngAfterViewInit] with the flags taken away. *)
Definition unflagged : Data :=
  map (fun d => {| name := name d; value := value d; primary := None |})
      initial_data.

(** The box [setSizeAndPositionToRect] writes for a datum. *)
Definition box_of (data : Data) (d : Datum)
  : option AttrValue * option AttrValue * option AttrValue * option AttrValue :=
  (option_map (fun q => VNum (Fin q)) (d3.band_apply (xScale data) (name d)),
   Some (VNum (d3.lin_apply (yScale data) (value d))),
   Some (VNum (Fin (d3.bandwidth (xScale data)))),
   Some (VNum (height_of data d))).

Definition box_of_attrs (a : list (string * AttrValue))
  : option AttrValue * option AttrValue * option AttrValue * option AttrValue :=
  (assoc_get "x" a, assoc_get "y" a, assoc_get "width" a, assoc_get "height" a).

(** The labels of the graphic: children of the svg element. *)
Definition label_nodes (t : Node) : list Node :=
  filter (fun c => is_label (root_elem c)) (children t).

(** The axis groups of the graphic: children of the svg element. *)
Definition axis_groups (t : Node) : list Node :=
  filter (fun c => is_axis (root_elem c)) (children t).

(** The labels that stay: the datum bound, the box written, the children
    as they were. *)
Fixpoint rebound (data : Data) (cs : list Node) (ds : Data) : list Node :=
  match cs, ds with
  | c :: cs', d :: ds' =>
      N (geometry data d (with_datum (Some d) (root_elem c))) (children c)
      :: rebound data cs' ds'
  | _, _ => []
  end.

(** What a label shows: of every child the tag, the classes and the text. *)
Definition kids_view (c : Node) : list (string * list string * option Text) :=
  map (fun k => (tag (root_elem k), classes (root_elem k), text (root_elem k)))
      (children c).

Definition label_view (c : Node)
  : option Datum * list (string * list string * option Text) :=
  (datum (root_elem c), kids_view c).

(** The labels that stay, each with the datum of its index. *)
Fixpoint zip_views (cs : list Node) (ds : Data)
  : list (option Datum * list (string * list string * option Text)) :=
  match cs, ds with
  | c :: cs', d :: ds' => (Some d, kids_view c) :: zip_views cs' ds'
  | _, _ => []
  end.

(** A label made for a datum: one div with the text [`${value}pts`]. *)
Definition new_view (d : Datum)
  : option Datum * list (string * list string * option Text) :=
  (Some d,
   [("div",
     ["label"; if flag (primary d) then "primaryLabel" else "secondaryLabel"],
     Some (Pts (value d)))]).

(** An axis group, a bar or a label. *)
Definition chart_child (e : Elem) : bool :=
  if is_axis e then String.eqb (tag e) "g" else is_bar e || is_label e.

Definition only_chart (t : Node) : Prop :=
  Forall (fun c => chart_child (root_elem c) = true) (children t).

(** The invariant of the graphics the component shows. *)
Definition tidy (st : State) : Prop :=
  chart_inv st /\ top_level is_axis (svg st) /\ only_chart (svg st).

(** The texts of a list of elements, in order. *)
Definition texts (l : list Elem) : list Text :=
  flat_map (fun e => match text e with Some x => [x] | None => [] end) l.

(** What a group shows of an axis: its tag, classes and attributes, of
    every child the tag, the classes and the tags of its own children, and
    the texts within the group in document order. *)
Definition axis_view (g : Node)
  : string * list string * list (string * AttrValue)
    * list (string * list string * list string) * list Text :=
  (tag (root_elem g), classes (root_elem g), attrs (root_elem g),
   map (fun c => (tag (root_elem c), classes (root_elem c), child_tags c))
       (children g),
   texts (descendants g)).

(** What an axis group of the component shows once the axis is drawn: the
    class and the transform the component wrote, the attributes of the
    axis, the domain path, and for every tick a group with a line and a
    text. *)
Definition axis_shown (transform anchor : string) (labels : list Text)
  : string * list string * list (string * AttrValue)
    * list (string * list string * list string) * list Text :=
  ("g", ["axis"],
   [("transform", VStr transform); ("fill", VStr "none");
    ("font-size", VNum (Fin 10)); ("font-family", VStr "sans-serif");
    ("text-anchor", VStr anchor)],
   ("path", ["domain"], [])
   :: repeat ("g", ["tick"], ["line"; "text"]) (List.length labels),
   labels).

(** The dataset of the last call of a sequence. *)
Definition last_data (args : list (option Data)) : Data :=
  data_of (last args None).



(** The element of this identity is in the graphic and carries no datum. *)
Definition unbound (id : nat) (t : Node) : Prop :=
  exists e, find id t = Some e /\ datum e = None.

(** The data of [ngAfterViewInit] with every value doubled. *)
Definition doubled : Data :=
  map (fun d => {| name := name d; value := value d * 2; primary := primary d |})
      initial_data.

(** The selection of the svg element alone. *)
Definition svg_alone : d3.Selection :=
  {| d3.nodes := [Some 0]; d3.parent := None |}.

(* ================================================================== *)
(** ** Lemmas on the element tree *)

Arguments elemsF : simpl never.
Arguments descendants : simpl never.

Lemma has_id_true (id : nat) (e : Elem) : has_id id e = true <-> eid e = id.
Proof. unfold has_id. apply Nat.eqb_eq. Qed.

Lemma has_id_false (id : nat) (e : Elem) : has_id id e = false <-> eid e <> id.
Proof. unfold has_id. apply Nat.eqb_neq. Qed.

Lemma elemsF_app (a b : list Node) : elemsF (a ++ b) = elemsF a ++ elemsF b.
Proof. unfold elemsF. apply flat_map_app. Qed.

Lemma elemsF_cons (c : Node) (r : list Node) :
  elemsF (c :: r) = elems c ++ elemsF r.
Proof. reflexivity. Qed.

Lemma elems_eq (t : Node) : elems t = root_elem t :: descendants t.
Proof. destruct t; reflexivity. Qed.

(** *** [tmap] *)

Lemma elems_tmap (h : Elem -> Elem) (t : Node) :
  elems (tmap h t) = map h (elems t).
Proof.
  induction t as [e cs IH] using Node_ind. simpl. f_equal.
  induction IH as [|c r Hc _ IHr]; simpl; [reflexivity|].
  rewrite map_app, Hc, IHr. reflexivity.
Qed.

Lemma root_tmap (h : Elem -> Elem) (t : Node) :
  root_elem (tmap h t) = h (root_elem t).
Proof. destruct t; reflexivity. Qed.

Lemma children_tmap (h : Elem -> Elem) (t : Node) :
  children (tmap h t) = map (tmap h) (children t).
Proof. destruct t; reflexivity. Qed.

Lemma elemsF_tmap (h : Elem -> Elem) (f : list Node) :
  elemsF (map (tmap h) f) = map h (elemsF f).
Proof.
  induction f as [|c r IH]; simpl; [reflexivity|].
  rewrite !elemsF_cons, map_app, elems_tmap, IH. reflexivity.
Qed.

Lemma descendants_tmap (h : Elem -> Elem) (t : Node) :
  descendants (tmap h t) = map h (descendants t).
Proof. unfold descendants. rewrite children_tmap. apply elemsF_tmap. Qed.

Lemma tmap_ext_in (h h' : Elem -> Elem) (t : Node) :
  (forall e, In e (elems t) -> h e = h' e) -> tmap h t = tmap h' t.
Proof.
  induction t as [e cs IH] using Node_ind. intros Hext. simpl.
  rewrite (Hext e) by (left; reflexivity). f_equal.
  assert (Hin : forall c, In c cs -> forall x, In x (elems c) -> h x = h' x).
  { intros c Hc x Hx. apply Hext. right. apply in_flat_map. eauto. }
  clear Hext. induction IH as [|c r Hc _ IHr]; simpl; [reflexivity|].
  rewrite Hc, IHr; auto.
  - intros c' Hc'. apply Hin. right. assumption.
  - apply Hin. left. reflexivity.
Qed.

Lemma tmap_id_in (h : Elem -> Elem) (t : Node) :
  (forall e, In e (elems t) -> h e = e) -> tmap h t = t.
Proof.
  induction t as [e cs IH] using Node_ind. intros Hext. simpl.
  rewrite (Hext e) by (left; reflexivity). f_equal.
  assert (Hin : forall c, In c cs -> forall x, In x (elems c) -> h x = x).
  { intros c Hc x Hx. apply Hext. right. apply in_flat_map. eauto. }
  clear Hext. induction IH as [|c r Hc _ IHr]; simpl; [reflexivity|].
  rewrite Hc, IHr; auto.
  - intros c' Hc'. apply Hin. right. assumption.
  - apply Hin. left. reflexivity.
Qed.

Lemma tmap_tmap (h h' : Elem -> Elem) (t : Node) :
  tmap h' (tmap h t) = tmap (fun e => h' (h e)) t.
Proof.
  induction t as [e cs IH] using Node_ind. simpl. f_equal.
  rewrite map_map. induction IH as [|c r Hc _ IHr]; simpl; [reflexivity|].
  rewrite Hc, IHr. reflexivity.
Qed.

(** *** [prune] *)

Lemma root_prune (keep : Elem -> bool) (t : Node) :
  root_elem (prune keep t) = root_elem t.
Proof. destruct t; reflexivity. Qed.

Lemma prune_prune (k1 k2 : Elem -> bool) (t : Node) :
  prune k2 (prune k1 t) = prune (fun e => k1 e && k2 e) t.
Proof.
  induction t as [e cs IH] using Node_ind. simpl. f_equal.
  induction IH as [|c r Hc _ IHr]; simpl; [reflexivity|].
  rewrite !root_prune.
  destruct (k1 (root_elem c)) eqn:E1; simpl.
  - rewrite !root_prune, Hc, IHr. destruct (k2 (root_elem c)); reflexivity.
  - apply IHr.
Qed.

Lemma prune_id_in (keep : Elem -> bool) (t : Node) :
  (forall e, In e (descendants t) -> keep e = true) -> prune keep t = t.
Proof.
  induction t as [e cs IH] using Node_ind. intros Hk. simpl. f_equal.
  unfold descendants in Hk. simpl in Hk.
  induction IH as [|c r Hc _ IHr]; simpl; [reflexivity|].
  rewrite root_prune.
  rewrite (Hk (root_elem c)).
  2:{ rewrite elemsF_cons, elems_eq. left. reflexivity. }
  rewrite Hc, IHr; auto.
  - intros x Hx. apply Hk. rewrite elemsF_cons. apply in_or_app. right. assumption.
  - intros x Hx. apply Hk. rewrite elemsF_cons, elems_eq. right.
    apply in_or_app. left. assumption.
Qed.

Lemma prune_ext_in (k k' : Elem -> bool) (t : Node) :
  (forall e, In e (descendants t) -> k e = k' e) -> prune k t = prune k' t.
Proof.
  induction t as [e cs IH] using Node_ind. intros Hk. simpl. f_equal.
  unfold descendants in Hk. simpl in Hk.
  induction IH as [|c r Hc _ IHr]; simpl; [reflexivity|].
  rewrite !root_prune.
  rewrite (Hk (root_elem c)).
  2:{ rewrite elemsF_cons, elems_eq. left. reflexivity. }
  rewrite Hc, IHr; auto.
  - intros x Hx. apply Hk. rewrite elemsF_cons. apply in_or_app. right. assumption.
  - intros x Hx. apply Hk. rewrite elemsF_cons, elems_eq. right.
    apply in_or_app. left. assumption.
Qed.

(** What survives pruning was there before. *)
Lemma descendants_prune_incl (keep : Elem -> bool) (t : Node) :
  forall e, In e (descendants (prune keep t)) -> In e (descendants t).
Proof.
  induction t as [r cs IH] using Node_ind. unfold descendants. simpl.
  induction IH as [|c rest Hc _ IHr]; simpl; [tauto|].
  intros e. rewrite root_prune.
  destruct (keep (root_elem c)); simpl; rewrite ?elemsF_cons.
  - rewrite !in_app_iff, (elems_eq (prune keep c)), (elems_eq c), root_prune.
    simpl. intros [[H|H]|H]; auto.
  - rewrite in_app_iff. intros H. right. apply IHr; assumption.
Qed.

Lemma descendants_prune_keep (keep : Elem -> bool) (t : Node) :
  forall e, In e (descendants (prune keep t)) -> keep e = true.
Proof.
  induction t as [r cs IH] using Node_ind. unfold descendants. simpl.
  induction IH as [|c rest Hc _ IHr]; simpl; [tauto|].
  intros e. rewrite root_prune.
  destruct (keep (root_elem c)) eqn:E; simpl; rewrite ?elemsF_cons.
  - rewrite !in_app_iff, (elems_eq (prune keep c)), root_prune.
    simpl. intros [[H|H]|H]; subst; auto.
  - apply IHr.
Qed.

(** *** Identities *)

Lemma ids_tmap (h : Elem -> Elem) (t : Node) :
  (forall e, eid (h e) = eid e) -> ids (tmap h t) = ids t.
Proof.
  intros Hh. unfold ids. rewrite elems_tmap, map_map.
  apply map_ext. assumption.
Qed.

Lemma find_list_map (h : Elem -> Elem) (id : nat) (l : list Elem) :
  (forall e, eid (h e) = eid e) ->
  List.find (has_id id) (map h l) = option_map h (List.find (has_id id) l).
Proof.
  intros Hh. induction l as [|e r IH]; simpl; [reflexivity|].
  unfold has_id at 1. rewrite Hh. fold (has_id id e).
  destruct (has_id id e); [reflexivity|assumption].
Qed.

Lemma find_tmap (h : Elem -> Elem) (id : nat) (t : Node) :
  (forall e, eid (h e) = eid e) ->
  find id (tmap h t) = option_map h (find id t).
Proof.
  intros Hh. unfold find. rewrite elems_tmap. apply find_list_map; assumption.
Qed.

Lemma find_some_in (id : nat) (l : list Elem) (e : Elem) :
  List.find (has_id id) l = Some e -> In e l /\ eid e = id.
Proof.
  intros H. apply find_some in H. destruct H as [H1 H2].
  split; [assumption|]. apply has_id_true; assumption.
Qed.

Lemma find_unique (l : list Elem) (e : Elem) :
  NoDup (map eid l) -> In e l -> List.find (has_id (eid e)) l = Some e.
Proof.
  induction l as [|x r IH]; simpl; intros Hnd Hin; [contradiction|].
  inversion Hnd as [|? ? Hx Hr]; subst.
  destruct Hin as [->|Hin].
  - unfold has_id. rewrite Nat.eqb_refl. reflexivity.
  - destruct (has_id (eid e) x) eqn:E.
    + apply has_id_true in E. exfalso. apply Hx. rewrite E.
      apply in_map. assumption.
    + apply IH; assumption.
Qed.

Lemma find_none_notin (id : nat) (l : list Elem) :
  ~ In id (map eid l) -> List.find (has_id id) l = None.
Proof.
  induction l as [|x r IH]; simpl; intros Hn; [reflexivity|].
  destruct (has_id id x) eqn:E.
  - apply has_id_true in E. exfalso. apply Hn. left. assumption.
  - apply IH. intros H. apply Hn. right. assumption.
Qed.

Lemma find_none_iff (id : nat) (l : list Elem) :
  List.find (has_id id) l = None <-> ~ In id (map eid l).
Proof.
  split; [|apply find_none_notin].
  intros H Hin. apply in_map_iff in Hin. destruct Hin as [e [He Hin]].
  apply (find_none _ _ H) in Hin. apply has_id_false in Hin. contradiction.
Qed.

(** An operation addressed to an identity that is not in the tree leaves
    the tree as it is. *)
Lemma modify_absent (id : nat) (g : Elem -> Elem) (t : Node) :
  ~ In id (ids t) -> modify id g t = t.
Proof.
  intros Hn. unfold modify. apply tmap_id_in. intros e He.
  destruct (has_id id e) eqn:E; [|reflexivity].
  apply has_id_true in E. exfalso. apply Hn. rewrite <- E.
  unfold ids. apply in_map. assumption.
Qed.

Lemma removeNode_absent (id : nat) (t : Node) :
  ~ In id (ids t) -> removeNode id t = t.
Proof.
  intros Hn. unfold removeNode. apply prune_id_in. intros e He.
  destruct (has_id id e) eqn:E; [|reflexivity].
  apply has_id_true in E. exfalso. apply Hn. rewrite <- E.
  unfold ids. rewrite elems_eq. right. apply in_map. assumption.
Qed.

Lemma in_ids_child (c : Node) (cs : list Node) (e : Elem) (id : nat) :
  In c cs -> In id (ids c) -> In id (ids (N e cs)).
Proof.
  intros Hc Hid. unfold ids in *. simpl. right.
  apply in_map_iff in Hid. destruct Hid as [x [Hx Hin]].
  apply in_map_iff. exists x. split; [assumption|].
  apply in_flat_map. eauto.
Qed.

Lemma appendChild_absent (p : nat) (c t : Node) :
  ~ In p (ids t) -> appendChild p c t = t.
Proof.
  induction t as [e cs IH] using Node_ind. intros Hn. simpl.
  destruct (has_id p e) eqn:E.
  - apply has_id_true in E. exfalso. apply Hn. left. assumption.
  - f_equal.
    assert (H : forall x, In x cs -> ~ In p (ids x)).
    { intros x Hx Hp. apply Hn. eapply in_ids_child; eauto. }
    clear Hn. induction IH as [|x r Hx _ IHr]; simpl; [reflexivity|].
    rewrite Hx, IHr; auto.
    + intros y Hy. apply H. right. assumption.
    + apply H. left. reflexivity.
Qed.

Lemma setTextContent_absent (id : nat) (x : Text) (t : Node) :
  ~ In id (ids t) -> setTextContent id x t = t.
Proof.
  induction t as [e cs IH] using Node_ind. intros Hn. simpl.
  destruct (has_id id e) eqn:E.
  - apply has_id_true in E. exfalso. apply Hn. left. assumption.
  - f_equal.
    assert (H : forall c, In c cs -> ~ In id (ids c)).
    { intros c Hc Hp. apply Hn. eapply in_ids_child; eauto. }
    clear Hn. induction IH as [|c r Hc _ IHr]; simpl; [reflexivity|].
    rewrite Hc, IHr; auto.
    + intros y Hy. apply H. right. assumption.
    + apply H. left. reflexivity.
Qed.

(** *** Selections as lists of identities *)

Lemma present_app {A} (a b : list (option A)) :
  present (a ++ b) = present a ++ present b.
Proof. unfold present. apply flat_map_app. Qed.

Lemma present_some {A} (l : list A) : present (map Some l) = l.
Proof. induction l as [|a r IH]; simpl; [reflexivity|]. f_equal. assumption. Qed.

Lemma present_none {A} (k : nat) : present (repeat (@None A) k) = [].
Proof. induction k; simpl; auto. Qed.

Lemma each_present (stp : nat -> Node -> option Node) (s : list (option nat))
  (t : Node) :
  d3.each stp s t = d3.each stp (map Some (present s)) t.
Proof.
  revert t. induction s as [|[id|] r IH]; intros t; simpl; [reflexivity| |apply IH].
  destruct (stp id t); [apply IH|reflexivity].
Qed.

Lemma mem_true (i : nat) (l : list nat) : mem i l = true <-> In i l.
Proof.
  unfold mem. rewrite existsb_exists. split.
  - intros [x [Hx E]]. apply Nat.eqb_eq in E. subst. assumption.
  - intros H. exists i. split; [assumption|apply Nat.eqb_refl].
Qed.

Lemma mem_false (i : nat) (l : list nat) : mem i l = false <-> ~ In i l.
Proof.
  rewrite <- mem_true. destruct (mem i l); split; intros H; congruence.
Qed.

Lemma stylish_on (I : list nat) (g : Datum -> Elem -> Elem) :
  (forall d, stylish (g d)) -> stylish (on I g).
Proof.
  intros Hg e. unfold on. destruct (mem (eid e) I); [|auto].
  destruct (datum e) as [d|] eqn:E; [|auto].
  destruct (Hg d e) as [H1 [H2 H3]]. rewrite H3. auto.
Qed.

Lemma bound_tmap (I : list nat) (h : Elem -> Elem) (t : Node) :
  stylish h -> bound I t -> bound I (tmap h t).
Proof.
  intros Hh Hb e He Hi. rewrite elems_tmap in He.
  apply in_map_iff in He. destruct He as [x [<- Hx]].
  destruct (Hh x) as [H1 [H2 H3]]. rewrite H3. apply Hb; [assumption|].
  rewrite <- H1. assumption.
Qed.

Lemma bound_cons (i : nat) (I : list nat) (t : Node) :
  bound (i :: I) t -> bound I t.
Proof. intros H e He Hi. apply H; [assumption|right; assumption]. Qed.

Lemma each_callback_modify (g : Datum -> Elem -> Elem) (I : list nat) :
  (forall d, stylish (g d)) -> NoDup I ->
  forall t, NoDup (ids t) -> bound I t ->
  d3.each (fun id => d3.callback (fun d => modify id (g d)) id) (map Some I) t
  = Some (tmap (on I g) t).
Proof.
  intros Hg. induction I as [|i r IH]; intros HI t Hnd Hb; simpl.
  - f_equal. symmetry. apply tmap_id_in. reflexivity.
  - inversion HI as [|? ? Hi Hr]; subst.
    unfold d3.callback at 1.
    destruct (find i t) as [e|] eqn:Ef.
    + apply find_some_in in Ef. destruct Ef as [Hin Heid].
      destruct (datum e) as [d|] eqn:Ed.
      2:{ exfalso. apply (Hb e Hin); [left; auto|assumption]. }
      assert (Hs : stylish (fun x => if has_id i x then g d x else x)).
      { intros x. destruct (has_id i x); [apply Hg|auto]. }
      unfold modify. rewrite IH; auto.
      * f_equal. rewrite tmap_tmap. apply tmap_ext_in. intros x Hx.
        unfold on. simpl. destruct (has_id i x) eqn:E.
        -- apply has_id_true in E.
           assert (x = e).
           { assert (F : List.find (has_id (eid x)) (elems t) = Some x)
               by (apply find_unique; assumption).
             assert (F' : List.find (has_id (eid e)) (elems t) = Some e)
               by (apply find_unique; assumption).
             rewrite E, <- Heid in F. congruence. }
           subst x. destruct (Hg d e) as [H1 [H2 H3]].
           rewrite H1, H3, Heid, Nat.eqb_refl, Ed. simpl.
           apply mem_false in Hi. fold (mem i r). rewrite Hi. reflexivity.
        -- apply has_id_false in E.
           destruct (Nat.eqb_spec (eid x) i); [contradiction|]. reflexivity.
      * rewrite ids_tmap; [assumption|]. intros x. apply Hs.
      * apply bound_tmap; [assumption|]. eapply bound_cons; eassumption.
    + apply find_none_iff in Ef. rewrite IH; auto.
      * f_equal. apply tmap_ext_in. intros x Hx. unfold on. simpl.
        destruct (Nat.eqb_spec (eid x) i) as [E|E]; [|reflexivity].
        exfalso. apply Ef. rewrite <- E. apply in_map. assumption.
      * eapply bound_cons; eassumption.
Qed.

Lemma each_modify (g : Elem -> Elem) (I : list nat) :
  (forall e, eid (g e) = eid e) -> NoDup I ->
  forall t,
  d3.each (fun id t => Some (modify id g t)) (map Some I) t
  = Some (tmap (fun e => if mem (eid e) I then g e else e) t).
Proof.
  intros Hg. induction I as [|i r IH]; intros HI t; simpl.
  - f_equal. symmetry. apply tmap_id_in. reflexivity.
  - inversion HI as [|? ? Hi Hr]; subst. rewrite IH; auto.
    f_equal. unfold modify. rewrite tmap_tmap. apply tmap_ext_in.
    intros x Hx. unfold has_id.
    destruct (Nat.eqb_spec (eid x) i) as [E|E]; simpl.
    + rewrite Hg, E. apply mem_false in Hi. fold (mem i r).
      rewrite Hi. reflexivity.
    + reflexivity.
Qed.

(** *** The pieces of the data join *)

Lemma join_update_present (R : list nat) (data : Data) :
  present (d3.join_update (map Some R) data) = firstn (List.length data) R.
Proof.
  revert R. induction data as [|d ds IH]; intros R; [reflexivity|].
  destruct R as [|r R]; simpl.
  - specialize (IH []). simpl in IH. rewrite IH. apply firstn_nil.
  - f_equal. apply IH.
Qed.

Lemma join_enter_present (R : list nat) (data : Data) :
  present (d3.join_enter (map Some R) data) = skipn (List.length R) data.
Proof.
  revert R. induction data as [|d ds IH]; intros R.
  - destruct R; reflexivity.
  - destruct R as [|r R]; simpl.
    + f_equal. apply (IH []).
    + apply IH.
Qed.

Lemma join_exit_present (R : list nat) (data : Data) :
  present (d3.join_exit (map Some R) data) = skipn (List.length data) R.
Proof.
  revert data. induction R as [|r R IH]; intros data.
  - destruct data; reflexivity.
  - destruct data as [|d ds]; simpl.
    + f_equal. apply (IH []).
    + apply IH.
Qed.

Lemma relabel_present (en : list (option Datum)) (f : nat) :
  present (relabel en f) = seq f (List.length (present en)).
Proof.
  revert f. induction en as [|[d|] r IH]; intros f; simpl; [reflexivity| |apply IH].
  f_equal. apply IH.
Qed.

Lemma merge_join (R : list nat) (data : Data) (f : nat) :
  present (d3.merge_nodes (d3.join_update (map Some R) data)
                          (relabel (d3.join_enter (map Some R) data) f))
  = firstn (List.length data) R
    ++ seq f (List.length data - List.length R).
Proof.
  revert R f. induction data as [|d ds IH]; intros R f; [reflexivity|].
  destruct R as [|r R]; simpl.
  - f_equal. specialize (IH [] (S f)). simpl in IH. rewrite IH.
    rewrite firstn_nil, Nat.sub_0_r. reflexivity.
  - f_equal. apply IH.
Qed.

Lemma bind_some {A B} (m : M A) (k : A -> M B) (st st' : State) (a : A) :
  m st = Some (a, st') -> (m >>= k) st = k a st'.
Proof. intros H. unfold bind. rewrite H. reflexivity. Qed.

Lemma append_to_root (nm : string) (en : list (option Datum)) :
  forall (r : Elem) (cs : list Node) (f : nat),
  d3.append_to nm (eid r) en {| svg := N r cs; fresh := f |}
  = Some (relabel en f,
          {| svg := N r (cs ++ created nm f (present en));
             fresh := f + List.length (present en) |}).
Proof.
  induction en as [|[d|] rest IH]; intros r cs f; simpl.
  - unfold ret. rewrite app_nil_r, Nat.add_0_r. reflexivity.
  - unfold bind at 1. unfold d3.new_id at 1. cbn [svg fresh].
    unfold bind at 1. unfold d3.on_tree at 1. cbn [svg fresh appendChild].
    unfold has_id. rewrite Nat.eqb_refl.
    unfold bind at 1. rewrite IH. unfold ret.
    rewrite <- app_assoc. simpl. rewrite Nat.add_succ_r. reflexivity.
  - unfold bind at 1. rewrite IH. reflexivity.
Qed.

Lemma assoc_nat_none (i : nat) (al : list (nat * Datum)) :
  ~ In i (map fst al) -> assoc_nat i al = None.
Proof.
  induction al as [|[j d] r IH]; simpl; intros H; [reflexivity|].
  destruct (Nat.eqb_spec i j) as [E|E].
  - exfalso. apply H. left. auto.
  - apply IH. intros Hin. apply H. right. assumption.
Qed.

Lemma in_combine_fst (R : list nat) (data : Data) (i : nat) :
  In i (map fst (combine R data)) -> In i R.
Proof.
  revert data. induction R as [|r R IH]; intros [|d ds]; simpl; try tauto.
  intros [H|H]; [left; assumption|right; eapply IH; eassumption].
Qed.

Lemma bindf_eid (al : list (nat * Datum)) (e : Elem) : eid (bindf al e) = eid e.
Proof. unfold bindf. destruct (assoc_nat (eid e) al); reflexivity. Qed.

Lemma bindf_tag (al : list (nat * Datum)) (e : Elem) : tag (bindf al e) = tag e.
Proof. unfold bindf. destruct (assoc_nat (eid e) al); reflexivity. Qed.

Lemma bind_data_tmap (R : list nat) :
  NoDup R -> forall (data : Data) (t : Node),
  d3.bind_data (map Some R) data t = tmap (bindf (combine R data)) t.
Proof.
  induction R as [|r R IH]; intros Hnd data t; simpl.
  - symmetry. apply tmap_id_in. reflexivity.
  - inversion Hnd as [|? ? Hr HR]; subst.
    destruct data as [|d ds]; simpl.
    + symmetry. apply tmap_id_in. reflexivity.
    + rewrite IH by assumption. unfold modify. rewrite tmap_tmap.
      apply tmap_ext_in. intros e He. unfold bindf at 2. simpl.
      unfold has_id. destruct (Nat.eqb_spec (eid e) r) as [E|E].
      * unfold bindf. simpl. rewrite assoc_nat_none; [reflexivity|].
        rewrite E. intros Hin. apply Hr. eapply in_combine_fst; eassumption.
      * reflexivity.
Qed.

(** *** Removing a selection *)

Lemma each_remove (I : list nat) (t : Node) :
  d3.each (fun id t => Some (removeNode id t)) (map Some I) t
  = Some (prune (outside I) t).
Proof.
  revert t. induction I as [|i r IH]; intros t; simpl.
  - f_equal. symmetry. apply prune_id_in. reflexivity.
  - rewrite IH. f_equal. unfold removeNode. rewrite prune_prune.
    apply prune_ext_in. intros e _. unfold outside, has_id. simpl.
    rewrite negb_orb. reflexivity.
Qed.

Lemma remove_spec (s : d3.Selection) (st : State) :
  d3.remove s st
  = Some (tt, {| svg := prune (outside (present (d3.nodes s))) (svg st);
                 fresh := fresh st |}).
Proof.
  unfold d3.remove, bind, d3.for_each.
  rewrite each_present, each_remove. reflexivity.
Qed.

(** *** Where the elements of one kind sit *)

Lemma nowhere_filter (P : Elem -> bool) (l : list Elem) :
  nowhere P l -> filter P l = [].
Proof.
  induction 1 as [|e r He _ IH]; simpl; [reflexivity|]. rewrite He. assumption.
Qed.

Lemma nowhere_app (P : Elem -> bool) (a b : list Elem) :
  nowhere P (a ++ b) <-> nowhere P a /\ nowhere P b.
Proof. apply Forall_app. Qed.

Lemma nowhere_incl (P : Elem -> bool) (a b : list Elem) :
  (forall e, In e a -> In e b) -> nowhere P b -> nowhere P a.
Proof.
  unfold nowhere. rewrite !Forall_forall. intros Hi Hb e He. auto.
Qed.

Lemma nowhere_map (P : Elem -> bool) (h : Elem -> Elem) (l : list Elem) :
  (forall e, P (h e) = P e) -> nowhere P l -> nowhere P (map h l).
Proof.
  intros Hh. unfold nowhere. rewrite !Forall_forall. intros Hl e He.
  apply in_map_iff in He. destruct He as [x [<- Hx]]. rewrite Hh. auto.
Qed.

Lemma filter_map_comm (P : Elem -> bool) (h : Elem -> Elem) (l : list Elem) :
  (forall e, P (h e) = P e) -> filter P (map h l) = map h (filter P l).
Proof.
  intros Hh. induction l as [|e r IH]; simpl; [reflexivity|].
  rewrite Hh. destruct (P e); simpl; rewrite IH; reflexivity.
Qed.

Lemma filter_descendants_prune (P keep : Elem -> bool) (t : Node) :
  top_level P t ->
  filter P (descendants (prune keep t))
  = filter keep (filter P (descendants t)).
Proof.
  destruct t as [r cs]. unfold top_level, descendants. simpl.
  induction 1 as [|c rest Hc _ IH]; simpl; [reflexivity|].
  rewrite root_prune, (elemsF_cons c), (elems_eq c), !filter_app.
  simpl. change (nowhere P (descendants c)) in Hc.
  rewrite (nowhere_filter Hc).
  destruct (keep (root_elem c)) eqn:Ek.
  - rewrite elemsF_cons, elems_eq, root_prune. simpl. rewrite filter_app.
    rewrite (nowhere_filter (P := P) (l := descendants (prune keep c))).
    2:{ eapply nowhere_incl; [|exact Hc]. apply descendants_prune_incl. }
    destruct (P (root_elem c)); simpl; rewrite ?Ek, IH; reflexivity.
  - destruct (P (root_elem c)); simpl; rewrite ?Ek, IH; reflexivity.
Qed.

Lemma top_level_prune (P keep : Elem -> bool) (t : Node) :
  top_level P t -> top_level P (prune keep t).
Proof.
  destruct t as [r cs]. unfold top_level. simpl.
  induction 1 as [|c rest Hc _ IH]; simpl; [constructor|].
  rewrite root_prune. destruct (keep (root_elem c)); [|assumption].
  constructor; [|assumption].
  eapply nowhere_incl; [|exact Hc]. apply descendants_prune_incl.
Qed.

Lemma top_level_tmap (P : Elem -> bool) (h : Elem -> Elem) (t : Node) :
  (forall e, P (h e) = P e) -> top_level P t -> top_level P (tmap h t).
Proof.
  intros Hh. destruct t as [r cs]. unfold top_level. simpl.
  induction 1 as [|c rest Hc _ IH]; simpl; constructor; [|assumption].
  rewrite descendants_tmap. apply nowhere_map; assumption.
Qed.

Lemma top_level_app (P : Elem -> bool) (r : Elem) (cs news : list Node) :
  top_level P (N r cs) ->
  Forall (fun c => nowhere P (descendants c)) news ->
  top_level P (N r (cs ++ news)).
Proof. unfold top_level. simpl. intros. apply Forall_app. auto. Qed.

(** *** Reading the selections of the component *)

Lemma subtree_root (t : Node) : subtree (eid (root_elem t)) t = Some t.
Proof. destruct t as [r cs]. simpl. unfold has_id. rewrite Nat.eqb_refl. reflexivity. Qed.

Lemma svgSelectAll_spec (sel : string) (st : State) :
  svgSelectAll sel st
  = Some ({| d3.nodes := map Some (map eid (selected sel (svg st)));
             d3.parent := Some (eid (root_elem (svg st))) |}, st).
Proof.
  unfold svgSelectAll, svgRootElement, bind, d3.select_svg, d3.selectAll.
  cbn [d3.nodes]. rewrite subtree_root. rewrite map_map. reflexivity.
Qed.

Lemma selected_ids_in (sel : string) (t : Node) (i : nat) :
  In i (map eid (selected sel t)) -> In i (map eid (descendants t)).
Proof.
  unfold selected, querySelectorAll. rewrite !in_map_iff.
  intros [e [He Hin]]. apply filter_In in Hin. exists e. tauto.
Qed.

Lemma NoDup_map_filter (P : Elem -> bool) (l : list Elem) :
  NoDup (map eid l) -> NoDup (map eid (filter P l)).
Proof.
  induction l as [|e r IH]; simpl; intros H; [constructor|].
  inversion H as [|? ? Hx Hr]; subst.
  destruct (P e); simpl; [constructor|]; auto.
  intros Hin. apply Hx. apply in_map_iff in Hin.
  destruct Hin as [x [Hx' Hin]]. apply filter_In in Hin.
  apply in_map_iff. exists x. tauto.
Qed.

Lemma ids_eq (t : Node) : ids t = eid (root_elem t) :: map eid (descendants t).
Proof. unfold ids. rewrite elems_eq. reflexivity. Qed.

Lemma selected_nodup (sel : string) (t : Node) :
  NoDup (ids t) -> NoDup (map eid (selected sel t)).
Proof.
  rewrite ids_eq. intros H. inversion H; subst.
  apply NoDup_map_filter. assumption.
Qed.

(** *** Style functions *)

Lemma stylish_setAttribute (k : string) (v : AttrValue) : stylish (setAttribute k v).
Proof.
  intros e. unfold setAttribute. destruct v; [auto|].
  destruct (String.eqb k "class"); auto.
Qed.

Lemma stylish_removeAttribute (k : string) : stylish (removeAttribute k).
Proof. intros e. unfold removeAttribute. destruct (String.eqb k "class"); auto. Qed.

Lemma stylish_classList_add (c : string) : stylish (classList_add c).
Proof. intros e. unfold classList_add. destruct (has_class c e); auto. Qed.

Lemma stylish_classList_remove (c : string) : stylish (classList_remove c).
Proof. intros e. unfold classList_remove. auto. Qed.

Lemma stylish_comp (g h : Elem -> Elem) :
  stylish g -> stylish h -> stylish (fun e => g (h e)).
Proof.
  intros Hg Hh e. destruct (Hg (h e)) as [A [B C]].
  destruct (Hh e) as [A' [B' C']]. rewrite A, B, C. auto.
Qed.

Lemma stylish_if (b : bool) (g h : Elem -> Elem) :
  stylish g -> stylish h -> stylish (if b then g else h).
Proof. destruct b; auto. Qed.

Lemma stylish_eid (h : Elem -> Elem) : stylish h -> forall e, eid (h e) = eid e.
Proof. intros H e. apply H. Qed.

Lemma stylish_tag (h : Elem -> Elem) : stylish h -> forall e, tag (h e) = tag e.
Proof. intros H e. apply H. Qed.

Lemma stylish_datum (h : Elem -> Elem) :
  stylish h -> forall e, datum (h e) = datum e.
Proof. intros H e. apply H. Qed.

(** *** The selection operations as passes over the tree *)

Section Passes.
Variable s : d3.Selection.
Variable st : State.
Let I := present (d3.nodes s).
Hypothesis HI : NoDup I.
Hypothesis Hnd : NoDup (ids (svg st)).

Lemma for_each_callback (g : Datum -> Elem -> Elem) :
  (forall d, stylish (g d)) -> bound I (svg st) ->
  d3.for_each (fun id => d3.callback (fun d => modify id (g d)) id) s st
  = Some (s, {| svg := tmap (on I g) (svg st); fresh := fresh st |}).
Proof.
  intros Hg Hb. unfold d3.for_each.
  rewrite each_present, each_callback_modify; auto.
Qed.

Lemma attr_fn_spec (k : string) (f : Datum -> option AttrValue) :
  bound I (svg st) ->
  d3.attr_fn k f s st
  = Some (s, {| svg := tmap (on I (fun d =>
                    match f d with
                    | Some v => setAttribute k v
                    | None => removeAttribute k
                    end)) (svg st);
                fresh := fresh st |}).
Proof.
  intros Hb. unfold d3.attr_fn. apply for_each_callback; [|assumption].
  intros d. destruct (f d);
    [apply stylish_setAttribute|apply stylish_removeAttribute].
Qed.

Lemma classed_fn_spec (c : string) (f : Datum -> bool) :
  bound I (svg st) ->
  d3.classed_fn c f s st
  = Some (s, {| svg := tmap (on I (fun d =>
                    if f d then classList_add c else classList_remove c))
                  (svg st);
                fresh := fresh st |}).
Proof.
  intros Hb. unfold d3.classed_fn. apply for_each_callback; [|assumption].
  intros d. apply stylish_if;
    [apply stylish_classList_add|apply stylish_classList_remove].
Qed.

Lemma for_each_modify (g : Elem -> Elem) :
  (forall e, eid (g e) = eid e) ->
  d3.for_each (fun id t => Some (modify id g t)) s st
  = Some (s, {| svg := tmap (fun e => if mem (eid e) I then g e else e)
                            (svg st);
                fresh := fresh st |}).
Proof.
  intros Hg. unfold d3.for_each. rewrite each_present, each_modify; auto.
Qed.

Lemma attr_spec (k : string) (v : AttrValue) :
  d3.attr k v s st
  = Some (s, {| svg := tmap (fun e => if mem (eid e) I
                                      then setAttribute k v e else e)
                            (svg st);
                fresh := fresh st |}).
Proof.
  unfold d3.attr. apply for_each_modify.
  apply stylish_eid, stylish_setAttribute.
Qed.

Lemma classed_spec (c : string) (b : bool) :
  d3.classed c b s st
  = Some (s, {| svg := tmap (fun e => if mem (eid e) I
                                      then (if b then classList_add c
                                            else classList_remove c) e
                                      else e)
                            (svg st);
                fresh := fresh st |}).
Proof.
  unfold d3.classed. apply for_each_modify.
  apply stylish_eid, stylish_if;
    [apply stylish_classList_add|apply stylish_classList_remove].
Qed.
End Passes.

(** *** [setSizeAndPositionToRect] as one pass *)

Lemma stylish_set_x (data : Data) (d : Datum) : stylish (set_x data d).
Proof.
  unfold set_x. destruct (option_map _ _);
    [apply stylish_setAttribute|apply stylish_removeAttribute].
Qed.

Lemma stylish_geometry (data : Data) (d : Datum) : stylish (geometry data d).
Proof.
  unfold geometry.
  repeat (apply (stylish_comp (stylish_setAttribute _ _))).
  apply stylish_set_x.
Qed.

Lemma on_hit (I : list nat) (g : Datum -> Elem -> Elem) (e : Elem) (d : Datum) :
  mem (eid e) I = true -> datum e = Some d -> on I g e = g d e.
Proof. intros Hm Hd. unfold on. rewrite Hm, Hd. reflexivity. Qed.

Lemma on_miss (I : list nat) (g : Datum -> Elem -> Elem) (e : Elem) :
  mem (eid e) I = false -> on I g e = e.
Proof. intros Hm. unfold on. rewrite Hm. reflexivity. Qed.

Lemma setSize_spec (s : d3.Selection) (data : Data) (st : State) :
  NoDup (present (d3.nodes s)) -> NoDup (ids (svg st)) ->
  bound (present (d3.nodes s)) (svg st) ->
  setSizeAndPositionToRect s (Some data) st
  = Some (s, {| svg := tmap (on (present (d3.nodes s)) (geometry data)) (svg st);
                fresh := fresh st |}).
Proof.
  intros HI Hnd Hb. unfold setSizeAndPositionToRect.
  set (I := present (d3.nodes s)) in *.
  unfold bind at 1. unfold ret at 1.
  unfold bind at 1. unfold bind at 1. unfold bind at 1. unfold bind at 1.
  unfold ret at 1.
  rewrite attr_fn_spec by assumption. cbn [svg fresh]. fold I.
  set (g1 := fun d => match option_map (fun q => VNum (Fin q))
                          (d3.band_apply (xScale data) (name d)) with
                      | Some v => setAttribute "x" v
                      | None => removeAttribute "x" end).
  assert (G1 : forall d, stylish (g1 d)) by (intros d; apply stylish_set_x).
  assert (S1 : stylish (on I g1)) by (apply stylish_on; assumption).
  rewrite attr_fn_spec; cbn [svg fresh].
  2: assumption.
  2:{ rewrite ids_tmap; [assumption|apply stylish_eid, S1]. }
  2:{ apply bound_tmap; assumption. }
  fold I.
  set (g2 := fun d => match Some (VNum (d3.lin_apply (yScale data) (value d))) with
                      | Some v => setAttribute "y" v
                      | None => removeAttribute "y" end).
  assert (G2 : forall d, stylish (g2 d)) by (intros d; apply stylish_setAttribute).
  assert (S2 : stylish (on I g2)) by (apply stylish_on; assumption).
  rewrite attr_spec by assumption. cbn [svg fresh]. fold I.
  set (g3 := fun e => if mem (eid e) I
                      then setAttribute "width"
                             (VNum (Fin (d3.bandwidth (xScale data)))) e
                      else e).
  assert (S3 : stylish g3).
  { intros e. unfold g3. destruct (mem _ _); [apply stylish_setAttribute|auto]. }
  rewrite attr_fn_spec; cbn [svg fresh].
  2: assumption.
  2:{ rewrite !ids_tmap; [assumption|apply stylish_eid..]; assumption. }
  2:{ repeat apply bound_tmap; assumption. }
  fold I. do 2 f_equal. f_equal.
  rewrite !tmap_tmap. apply tmap_ext_in. intros e He.
  destruct (mem (eid e) I) eqn:Em.
  - destruct (datum e) as [d|] eqn:Ed.
    2:{ exfalso. apply (Hb e He); [apply mem_true; assumption|assumption]. }
    rewrite (on_hit _ g1 _ Em Ed).
    rewrite (on_hit _ g2 _ (d := d)).
    2:{ rewrite (stylish_eid (G1 d)). assumption. }
    2:{ rewrite (stylish_datum (G1 d)). assumption. }
    unfold g3 at 1. rewrite (stylish_eid (G2 d)), (stylish_eid (G1 d)), Em.
    rewrite (on_hit _ _ _ (d := d)).
    2:{ rewrite (stylish_eid (stylish_setAttribute _ _)),
                (stylish_eid (G2 d)), (stylish_eid (G1 d)). assumption. }
    2:{ rewrite (stylish_datum (stylish_setAttribute _ _)),
                (stylish_datum (G2 d)), (stylish_datum (G1 d)). assumption. }
    rewrite (on_hit _ _ _ Em Ed). reflexivity.
  - rewrite (on_miss _ g1 _ Em). rewrite (on_miss _ g2 _ Em).
    unfold g3. rewrite Em. rewrite !(on_miss _ _ _ Em). reflexivity.
Qed.

(** *** More on the join *)

Lemma merge_enter_update (R : list nat) (data : Data) (f : nat) :
  present (d3.merge_nodes (relabel (d3.join_enter (map Some R) data) f)
                          (d3.join_update (map Some R) data))
  = firstn (List.length data) R
    ++ seq f (List.length data - List.length R).
Proof.
  revert R f. induction data as [|d ds IH]; intros R f; [reflexivity|].
  destruct R as [|r R]; simpl.
  - f_equal. specialize (IH [] (S f)). simpl in IH. rewrite IH.
    rewrite firstn_nil, Nat.sub_0_r. reflexivity.
  - f_equal. apply IH.
Qed.

Lemma in_firstn {A} (n : nat) (l : list A) (x : A) :
  In x (firstn n l) -> In x l.
Proof.
  intros H. rewrite <- (firstn_skipn n l). apply in_or_app. left. assumption.
Qed.

Lemma in_skipn {A} (n : nat) (l : list A) (x : A) :
  In x (skipn n l) -> In x l.
Proof.
  intros H. rewrite <- (firstn_skipn n l). apply in_or_app. right. assumption.
Qed.

Lemma on_on (I : list nat) (g1 g2 : Datum -> Elem -> Elem) (t : Node) :
  (forall d, stylish (g1 d)) ->
  tmap (on I g2) (tmap (on I g1) t) = tmap (on I (fun d e => g2 d (g1 d e))) t.
Proof.
  intros G1. rewrite tmap_tmap. apply tmap_ext_in. intros e _.
  destruct (mem (eid e) I) eqn:Em.
  - destruct (datum e) as [d|] eqn:Ed.
    + rewrite (on_hit _ g1 _ Em Ed), (on_hit _ _ _ Em Ed).
      apply on_hit.
      * rewrite (stylish_eid (G1 d)). assumption.
      * rewrite (stylish_datum (G1 d)). assumption.
    + unfold on. rewrite Em, Ed, Em, Ed. reflexivity.
  - rewrite !(on_miss _ _ _ Em). reflexivity.
Qed.

Lemma node_data_present (s : list (option nat)) (t : Node) :
  d3.node_data s t = d3.node_data (map Some (present s)) t.
Proof.
  induction s as [|[i|] r IH]; simpl; [reflexivity| |assumption].
  rewrite IH. reflexivity.
Qed.

Lemma node_data_spec (t : Node) :
  NoDup (ids t) ->
  forall (es : list Elem) (ds : Data),
  Forall (fun e => In e (elems t)) es ->
  map datum es = map Some ds ->
  d3.node_data (map Some (map eid es)) t = Some ds.
Proof.
  intros Hnd es. induction es as [|e r IH]; intros ds Hin Hd.
  - destruct ds; [reflexivity|discriminate].
  - destruct ds as [|d ds]; [discriminate|]. simpl in Hd.
    injection Hd as Hd1 Hd2. inversion Hin as [|? ? He Hr]; subst.
    simpl. unfold find. rewrite (find_unique _ _ Hnd He), Hd1.
    rewrite (IH ds); auto.
Qed.

Lemma assoc_nat_combine_head (R : list nat) (data : Data) (i : nat) :
  In i (firstn (List.length data) R) -> assoc_nat i (combine R data) <> None.
Proof.
  revert data. induction R as [|r R IH]; intros [|d ds]; simpl; try tauto.
  intros [H|H].
  - subst. rewrite Nat.eqb_refl. discriminate.
  - destruct (Nat.eqb i r); [discriminate|]. apply IH. assumption.
Qed.

Lemma bindf_data (es : list Elem) :
  NoDup (map eid es) -> forall data : Data,
  map (fun e => datum (bindf (combine (map eid es) data) e))
      (firstn (List.length data) es)
  = map Some (firstn (List.length es) data).
Proof.
  induction es as [|e r IH]; intros Hnd data.
  - rewrite firstn_nil. reflexivity.
  - inversion Hnd as [|? ? He Hr]; subst.
    destruct data as [|d ds]; [reflexivity|]. simpl.
    unfold bindf at 1. simpl. rewrite Nat.eqb_refl. simpl. f_equal.
    rewrite <- IH by assumption. apply map_ext_in. intros x Hx.
    unfold bindf. simpl.
    destruct (Nat.eqb_spec (eid x) (eid e)) as [E|E]; [|reflexivity].
    exfalso. apply He. rewrite <- E. apply in_map.
    eapply in_firstn; eassumption.
Qed.

Lemma created_elems (nm : string) (f : nat) (ds : Data) :
  elemsF (created nm f ds) = map root_elem (created nm f ds).
Proof.
  revert f. induction ds as [|d r IH]; intros f; [reflexivity|].
  simpl. rewrite elemsF_cons, IH. reflexivity.
Qed.

Lemma created_ids (nm : string) (f : nat) (ds : Data) :
  map eid (map root_elem (created nm f ds)) = seq f (List.length ds).
Proof.
  revert f. induction ds as [|d r IH]; intros f; [reflexivity|].
  simpl. f_equal. apply IH.
Qed.

Lemma created_data (nm : string) (f : nat) (ds : Data) :
  map datum (map root_elem (created nm f ds)) = map Some ds.
Proof.
  revert f. induction ds as [|d r IH]; intros f; [reflexivity|].
  simpl. f_equal. apply IH.
Qed.

Lemma created_tag (nm : string) (f : nat) (ds : Data) :
  Forall (fun e => tag e = d3.local_name nm) (map root_elem (created nm f ds)).
Proof.
  revert f. induction ds as [|d r IH]; intros f; simpl; constructor; auto.
Qed.

(** *** Well-formed graphics *)

Lemma wf_root_not_selected (sel : string) (st : State) :
  wf st -> ~ In (eid (root_elem (svg st))) (map eid (selected sel (svg st))).
Proof.
  intros [Hnd _] Hin. rewrite ids_eq in Hnd. inversion Hnd as [|? ? Hr _]; subst.
  apply Hr. eapply selected_ids_in; eassumption.
Qed.

Lemma wf_selected_lt (sel : string) (st : State) (i : nat) :
  wf st -> In i (map eid (selected sel (svg st))) -> i < fresh st.
Proof.
  intros [_ Hf] Hin. rewrite Forall_forall in Hf. apply Hf.
  rewrite ids_eq. right. eapply selected_ids_in; eassumption.
Qed.

Lemma bindf_absent (al : list (nat * Datum)) (e : Elem) :
  ~ In (eid e) (map fst al) -> bindf al e = e.
Proof. intros H. unfold bindf. rewrite assoc_nat_none; auto. Qed.

Lemma stylish_bar_class (d : Datum) : stylish (bar_class d).
Proof.
  unfold bar_class. apply stylish_comp; apply stylish_if;
    auto using stylish_classList_add, stylish_classList_remove.
Qed.

Lemma stylish_bar_style (data : Data) (d : Datum) : stylish (bar_style data d).
Proof.
  unfold bar_style. apply stylish_comp;
    [apply stylish_bar_class|apply stylish_geometry].
Qed.

Lemma join_spec (sel : string) (data : Data) (st : State) :
  wf st ->
  (svgSelectAll sel >>= d3.data data) st
  = Some ({| d3.update :=
               {| d3.nodes := d3.join_update
                    (map Some (map eid (selected sel (svg st)))) data;
                  d3.parent := Some (eid (root_elem (svg st))) |};
             d3.enter_data := d3.join_enter
                    (map Some (map eid (selected sel (svg st)))) data;
             d3.exit_nodes := d3.join_exit
                    (map Some (map eid (selected sel (svg st)))) data |},
          {| svg := N (root_elem (svg st))
                      (map (tmap (bindf (combine (map eid (selected sel (svg st)))
                                                 data)))
                           (children (svg st)));
             fresh := fresh st |}).
Proof.
  intros Hwf. erewrite bind_some by apply svgSelectAll_spec.
  unfold d3.data. cbn [d3.nodes d3.parent]. do 3 f_equal.
  rewrite bind_data_tmap by (apply selected_nodup, Hwf).
  destruct (svg st) as [r cs] eqn:Et. simpl. f_equal.
  apply bindf_absent. intros Hin. apply in_combine_fst in Hin.
  apply (wf_root_not_selected sel Hwf). rewrite Et. assumption.
Qed.

Lemma enter_append_spec (sel nm : string) (data : Data) (st : State) :
  let R := map eid (selected sel (svg st)) in
  d3.enter_append nm (d3.join_enter (map Some R) data,
                      Some (eid (root_elem (svg st))))
    {| svg := N (root_elem (svg st))
                (map (tmap (bindf (combine R data))) (children (svg st)));
       fresh := fresh st |}
  = Some ({| d3.nodes := relabel (d3.join_enter (map Some R) data) (fresh st);
             d3.parent := Some (eid (root_elem (svg st))) |},
          {| svg := joined_tree sel nm data st;
             fresh := fresh st + (List.length data - List.length R) |}).
Proof.
  intros R. unfold d3.enter_append. cbn [fst snd].
  erewrite bind_some by apply append_to_root.
  unfold ret, joined_tree. fold R.
  rewrite join_enter_present, length_skipn. reflexivity.
Qed.

(** *** The tree after the join *)

Section Joined.
Variables (sel nm : string) (data : Data) (st : State).
Hypothesis Hwf : wf st.
Let R := map eid (selected sel (svg st)).
Let al := combine R data.
Let J := joined_tree sel nm data st.
Let news := map root_elem (created nm (fresh st) (skipn (List.length R) data)).

Lemma joined_descendants :
  descendants J = map (bindf al) (descendants (svg st)) ++ news.
Proof.
  unfold J, joined_tree, descendants. cbn [children].
  rewrite elemsF_app, elemsF_tmap, created_elems. reflexivity.
Qed.

Lemma joined_root : root_elem J = root_elem (svg st).
Proof. reflexivity. Qed.

Lemma joined_news_ids :
  map eid news = seq (fresh st) (List.length data - List.length R).
Proof. unfold news. rewrite created_ids, length_skipn. reflexivity. Qed.

Lemma joined_ids :
  ids J = ids (svg st) ++ seq (fresh st) (List.length data - List.length R).
Proof.
  rewrite (ids_eq J), joined_root, joined_descendants, map_app, map_map.
  rewrite (map_ext _ eid (bindf_eid al)), joined_news_ids, ids_eq.
  reflexivity.
Qed.

Lemma NoDup_fresh_app (l : list nat) (f k : nat) :
  NoDup l -> Forall (fun i => i < f) l -> NoDup (l ++ seq f k).
Proof.
  intros Hl Hf. apply NoDup_app; [assumption|apply seq_NoDup|].
  intros x Hx Hs. rewrite Forall_forall in Hf. apply Hf in Hx.
  apply in_seq in Hs. lia.
Qed.

Lemma joined_nodup : NoDup (ids J).
Proof. rewrite joined_ids. apply NoDup_fresh_app; apply Hwf. Qed.

Lemma joined_fresh :
  Forall (fun i => i < fresh st + (List.length data - List.length R)) (ids J).
Proof.
  rewrite joined_ids. apply Forall_app. split.
  - destruct Hwf as [_ Hf]. rewrite Forall_forall in *. intros x Hx.
    apply Hf in Hx. lia.
  - rewrite Forall_forall. intros x Hx. apply in_seq in Hx. lia.
Qed.

Lemma merged_nodup : NoDup (merged_ids sel data st).
Proof.
  unfold merged_ids. fold R. apply NoDup_fresh_app.
  - apply (NoDup_app_remove_r _ (skipn (List.length data) R)).
    rewrite firstn_skipn. apply selected_nodup, Hwf.
  - rewrite Forall_forall. intros x Hx. apply in_firstn in Hx.
    eapply wf_selected_lt; eassumption.
Qed.

Lemma merged_cases (e : Elem) :
  In e (elems J) -> In (eid e) (merged_ids sel data st) ->
  (exists x, In x (descendants (svg st)) /\ e = bindf al x
             /\ In (eid x) (firstn (List.length data) R))
  \/ In e news.
Proof.
  intros He Hi. rewrite elems_eq, joined_root, joined_descendants in He.
  unfold merged_ids in Hi. fold R in Hi.
  assert (Hlt : forall x, In x (elems (svg st)) -> eid x < fresh st).
  { destruct Hwf as [_ Hf]. rewrite Forall_forall in Hf. intros x Hx.
    apply Hf. unfold ids. apply in_map. assumption. }
  destruct He as [He|He].
  - exfalso. subst e. apply in_app_or in Hi. destruct Hi as [Hi|Hi].
    + apply in_firstn in Hi. apply (wf_root_not_selected sel Hwf Hi).
    + apply in_seq in Hi.
      specialize (Hlt (root_elem (svg st))). rewrite elems_eq in Hlt.
      specialize (Hlt (or_introl eq_refl)). lia.
  - apply in_app_or in He. destruct He as [He|He]; [|right; assumption].
    apply in_map_iff in He. destruct He as [x [<- Hx]]. left.
    exists x. repeat split; [assumption|].
    rewrite bindf_eid in Hi. apply in_app_or in Hi. destruct Hi as [Hi|Hi];
      [assumption|].
    apply in_seq in Hi. specialize (Hlt x). rewrite elems_eq in Hlt.
    specialize (Hlt (or_intror Hx)). lia.
Qed.

Lemma news_bound (e : Elem) : In e news -> datum e <> None.
Proof.
  intros He. assert (H : In (datum e) (map datum news)) by (apply in_map; assumption).
  unfold news in H. rewrite created_data in H.
  apply in_map_iff in H. destruct H as [d [Hd _]]. congruence.
Qed.

Lemma joined_bound : bound (merged_ids sel data st) J.
Proof.
  intros e He Hi. destruct (merged_cases He Hi) as [[x [Hx [-> Hin]]]|Hn].
  - unfold bindf. pose proof (@assoc_nat_combine_head R data _ Hin) as Ha.
    fold al in Ha. destruct (assoc_nat (eid x) al); [discriminate|congruence].
  - apply news_bound. assumption.
Qed.
Lemma joined_data :
  d3.node_data (map Some (merged_ids sel data st)) J = Some data.
Proof.
  set (es := map (bindf al) (firstn (List.length data) (selected sel (svg st)))
             ++ news).
  assert (Hid : map eid es = merged_ids sel data st).
  { unfold es, merged_ids. rewrite map_app, map_map, joined_news_ids.
    rewrite (map_ext _ eid (bindf_eid al)), firstn_map. reflexivity. }
  rewrite <- Hid. apply node_data_spec.
  - apply joined_nodup.
  - rewrite Forall_forall. intros e He. rewrite elems_eq, joined_descendants.
    right. unfold es in He. apply in_app_or in He. apply in_or_app.
    destruct He as [He|He]; [left|right; assumption].
    apply in_map_iff in He. destruct He as [x [<- Hx]]. apply in_map.
    apply in_firstn in Hx. unfold selected, querySelectorAll in Hx.
    apply filter_In in Hx. tauto.
  - unfold es. rewrite map_app, map_map. unfold al, R.
    rewrite bindf_data by (apply selected_nodup, Hwf).
    unfold news. rewrite created_data, <- map_app.
    unfold R. rewrite length_map, firstn_skipn. reflexivity.
Qed.
End Joined.

Lemma get_data_spec (s : d3.Selection) (st : State) (ds : Data) :
  d3.node_data (map Some (present (d3.nodes s))) (svg st) = Some ds ->
  d3.get_data s st = Some (ds, st).
Proof.
  intros H. unfold d3.get_data. rewrite node_data_present, H. reflexivity.
Qed.

Lemma setSize_default (s : d3.Selection) (st : State) (ds : Data) :
  d3.node_data (map Some (present (d3.nodes s))) (svg st) = Some ds ->
  setSizeAndPositionToRect s None st = setSizeAndPositionToRect s (Some ds) st.
Proof.
  intros H. unfold setSizeAndPositionToRect.
  unfold bind at 1. rewrite (get_data_spec _ _ H).
  unfold bind at 6. unfold ret at 2. reflexivity.
Qed.

Ltac stylish_tac :=
  repeat first
    [ apply stylish_geometry | apply stylish_setAttribute
    | apply stylish_removeAttribute | apply stylish_classList_add
    | apply stylish_classList_remove | apply stylish_if
    | apply stylish_comp | apply stylish_on; intros ? ].

Lemma updateBars_spec (data : Data) (st : State) :
  wf st ->
  updateBars data st
  = Some (tt, {| svg := bars_tree data st;
                 fresh := fresh st
                          + (List.length data
                             - List.length (selected "rect" (svg st))) |}).
Proof.
  intros Hwf. unfold updateBars, svgRectElements.
  erewrite bind_some by (apply join_spec; assumption).
  unfold d3.enter. cbn [d3.update d3.enter_data d3.parent].
  erewrite bind_some by apply enter_append_spec.
  set (merged := d3.merge _ _).
  assert (Hm : present (d3.nodes merged) = merged_ids "rect" data st).
  { unfold merged, d3.merge. cbn [d3.nodes]. apply merge_enter_update. }
  set (st2 := {| svg := joined_tree "rect" "rect" data st; fresh := _ |}).
  assert (Hnd : NoDup (ids (svg st2))) by (apply joined_nodup; assumption).
  assert (HI : NoDup (present (d3.nodes merged)))
    by (rewrite Hm; apply merged_nodup; assumption).
  assert (Hb : bound (present (d3.nodes merged)) (svg st2))
    by (rewrite Hm; apply joined_bound; assumption).
  assert (S1 : stylish (on (present (d3.nodes merged)) (geometry data)))
    by (apply stylish_on, stylish_geometry).
  erewrite bind_some.
  2:{ erewrite bind_some.
      2:{ erewrite bind_some.
          2:{ rewrite (@setSize_default merged st2 data)
                by (rewrite Hm; apply joined_data; assumption).
              apply setSize_spec; assumption. }
          apply classed_fn_spec; cbn [svg].
          - assumption.
          - rewrite ids_tmap; [assumption|apply stylish_eid, S1].
          - apply bound_tmap; assumption. }
      apply classed_fn_spec; cbn [svg].
      - assumption.
      - rewrite !ids_tmap; [assumption|apply stylish_eid..]; auto.
        apply stylish_on. intros d. apply stylish_if;
          auto using stylish_classList_add, stylish_classList_remove.
      - repeat apply bound_tmap; auto.
        apply stylish_on. intros d. apply stylish_if;
          auto using stylish_classList_add, stylish_classList_remove. }
  rewrite remove_spec. cbn [svg fresh d3.exit d3.nodes d3.exit_nodes d3.update].
  rewrite join_exit_present. unfold st2. cbn [svg fresh]. rewrite length_map.
  do 3 f_equal.
  unfold bars_tree, exit_ids. f_equal.
  rewrite !on_on.
  - rewrite Hm. reflexivity.
  - intros d. stylish_tac.
  - intros d. stylish_tac.
Qed.

(** *** The elements of one kind after a join *)

Lemma filter_outside_all (X : list nat) (l : list Elem) :
  (forall e, In e l -> In (eid e) X) -> filter (outside X) l = [].
Proof.
  induction l as [|e r IH]; intros H; simpl; [reflexivity|].
  unfold outside at 1.
  assert (Hm : mem (eid e) X = true) by (apply mem_true, H; left; reflexivity).
  rewrite Hm. simpl. apply IH. intros x Hx. apply H. right. assumption.
Qed.

Lemma filter_outside_none (X : list nat) (l : list Elem) :
  (forall e, In e l -> ~ In (eid e) X) -> filter (outside X) l = l.
Proof.
  induction l as [|e r IH]; intros H; simpl; [reflexivity|].
  unfold outside at 1.
  assert (Hm : mem (eid e) X = false) by (apply mem_false, H; left; reflexivity).
  rewrite Hm. simpl. f_equal. apply IH. intros x Hx. apply H. right. assumption.
Qed.

Lemma zip_old (sty : Datum -> Elem -> Elem) (f k : nat) (es : list Elem) :
  (forall d, stylish (sty d)) ->
  NoDup (map eid es) -> (forall e, In e es -> eid e < f) ->
  forall data : Data,
  filter (outside (skipn (List.length data) (map eid es)))
    (map (on (firstn (List.length data) (map eid es) ++ seq f k) sty)
       (map (bindf (combine (map eid es) data)) es))
  = zip_style sty es data.
Proof.
  intros Hs. induction es as [|e r IH]; intros Hnd Hlt data.
  - destruct data; reflexivity.
  - inversion Hnd as [|? ? He Hr]; subst.
    destruct data as [|d ds].
    + cbn [List.length skipn zip_style]. apply filter_outside_all.
      intros x Hx. apply in_map_iff in Hx. destruct Hx as [y [<- Hy]].
      apply in_map_iff in Hy. destruct Hy as [z [<- Hz]].
      rewrite (stylish_eid (stylish_on _ _ Hs)), bindf_eid.
      apply in_map. assumption.
    + cbn [List.length map firstn skipn combine zip_style app filter].
      assert (E1 : bindf ((eid e, d) :: combine (map eid r) ds) e
                   = with_datum (Some d) e).
      { unfold bindf. simpl. rewrite Nat.eqb_refl. reflexivity. }
      rewrite E1.
      assert (E2 : on (eid e :: firstn (List.length ds) (map eid r) ++ seq f k)
                      sty (with_datum (Some d) e)
                   = sty d (with_datum (Some d) e)).
      { apply on_hit; [|reflexivity]. apply mem_true. left. reflexivity. }
      rewrite E2.
      assert (E3 : outside (skipn (List.length ds) (map eid r))
                           (sty d (with_datum (Some d) e)) = true).
      { unfold outside. rewrite (stylish_eid (Hs d)). simpl.
        apply negb_true_iff, mem_false. intros Hin. apply He.
        eapply in_skipn. eassumption. }
      rewrite E3. f_equal.
      rewrite <- IH; auto.
      2:{ intros x Hx. apply Hlt. right. assumption. }
      f_equal. rewrite !map_map. apply map_ext_in. intros x Hx.
      assert (Hne : eid x <> eid e).
      { intros E. apply He. rewrite <- E. apply in_map. assumption. }
      assert (B : bindf ((eid e, d) :: combine (map eid r) ds) x
                  = bindf (combine (map eid r) ds) x).
      { unfold bindf. simpl. destruct (Nat.eqb_spec (eid x) (eid e));
          [contradiction|reflexivity]. }
      rewrite B. unfold on. rewrite !bindf_eid. simpl.
      destruct (Nat.eqb_spec (eid x) (eid e)); [contradiction|reflexivity].
Qed.

Lemma zip_new (sty : Datum -> Elem -> Elem) (I X news : _) :
  (forall e, In e news -> In (eid e) I) ->
  (forall e, In e news -> ~ In (eid e) X) ->
  (forall d, stylish (sty d)) ->
  filter (outside X) (map (on I sty) news) = map (styled sty) news.
Proof.
  intros HI HX Hs. rewrite filter_outside_none.
  - apply map_ext_in. intros e He. unfold on, styled.
    assert (Hm : mem (eid e) I = true) by (apply mem_true, HI; assumption).
    rewrite Hm. reflexivity.
  - intros x Hx. apply in_map_iff in Hx. destruct Hx as [y [<- Hy]].
    rewrite (stylish_eid (stylish_on _ _ Hs)). apply HX. assumption.
Qed.

Lemma zip_style_data (sty : Datum -> Elem -> Elem) (es : list Elem) (ds : Data) :
  (forall d, stylish (sty d)) ->
  map datum (zip_style sty es ds) = map Some (firstn (List.length es) ds).
Proof.
  intros Hs. revert ds. induction es as [|e r IH]; intros [|d ds]; simpl; auto.
  rewrite (stylish_datum (Hs d)). simpl. f_equal. apply IH.
Qed.

Lemma styled_data (sty : Datum -> Elem -> Elem) (l : list Elem) :
  (forall d, stylish (sty d)) -> map datum (map (styled sty) l) = map datum l.
Proof.
  intros Hs. rewrite map_map. apply map_ext. intros e. unfold styled.
  destruct (datum e) as [d|] eqn:E; [|assumption].
  rewrite (stylish_datum (Hs d)). assumption.
Qed.

Lemma top_level_root (P : Elem -> bool) (r r' : Elem) (cs : list Node) :
  top_level P (N r cs) -> top_level P (N r' cs).
Proof. exact (fun H => H). Qed.

Lemma created_leaves (P : Elem -> bool) (nm : string) (f : nat) (ds : Data) :
  Forall (fun c => nowhere P (descendants c)) (created nm f ds).
Proof.
  revert f. induction ds as [|d r IH]; intros f; simpl; constructor; auto.
  constructor.
Qed.

Lemma top_level_joined (P : Elem -> bool) (sel nm : string) (data : Data)
  (st : State) :
  (forall d e, P (with_datum d e) = P e) ->
  top_level P (svg st) -> top_level P (joined_tree sel nm data st).
Proof.
  intros HP Ht. unfold joined_tree. apply top_level_app.
  - set (al := combine _ _). apply (top_level_tmap (bindf al)) in Ht.
    + destruct (svg st) as [r cs]. exact Ht.
    + intros e. unfold bindf. destruct (assoc_nat _ _); auto.
  - apply created_leaves.
Qed.

Lemma matches_tag_stylish (tg : string) (h : Elem -> Elem) (e : Elem) :
  stylish h -> matches (ByTag tg) (h e) = matches (ByTag tg) e.
Proof. intros H. simpl. rewrite (stylish_tag H). reflexivity. Qed.

Lemma matches_tag_bindf (tg : string) (al : list (nat * Datum)) (e : Elem) :
  matches (ByTag tg) (bindf al e) = matches (ByTag tg) e.
Proof. simpl. rewrite bindf_tag. reflexivity. Qed.

Lemma filter_all {A} (P : A -> bool) (l : list A) :
  Forall (fun x => P x = true) l -> filter P l = l.
Proof.
  induction 1 as [|x r Hx _ IH]; simpl; [reflexivity|]. rewrite Hx, IH. reflexivity.
Qed.

Section JoinStyled.
Variables (sel nm tg : string) (sty : Datum -> Elem -> Elem).
Variables (data : Data) (st : State).
Hypothesis Hsel : selector sel = ByTag tg.
Hypothesis Hnm : d3.local_name nm = tg.
Hypothesis Hsty : forall d, stylish (sty d).
Hypothesis Hwf : wf st.
Hypothesis Htop : top_level (matches (ByTag tg)) (svg st).

Let P := matches (ByTag tg).
Let I := merged_ids sel data st.
Let X := exit_ids sel data st.
Let J := joined_tree sel nm data st.
Let news :=
  map root_elem (created nm (fresh st)
                   (skipn (List.length (selected sel (svg st))) data)).

Lemma selected_filter : selected sel (svg st) = filter P (descendants (svg st)).
Proof. unfold selected, querySelectorAll. rewrite Hsel. reflexivity. Qed.

Lemma news_match : Forall (fun e => P e = true) news.
Proof.
  unfold news. eapply Forall_impl; [|apply created_tag].
  intros e He. unfold P. simpl. rewrite He, Hnm. apply String.eqb_refl.
Qed.

Lemma joined_selected :
  filter P (descendants J)
  = map (bindf (combine (map eid (selected sel (svg st))) data))
        (selected sel (svg st)) ++ news.
Proof.
  unfold J. rewrite joined_descendants, length_map, filter_app.
  rewrite filter_map_comm by (intros e; apply matches_tag_bindf).
  fold news. rewrite (filter_all _ news_match), selected_filter. reflexivity.
Qed.

Lemma styled_selected :
  filter P (descendants (prune (outside X) (tmap (on I sty) J)))
  = zip_style sty (selected sel (svg st)) data ++ map (styled sty) news.
Proof.
  assert (SI : stylish (on I sty)) by (apply stylish_on; assumption).
  rewrite filter_descendants_prune.
  2:{ apply top_level_tmap; [intros e; apply matches_tag_stylish, SI|].
      apply top_level_joined; [reflexivity|assumption]. }
  rewrite descendants_tmap.
  rewrite filter_map_comm by (intros e; apply matches_tag_stylish, SI).
  rewrite joined_selected, map_app, filter_app. f_equal.
  - unfold X, I, exit_ids, merged_ids. apply zip_old; auto.
    + apply selected_nodup, Hwf.
    + intros e He. eapply wf_selected_lt; [eassumption|].
      apply in_map. eassumption.
  - apply zip_new; auto.
    + intros e He. unfold I, merged_ids. apply in_or_app. right.
      assert (H : In (eid e) (map eid news)) by (apply in_map; assumption).
      unfold news in H. rewrite created_ids, length_skipn in H.
      rewrite length_map. exact H.
    + intros e He Hx. unfold X, exit_ids in Hx. apply in_skipn in Hx.
      apply (@wf_selected_lt sel st _ Hwf) in Hx.
      assert (H : In (eid e) (map eid news)) by (apply in_map; assumption).
      unfold news in H. rewrite created_ids in H. apply in_seq in H. lia.
Qed.

Lemma styled_selected_data :
  map datum (filter P (descendants (prune (outside X) (tmap (on I sty) J))))
  = map Some data.
Proof.
  rewrite styled_selected, map_app, zip_style_data, styled_data by assumption.
  unfold news. rewrite created_data, <- map_app, firstn_skipn. reflexivity.
Qed.
End JoinStyled.

(** *** Pruning keeps identities distinct *)

Lemma elems_prune_incl (keep : Elem -> bool) (t : Node) :
  forall e, In e (elems (prune keep t)) -> In e (elems t).
Proof.
  intros e. rewrite !elems_eq, root_prune. simpl. intros [H|H]; [left; assumption|].
  right. eapply descendants_prune_incl; eassumption.
Qed.

Lemma ids_prune_incl (keep : Elem -> bool) (t : Node) :
  forall i, In i (ids (prune keep t)) -> In i (ids t).
Proof.
  intros i. unfold ids. rewrite !in_map_iff. intros [e [He Hin]].
  exists e. split; [assumption|]. eapply elems_prune_incl; eassumption.
Qed.

Lemma prune_nodup (keep : Elem -> bool) (t : Node) :
  NoDup (ids t) -> NoDup (ids (prune keep t)).
Proof.
  induction t as [r cs IH] using Node_ind. intros Hnd.
  rewrite ids_eq in *. rewrite root_prune. cbn [root_elem] in *.
  inversion Hnd as [|? ? Hr Hd]; subst. constructor.
  - intros Hin. apply Hr. apply in_map_iff in Hin. destruct Hin as [e [He Hin]].
    apply in_map_iff. exists e. split; [assumption|].
    eapply descendants_prune_incl; eassumption.
  - clear Hr Hnd. unfold descendants in *. cbn [prune children] in *.
    induction IH as [|c rest Hc _ IHr]; simpl; [constructor|].
    rewrite elemsF_cons, map_app in Hd.
    rewrite root_prune. destruct (keep (root_elem c)).
    + rewrite elemsF_cons, map_app. apply NoDup_app.
      * apply Hc. eapply NoDup_app_remove_r. eassumption.
      * apply IHr. eapply NoDup_app_remove_l. eassumption.
      * intros i Hi Hi'.
        assert (A : In i (map eid (elems c))) by (eapply ids_prune_incl; eassumption).
        assert (B : In i (map eid (elemsF rest))).
        { apply in_map_iff in Hi'. destruct Hi' as [e [He Hin]].
          apply in_map_iff. exists e. split; [assumption|].
          apply (descendants_prune_incl keep (N r rest)). exact Hin. }
        clear - Hd A B. induction (map eid (elems c)) as [|x l IHl];
          [contradiction|].
        simpl in Hd. inversion Hd as [|? ? Hx Hl]; subst.
        destruct A as [->|A]; [|auto].
        apply Hx. apply in_or_app. right. assumption.
    + apply IHr. eapply NoDup_app_remove_l. eassumption.
Qed.

Lemma NoDup_map_inj_in {A B} (f : A -> B) (l : list A) (x y : A) :
  NoDup (map f l) -> In x l -> In y l -> f x = f y -> x = y.
Proof.
  induction l as [|a r IH]; simpl; intros Hnd Hx Hy E; [contradiction|].
  inversion Hnd as [|? ? Ha Hr]; subst.
  destruct Hx as [->|Hx], Hy as [->|Hy]; auto.
  - exfalso. apply Ha. rewrite E. apply in_map. assumption.
  - exfalso. apply Ha. rewrite <- E. apply in_map. assumption.
Qed.

(** An element whose identity was selected is a selected element. *)
Lemma selected_by_id (sel : string) (t : Node) (e : Elem) :
  NoDup (ids t) -> In e (descendants t) ->
  In (eid e) (map eid (selected sel t)) -> matches (selector sel) e = true.
Proof.
  intros Hnd He Hi. apply in_map_iff in Hi. destruct Hi as [x [Ex Hx]].
  unfold selected, querySelectorAll in Hx. apply filter_In in Hx.
  destruct Hx as [Hx Hm]. rewrite ids_eq in Hnd. inversion Hnd; subst.
  assert (x = e) by (eapply (NoDup_map_inj_in eid); eauto).
  subst. assumption.
Qed.

(** *** What a join leaves alone *)

Section JoinFrame.
Variables (sel nm : string) (sty : Datum -> Elem -> Elem).
Variables (data : Data) (st : State).
Hypothesis Hsty : forall d, stylish (sty d).
Hypothesis Hwf : wf st.

Let I := merged_ids sel data st.
Let X := exit_ids sel data st.
Let J := joined_tree sel nm data st.
Let G := prune (outside X) (tmap (on I sty) J).
Let al := combine (map eid (selected sel (svg st))) data.
Let news :=
  map root_elem (created nm (fresh st)
                   (skipn (List.length (selected sel (svg st))) data)).

Lemma styled_nodup : NoDup (ids G).
Proof.
  unfold G. apply prune_nodup. rewrite ids_tmap.
  - apply joined_nodup. assumption.
  - apply stylish_eid, stylish_on. assumption.
Qed.

Lemma styled_fresh :
  Forall (fun i => i < fresh st
                       + (List.length data
                          - List.length (selected sel (svg st)))) (ids G).
Proof.
  rewrite Forall_forall. intros i Hi. unfold G in Hi.
  apply ids_prune_incl in Hi. rewrite ids_tmap in Hi
    by (apply stylish_eid, stylish_on; assumption).
  pose proof (joined_fresh sel nm data Hwf) as Hf.
  rewrite Forall_forall in Hf. rewrite length_map in Hf. apply Hf. assumption.
Qed.

Lemma styled_wf :
  wf {| svg := G;
        fresh := fresh st
                 + (List.length data - List.length (selected sel (svg st))) |}.
Proof. split; [apply styled_nodup|apply styled_fresh]. Qed.

Lemma styled_top_level (tg : string) :
  top_level (matches (ByTag tg)) (svg st) -> top_level (matches (ByTag tg)) G.
Proof.
  intros Ht. unfold G. apply top_level_prune. apply top_level_tmap.
  - intros e. apply matches_tag_stylish, stylish_on. assumption.
  - apply top_level_joined; [reflexivity|assumption].
Qed.

Lemma styled_nowhere_tag (tg : string) :
  d3.local_name nm <> tg ->
  nowhere (matches (ByTag tg)) (descendants (svg st)) ->
  nowhere (matches (ByTag tg)) (descendants G).
Proof.
  intros Hne Hn. unfold G.
  eapply nowhere_incl; [apply descendants_prune_incl|].
  rewrite descendants_tmap. apply nowhere_map.
  { intros e. apply matches_tag_stylish, stylish_on. assumption. }
  unfold J. rewrite joined_descendants. apply nowhere_app. split.
  - apply nowhere_map; [intros e; apply matches_tag_bindf|assumption].
  - rewrite length_map. eapply Forall_impl; [|apply created_tag].
    intros e He. simpl. rewrite He. apply String.eqb_neq. assumption.
Qed.

(** Elements of another kind [Q] stay as they are. *)
Lemma styled_frame (Q : Elem -> bool) :
  (forall d e, Q (with_datum d e) = Q e) ->
  (forall d e, Q (sty d e) = Q e) ->
  top_level Q (svg st) ->
  (forall e, In e (descendants (svg st)) -> Q e = true ->
             matches (selector sel) e = false) ->
  nowhere Q news ->
  filter Q (descendants G) = filter Q (descendants (svg st)).
Proof.
  intros Qd Qs Qt Qsel Qn.
  assert (Qb : forall e, Q (bindf al e) = Q e).
  { intros e. unfold bindf. destruct (assoc_nat _ _); auto. }
  assert (Qo : forall e, Q (on I sty e) = Q e).
  { intros e. unfold on. destruct (mem _ _); [|reflexivity].
    destruct (datum e); auto. }
  unfold G. rewrite filter_descendants_prune.
  2:{ apply top_level_tmap; [assumption|].
      apply top_level_joined; assumption. }
  rewrite descendants_tmap, filter_map_comm by assumption.
  unfold J. rewrite joined_descendants, length_map. fold al news.
  rewrite filter_app, (nowhere_filter Qn), app_nil_r.
  rewrite (filter_map_comm Q (bindf al)) by assumption.
  assert (Hid : forall e, In e (filter Q (descendants (svg st))) ->
                          ~ In (eid e) (map eid (selected sel (svg st)))).
  { intros e He Hin. apply filter_In in He. destruct He as [He HQ].
    specialize (Qsel e He HQ).
    rewrite (@selected_by_id sel (svg st) e (proj1 Hwf) He Hin) in Qsel.
    discriminate. }
  assert (Hlt : forall e, In e (descendants (svg st)) -> eid e < fresh st).
  { intros e He. destruct Hwf as [_ Hf]. rewrite Forall_forall in Hf.
    apply Hf. rewrite ids_eq. right. apply in_map. assumption. }
  rewrite map_map.
  rewrite (map_ext_in _ (fun e => e)).
  2:{ intros e He. rewrite bindf_absent.
      - apply on_miss. apply mem_false. unfold I, merged_ids. intros Hin.
        apply in_app_or in Hin. destruct Hin as [Hin|Hin].
        + apply in_firstn in Hin. apply (Hid e He Hin).
        + apply in_seq in Hin. apply filter_In in He.
          specialize (Hlt e (proj1 He)). lia.
      - intros Hin. apply in_combine_fst in Hin. apply (Hid e He Hin). }
  rewrite map_id. apply filter_outside_none.
  intros e He Hin. unfold X, exit_ids in Hin. apply in_skipn in Hin.
  apply (Hid e He Hin).
Qed.
End JoinFrame.

(** *** Operations that reach only appended elements *)

Lemma idsF_cons (c : Node) (r : list Node) : idsF (c :: r) = ids c ++ idsF r.
Proof. unfold idsF, ids. rewrite elemsF_cons, map_app. reflexivity. Qed.

Lemma idsF_app (a b : list Node) : idsF (a ++ b) = idsF a ++ idsF b.
Proof. unfold idsF. rewrite elemsF_app, map_app. reflexivity. Qed.

Lemma ids_node (r : Elem) (cs : list Node) : ids (N r cs) = eid r :: idsF cs.
Proof. reflexivity. Qed.

Lemma map_appendChild_absent (p : nat) (c : Node) (cs : list Node) :
  ~ In p (idsF cs) -> map (appendChild p c) cs = cs.
Proof.
  induction cs as [|x r IH]; intros H; simpl; [reflexivity|].
  rewrite idsF_cons in H. rewrite appendChild_absent, IH; auto.
  - intros Hin. apply H. apply in_or_app. right. assumption.
  - intros Hin. apply H. apply in_or_app. left. assumption.
Qed.

Lemma map_tmap_id (h : Elem -> Elem) (cs : list Node) :
  (forall e, In e (elemsF cs) -> h e = e) -> map (tmap h) cs = cs.
Proof.
  induction cs as [|x r IH]; intros H; simpl; [reflexivity|].
  rewrite tmap_id_in, IH; auto.
  - intros e He. apply H. rewrite elemsF_cons. apply in_or_app. right. assumption.
  - intros e He. apply H. rewrite elemsF_cons. apply in_or_app. left. assumption.
Qed.

Lemma map_setTextContent_absent (id : nat) (x : Text) (cs : list Node) :
  ~ In id (idsF cs) -> map (setTextContent id x) cs = cs.
Proof.
  induction cs as [|c r IH]; intros H; simpl; [reflexivity|].
  rewrite idsF_cons in H. rewrite setTextContent_absent, IH; auto.
  - intros Hin. apply H. apply in_or_app. right. assumption.
  - intros Hin. apply H. apply in_or_app. left. assumption.
Qed.

Lemma appendChild_mid (p : nat) (c : Node) (r e : Elem)
  (pre post ks : list Node) :
  eid r <> p -> ~ In p (idsF pre) -> eid e = p -> ~ In p (idsF post) ->
  appendChild p c (N r (pre ++ N e ks :: post))
  = N r (pre ++ N e (ks ++ [c]) :: post).
Proof.
  intros Hr Hpre He Hpost. simpl.
  destruct (has_id p r) eqn:E; [apply has_id_true in E; contradiction|].
  rewrite map_app, map_appendChild_absent by assumption. simpl.
  assert (E' : has_id p e = true) by (apply has_id_true; assumption).
  rewrite E', map_appendChild_absent by assumption. reflexivity.
Qed.

Lemma setTextContent_mid (id : nat) (x : Text) (r e : Elem)
  (pre post ks : list Node) :
  eid r <> id -> ~ In id (idsF pre) -> eid e = id -> ~ In id (idsF post) ->
  setTextContent id x (N r (pre ++ N e ks :: post))
  = N r (pre ++ N (with_text (Some x) e) [] :: post).
Proof.
  intros Hr Hpre He Hpost. simpl.
  destruct (has_id id r) eqn:E; [apply has_id_true in E; contradiction|].
  rewrite map_app, map_setTextContent_absent by assumption. simpl.
  assert (E' : has_id id e = true) by (apply has_id_true; assumption).
  rewrite E', map_setTextContent_absent by assumption. reflexivity.
Qed.

Lemma tmap_appended (h : Elem -> Elem) (r : Elem) (cs tl : list Node) :
  h r = r -> (forall e, In e (elemsF cs) -> h e = e) ->
  tmap h (N r (cs ++ tl)) = N r (cs ++ map (tmap h) tl).
Proof.
  intros Hr Hcs. simpl. rewrite Hr, map_app, map_tmap_id by assumption.
  reflexivity.
Qed.

Lemma find_root (t : Node) : find (eid (root_elem t)) t = Some (root_elem t).
Proof.
  unfold find. rewrite elems_eq. simpl. unfold has_id.
  rewrite Nat.eqb_refl. reflexivity.
Qed.

Lemma find_node_root (r : Elem) (cs : list Node) : find (eid r) (N r cs) = Some r.
Proof. apply (find_root (N r cs)). Qed.

(** *** [updateAxises] *)

Lemma appendChildren_last (p : nat) (r g : Elem) (cs : list Node) :
  eid r <> p -> ~ In p (idsF cs) -> eid g = p ->
  forall (l ks : list Node),
  d3.appendChildren p l (N r (cs ++ [N g ks])) = N r (cs ++ [N g (ks ++ l)]).
Proof.
  intros Hr Hcs Hg. unfold d3.appendChildren.
  induction l as [|c l IH]; intros ks; simpl.
  - rewrite app_nil_r. reflexivity.
  - change (fold_left (fun t c0 => appendChild p c0 t) l
              (appendChild p c (N r (cs ++ N g ks :: [])))
            = N r (cs ++ [N g (ks ++ c :: l)])).
    rewrite appendChild_mid by (auto; simpl; tauto).
    rewrite IH, <- app_assoc. reflexivity.
Qed.

Lemma tick_nodes_ids (id : nat) (labels : list Text) :
  idsF (d3.tick_nodes id labels) = seq id (3 * List.length labels).
Proof.
  revert id. induction labels as [|l r IH]; intros id; [reflexivity|].
  cbn [d3.tick_nodes List.length]. rewrite idsF_cons, IH.
  replace (3 * S (List.length r)) with (3 + 3 * List.length r) by lia.
  rewrite seq_app. simpl. repeat f_equal; lia.
Qed.

Lemma axis_nodes_ids (id : nat) (a : d3.Axis) :
  idsF (d3.axis_nodes id a) = seq id (1 + 3 * List.length (d3.tick_labels a)).
Proof.
  unfold d3.axis_nodes. rewrite idsF_cons, tick_nodes_ids.
  cbn [ids elems map flat_map app d3.element eid].
  replace (id + 1) with (S id) by lia. reflexivity.
Qed.

Lemma modify_last (p : nat) (h : Elem -> Elem) (r g : Elem)
  (cs ks : list Node) :
  eid r <> p -> ~ In p (idsF cs) -> eid g = p -> ~ In p (idsF ks) ->
  modify p h (N r (cs ++ [N g ks])) = N r (cs ++ [N (h g) ks]).
Proof.
  intros Hr Hcs Hg Hks. unfold modify.
  assert (Hno : forall l, ~ In p (idsF l) ->
            forall e, In e (elemsF l) ->
            (if has_id p e then h e else e) = e).
  { intros l Hl e He. unfold has_id.
    destruct (Nat.eqb_spec (eid e) p) as [E|]; [|reflexivity].
    exfalso. apply Hl. rewrite <- E. apply in_map. exact He. }
  rewrite tmap_appended.
  - cbn [map tmap]. rewrite (map_tmap_id _ _ (Hno ks Hks)).
    unfold has_id at 1. rewrite Hg, Nat.eqb_refl. reflexivity.
  - unfold has_id. destruct (Nat.eqb_spec (eid r) p); [contradiction|reflexivity].
  - apply (Hno cs Hcs).
Qed.

Lemma axis_group_spec (transform : string) (a : d3.Axis) (r : Elem)
  (cs : list Node) (f : nat) :
  Forall (fun i => i < f) (ids (N r cs)) ->
  (svgRootElement
   >>= d3.append "g"
   >>= d3.attr "class" (VStr "axis")
   >>= d3.attr "transform" (VStr transform)
   >>= d3.call (d3.render a)) {| svg := N r cs; fresh := f |}
  = Some ({| d3.nodes := [Some f]; d3.parent := None |},
          {| svg := N r (cs ++ [axis_group f transform (datum r) a]);
             fresh := f + 2 + 3 * List.length (d3.tick_labels a) |}).
Proof.
  intros Hf. rewrite ids_node in Hf. inversion Hf as [|? ? Hr Hcs]; subst.
  assert (Hcs' : forall e, In e (elemsF cs) -> eid e <> f).
  { intros e He. rewrite Forall_forall in Hcs.
    specialize (Hcs (eid e) (in_map eid _ _ He)). lia. }
  assert (Habs : ~ In f (idsF cs)).
  { intros Hin. apply in_map_iff in Hin. destruct Hin as [e [E He]].
    apply (Hcs' e He E). }
  cbv [svgRootElement d3.select_svg d3.append d3.append_each bind ret
       d3.new_id d3.on_tree d3.nodes d3.parent svg fresh root_elem].
  rewrite find_node_root. cbn [appendChild]. unfold has_id at 1.
  rewrite Nat.eqb_refl.
  set (s := {| d3.nodes := [Some f]; d3.parent := None |}).
  rewrite (attr_spec s) by (repeat constructor; simpl; tauto).
  cbn [svg fresh d3.nodes present flat_map app].
  rewrite (attr_spec s) by (repeat constructor; simpl; tauto).
  cbn [svg fresh d3.nodes present flat_map app]. rewrite tmap_tmap.
  rewrite tmap_appended.
  2:{ simpl. destruct (Nat.eqb_spec (eid r) f); [lia|]. simpl.
      destruct (Nat.eqb_spec (eid r) f); [lia|]. reflexivity. }
  2:{ intros e He. specialize (Hcs' e He). simpl.
      destruct (Nat.eqb_spec (eid e) f); [contradiction|]. simpl.
      destruct (Nat.eqb_spec (eid e) f); [contradiction|]. reflexivity. }
  cbv [d3.call d3.render bind ret d3.nodes s d3.render_each svg fresh].
  change (present [Some f]) with [f].
  assert (Hm : mem f [f] = true) by (simpl; rewrite Nat.eqb_refl; reflexivity).
  cbn [map tmap d3.create eid]. rewrite Hm. simpl setAttribute.
  cbn [eid with_classes]. rewrite Hm.
  rewrite appendChildren_last by (auto; lia).
  rewrite modify_last; [| lia | exact Habs | reflexivity |].
  2:{ cbn [app]. rewrite axis_nodes_ids, in_seq. lia. }
  unfold axis_group. simpl. do 3 f_equal. lia.
Qed.

Lemma axis_group_ids (id : nat) (s : string) (d : option Datum) (a : d3.Axis) :
  ids (axis_group id s d a) = seq id (axis_span a).
Proof.
  unfold axis_group, d3.axis_nodes, axis_span. rewrite ids_node, idsF_cons.
  rewrite tick_nodes_ids. simpl. do 2 f_equal.
  replace (S (id + 1)) with (S (S id)) by lia. reflexivity.
Qed.

Lemma updateAxises_spec (data : Data) (st : State) :
  wf st ->
  updateAxises data st
  = Some (tt, {| svg := axes_tree data st;
                 fresh := fresh st + axis_span (bottom_axis data)
                          + axis_span (left_axis data) |}).
Proof.
  intros [Hnd Hf]. unfold updateAxises.
  change (svgRootElement >>= d3.selectAll ".axis") with (svgSelectAll ".axis").
  erewrite bind_some.
  2:{ erewrite bind_some by apply svgSelectAll_spec. apply remove_spec. }
  cbn [d3.nodes svg fresh]. rewrite present_some.
  unfold axes_tree.
  set (t := prune _ (svg st)).
  assert (Ht : Forall (fun i => i < fresh st) (ids t)).
  { rewrite Forall_forall in *. intros i Hi. apply Hf.
    eapply ids_prune_incl. eassumption. }
  destruct t as [r cs]. cbn [root_elem children].
  erewrite bind_some by (apply axis_group_spec; assumption).
  erewrite bind_some.
  2:{ apply axis_group_spec. rewrite ids_node, idsF_app, idsF_cons.
      rewrite ids_node in Ht. inversion Ht as [|? ? Hr Hcs]; subst.
      constructor; [lia|]. apply Forall_app. split.
      - eapply Forall_impl; [|exact Hcs]. simpl. intros; lia.
      - rewrite app_nil_r, axis_group_ids, Forall_forall.
        intros i Hi. apply in_seq in Hi. unfold axis_span in *.
        lia. }
  unfold ret. rewrite <- app_assoc. cbn [app].
  unfold axis_span. rewrite !Nat.add_assoc. reflexivity.
Qed.

Lemma tick_nodes_nowhere (P : Elem -> bool) (id : nat) (labels : list Text) :
  axis_blind P -> nowhere P (elemsF (d3.tick_nodes id labels)).
Proof.
  intros HP. revert id. induction labels as [|l r IH]; intros id; [constructor|].
  cbn [d3.tick_nodes]. rewrite elemsF_cons. apply nowhere_app. split; [|apply IH].
  unfold d3.tick_node. cbn [elems flat_map app].
  repeat constructor; apply HP.
Qed.

Lemma axis_nodes_nowhere (P : Elem -> bool) (id : nat) (a : d3.Axis) :
  axis_blind P -> nowhere P (elemsF (d3.axis_nodes id a)).
Proof.
  intros HP. unfold d3.axis_nodes. rewrite elemsF_cons.
  apply nowhere_app. split; [|apply tick_nodes_nowhere; assumption].
  cbn [elems flat_map]. repeat constructor; apply HP.
Qed.

Lemma axis_blind_bar : axis_blind is_bar.
Proof. intros id x. repeat split. Qed.

Lemma axis_blind_label : axis_blind is_label.
Proof. intros id x. repeat split. Qed.

Lemma axis_blind_xdiv : axis_blind is_xdiv.
Proof. intros id x. repeat split. Qed.

Lemma axis_blind_axis : axis_blind is_axis.
Proof. intros id x. repeat split. Qed.

Section AxesTree.
Variables (data : Data) (st : State).
Hypothesis Hwf : wf st.

Let A := map eid (selected ".axis" (svg st)).
Let t := prune (outside A) (svg st).
Let g1 := axis_group (fresh st) "translate(0, 285)" (datum (root_elem t))
            (bottom_axis data).
Let g2 := axis_group (fresh st + axis_span (bottom_axis data))
            "translate(25, 0)" (datum (root_elem t)) (left_axis data).

Lemma axes_descendants :
  descendants (axes_tree data st) = descendants t ++ elems g1 ++ elems g2.
Proof.
  unfold axes_tree. fold A t g1 g2. unfold descendants. cbn [children].
  rewrite elemsF_app, !elemsF_cons. unfold elemsF at 2. cbn [flat_map].
  rewrite app_nil_r. reflexivity.
Qed.

Lemma axes_ids :
  ids (axes_tree data st)
  = ids t ++ seq (fresh st)
               (axis_span (bottom_axis data) + axis_span (left_axis data)).
Proof.
  rewrite (ids_eq (axes_tree data st)), axes_descendants, !map_app.
  fold (ids g1) (ids g2). unfold g1, g2. rewrite !axis_group_ids.
  rewrite seq_app, (ids_eq t). reflexivity.
Qed.

Lemma axes_wf :
  wf {| svg := axes_tree data st;
        fresh := fresh st + axis_span (bottom_axis data)
                 + axis_span (left_axis data) |}.
Proof.
  destruct Hwf as [Hnd Hf].
  assert (Ht : Forall (fun i => i < fresh st) (ids t)).
  { rewrite Forall_forall in *. intros i Hi. apply Hf.
    eapply ids_prune_incl. eassumption. }
  split; cbn [svg fresh]; rewrite axes_ids.
  - apply NoDup_fresh_app; [|assumption]. apply prune_nodup. assumption.
  - apply Forall_app. split.
    + eapply Forall_impl; [|exact Ht]. simpl. intros; lia.
    + rewrite Forall_forall. intros i Hi. apply in_seq in Hi. lia.
Qed.

(** No element of class [axis] survives the removal. *)
Lemma pruned_no_axis : nowhere is_axis (descendants t).
Proof.
  unfold nowhere. rewrite Forall_forall. intros e He.
  destruct (is_axis e) eqn:E; [|reflexivity]. exfalso.
  pose proof (descendants_prune_keep _ _ _ He) as Hk.
  apply descendants_prune_incl in He.
  unfold outside in Hk. apply negb_true_iff, mem_false in Hk. apply Hk.
  unfold A. apply in_map. unfold selected, querySelectorAll.
  apply filter_In. split; assumption.
Qed.

Lemma axes_selected :
  selected ".axis" (axes_tree data st) = [root_elem g1; root_elem g2].
Proof.
  unfold selected, querySelectorAll. rewrite axes_descendants, !filter_app.
  change (matches (selector ".axis")) with is_axis.
  rewrite (nowhere_filter pruned_no_axis).
  unfold g1, g2, axis_group. cbn [elems app]. fold (elemsF (d3.axis_nodes (S (fresh st)) (bottom_axis data))).
  fold (elemsF (d3.axis_nodes (S (fresh st + axis_span (bottom_axis data)))
                  (left_axis data))).
  cbn [filter]. 
  rewrite !(nowhere_filter (axis_nodes_nowhere _ _ axis_blind_axis)).
  reflexivity.
Qed.

Lemma axes_top_level (P : Elem -> bool) :
  axis_blind P -> top_level P (svg st) -> top_level P (axes_tree data st).
Proof.
  intros HP Ht. unfold axes_tree. fold A t g1 g2.
  assert (Ht' : top_level P t) by (apply top_level_prune; assumption).
  destruct t as [r cs]. apply top_level_app; [exact Ht'|].
  constructor; [|constructor; [|constructor]];
    apply axis_nodes_nowhere; assumption.
Qed.

Lemma axes_top_level_axis : top_level is_axis (axes_tree data st).
Proof.
  unfold axes_tree. fold A t g1 g2. pose proof pruned_no_axis as Hn.
  destruct t as [r cs]. apply top_level_app.
  - unfold top_level. cbn [children]. unfold descendants in Hn.
    cbn [children] in Hn. clear - Hn. induction cs as [|c rest IH]; constructor.
    + rewrite elemsF_cons, elems_eq in Hn. apply nowhere_app in Hn.
      destruct Hn as [Hn _]. inversion Hn; assumption.
    + apply IH. rewrite elemsF_cons in Hn. apply nowhere_app in Hn. tauto.
  - constructor; [|constructor; [|constructor]];
      apply axis_nodes_nowhere, axis_blind_axis.
Qed.

Lemma axes_nowhere (P : Elem -> bool) :
  axis_blind P -> P (root_elem g1) = false -> P (root_elem g2) = false ->
  nowhere P (descendants (svg st)) ->
  nowhere P (descendants (axes_tree data st)).
Proof.
  intros HP H1 H2 Hn. rewrite axes_descendants.
  apply nowhere_app. split.
  - eapply nowhere_incl; [apply descendants_prune_incl|assumption].
  - rewrite !elems_eq. apply nowhere_app; split; constructor; auto;
      apply axis_nodes_nowhere; assumption.
Qed.

Lemma axes_frame (Q : Elem -> bool) :
  axis_blind Q -> Q (root_elem g1) = false -> Q (root_elem g2) = false ->
  top_level Q (svg st) ->
  filter Q (descendants (axes_tree data st))
  = filter (outside A) (filter Q (descendants (svg st))).
Proof.
  intros HQ H1 H2 Ht. rewrite axes_descendants, !filter_app.
  rewrite (nowhere_filter (l := elems g1)), (nowhere_filter (l := elems g2)).
  - rewrite !app_nil_r. apply filter_descendants_prune. assumption.
  - rewrite elems_eq. constructor; [assumption|].
    apply axis_nodes_nowhere; assumption.
  - rewrite elems_eq. constructor; [assumption|].
    apply axis_nodes_nowhere; assumption.
Qed.
End AxesTree.

(** *** Selecting below an element *)

Lemma subtree_descendants (id : nat) (t n : Node) :
  subtree id t = Some n ->
  forall e, In e (descendants n) -> In e (descendants t).
Proof.
  revert n. induction t as [r cs IH] using Node_ind. intros n Hs e He.
  simpl in Hs. destruct (has_id id r).
  - injection Hs as <-. assumption.
  - unfold descendants. cbn [children].
    induction IH as [|c rest Hc _ IHr]; [discriminate|].
    rewrite elemsF_cons. apply in_or_app.
    destruct (subtree id c) as [n'|] eqn:E.
    + injection Hs as <-. left. rewrite elems_eq. right. eapply Hc; eauto.
    + right. apply IHr. assumption.
Qed.

Lemma find_nowhere (P : Elem -> bool) (l : list Elem) :
  nowhere P l -> List.find P l = None.
Proof.
  induction 1 as [|e r He _ IH]; simpl; [reflexivity|]. rewrite He. assumption.
Qed.

Lemma select_each_none (sel : Selector) (s : list (option nat)) (t : Node) :
  nowhere (matches sel) (descendants t) ->
  d3.select_each sel s t = (map (fun _ => None) s, t).
Proof.
  intros Hn. induction s as [|[id|] r IH]; simpl; [reflexivity| |].
  - unfold d3.select_one.
    destruct (subtree id t) as [n|] eqn:E.
    + unfold querySelector. rewrite find_nowhere.
      * rewrite IH. reflexivity.
      * eapply nowhere_incl; [|exact Hn]. eapply subtree_descendants; eassumption.
    + rewrite IH. reflexivity.
  - rewrite IH. reflexivity.
Qed.

Lemma present_all_none {A B} (s : list A) :
  present (map (fun _ => @None B) s) = [].
Proof. induction s; simpl; auto. Qed.

Lemma select_text_none (data : Data) (s : d3.Selection) (st : State) :
  nowhere is_xdiv (descendants (svg st)) ->
  (ret s >>= d3.select "xhtml\:div" >>= d3.text_fn (fun d => Pts (value d))) st
  = Some ({| d3.nodes := map (fun _ => None) (d3.nodes s);
             d3.parent := d3.parent s |}, st).
Proof.
  intros Hn. unfold bind, ret, d3.select.
  rewrite select_each_none by exact Hn.
  unfold d3.text_fn, d3.for_each. cbn [d3.nodes svg fresh].
  rewrite each_present, present_all_none. simpl. destruct st; reflexivity.
Qed.

(** *** The new labels, stage by stage *)

Lemma lab_nodes_ext (fo fo' : nat -> Datum -> Elem)
  (kids kids' : nat -> Datum -> list Node) (ds : Data) :
  forall f g,
  (forall i d, f <= i < f + List.length ds -> fo i d = fo' i d) ->
  (forall j d, g <= j < g + List.length ds -> kids j d = kids' j d) ->
  lab_nodes fo kids f g ds = lab_nodes fo' kids' f g ds.
Proof.
  induction ds as [|d r IH]; intros f g Hf Hk; [reflexivity|].
  cbn [lab_nodes List.length] in *. rewrite Hf, Hk by lia. f_equal.
  apply IH; intros; [apply Hf|apply Hk]; lia.
Qed.

Lemma lab_nodes_tmap (h : Elem -> Elem) (fo : nat -> Datum -> Elem)
  (kids : nat -> Datum -> list Node) (ds : Data) (f g : nat) :
  map (tmap h) (lab_nodes fo kids f g ds)
  = lab_nodes (fun i d => h (fo i d)) (fun j d => map (tmap h) (kids j d))
              f g ds.
Proof.
  revert f g. induction ds as [|d r IH]; intros f g; [reflexivity|].
  cbn [lab_nodes map tmap]. rewrite IH. reflexivity.
Qed.

Lemma created_lab_nodes (nm : string) (f g : nat) (ds : Data) :
  created nm f ds
  = lab_nodes (fun i d => root_elem (d3.create nm (Some d) i))
              (fun _ _ => []) f g ds.
Proof.
  revert f g. induction ds as [|d r IH]; intros f g; [reflexivity|].
  cbn [created lab_nodes]. rewrite (IH (S f) (S g)). reflexivity.
Qed.

Lemma list_find_app {A} (P : A -> bool) (a b : list A) :
  List.find P (a ++ b)
  = match List.find P a with Some x => Some x | None => List.find P b end.
Proof.
  induction a as [|x r IH]; simpl; [reflexivity|]. destruct (P x); auto.
Qed.

Lemma find_mid (p : nat) (r e : Elem) (pre post ks : list Node) :
  eid r <> p -> ~ In p (idsF pre) -> eid e = p ->
  find p (N r (pre ++ N e ks :: post)) = Some e.
Proof.
  intros Hr Hpre He. unfold find. cbn [elems].
  fold (elemsF (pre ++ N e ks :: post)). rewrite elemsF_app, elemsF_cons.
  cbn [List.find elems].
  destruct (has_id p r) eqn:E; [apply has_id_true in E; contradiction|].
  rewrite list_find_app, (find_none_notin _ _ Hpre). cbn [app List.find].
  assert (E' : has_id p e = true) by (apply has_id_true; assumption).
  rewrite E'. reflexivity.
Qed.

Lemma find_mid_child (j : nat) (r e dv : Elem) (pre post ks ks' : list Node) :
  eid r <> j -> ~ In j (idsF pre) -> eid e <> j -> eid dv = j ->
  find j (N r (pre ++ N e (N dv ks' :: ks) :: post)) = Some dv.
Proof.
  intros Hr Hpre He Hd. unfold find. cbn [elems].
  fold (elemsF (pre ++ N e (N dv ks' :: ks) :: post)).
  rewrite elemsF_app, elemsF_cons. cbn [List.find elems flat_map].
  destruct (has_id j r) eqn:E; [apply has_id_true in E; contradiction|].
  rewrite list_find_app, (find_none_notin _ _ Hpre). cbn [app List.find].
  destruct (has_id j e) eqn:E1; [apply has_id_true in E1; contradiction|].
  assert (E' : has_id j dv = true) by (apply has_id_true; assumption).
  rewrite E'. reflexivity.
Qed.

Lemma setTextContent_mid_child (j : nat) (x : Text) (r e dv : Elem)
  (pre post ks' : list Node) :
  eid r <> j -> ~ In j (idsF pre) -> eid e <> j -> eid dv = j ->
  ~ In j (idsF post) ->
  setTextContent j x (N r (pre ++ N e [N dv ks'] :: post))
  = N r (pre ++ N e [N (with_text (Some x) dv) []] :: post).
Proof.
  intros Hr Hpre He Hd Hpost. cbn [setTextContent].
  destruct (has_id j r) eqn:E; [apply has_id_true in E; contradiction|].
  rewrite map_app, map_setTextContent_absent by assumption.
  cbn [map setTextContent].
  destruct (has_id j e) eqn:E1; [apply has_id_true in E1; contradiction|].
  assert (E' : has_id j dv = true) by (apply has_id_true; assumption).
  rewrite E', map_setTextContent_absent by assumption. reflexivity.
Qed.

Lemma lab_nodes_ids_in (fo : nat -> Datum -> Elem)
  (kids : nat -> Datum -> list Node) (ds : Data) :
  (forall i d, eid (fo i d) = i) ->
  (forall j d i, In i (idsF (kids j d)) -> i = j) ->
  forall f g i,
  In i (idsF (lab_nodes fo kids f g ds)) ->
  f <= i < f + List.length ds \/ g <= i < g + List.length ds.
Proof.
  intros Hfo Hk. induction ds as [|d r IH]; intros f g i Hi; [contradiction|].
  cbn [lab_nodes List.length] in *. rewrite idsF_cons, ids_node in Hi.
  destruct Hi as [Hi|Hi]; [rewrite Hfo in Hi; lia|].
  apply in_app_or in Hi. destruct Hi as [Hi|Hi].
  - apply Hk in Hi. lia.
  - apply IH in Hi. lia.
Qed.

Lemma single_kid_ids (dv : nat -> Datum -> Elem) :
  (forall j d, eid (dv j d) = j) ->
  forall j d i, In i (idsF [N (dv j d) []]) -> i = j.
Proof.
  intros H j d i Hi. unfold idsF, elemsF in Hi. cbn in Hi. rewrite H in Hi.
  destruct Hi as [Hi|[]]. auto.
Qed.

Section NewLabels.
Variables (nm : string) (fo : nat -> Datum -> Elem) (r : Elem).
Hypothesis Hfo_id : forall i d, eid (fo i d) = i.
Hypothesis Hfo_datum : forall i d, datum (fo i d) = Some d.

Lemma append_div (s : list (option nat)) :
  forall (ds : Data) (f g : nat) (pre : list Node),
  present s = seq f (List.length ds) ->
  (forall i, In i (eid r :: idsF pre) -> i < f \/ f + List.length ds <= i) ->
  f + List.length ds <= g ->
  exists s',
    d3.append_each nm s
      {| svg := N r (pre ++ lab_nodes fo (fun _ _ => []) f g ds); fresh := g |}
    = Some (s', {| svg := N r (pre ++ lab_nodes fo
                                 (fun j d => [d3.create nm (Some d) j]) f g ds);
                   fresh := g + List.length ds |})
    /\ present s' = seq g (List.length ds).
Proof.
  induction s as [|[p|] rest IH]; intros ds f g pre Hs Hpre Hg.
  - destruct ds; [|discriminate]. exists []. simpl.
    rewrite Nat.add_0_r. split; reflexivity.
  - destruct ds as [|d ds]; [discriminate|].
    cbn [present flat_map app List.length seq] in Hs. injection Hs as -> Hs.
    cbn [lab_nodes d3.append_each].
    assert (Hr : eid r <> f).
    { specialize (Hpre (eid r) (or_introl eq_refl)). cbn [List.length] in Hpre. lia. }
    assert (Hp : ~ In f (idsF pre)).
    { intros Hin. specialize (Hpre f (or_intror Hin)).
      cbn [List.length] in Hpre. lia. }
    assert (Hpost : ~ In f (idsF (lab_nodes fo (fun _ _ => []) (S f) (S g) ds))).
    { intros Hin. apply lab_nodes_ids_in in Hin; auto; [lia|].
      intros j d' i []. }
    unfold bind at 1. cbn [svg].
    rewrite find_mid by auto.
    unfold bind at 1. unfold d3.new_id at 1. cbn [svg fresh].
    unfold bind at 1. unfold d3.on_tree at 1. cbn [svg fresh].
    rewrite appendChild_mid by auto. cbn [app].
    rewrite Hfo_datum.
    destruct (IH ds (S f) (S g) (pre ++ [N (fo f d) [d3.create nm (Some d) g]]))
      as [s' [E1 E2]].
    + exact Hs.
    + intros i Hi. cbn [List.length] in Hpre.
      destruct Hi as [Hi|Hi]; [specialize (Hpre i (or_introl Hi)); lia|].
      rewrite idsF_app in Hi. apply in_app_or in Hi. destruct Hi as [Hi|Hi].
      * specialize (Hpre i (or_intror Hi)). lia.
      * unfold idsF, elemsF in Hi. cbn in Hi. rewrite Hfo_id in Hi.
        cbn [List.length] in Hg.
        destruct Hi as [Hi|[Hi|[]]]; lia.
    + cbn [List.length] in Hg. lia.
    + exists (Some g :: s'). rewrite <- !app_assoc in E1. cbn [app] in E1.
      unfold bind at 1. rewrite E1. unfold ret. split.
      * cbn [List.length]. rewrite Nat.add_succ_r. reflexivity.
      * cbn [List.length seq]. rewrite <- E2. reflexivity.
  - cbn [d3.append_each]. cbn [present flat_map app] in Hs.
    destruct (IH ds f g pre Hs Hpre Hg) as [s' [E1 E2]].
    exists (None :: s'). unfold bind at 1. rewrite E1. unfold ret.
    split; [reflexivity|exact E2].
Qed.

Variable dv : nat -> Datum -> Elem.
Variable txt : Datum -> Text.
Hypothesis Hdv_id : forall j d, eid (dv j d) = j.
Hypothesis Hdv_datum : forall j d, datum (dv j d) = Some d.

Lemma text_div (s : list (option nat)) :
  forall (ds : Data) (f g : nat) (pre : list Node),
  present s = seq g (List.length ds) ->
  (forall i, In i (eid r :: idsF pre) -> i < g \/ g + List.length ds <= i) ->
  f + List.length ds <= g ->
  d3.each (fun id => d3.callback (fun d => setTextContent id (txt d)) id) s
    (N r (pre ++ lab_nodes fo (fun j d => [N (dv j d) []]) f g ds))
  = Some (N r (pre ++ lab_nodes fo
                 (fun j d => [N (with_text (Some (txt d)) (dv j d)) []])
                 f g ds)).
Proof.
  induction s as [|[p|] rest IH]; intros ds f g pre Hs Hpre Hf.
  - destruct ds; [|discriminate]. reflexivity.
  - destruct ds as [|d ds]; [discriminate|].
    cbn [present flat_map app List.length seq] in Hs. injection Hs as -> Hs.
    cbn [lab_nodes d3.each List.length] in *.
    assert (Hr : eid r <> g).
    { specialize (Hpre (eid r) (or_introl eq_refl)). lia. }
    assert (Hp : ~ In g (idsF pre)).
    { intros Hin. specialize (Hpre g (or_intror Hin)). lia. }
    assert (He : eid (fo f d) <> g) by (rewrite Hfo_id; lia).
    assert (Hpost : ~ In g (idsF (lab_nodes fo (fun j d => [N (dv j d) []])
                                    (S f) (S g) ds))).
    { intros Hin. apply lab_nodes_ids_in in Hin; auto; [lia|].
      apply single_kid_ids. assumption. }
    unfold d3.callback at 1.
    rewrite find_mid_child by auto. rewrite Hdv_datum.
    rewrite setTextContent_mid_child by auto.
    specialize (IH ds (S f) (S g)
      (pre ++ [N (fo f d) [N (with_text (Some (txt d)) (dv g d)) []]])).
    rewrite <- !app_assoc in IH. cbn [app] in IH. apply IH.
    + exact Hs.
    + intros i Hi.
      destruct Hi as [Hi|Hi]; [specialize (Hpre i (or_introl Hi)); lia|].
      rewrite idsF_app in Hi. apply in_app_or in Hi. destruct Hi as [Hi|Hi].
      * specialize (Hpre i (or_intror Hi)). lia.
      * unfold idsF, elemsF in Hi. cbn in Hi. rewrite Hfo_id, Hdv_id in Hi.
        destruct Hi as [Hi|[Hi|[]]]; lia.
    + lia.
  - cbn [d3.each]. cbn [present flat_map app] in Hs. apply IH; assumption.
Qed.
End NewLabels.

Lemma select_none_spec (s : d3.Selection) (st : State) :
  nowhere is_xdiv (descendants (svg st)) ->
  d3.select "xhtml\:div" s st
  = Some ({| d3.nodes := map (fun _ => None) (d3.nodes s);
             d3.parent := d3.parent s |}, st).
Proof.
  intros Hn. unfold d3.select. rewrite select_each_none by exact Hn.
  destruct st; reflexivity.
Qed.

Lemma text_none_spec (f : Datum -> Text) (l : list (option nat))
  (p : option nat) (st : State) :
  d3.text_fn f {| d3.nodes := map (fun _ => None) l; d3.parent := p |} st
  = Some ({| d3.nodes := map (fun _ => None) l; d3.parent := p |}, st).
Proof.
  unfold d3.text_fn, d3.for_each. cbn [d3.nodes].
  rewrite each_present, present_all_none. destruct st; reflexivity.
Qed.

(** *** [updateLabels] *)

Lemma stylish_label_class (d : Datum) : stylish (label_class d).
Proof.
  unfold label_class. apply stylish_comp; apply stylish_if;
    auto using stylish_classList_add, stylish_classList_remove.
Qed.

(** The tree right after the data is bound. *)
Lemma bound_tree_eq (sel : string) (data : Data) (st : State) :
  wf st ->
  N (root_elem (svg st))
    (map (tmap (bindf (combine (map eid (selected sel (svg st))) data)))
         (children (svg st)))
  = tmap (bindf (combine (map eid (selected sel (svg st))) data)) (svg st).
Proof.
  intros Hwf. destruct (svg st) as [r cs] eqn:Et. simpl. f_equal.
  symmetry. apply bindf_absent. intros Hin. apply in_combine_fst in Hin.
  apply (wf_root_not_selected sel Hwf). rewrite Et. assumption.
Qed.

Lemma update_bound (sel : string) (data : Data) (st : State) :
  bound (firstn (List.length data) (map eid (selected sel (svg st))))
        (tmap (bindf (combine (map eid (selected sel (svg st))) data)) (svg st)).
Proof.
  intros e He Hi. rewrite elems_tmap in He. apply in_map_iff in He.
  destruct He as [x [<- Hx]]. rewrite bindf_eid in Hi.
  unfold bindf. pose proof (@assoc_nat_combine_head _ data _ Hi) as Ha.
  destruct (assoc_nat _ _); [discriminate|congruence].
Qed.

Lemma firstn_nodup {A} (n : nat) (l : list A) : NoDup l -> NoDup (firstn n l).
Proof.
  intros H. rewrite <- (firstn_skipn n l) in H.
  eapply NoDup_app_remove_r. eassumption.
Qed.

Lemma tmap_root_fixed (h : Elem -> Elem) (t : Node) :
  h (root_elem t) = root_elem t ->
  tmap h t = N (root_elem t) (map (tmap h) (children t)).
Proof. destruct t as [r cs]. simpl. intros ->. reflexivity. Qed.

Lemma lab_nodes_nodup (fo : nat -> Datum -> Elem) (dv : nat -> Datum -> Elem)
  (ds : Data) :
  (forall i d, eid (fo i d) = i) -> (forall j d, eid (dv j d) = j) ->
  forall f g, f + List.length ds <= g ->
  NoDup (idsF (lab_nodes fo (fun j d => [N (dv j d) []]) f g ds)).
Proof.
  intros Hfo Hdv. induction ds as [|d r IH]; intros f g Hg; [constructor|].
  cbn [lab_nodes List.length] in *. rewrite idsF_cons, ids_node.
  unfold idsF at 1, elemsF at 1. cbn [flat_map elems map app].
  rewrite Hfo, Hdv.
  assert (Hin : forall i, In i (idsF (lab_nodes fo (fun j d => [N (dv j d) []])
                                        (S f) (S g) r)) ->
                          S f <= i < S f + List.length r
                          \/ S g <= i < S g + List.length r).
  { intros i. apply lab_nodes_ids_in; [assumption|].
    apply single_kid_ids. assumption. }
  constructor; [|constructor].
  - intros [H|H]; [lia|]. apply Hin in H. lia.
  - intros H. apply Hin in H. lia.
  - apply IH. lia.
Qed.

Lemma lab_nodes_bound (fo : nat -> Datum -> Elem) (dv : nat -> Datum -> Elem)
  (ds : Data) (f g : nat) :
  (forall i d, datum (fo i d) = Some d) -> (forall j d, datum (dv j d) = Some d) ->
  Forall (fun e => datum e <> None)
         (elemsF (lab_nodes fo (fun j d => [N (dv j d) []]) f g ds)).
Proof.
  intros Hfo Hdv. revert f g. induction ds as [|d r IH]; intros f g; [constructor|].
  cbn [lab_nodes]. rewrite elemsF_cons. cbn [elems flat_map app].
  constructor; [rewrite Hfo; discriminate|].
  constructor; [rewrite Hdv; discriminate|]. apply IH.
Qed.

Lemma fo_elem_id (data : Data) (i : nat) (d : Datum) : eid (fo_elem data i d) = i.
Proof. unfold fo_elem. rewrite (stylish_eid (stylish_geometry data d)). reflexivity. Qed.

Lemma fo_elem_datum (data : Data) (i : nat) (d : Datum) :
  datum (fo_elem data i d) = Some d.
Proof. unfold fo_elem. rewrite (stylish_datum (stylish_geometry data d)). reflexivity. Qed.

Lemma styled_div_id (j : nat) (d : Datum) : eid (styled_div j d) = j.
Proof.
  unfold styled_div. rewrite (stylish_eid (stylish_label_class d)).
  rewrite (stylish_eid (stylish_classList_add "label")). reflexivity.
Qed.

Lemma styled_div_datum (j : nat) (d : Datum) : datum (styled_div j d) = Some d.
Proof.
  unfold styled_div. rewrite (stylish_datum (stylish_label_class d)).
  rewrite (stylish_datum (stylish_classList_add "label")). reflexivity.
Qed.

Section NewLabelsPipeline.
Variables (data : Data) (r : Elem) (pre : list Node) (f : nat).
Variable en : list (option Datum).
Hypothesis Hnd : NoDup (ids (N r pre)).
Hypothesis Hlt : Forall (fun i => i < f) (ids (N r pre)).

Let ds := present en.
Let k := List.length ds.

Lemma pre_lt (e : Elem) : In e (elems (N r pre)) -> eid e < f.
Proof.
  intros He. rewrite Forall_forall in Hlt. apply Hlt. unfold ids.
  apply in_map. assumption.
Qed.

Lemma pre_fixed (h : Elem -> Elem) :
  (forall e, eid e < f -> h e = e) ->
  forall tl, tmap h (N r (pre ++ tl)) = N r (pre ++ map (tmap h) tl).
Proof.
  intros Hh tl. apply tmap_appended.
  - apply Hh, pre_lt. left. reflexivity.
  - intros e He. apply Hh, pre_lt. right. exact He.
Qed.

Lemma new_labels_spec {A} (K : M A) :
  (entered <- d3.enter_append "foreignObject" (en, Some (eid r)) ;;
   _ <- setSizeAndPositionToRect entered (Some data)
        >>= d3.append "xhtml:div"
        >>= d3.classed "label" true
        >>= d3.classed_fn "primaryLabel" (fun d => flag (primary d))
        >>= d3.classed_fn "secondaryLabel" (fun d => negb (flag (primary d)))
        >>= d3.text_fn (fun d => Pts (value d)) ;;
   K) {| svg := N r pre; fresh := f |}
  = K {| svg := N r (pre ++ lab_nodes (fo_elem data)
                              (fun j d => [N (div_elem j d) []])
                              f (f + k) ds);
         fresh := f + 2 * k |}.
Proof.
  unfold d3.enter_append. cbn [fst snd].
  erewrite bind_some.
  2:{ erewrite bind_some by apply append_to_root. reflexivity. }
  fold ds k.
  set (entered := {| d3.nodes := relabel en f; d3.parent := Some (eid r) |}).
  assert (HE : present (d3.nodes entered) = seq f k)
    by apply relabel_present.
  set (T2 := N r (pre ++ created "foreignObject" f ds)).
  assert (I2 : ids T2 = ids (N r pre) ++ seq f k).
  { unfold T2. rewrite !ids_node, idsF_app. unfold idsF at 2.
    rewrite created_elems, created_ids. reflexivity. }
  assert (N2 : NoDup (ids T2)) by (rewrite I2; apply NoDup_fresh_app; assumption).
  assert (B2 : bound (seq f k) T2).
  { intros e He Hi. unfold T2 in He. rewrite elems_eq in He.
    unfold descendants in He. cbn [root_elem children] in He.
    rewrite elemsF_app, created_elems in He. apply in_seq in Hi.
    destruct He as [He|He].
    - subst e. pose proof (@pre_lt r (or_introl eq_refl)). lia.
    - apply in_app_or in He. destruct He as [He|He].
      + pose proof (@pre_lt e (or_intror He)). lia.
      + assert (H : In (datum e) (map datum (map root_elem
                          (created "foreignObject" f ds))))
          by (apply in_map; assumption).
        rewrite created_data in H. apply in_map_iff in H.
        destruct H as [d [Hd _]]. congruence. }
  set (g := f + k).
  assert (Hfo : ids (N r pre) = eid r :: idsF pre) by reflexivity.
  destruct (@append_div "xhtml:div" (fo_elem data) r (fo_elem_id data)
              (fo_elem_datum data) (relabel en f) ds f g pre)
    as [s' [E1 E2]].
  { apply relabel_present. }
  { intros i Hi. left. rewrite Forall_forall in Hlt. apply Hlt. exact Hi. }
  { unfold g, k. lia. }
  fold k in E1, E2.
  (* the new labels are placed *)
  unfold bind.
  rewrite setSize_spec; cbn [svg]; rewrite ?HE;
    [|apply seq_NoDup|exact N2|exact B2].
  cbn [svg fresh]. unfold T2.
  rewrite pre_fixed.
  2:{ intros e He. apply on_miss. apply mem_false.
      intros Hin. apply in_seq in Hin. lia. }
  rewrite (created_lab_nodes _ f g ds), lab_nodes_tmap.
  rewrite (lab_nodes_ext _ (fo_elem data) _ (fun _ _ => [])).
  2:{ intros i d Hi. apply on_hit; [|reflexivity].
      apply mem_true, in_seq. cbn [d3.create root_elem eid].
      fold k in Hi. lia. }
  2:{ reflexivity. }
  unfold d3.append, bind. cbn [d3.nodes entered]. rewrite E1. unfold ret.
  cbn [d3.parent].
  change (fun (j : nat) (d : Datum) => [d3.create "xhtml:div" (Some d) j])
    with (fun (j : nat) (d : Datum) => [N (new_div j d) []]).
  set (T4 := N r (pre ++ lab_nodes (fo_elem data)
                          (fun j d => [N (new_div j d) []]) f g ds)).
  set (sd := {| d3.nodes := s'; d3.parent := Some (eid r) |}).
  assert (Hin4 : forall i, In i (idsF (lab_nodes (fo_elem data)
                             (fun j d => [N (new_div j d) []]) f g ds)) ->
                           f <= i).
  { intros i Hi. apply lab_nodes_ids_in in Hi.
    - unfold g in Hi. lia.
    - apply fo_elem_id.
    - apply single_kid_ids. reflexivity. }
  assert (N4 : NoDup (ids T4)).
  { unfold T4. rewrite ids_node, idsF_app, app_comm_cons.
    apply NoDup_app; [exact Hnd| |].
    - apply lab_nodes_nodup; [apply fo_elem_id|reflexivity|unfold g, k; lia].
    - intros i Hi Hi'. apply Hin4 in Hi'. rewrite Forall_forall in Hlt.
      apply Hlt in Hi. lia. }
  assert (B4 : bound (seq g k) T4).
  { intros e He Hi. apply in_seq in Hi. unfold T4 in He.
    rewrite elems_eq in He. unfold descendants in He.
    cbn [root_elem children] in He. rewrite elemsF_app in He.
    destruct He as [He|He].
    - subst e. pose proof (@pre_lt r (or_introl eq_refl)). unfold g in Hi. lia.
    - apply in_app_or in He. destruct He as [He|He].
      + pose proof (@pre_lt e (or_intror He)). unfold g in Hi. lia.
      + pose proof (lab_nodes_bound (fo_elem data) new_div ds f g
                      (fo_elem_datum data) (fun j d => eq_refl)) as Hb.
        rewrite Forall_forall in Hb. apply Hb. exact He. }
  assert (HD : present (d3.nodes sd) = seq g k) by exact E2.
  rewrite (classed_spec sd) by (rewrite HD; apply seq_NoDup).
  cbn [svg fresh]. rewrite HD.
  set (h1 := fun e => if mem (eid e) (seq g k)
                      then (if true then classList_add "label"
                            else classList_remove "label") e else e).
  assert (S1 : stylish h1).
  { intros e. unfold h1. destruct (mem _ _); [|auto].
    apply stylish_classList_add. }
  rewrite classed_fn_spec; cbn [svg fresh]; rewrite ?HD;
    [|apply seq_NoDup
     |rewrite ids_tmap; [exact N4|apply stylish_eid, S1]
     |apply bound_tmap; [exact S1|exact B4]].
  set (h2 := on (seq g k) (fun d =>
               if flag (primary d) then classList_add "primaryLabel"
               else classList_remove "primaryLabel")).
  assert (S2 : stylish h2).
  { apply stylish_on. intros d. apply stylish_if;
      [apply stylish_classList_add|apply stylish_classList_remove]. }
  rewrite classed_fn_spec; cbn [svg fresh]; rewrite ?HD;
    [|apply seq_NoDup
     |rewrite !ids_tmap; [exact N4|apply stylish_eid, S1|apply stylish_eid, S2]
     |repeat apply bound_tmap; [exact S2|exact S1|exact B4]].
  set (h3 := on (seq g k) (fun d =>
               if negb (flag (primary d)) then classList_add "secondaryLabel"
               else classList_remove "secondaryLabel")).
  rewrite !tmap_tmap. unfold T4.
  rewrite pre_fixed.
  2:{ intros e He.
      assert (Hm : mem (eid e) (seq g k) = false).
      { apply mem_false. intros Hin. apply in_seq in Hin. unfold g in Hin. lia. }
      unfold h3, h2, h1. rewrite Hm. rewrite !(on_miss _ _ _ Hm). reflexivity. }
  rewrite lab_nodes_tmap.
  rewrite (lab_nodes_ext _ (fo_elem data) _ (fun j d => [N (styled_div j d) []])).
  2:{ intros i d Hi.
      assert (Hm : mem (eid (fo_elem data i d)) (seq g k) = false).
      { rewrite fo_elem_id. apply mem_false. intros Hin. apply in_seq in Hin.
        unfold g in Hin. fold k in Hi. lia. }
      unfold h3, h2, h1. rewrite Hm. rewrite !(on_miss _ _ _ Hm). reflexivity. }
  2:{ intros j d Hj. cbn [map tmap]. do 2 f_equal.
      assert (Hm : mem j (seq g k) = true).
      { apply mem_true, in_seq. fold k in Hj. lia. }
      unfold h3, h2, h1, on. cbn [new_div d3.create root_elem eid].
      rewrite Hm.
      rewrite (stylish_eid (stylish_classList_add "label")). cbn [eid].
      rewrite Hm.
      rewrite (stylish_datum (stylish_classList_add "label")). cbn [datum].
      match goal with
      | |- context [mem (eid ?x) (seq g k)] =>
          replace (mem (eid x) (seq g k)) with true
            by (rewrite (stylish_eid (stylish_if _ (stylish_classList_add _)
                                       (stylish_classList_remove _)));
                rewrite (stylish_eid (stylish_classList_add "label"));
                symmetry; exact Hm)
      end.
      rewrite (stylish_datum (stylish_if _ (stylish_classList_add _)
                                (stylish_classList_remove _))).
      rewrite (stylish_datum (stylish_classList_add "label")). cbn [datum].
      reflexivity. }
  unfold d3.text_fn, d3.for_each. cbn [d3.nodes sd svg fresh].
  rewrite (@text_div (fo_elem data) r (fo_elem_id data) styled_div
             (fun d => Pts (value d)) styled_div_id styled_div_datum).
  - f_equal. f_equal. unfold g. lia.
  - exact E2.
  - intros i Hi. left. rewrite Forall_forall in Hlt. apply Hlt in Hi.
    unfold g. lia.
  - unfold g, k. lia.
Qed.
End NewLabelsPipeline.

Lemma updateLabels_spec (data : Data) (st : State) :
  wf st -> nowhere is_xdiv (descendants (svg st)) ->
  updateLabels data st
  = Some (tt, {| svg := labels_tree data st;
                 fresh := fresh st
                          + 2 * (List.length data
                                 - List.length (selected "foreignObject" (svg st))) |}).
Proof.
  intros Hwf Hx. unfold updateLabels, svgForeignObjectElements.
  erewrite bind_some by (apply join_spec; assumption).
  cbn [d3.update d3.enter d3.exit d3.enter_data d3.exit_nodes d3.parent].
  rewrite bound_tree_eq by assumption.
  set (R := map eid (selected "foreignObject" (svg st))).
  set (al := combine R data).
  set (n := List.length data).
  set (upd := {| d3.nodes := d3.join_update (map Some R) data; d3.parent := _ |}).
  assert (HU : present (d3.nodes upd) = firstn n R)
    by apply join_update_present.
  assert (HR : NoDup R) by (apply selected_nodup, Hwf).
  assert (Hb : forall e, eid (bindf al e) = eid e) by apply bindf_eid.
  (* the first labels are placed again *)
  erewrite bind_some.
  2:{ erewrite bind_some.
      2:{ erewrite bind_some.
          2:{ apply setSize_spec; cbn [svg]; rewrite ?HU.
              - apply firstn_nodup. assumption.
              - rewrite ids_tmap by assumption. apply Hwf.
              - apply update_bound. }
          apply select_none_spec. cbn [svg].
          rewrite !descendants_tmap.
          apply (@nowhere_map is_xdiv (on (present (d3.nodes upd)) (geometry data))).
          { intros e. apply (@matches_tag_stylish "xhtml:div").
            apply stylish_on, stylish_geometry. }
          apply nowhere_map; [intros e; apply matches_tag_bindf|assumption]. }
      apply text_none_spec. }
  cbn [svg fresh]. rewrite HU, tmap_tmap.
  set (H := fun e => on (firstn n R) (geometry data) (bindf al e)).
  assert (SH : forall e, eid (H e) = eid e).
  { intros e. unfold H.
    rewrite (stylish_eid (stylish_on _ _ (stylish_geometry data))). apply Hb. }
  assert (Hroot : H (root_elem (svg st)) = root_elem (svg st)).
  { unfold H. rewrite bindf_absent.
    - apply on_miss, mem_false. intros Hin. apply in_firstn in Hin.
      apply (wf_root_not_selected "foreignObject" Hwf Hin).
    - intros Hin. apply in_combine_fst in Hin.
      apply (wf_root_not_selected "foreignObject" Hwf Hin). }
  assert (Hids : ids (N (root_elem (svg st)) (map (tmap H) (children (svg st))))
                 = ids (svg st)).
  { rewrite <- tmap_root_fixed by exact Hroot. apply ids_tmap. exact SH. }
  rewrite (tmap_root_fixed H (svg st) Hroot).
  etransitivity.
  { apply (@new_labels_spec data (root_elem (svg st))
             (map (tmap H) (children (svg st))) (fresh st)
             (d3.join_enter (map Some R) data));
      rewrite Hids; apply Hwf. }
  rewrite remove_spec. cbn [svg fresh d3.nodes d3.exit d3.exit_nodes].
  rewrite join_exit_present, join_enter_present, length_skipn.
  unfold R. rewrite length_map. reflexivity.
Qed.

(** *** Trees of the shape a redraw leaves *)

Section Shape.
Variables (st : State) (H : Elem -> Elem) (news : list Node) (X : list nat).

Let T := N (root_elem (svg st)) (map (tmap H) (children (svg st)) ++ news).
Let G := prune (outside X) T.

Lemma shape_descendants :
  descendants T = map H (descendants (svg st)) ++ elemsF news.
Proof.
  unfold T, descendants. cbn [children]. rewrite elemsF_app, elemsF_tmap.
  reflexivity.
Qed.

Lemma shape_top_level (P : Elem -> bool) :
  (forall e, P (H e) = P e) -> top_level P (svg st) ->
  Forall (fun c => nowhere P (descendants c)) news ->
  top_level P G.
Proof.
  intros HP Ht Hn. unfold G. apply top_level_prune. unfold T.
  apply top_level_app; [|assumption].
  apply (top_level_tmap H) in Ht; [|assumption].
  destruct (svg st) as [r cs]. exact Ht.
Qed.

Lemma shape_nowhere (P : Elem -> bool) :
  (forall e, P (H e) = P e) -> nowhere P (descendants (svg st)) ->
  nowhere P (elemsF news) -> nowhere P (descendants G).
Proof.
  intros HP Ht Hn. unfold G.
  eapply nowhere_incl; [apply descendants_prune_incl|].
  rewrite shape_descendants. apply nowhere_app. split; [|assumption].
  apply nowhere_map; assumption.
Qed.

Lemma shape_frame (Q : Elem -> bool) :
  (forall e, Q (H e) = Q e) -> top_level Q (svg st) ->
  Forall (fun c => nowhere Q (descendants c)) news ->
  nowhere Q (elemsF news) ->
  (forall e, In e (descendants (svg st)) -> Q e = true ->
             H e = e /\ ~ In (eid e) X) ->
  filter Q (descendants G) = filter Q (descendants (svg st)).
Proof.
  intros HQ Ht Hn1 Hn2 Hfix. unfold G.
  rewrite filter_descendants_prune.
  2:{ unfold T. apply top_level_app; [|assumption].
      apply (top_level_tmap H) in Ht; [|assumption].
      destruct (svg st) as [r cs]. exact Ht. }
  rewrite shape_descendants, filter_app, (nowhere_filter Hn2), app_nil_r.
  rewrite filter_map_comm by assumption.
  rewrite (map_ext_in _ (fun e => e)), map_id.
  - apply filter_outside_none. intros e He. apply filter_In in He.
    apply Hfix; tauto.
  - intros e He. apply filter_In in He. apply Hfix; tauto.
Qed.

Lemma shape_wf (f' : nat) :
  (forall e, eid (H e) = eid e) -> wf st -> NoDup (idsF news) ->
  Forall (fun i => fresh st <= i < f') (idsF news) -> fresh st <= f' ->
  wf {| svg := G; fresh := f' |}.
Proof.
  intros He [Hnd Hf] Hn Hr Hle.
  assert (Hi : ids T = ids (svg st) ++ idsF news).
  { rewrite (ids_eq T), shape_descendants, map_app, map_map.
    rewrite (map_ext _ eid He), ids_eq. reflexivity. }
  split; cbn [svg fresh].
  - unfold G. apply prune_nodup. rewrite Hi. apply NoDup_app; auto.
    intros i Hi1 Hi2. rewrite Forall_forall in Hf, Hr.
    apply Hf in Hi1. apply Hr in Hi2. lia.
  - rewrite Forall_forall in *. intros i Hin. unfold G in Hin.
    apply ids_prune_incl in Hin. rewrite Hi in Hin.
    apply in_app_or in Hin. destruct Hin as [Hin|Hin].
    + apply Hf in Hin. lia.
    + apply Hr in Hin. lia.
Qed.
End Shape.

(** *** The labels after [updateLabels] *)

Lemma lab_nodes_roots_ids (fo : nat -> Datum -> Elem)
  (kids : nat -> Datum -> list Node) (ds : Data) (f g : nat) :
  (forall i d, eid (fo i d) = i) ->
  map eid (map root_elem (lab_nodes fo kids f g ds)) = seq f (List.length ds).
Proof.
  intros Hfo. revert f g. induction ds as [|d r IH]; intros f g; [reflexivity|].
  cbn [lab_nodes map root_elem List.length seq]. rewrite Hfo, IH. reflexivity.
Qed.

Lemma lab_nodes_roots_data (fo : nat -> Datum -> Elem)
  (kids : nat -> Datum -> list Node) (ds : Data) (f g : nat) :
  (forall i d, datum (fo i d) = Some d) ->
  map datum (map root_elem (lab_nodes fo kids f g ds)) = map Some ds.
Proof.
  intros Hfo. revert f g. induction ds as [|d r IH]; intros f g; [reflexivity|].
  cbn [lab_nodes map root_elem]. rewrite Hfo, IH. reflexivity.
Qed.

Lemma lab_nodes_filter (P : Elem -> bool) (fo dv : nat -> Datum -> Elem)
  (ds : Data) (f g : nat) :
  (forall i d, P (fo i d) = true) -> (forall j d, P (dv j d) = false) ->
  filter P (elemsF (lab_nodes fo (fun j d => [N (dv j d) []]) f g ds))
  = map root_elem (lab_nodes fo (fun j d => [N (dv j d) []]) f g ds).
Proof.
  intros Hfo Hdv. revert f g. induction ds as [|d r IH]; intros f g; [reflexivity|].
  cbn [lab_nodes map root_elem]. rewrite elemsF_cons. cbn [elems flat_map app filter].
  rewrite Hfo, Hdv, IH. reflexivity.
Qed.

Lemma lab_nodes_nowhere (P : Elem -> bool) (fo dv : nat -> Datum -> Elem)
  (ds : Data) (f g : nat) :
  (forall i d, P (fo i d) = false) -> (forall j d, P (dv j d) = false) ->
  nowhere P (elemsF (lab_nodes fo (fun j d => [N (dv j d) []]) f g ds)).
Proof.
  intros Hfo Hdv. revert f g. induction ds as [|d r IH]; intros f g; [constructor|].
  cbn [lab_nodes]. rewrite elemsF_cons. cbn [elems flat_map app].
  constructor; [apply Hfo|]. constructor; [apply Hdv|]. apply IH.
Qed.

Lemma lab_nodes_below (P : Elem -> bool) (fo dv : nat -> Datum -> Elem)
  (ds : Data) (f g : nat) :
  (forall j d, P (dv j d) = false) ->
  Forall (fun c => nowhere P (descendants c))
         (lab_nodes fo (fun j d => [N (dv j d) []]) f g ds).
Proof.
  intros Hdv. revert f g. induction ds as [|d r IH]; intros f g; [constructor|].
  cbn [lab_nodes]. constructor; [|apply IH].
  unfold descendants, elemsF. cbn. constructor; [apply Hdv|constructor].
Qed.

Lemma div_elem_tag (j : nat) (d : Datum) : tag (div_elem j d) = "div".
Proof.
  unfold div_elem. cbn [with_text tag].
  rewrite (stylish_tag (stylish_label_class d)).
  rewrite (stylish_tag (stylish_classList_add "label")). reflexivity.
Qed.

Lemma div_elem_id (j : nat) (d : Datum) : eid (div_elem j d) = j.
Proof. unfold div_elem. cbn [with_text eid]. apply styled_div_id. Qed.

Lemma fo_elem_tag (data : Data) (i : nat) (d : Datum) :
  tag (fo_elem data i d) = "foreignObject".
Proof.
  unfold fo_elem. rewrite (stylish_tag (stylish_geometry data d)). reflexivity.
Qed.

Lemma is_label_tag (e : Elem) : is_label e = String.eqb (tag e) "foreignObject".
Proof. reflexivity. Qed.

Lemma is_bar_tag (e : Elem) : is_bar e = String.eqb (tag e) "rect".
Proof. reflexivity. Qed.

Lemma is_xdiv_tag (e : Elem) : is_xdiv e = String.eqb (tag e) "xhtml:div".
Proof. reflexivity. Qed.

Lemma is_axis_class (e : Elem) : is_axis e = has_class "axis" e.
Proof. reflexivity. Qed.

Lemma labels_tree_eq (data : Data) (st : State) :
  labels_tree data st
  = prune (outside (exit_ids "foreignObject" data st))
      (N (root_elem (svg st))
         (map (tmap (place data st)) (children (svg st)) ++ new_labels data st)).
Proof. reflexivity. Qed.

Lemma place_stylish_tag (tg : string) (data : Data) (st : State) (e : Elem) :
  matches (ByTag tg) (place data st e) = matches (ByTag tg) e.
Proof.
  unfold place.
  rewrite (@matches_tag_stylish tg _ _ (stylish_on _ _ (stylish_geometry data))).
  apply matches_tag_bindf.
Qed.

Lemma place_eid (data : Data) (st : State) (e : Elem) :
  eid (place data st e) = eid e.
Proof.
  unfold place. rewrite (stylish_eid (stylish_on _ _ (stylish_geometry data))).
  apply bindf_eid.
Qed.

Section LabelsTree.
Variables (data : Data) (st : State).
Hypothesis Hwf : wf st.
Hypothesis Htop : top_level is_label (svg st).

Let m := List.length (selected "foreignObject" (svg st)).
Let news := skipn m data.

Lemma labels_selected :
  selected "foreignObject" (labels_tree data st)
  = zip_style (geometry data) (selected "foreignObject" (svg st)) data
    ++ map root_elem (new_labels data st).
Proof.
  unfold selected at 1, querySelectorAll. rewrite labels_tree_eq.
  change (matches (selector "foreignObject")) with is_label.
  rewrite filter_descendants_prune.
  2:{ apply top_level_app.
      - apply (top_level_tmap (place data st)) in Htop.
        + destruct (svg st) as [r cs]. exact Htop.
        + intros e. apply place_stylish_tag.
      - apply lab_nodes_below. intros j d. rewrite is_label_tag, div_elem_tag. reflexivity. }
  rewrite shape_descendants, !filter_app.
  rewrite filter_map_comm by (intros e; apply place_stylish_tag).
  unfold new_labels at 1.
  rewrite (lab_nodes_filter is_label).
  2:{ intros i d. rewrite is_label_tag, fo_elem_tag. reflexivity. }
  2:{ intros j d. rewrite is_label_tag, div_elem_tag. reflexivity. }
  f_equal.
  - rewrite <- (@zip_old (geometry data) (fresh st) 0
                   (selected "foreignObject" (svg st))).
    + cbn [seq]. rewrite app_nil_r, map_map. reflexivity.
    + apply stylish_geometry.
    + apply selected_nodup, Hwf.
    + intros e He. eapply wf_selected_lt; [eassumption|].
      apply in_map. eassumption.
  - apply filter_outside_none. intros e He Hx.
    unfold exit_ids in Hx. apply in_skipn in Hx.
    apply (@wf_selected_lt "foreignObject" st _ Hwf) in Hx.
    assert (Hi : In (eid e) (map eid (map root_elem (new_labels data st))))
      by (apply in_map; exact He).
    unfold new_labels in Hi.
    rewrite lab_nodes_roots_ids in Hi by apply fo_elem_id.
    apply in_seq in Hi. lia.
Qed.

Lemma labels_selected_data :
  map datum (selected "foreignObject" (labels_tree data st)) = map Some data.
Proof.
  rewrite labels_selected, map_app.
  rewrite zip_style_data by apply stylish_geometry.
  unfold new_labels.
  rewrite lab_nodes_roots_data by apply fo_elem_datum.
  rewrite <- map_app, firstn_skipn. reflexivity.
Qed.
End LabelsTree.

(** *** The invariant of the chart *)

Lemma axes_inv (data : Data) (st : State) :
  chart_inv st -> chart_inv (axes_state data st).
Proof.
  intros [Hwf [Hb [Hl Hx]]]. unfold axes_state. repeat split; cbn [svg].
  - apply axes_wf. assumption.
  - apply axes_wf. assumption.
  - apply axes_top_level; [apply axis_blind_bar|assumption].
  - apply axes_top_level; [apply axis_blind_label|assumption].
  - apply axes_nowhere; auto. apply axis_blind_xdiv.
Qed.

Lemma bars_inv (data : Data) (st : State) :
  chart_inv st -> chart_inv (bars_state data st).
Proof.
  intros [Hwf [Hb [Hl Hx]]]. unfold bars_state, bars_tree.
  pose proof (@styled_wf "rect" "rect" (bar_style data) data st
                (stylish_bar_style data) Hwf) as H.
  repeat split; cbn [svg].
  - apply H.
  - apply H.
  - apply (@styled_top_level "rect" "rect" (bar_style data) data st
             (stylish_bar_style data) "rect" Hb).
  - apply (@styled_top_level "rect" "rect" (bar_style data) data st
             (stylish_bar_style data) "foreignObject" Hl).
  - apply (@styled_nowhere_tag "rect" "rect" (bar_style data) data st
             (stylish_bar_style data) "xhtml:div"); [discriminate|exact Hx].
Qed.

Lemma new_labels_ids (data : Data) (st : State) (i : nat) :
  In i (idsF (new_labels data st)) ->
  fresh st <= i
  < fresh st + 2 * (List.length data
                    - List.length (selected "foreignObject" (svg st))).
Proof.
  intros Hi. unfold new_labels in Hi. apply lab_nodes_ids_in in Hi.
  - rewrite length_skipn in Hi. lia.
  - apply fo_elem_id.
  - apply single_kid_ids. apply div_elem_id.
Qed.

Lemma labels_inv (data : Data) (st : State) :
  chart_inv st -> chart_inv (labels_state data st).
Proof.
  intros [Hwf [Hb [Hl Hx]]]. unfold labels_state. rewrite labels_tree_eq.
  assert (W : wf {| svg := prune (outside (exit_ids "foreignObject" data st))
                     (N (root_elem (svg st))
                        (map (tmap (place data st)) (children (svg st))
                         ++ new_labels data st));
                    fresh := fresh st
                      + 2 * (List.length data
                             - List.length (selected "foreignObject" (svg st))) |}).
  { apply shape_wf.
    - apply place_eid.
    - exact Hwf.
    - unfold new_labels. apply lab_nodes_nodup.
      + apply fo_elem_id.
      + apply div_elem_id.
      + rewrite length_skipn. lia.
    - rewrite Forall_forall. intros i Hi. apply new_labels_ids. exact Hi.
    - lia. }
  repeat split; cbn [svg].
  - apply W.
  - apply W.
  - apply shape_top_level; [intros e; apply place_stylish_tag|exact Hb|].
    apply lab_nodes_below. intros j d. rewrite is_bar_tag, div_elem_tag.
    reflexivity.
  - apply shape_top_level; [intros e; apply place_stylish_tag|exact Hl|].
    apply lab_nodes_below. intros j d. rewrite is_label_tag, div_elem_tag.
    reflexivity.
  - apply shape_nowhere; [intros e; apply place_stylish_tag|exact Hx|].
    apply lab_nodes_nowhere.
    + intros i d. rewrite is_xdiv_tag, fo_elem_tag. reflexivity.
    + intros j d. rewrite is_xdiv_tag, div_elem_tag. reflexivity.
Qed.

Lemma updateSvg_spec (arg : option Data) (st : State) :
  chart_inv st ->
  updateSvg arg st = Some (tt, redraw (data_of arg) st).
Proof.
  intros Hinv. unfold updateSvg. fold (data_of arg).
  set (data := data_of arg).
  pose proof (axes_inv data Hinv) as H1.
  pose proof (bars_inv data H1) as H2.
  erewrite bind_some by (apply updateAxises_spec, Hinv).
  erewrite bind_some by (apply updateBars_spec, H1).
  rewrite updateLabels_spec; [reflexivity|apply H2|apply H2].
Qed.

Lemma redraw_inv (data : Data) (st : State) :
  chart_inv st -> chart_inv (redraw data st).
Proof. intros H. apply labels_inv, bars_inv, axes_inv, H. Qed.

(** *** Classes and attributes under the style functions *)

Lemma has_class_add (c c' : string) (e : Elem) :
  c <> c' -> has_class c (classList_add c' e) = has_class c e.
Proof.
  intros Hne. unfold classList_add. destruct (has_class c' e); [reflexivity|].
  unfold has_class. cbn [with_classes classes]. rewrite existsb_app. simpl.
  apply String.eqb_neq in Hne. rewrite Hne. rewrite !orb_false_r. reflexivity.
Qed.

Lemma has_class_add_same (c : string) (e : Elem) :
  has_class c (classList_add c e) = true.
Proof.
  unfold classList_add. destruct (has_class c e) eqn:E; [assumption|].
  unfold has_class. cbn [with_classes classes]. rewrite existsb_app. simpl.
  rewrite String.eqb_refl. rewrite orb_true_r. reflexivity.
Qed.

Lemma existsb_filter_other (c c' : string) (l : list string) :
  c <> c' ->
  existsb (String.eqb c) (filter (fun x => negb (String.eqb c' x)) l)
  = existsb (String.eqb c) l.
Proof.
  intros Hne. induction l as [|x r IH]; [reflexivity|]. simpl.
  destruct (String.eqb_spec c' x) as [E|E]; simpl.
  - subst x. apply String.eqb_neq in Hne. rewrite Hne. exact IH.
  - rewrite IH. reflexivity.
Qed.

Lemma has_class_remove (c c' : string) (e : Elem) :
  c <> c' -> has_class c (classList_remove c' e) = has_class c e.
Proof.
  intros Hne. unfold classList_remove, has_class. cbn [with_classes classes].
  apply existsb_filter_other. assumption.
Qed.

Lemma has_class_remove_same (c : string) (e : Elem) :
  has_class c (classList_remove c e) = false.
Proof.
  unfold classList_remove, has_class. cbn [with_classes classes].
  induction (classes e) as [|x r IH]; [reflexivity|]. simpl.
  destruct (String.eqb_spec c x) as [E|E]; simpl; [exact IH|].
  apply String.eqb_neq in E. rewrite E. exact IH.
Qed.

Lemma classes_setAttribute_num (k : string) (n : number) (e : Elem) :
  classes (setAttribute k (VNum n) e) = classes e.
Proof. reflexivity. Qed.

Lemma classes_set_x (data : Data) (d : Datum) (e : Elem) :
  classes (set_x data d e) = classes e.
Proof. unfold set_x. destruct (option_map _ _) as [[n|s]|]; reflexivity. Qed.

Lemma classes_geometry (data : Data) (d : Datum) (e : Elem) :
  classes (geometry data d e) = classes e.
Proof.
  unfold geometry. rewrite !classes_setAttribute_num. apply classes_set_x.
Qed.

Lemma has_class_geometry (c : string) (data : Data) (d : Datum) (e : Elem) :
  has_class c (geometry data d e) = has_class c e.
Proof. unfold has_class. rewrite classes_geometry. reflexivity. Qed.

Lemma has_class_bar_class (c : string) (d : Datum) (e : Elem) :
  c <> "primaryBar" -> c <> "secondaryBar" ->
  has_class c (bar_class d e) = has_class c e.
Proof.
  intros H1 H2. unfold bar_class.
  destruct (flag (primary d)); cbn [negb];
    repeat first [ rewrite has_class_add by assumption
                 | rewrite has_class_remove by assumption ]; reflexivity.
Qed.

Lemma has_class_bar_style (c : string) (data : Data) (d : Datum) (e : Elem) :
  c <> "primaryBar" -> c <> "secondaryBar" ->
  has_class c (bar_style data d e) = has_class c e.
Proof.
  intros H1 H2. unfold bar_style. rewrite has_class_bar_class by assumption.
  apply has_class_geometry.
Qed.

Lemma has_class_place (c : string) (data : Data) (st : State) (e : Elem) :
  has_class c (place data st e) = has_class c e.
Proof.
  unfold place, on. destruct (mem _ _).
  - destruct (datum (bindf _ e)) eqn:E.
    + rewrite has_class_geometry. unfold bindf.
      destruct (assoc_nat _ _); reflexivity.
    + unfold bindf. destruct (assoc_nat _ _); reflexivity.
  - unfold bindf. destruct (assoc_nat _ _); reflexivity.
Qed.

(** *** The other kinds of element across a redraw *)

Lemma not_selected (sel : string) (st : State) (e : Elem) :
  wf st -> In e (descendants (svg st)) ->
  matches (selector sel) e = false ->
  ~ In (eid e) (map eid (selected sel (svg st))).
Proof.
  intros Hwf He Hm Hin.
  rewrite (@selected_by_id sel (svg st) e (proj1 Hwf) He Hin) in Hm.
  discriminate.
Qed.

Lemma place_fixed (data : Data) (st : State) (e : Elem) :
  ~ In (eid e) (map eid (selected "foreignObject" (svg st))) ->
  place data st e = e.
Proof.
  intros Hn. unfold place. rewrite bindf_absent.
  - apply on_miss, mem_false. intros Hin. apply Hn. eapply in_firstn. eassumption.
  - intros Hin. apply Hn. eapply in_combine_fst. eassumption.
Qed.

Lemma labels_frame (Q : Elem -> bool) (data : Data) (st : State) :
  wf st ->
  (forall e, Q (place data st e) = Q e) -> top_level Q (svg st) ->
  (forall i d, Q (fo_elem data i d) = false) ->
  (forall j d, Q (div_elem j d) = false) ->
  (forall e, In e (descendants (svg st)) -> Q e = true -> is_label e = false) ->
  filter Q (descendants (labels_tree data st)) = filter Q (descendants (svg st)).
Proof.
  intros Hwf HQ Ht Hfo Hdv Hl. rewrite labels_tree_eq. apply shape_frame; auto.
  - apply lab_nodes_below. assumption.
  - apply lab_nodes_nowhere; assumption.
  - intros e He Hq. pose proof (@not_selected "foreignObject" st e Hwf He (Hl e He Hq)) as Hn.
    split; [apply place_fixed; assumption|].
    intros Hin. apply Hn. unfold exit_ids in Hin. eapply in_skipn. eassumption.
Qed.

Lemma bars_frame (Q : Elem -> bool) (data : Data) (st : State) :
  wf st ->
  (forall d e, Q (with_datum d e) = Q e) ->
  (forall d e, Q (bar_style data d e) = Q e) ->
  top_level Q (svg st) ->
  (forall i d, Q (root_elem (d3.create "rect" (Some d) i)) = false) ->
  (forall e, In e (descendants (svg st)) -> Q e = true -> is_bar e = false) ->
  filter Q (descendants (bars_tree data st)) = filter Q (descendants (svg st)).
Proof.
  intros Hwf Hd Hs Ht Hc Hb. unfold bars_tree.
  apply (@styled_frame "rect" "rect" (bar_style data) data st Hwf Q); auto.
  generalize (fresh st) as f.
  induction (skipn _ data) as [|d r IH]; intros f; constructor; auto.
  apply IH.
Qed.

(** *** The chart after a redraw *)

Lemma chart_inv_empty : chart_inv empty_svg.
Proof.
  unfold chart_inv, wf, empty_svg, top_level, nowhere. cbn.
  repeat split; repeat constructor; auto.
Qed.

Lemma tag_not_both (a b : string) (e : Elem) :
  a <> b -> matches (ByTag a) e = true -> matches (ByTag b) e = false.
Proof.
  intros Hne Ha. simpl in *. apply String.eqb_eq in Ha.
  apply String.eqb_neq. congruence.
Qed.

Lemma bars_selected (data : Data) (st : State) :
  wf st -> top_level is_bar (svg st) ->
  selected "rect" (bars_tree data st)
  = zip_style (bar_style data) (selected "rect" (svg st)) data
    ++ map (styled (bar_style data))
         (map root_elem
            (created "rect" (fresh st)
               (skipn (List.length (selected "rect" (svg st))) data))).
Proof.
  intros Hwf Ht. unfold bars_tree.
  apply (@styled_selected "rect" "rect" "rect" (bar_style data) data st
           eq_refl eq_refl (stylish_bar_style data) Hwf Ht).
Qed.

Lemma bars_selected_data (data : Data) (st : State) :
  wf st -> top_level is_bar (svg st) ->
  map datum (selected "rect" (bars_tree data st)) = map Some data.
Proof.
  intros Hwf Ht. unfold bars_tree.
  apply (@styled_selected_data "rect" "rect" "rect" (bar_style data) data st
           eq_refl eq_refl (stylish_bar_style data) Hwf Ht).
Qed.

Lemma labels_keep_bars (data : Data) (st : State) :
  chart_inv st ->
  selected "rect" (labels_tree data st) = selected "rect" (svg st).
Proof.
  intros [Hwf [Hb [Hl Hx]]]. unfold selected, querySelectorAll.
  change (matches (selector "rect")) with is_bar.
  apply labels_frame; auto.
  - intros e. apply place_stylish_tag.
  - intros i d. rewrite is_bar_tag, fo_elem_tag. reflexivity.
  - intros j d. rewrite is_bar_tag, div_elem_tag. reflexivity.
  - intros e _ He. revert He. apply tag_not_both. discriminate.
Qed.

Lemma bars_keep_labels (data : Data) (st : State) :
  chart_inv st ->
  selected "foreignObject" (bars_tree data st)
  = selected "foreignObject" (svg st).
Proof.
  intros [Hwf [Hb [Hl Hx]]]. unfold selected, querySelectorAll.
  change (matches (selector "foreignObject")) with is_label.
  apply bars_frame; auto.
  - intros d e. apply (@matches_tag_stylish "foreignObject" (bar_style data d)).
    apply stylish_bar_style.
  - intros e _ He. revert He. apply tag_not_both. discriminate.
Qed.

Lemma redraw_bars (data : Data) (st : State) :
  chart_inv st ->
  selected "rect" (svg (redraw data st))
  = selected "rect" (bars_tree data (axes_state data st)).
Proof.
  intros H. unfold redraw, labels_state. cbn [svg].
  rewrite labels_keep_bars by (apply bars_inv, axes_inv, H). reflexivity.
Qed.

Lemma redraw_bars_data (data : Data) (st : State) :
  chart_inv st ->
  map datum (selected "rect" (svg (redraw data st))) = map Some data.
Proof.
  intros H. rewrite redraw_bars by assumption.
  pose proof (axes_inv data H) as [Hwf [Hb _]].
  apply bars_selected_data; assumption.
Qed.

Lemma redraw_labels_data (data : Data) (st : State) :
  chart_inv st ->
  map datum (selected "foreignObject" (svg (redraw data st))) = map Some data.
Proof.
  intros H. unfold redraw, labels_state. cbn [svg].
  pose proof (bars_inv data (axes_inv data H)) as [Hwf [_ [Hl _]]].
  apply labels_selected_data; assumption.
Qed.

Lemma map_some_length {A B} (f : A -> option B) (l : list A) (m : list B) :
  map f l = map Some m -> List.length l = List.length m.
Proof. intros E. rewrite <- (length_map f l), E. apply length_map. Qed.

(** *** The axis groups across a redraw *)

Lemma axis_roots_two (data : Data) (st : State) :
  wf st -> List.length (axis_roots data st) = 2.
Proof. intros Hwf. unfold axis_roots. rewrite axes_selected by assumption. reflexivity. Qed.

Lemma axis_roots_groups (data : Data) (st : State) (e : Elem) :
  wf st -> In e (axis_roots data st) -> tag e = "g".
Proof.
  intros Hwf. unfold axis_roots. rewrite axes_selected by assumption.
  intros [<-|[<-|[]]]; reflexivity.
Qed.

Lemma has_class_with_datum (c : string) (d : option Datum) (e : Elem) :
  has_class c (with_datum d e) = has_class c e.
Proof. reflexivity. Qed.

Lemma has_class_on_bar (c : string) (I : list nat) (data : Data) (e : Elem) :
  c <> "primaryBar" -> c <> "secondaryBar" ->
  has_class c (on I (bar_style data) e) = has_class c e.
Proof.
  intros H1 H2. unfold on. destruct (mem _ _); [|reflexivity].
  destruct (datum e); [|reflexivity]. apply has_class_bar_style; assumption.
Qed.

Lemma bars_top_level_class (c : string) (data : Data) (st : State) :
  c <> "primaryBar" -> c <> "secondaryBar" ->
  top_level (has_class c) (svg st) ->
  top_level (has_class c) (bars_tree data st).
Proof.
  intros H1 H2 Ht. unfold bars_tree. apply top_level_prune, top_level_tmap.
  - intros e. apply has_class_on_bar; assumption.
  - apply top_level_joined; [reflexivity|assumption].
Qed.

Lemma has_class_fo_elem (c : string) (data : Data) (i : nat) (d : Datum) :
  has_class c (fo_elem data i d) = false.
Proof. unfold fo_elem. rewrite has_class_geometry. reflexivity. Qed.

Lemma axis_div_elem (j : nat) (d : Datum) : is_axis (div_elem j d) = false.
Proof. destruct d as [n v [[|]|]]; reflexivity. Qed.

(** A redraw step that meets only [.axis] elements that are groups keeps
    the selection of the axes. *)
Lemma bars_keep_axes (data : Data) (st : State) :
  wf st -> top_level is_axis (svg st) ->
  (forall e, In e (selected ".axis" (svg st)) -> tag e = "g") ->
  selected ".axis" (bars_tree data st) = selected ".axis" (svg st).
Proof.
  intros Hwf Ht Hg. unfold selected, querySelectorAll.
  change (matches (selector ".axis")) with is_axis.
  apply bars_frame; auto.
  - intros d e. apply has_class_bar_style; discriminate.
  - intros e He Ha. assert (Hs : In e (selected ".axis" (svg st))).
    { apply filter_In. split; assumption. }
    apply Hg in Hs. unfold is_bar. simpl. rewrite Hs. reflexivity.
Qed.

Lemma labels_keep_axes (data : Data) (st : State) :
  wf st -> top_level is_axis (svg st) ->
  (forall e, In e (selected ".axis" (svg st)) -> tag e = "g") ->
  selected ".axis" (labels_tree data st) = selected ".axis" (svg st).
Proof.
  intros Hwf Ht Hg. unfold selected, querySelectorAll.
  change (matches (selector ".axis")) with is_axis.
  apply labels_frame; auto.
  - intros e. apply has_class_place.
  - intros i d. apply has_class_fo_elem.
  - intros j d. apply axis_div_elem.
  - intros e He Ha. assert (Hs : In e (selected ".axis" (svg st))).
    { apply filter_In. split; assumption. }
    apply Hg in Hs. unfold is_label. simpl. rewrite Hs. reflexivity.
Qed.

Lemma redraw_axes (data : Data) (st : State) :
  chart_inv st ->
  selected ".axis" (svg (redraw data st)) = axis_roots data st.
Proof.
  intros H. pose proof (axes_inv data H) as H1.
  pose proof (bars_inv data H1) as H2.
  destruct H as [Hwf _].
  assert (Hb : selected ".axis" (bars_tree data (axes_state data st))
               = axis_roots data st).
  { apply bars_keep_axes.
    - apply H1.
    - apply axes_top_level_axis.
    - intros e. apply axis_roots_groups. assumption. }
  unfold redraw, labels_state. cbn [svg].
  rewrite labels_keep_axes; [exact Hb|apply H2| |].
  - cbn [bars_state svg].
    apply (@bars_top_level_class "axis" data (axes_state data st));
      try discriminate.
    apply axes_top_level_axis.
  - cbn [bars_state svg]. rewrite Hb. intros e.
    apply axis_roots_groups. assumption.
Qed.

Lemma redraw_axes_two (data : Data) (st : State) :
  chart_inv st -> List.length (selected ".axis" (svg (redraw data st))) = 2.
Proof.
  intros H. rewrite redraw_axes by assumption. apply axis_roots_two, H.
Qed.

Lemma reachable_inv (st : State) : reachable st -> chart_inv st.
Proof.
  induction 1 as [|arg st st' _ IH E]; [apply chart_inv_empty|].
  rewrite (updateSvg_spec arg IH) in E. injection E as <-.
  apply redraw_inv, IH.
Qed.

Lemma updates_axes (args : list (option Data)) (st : State) :
  chart_inv st -> args <> [] ->
  exists st', updates args st = Some (tt, st')
              /\ chart_inv st'
              /\ List.length (selected ".axis" (svg st')) = 2.
Proof.
  revert st. induction args as [|a r IH]; intros st Hinv Hne; [congruence|].
  cbn [updates]. erewrite bind_some by (apply updateSvg_spec, Hinv).
  destruct r as [|b r'].
  - exists (redraw (data_of a) st). split; [reflexivity|split].
    + apply redraw_inv, Hinv.
    + apply redraw_axes_two, Hinv.
  - apply IH; [apply redraw_inv, Hinv|discriminate].
Qed.

(** *** The order of the children after the first redraw *)

Lemma prune_outside_nil (t : Node) : prune (outside []) t = t.
Proof. apply prune_id_in. reflexivity. Qed.

Lemma child_tags_tmap (h : Elem -> Elem) (cs : list Node) :
  (forall e, tag (h e) = tag e) ->
  map (fun c => tag (root_elem c)) (map (tmap h) cs)
  = map (fun c => tag (root_elem c)) cs.
Proof.
  intros Hh. rewrite map_map. apply map_ext. intros c.
  rewrite root_tmap. apply Hh.
Qed.

Lemma created_child_tags (nm : string) (f : nat) (ds : Data) :
  map (fun c => tag (root_elem c)) (created nm f ds)
  = repeat (d3.local_name nm) (List.length ds).
Proof.
  revert f. induction ds as [|d r IH]; intros f; [reflexivity|].
  cbn [created map List.length repeat]. rewrite IH. reflexivity.
Qed.

Lemma lab_nodes_child_tags (data : Data) (kids : nat -> Datum -> list Node)
  (f g : nat) (ds : Data) :
  map (fun c => tag (root_elem c)) (lab_nodes (fo_elem data) kids f g ds)
  = repeat "foreignObject" (List.length ds).
Proof.
  revert f g. induction ds as [|d r IH]; intros f g; [reflexivity|].
  cbn [lab_nodes map List.length repeat root_elem]. rewrite IH, fo_elem_tag.
  reflexivity.
Qed.

Lemma bars_child_tags (data : Data) (st : State) :
  selected "rect" (svg st) = [] ->
  child_tags (bars_tree data st)
  = child_tags (svg st) ++ repeat "rect" (List.length data).
Proof.
  intros E. unfold bars_tree, exit_ids, joined_tree. rewrite E.
  cbn [map List.length]. rewrite skipn_nil, prune_outside_nil.
  unfold child_tags. cbn [tmap children skipn].
  rewrite child_tags_tmap, map_app, child_tags_tmap, created_child_tags.
  - reflexivity.
  - intros e. apply bindf_tag.
  - intros e. apply (stylish_tag (stylish_on _ _ (stylish_bar_style data))).
Qed.

Lemma labels_child_tags (data : Data) (st : State) :
  selected "foreignObject" (svg st) = [] ->
  child_tags (labels_tree data st)
  = child_tags (svg st) ++ repeat "foreignObject" (List.length data).
Proof.
  intros E. rewrite labels_tree_eq. unfold exit_ids, new_labels. rewrite E.
  cbn [map List.length]. rewrite skipn_nil, prune_outside_nil.
  unfold child_tags. cbn [children skipn].
  rewrite map_app, child_tags_tmap, lab_nodes_child_tags.
  - reflexivity.
  - intros e. pose proof (place_stylish_tag (tag e) data st e) as H.
    simpl in H. rewrite String.eqb_refl in H. apply String.eqb_eq in H.
    exact H.
Qed.

Lemma axes_selected_other (Q : Elem -> bool) (data : Data) (st : State) :
  axis_blind Q -> (forall i a d x, Q (root_elem (axis_group i a d x)) = false) ->
  descendants (svg st) = [] ->
  filter Q (descendants (axes_tree data st)) = [].
Proof.
  intros HQ Hg E. rewrite axes_frame; auto.
  - rewrite E. reflexivity.
  - unfold top_level. destruct (svg st) as [r [|c cs]]; [constructor|].
    unfold descendants in E. cbn [children] in E.
    rewrite elemsF_cons, elems_eq in E. discriminate.
Qed.

Lemma first_redraw_tags (data : Data) :
  child_tags (svg (redraw data empty_svg))
  = ["g"; "g"] ++ repeat "rect" (List.length data)
    ++ repeat "foreignObject" (List.length data).
Proof.
  pose proof (axes_inv data chart_inv_empty) as H1.
  unfold redraw, labels_state. cbn [svg].
  rewrite labels_child_tags.
  - unfold bars_state. cbn [svg]. rewrite bars_child_tags.
    + rewrite <- app_assoc. reflexivity.
    + apply (@axes_selected_other is_bar);
        [apply axis_blind_bar|reflexivity|reflexivity].
  - unfold bars_state. cbn [svg]. rewrite bars_keep_labels by exact H1.
    apply (@axes_selected_other is_label);
      [apply axis_blind_label|reflexivity|reflexivity].
Qed.

(** *** Rational arithmetic of the scales *)

Section Numbers.
Local Open Scope Q_scope.

Lemma Qlt_bool_iff (a b : Q) : Qlt_bool a b = true <-> a < b.
Proof.
  unfold Qlt_bool. rewrite negb_true_iff. split.
  - intros H. apply Qnot_le_lt. intros Hle. apply Qle_bool_iff in Hle. congruence.
  - intros H. destruct (Qle_bool b a) eqn:E; [|reflexivity].
    apply Qle_bool_iff in E. apply Qlt_not_le in H. contradiction.
Qed.

Lemma Qlt_bool_false (a b : Q) : Qlt_bool a b = false <-> b <= a.
Proof.
  unfold Qlt_bool. rewrite negb_false_iff. apply Qle_bool_iff.
Qed.

Lemma Qeq_bool_false (a b : Q) : Qeq_bool a b = false <-> ~ a == b.
Proof.
  split; [apply Qeq_bool_neq|]. intros H. destruct (Qeq_bool a b) eqn:E; auto.
  apply Qeq_bool_iff in E. contradiction.
Qed.

(** [d3.max] *)
Lemma max_fold (vs : list Q) (a : Q) :
  exists m, fold_left
              (fun acc v =>
                 match acc with
                 | None => Some v
                 | Some m => if Qlt_bool m v then Some v else Some m
                 end) vs (Some a) = Some m
            /\ a <= m /\ Forall (fun v => v <= m) vs /\ In m (a :: vs).
Proof.
  revert a. induction vs as [|v r IH]; intros a.
  - exists a. simpl. repeat split; auto. apply Qle_refl.
  - cbn [fold_left]. destruct (Qlt_bool a v) eqn:E.
    + destruct (IH v) as [m [H1 [H2 [H3 H4]]]]. exists m.
      apply Qlt_bool_iff in E. repeat split; auto.
      * apply Qlt_le_weak. eapply Qlt_le_trans; eassumption.
      * right. exact H4.
    + destruct (IH a) as [m [H1 [H2 [H3 H4]]]]. exists m.
      apply Qlt_bool_false in E. repeat split; auto.
      * constructor; [|assumption]. eapply Qle_trans; eassumption.
      * destruct H4 as [H4|H4]; [left; assumption|right; right; assumption].
Qed.

Lemma max_spec (vs : list Q) :
  vs <> [] ->
  exists m, d3.max vs = Some m /\ Forall (fun v => v <= m) vs /\ In m vs.
Proof.
  destruct vs as [|v r]; [congruence|]. intros _.
  destruct (max_fold r v) as [m [H1 [H2 [H3 H4]]]]. exists m.
  unfold d3.max. cbn [fold_left]. repeat split; auto.
Qed.

Lemma max_nil : d3.max [] = None.
Proof. reflexivity. Qed.

Lemma Qdiv_pos (a b : Q) : 0 < a -> 0 < b -> 0 < a / b.
Proof.
  intros Ha Hb. apply Qlt_shift_div_l; [assumption|]. rewrite Qmult_0_l.
  assumption.
Qed.

End Numbers.

(** *** Rounding to binary64 *)

Section Rounding.
Local Open Scope Q_scope.

Lemma pow2_pos (e : Z) : 0 < pow2 e.
Proof. unfold pow2. apply Qpower_0_lt. reflexivity. Qed.

Lemma pow2_plus (a b : Z) : pow2 (a + b) == pow2 a * pow2 b.
Proof. unfold pow2. apply Qpower_plus. discriminate. Qed.

Lemma pow2_S (a : Z) : pow2 (a + 1) == 2 * pow2 a.
Proof. rewrite pow2_plus. unfold pow2 at 2. simpl. ring. Qed.

Lemma pow2_minus (a b : Z) : pow2 (a - b) == pow2 a / pow2 b.
Proof. unfold pow2. apply Qpower_minus. discriminate. Qed.

Lemma pow2_le (a b : Z) : (a <= b)%Z -> pow2 a <= pow2 b.
Proof. intros H. apply Qpower_le_compat_l; [exact H|discriminate]. Qed.

Lemma pow2_lt (a b : Z) : (a < b)%Z -> pow2 a < pow2 b.
Proof. intros H. apply Qpower_lt_compat_l; [exact H|reflexivity]. Qed.

Lemma pow2_Z (a : Z) : (0 <= a)%Z -> inject_Z (2 ^ a) == pow2 a.
Proof. intros H. unfold pow2. apply (Zpower_Qpower 2 a H). Qed.

(** *** The binary logarithm *)

Lemma Qmake_div (n : Z) (d : positive) : n # d == inject_Z n / inject_Z (Zpos d).
Proof. apply Qmake_Qdiv. Qed.

Lemma ilog2_spec (q : Q) :
  0 < q -> pow2 (ilog2 q) <= q /\ q < pow2 (ilog2 q + 1).
Proof.
  intros Hq. destruct q as [n d]. unfold ilog2. cbn [Qnum Qden].
  assert (Hn : (0 < n)%Z).
  { unfold Qlt in Hq. simpl in Hq. lia. }
  set (a := Z.log2 n). set (b := Z.log2 (Zpos d)).
  assert (Ha : (0 <= a)%Z) by apply Z.log2_nonneg.
  assert (Hb : (0 <= b)%Z) by apply Z.log2_nonneg.
  destruct (Z.log2_spec n Hn) as [A1 A2]. fold a in A1, A2.
  destruct (Z.log2_spec (Zpos d) (eq_refl : (0 < Zpos d)%Z)) as [B1 B2].
  fold b in B1, B2.
  assert (QA1 : pow2 a <= inject_Z n).
  { rewrite <- pow2_Z by exact Ha. rewrite <- Zle_Qle. exact A1. }
  assert (QA2 : inject_Z n < pow2 (a + 1)).
  { rewrite <- pow2_Z by lia. rewrite <- Zlt_Qlt. exact A2. }
  assert (QB1 : pow2 b <= inject_Z (Zpos d)).
  { rewrite <- pow2_Z by exact Hb. rewrite <- Zle_Qle. exact B1. }
  assert (QB2 : inject_Z (Zpos d) < pow2 (b + 1)).
  { rewrite <- pow2_Z by lia. rewrite <- Zlt_Qlt. exact B2. }
  assert (Hd : 0 < inject_Z (Zpos d)) by reflexivity.
  pose proof (pow2_pos a) as Pa. pose proof (pow2_pos b) as Pb.
  rewrite pow2_S in QA2, QB2.
  assert (E : n # d == inject_Z n / inject_Z (Zpos d)) by apply Qmake_Qdiv.
  destruct (Qle_bool (pow2 (a - b)) (n # d)) eqn:T.
  - apply Qle_bool_iff in T. split; [exact T|].
    rewrite E. apply Qlt_shift_div_r; [exact Hd|].
    rewrite pow2_S, pow2_minus.
    apply (Qlt_le_trans _ (2 * pow2 a)); [exact QA2|].
    assert (H : 2 * pow2 a == 2 * (pow2 a / pow2 b) * pow2 b) by (field; lra).
    rewrite H. apply Qmult_le_l; [|exact QB1].
    apply Qmult_lt_0_compat; [reflexivity|]. apply Qlt_shift_div_l; lra.
  - assert (T' : n # d < pow2 (a - b)).
    { apply Qnot_le_lt. intros H. apply Qle_bool_iff in H. congruence. }
    replace (a - b - 1 + 1)%Z with (a - b)%Z by lia. split; [|exact T'].
    rewrite E. apply Qle_shift_div_l; [exact Hd|].
    assert (H : pow2 (a - b - 1) * 2 == pow2 a / pow2 b).
    { rewrite <- pow2_minus. replace (a - b)%Z with (a - b - 1 + 1)%Z at 2 by lia.
      rewrite pow2_S. ring. }
    apply (Qle_trans _ (pow2 a)); [|exact QA1].
    apply (Qle_trans _ (pow2 (a - b - 1) * (2 * pow2 b))).
    + apply Qmult_le_l; [apply pow2_pos|]. apply Qlt_le_weak. exact QB2.
    + assert (H2 : pow2 (a - b - 1) * (2 * pow2 b) == pow2 a).
      { rewrite Qmult_assoc, H. field. lra. }
      rewrite H2. apply Qle_refl.
Qed.

Lemma ilog2_unique (q : Q) (e : Z) :
  pow2 e <= q -> q < pow2 (e + 1) -> ilog2 q = e.
Proof.
  intros H1 H2. assert (Hq : 0 < q).
  { apply (Qlt_le_trans _ (pow2 e)); [apply pow2_pos|exact H1]. }
  destruct (ilog2_spec Hq) as [L1 L2].
  destruct (Z.lt_trichotomy (ilog2 q) e) as [H|[H|H]]; [|exact H|].
  - exfalso. assert (pow2 (ilog2 q + 1) <= pow2 e) by (apply pow2_le; lia). lra.
  - exfalso. assert (pow2 (e + 1) <= pow2 (ilog2 q)) by (apply pow2_le; lia). lra.
Qed.

Lemma ilog2_le (x y : Q) : 0 < x -> x <= y -> (ilog2 x <= ilog2 y)%Z.
Proof.
  intros Hx Hxy. assert (Hy : 0 < y) by lra.
  destruct (ilog2_spec Hx) as [X1 X2]. destruct (ilog2_spec Hy) as [Y1 Y2].
  destruct (Z_le_gt_dec (ilog2 x) (ilog2 y)) as [H|H]; [exact H|].
  exfalso. assert (pow2 (ilog2 y + 1) <= pow2 (ilog2 x)) by (apply pow2_le; lia).
  lra.
Qed.

(** *** Rounding to the nearest integer, ties to even *)

Lemma round_even_cases (x : Q) :
  round_even x = Qfloor x \/ round_even x = (Qfloor x + 1)%Z.
Proof.
  unfold round_even. destruct (Qcompare _ _); auto. destruct (Z.even _); auto.
Qed.

Lemma round_even_err (x : Q) : Qabs (inject_Z (round_even x) - x) <= 1 # 2.
Proof.
  pose proof (Qfloor_le x) as H1. pose proof (Qlt_floor x) as H2.
  rewrite inject_Z_plus in H2. change (inject_Z 1) with 1 in H2.
  apply Qabs_Qle_condition. unfold round_even.
  destruct (Qcompare_spec (x - inject_Z (Qfloor x)) (1 # 2)) as [E|E|E].
  - destruct (Z.even (Qfloor x)).
    + split; lra.
    + rewrite inject_Z_plus. change (inject_Z 1) with 1. split; lra.
  - split; lra.
  - rewrite inject_Z_plus. change (inject_Z 1) with 1. split; lra.
Qed.

Lemma round_even_Z (n : Z) : round_even (inject_Z n) = n.
Proof.
  unfold round_even. rewrite Qfloor_Z.
  destruct (Qcompare_spec (inject_Z n - inject_Z n) (1 # 2)) as [E|E|E].
  - exfalso. lra.
  - reflexivity.
  - exfalso. lra.
Qed.

Lemma round_even_comp (x y : Q) : x == y -> round_even x = round_even y.
Proof.
  intros E. unfold round_even. rewrite (Qfloor_comp _ _ E).
  assert (E' : x - inject_Z (Qfloor y) == y - inject_Z (Qfloor y))
    by (rewrite E; reflexivity).
  rewrite (Qcompare_comp _ _ E' _ _ (Qeq_refl (1 # 2))). reflexivity.
Qed.

Lemma round_even_le (x y : Q) : x <= y -> (round_even x <= round_even y)%Z.
Proof.
  intros Hxy. pose proof (Qfloor_resp_le _ _ Hxy) as Hf.
  destruct (Z.eq_dec (Qfloor x) (Qfloor y)) as [E|N].
  - unfold round_even. rewrite <- E.
    destruct (Qcompare_spec (x - inject_Z (Qfloor x)) (1 # 2)) as [Ex|Ex|Ex];
      destruct (Qcompare_spec (y - inject_Z (Qfloor x)) (1 # 2)) as [Ey|Ey|Ey];
      try lia; try (destruct (Z.even (Qfloor x)); lia); exfalso; lra.
  - destruct (round_even_cases x) as [-> | ->];
      destruct (round_even_cases y) as [-> | ->]; lia.
Qed.

Lemma round_even_ge (x : Q) (n : Z) : inject_Z n <= x -> (n <= round_even x)%Z.
Proof. intros H. rewrite <- (round_even_Z n). apply round_even_le, H. Qed.

Lemma round_even_ub (x : Q) (n : Z) : x <= inject_Z n -> (round_even x <= n)%Z.
Proof. intros H. rewrite <- (round_even_Z n). apply round_even_le, H. Qed.


(** *** Rounding a positive number *)

Lemma ulp_exp_le (x y : Q) : 0 < x -> x <= y -> (ulp_exp x <= ulp_exp y)%Z.
Proof.
  intros Hx Hxy. unfold ulp_exp. pose proof (ilog2_le Hx Hxy). lia.
Qed.

Lemma scaled_lt (q : Q) : 0 < q -> q / pow2 (ulp_exp q) < inject_Z (2 ^ 53).
Proof.
  intros Hq. destruct (ilog2_spec Hq) as [_ H].
  apply Qlt_shift_div_r; [apply pow2_pos|]. rewrite pow2_Z by lia.
  rewrite <- pow2_plus.
  apply (Qlt_le_trans _ _ _ H). apply pow2_le. unfold ulp_exp. lia.
Qed.

Lemma scaled_ge (q : Q) :
  0 < q -> (-1074 < ulp_exp q)%Z -> inject_Z (2 ^ 52) <= q / pow2 (ulp_exp q).
Proof.
  intros Hq He. destruct (ilog2_spec Hq) as [H _].
  apply Qle_shift_div_l; [apply pow2_pos|]. rewrite pow2_Z by lia.
  rewrite <- pow2_plus.
  apply (Qle_trans _ (pow2 (ilog2 q))); [|exact H]. apply pow2_le.
  unfold ulp_exp in *. lia.
Qed.

Lemma nearest_nonneg (q : Q) : 0 < q -> 0 <= nearest q.
Proof.
  intros Hq. unfold nearest. apply Qmult_le_0_compat.
  - change 0 with (inject_Z 0). rewrite <- Zle_Qle. apply round_even_ge.
    change (inject_Z 0) with 0. apply Qlt_le_weak, Qlt_shift_div_l.
    + apply pow2_pos.
    + lra.
  - apply Qlt_le_weak, pow2_pos.
Qed.

Lemma nearest_ub (q : Q) : 0 < q -> nearest q <= pow2 (ulp_exp q + 53).
Proof.
  intros Hq. unfold nearest. rewrite pow2_plus, (Qmult_comm (pow2 _)).
  apply Qmult_le_compat_r; [|apply Qlt_le_weak, pow2_pos].
  assert (E : pow2 53 == inject_Z (2 ^ 53)) by (symmetry; apply pow2_Z; lia).
  rewrite E, <- Zle_Qle. apply round_even_ub.
  apply Qlt_le_weak, scaled_lt, Hq.
Qed.

Lemma nearest_lb (q : Q) :
  0 < q -> (-1074 < ulp_exp q)%Z -> pow2 (ulp_exp q + 52) <= nearest q.
Proof.
  intros Hq He. unfold nearest. rewrite pow2_plus, (Qmult_comm (pow2 _)).
  apply Qmult_le_compat_r; [|apply Qlt_le_weak, pow2_pos].
  assert (E : pow2 52 == inject_Z (2 ^ 52)) by (symmetry; apply pow2_Z; lia).
  rewrite E, <- Zle_Qle. apply round_even_ge.
  apply scaled_ge; assumption.
Qed.

Lemma nearest_le (x y : Q) : 0 < x -> x <= y -> nearest x <= nearest y.
Proof.
  intros Hx Hxy. assert (Hy : 0 < y) by lra.
  pose proof (ulp_exp_le Hx Hxy) as He.
  destruct (Z.eq_dec (ulp_exp x) (ulp_exp y)) as [E|N].
  - unfold nearest. rewrite E.
    apply Qmult_le_compat_r; [|apply Qlt_le_weak, pow2_pos].
    rewrite <- Zle_Qle. apply round_even_le.
    apply Qmult_le_compat_r; [exact Hxy|].
    apply Qlt_le_weak, Qinv_lt_0_compat, pow2_pos.
  - apply (Qle_trans _ (pow2 (ulp_exp x + 53))); [apply nearest_ub, Hx|].
    apply (Qle_trans _ (pow2 (ulp_exp y + 52))); [apply pow2_le; lia|].
    apply nearest_lb; [exact Hy|]. unfold ulp_exp in *. lia.
Qed.

Lemma nearest_err (q : Q) :
  0 < q -> Qabs (nearest q - q) <= pow2 (ulp_exp q - 1).
Proof.
  intros Hq. pose proof (round_even_err (q / pow2 (ulp_exp q))) as H.
  pose proof (pow2_pos (ulp_exp q)) as Hp.
  assert (E : nearest q - q
              == (inject_Z (round_even (q / pow2 (ulp_exp q)))
                  - q / pow2 (ulp_exp q)) * pow2 (ulp_exp q)).
  { unfold nearest. field. lra. }
  rewrite E, Qabs_Qmult, (Qabs_pos (pow2 _)) by lra.
  assert (E2 : pow2 (ulp_exp q - 1) == (1 # 2) * pow2 (ulp_exp q)).
  { replace (ulp_exp q) with (ulp_exp q - 1 + 1)%Z at 2 by lia.
    rewrite pow2_S. ring. }
  rewrite E2. apply Qmult_le_compat_r; [exact H|lra].
Qed.


Lemma nearest_err_rel (q : Q) :
  0 < q -> Qabs (nearest q - q) <= eps * q + eta.
Proof.
  intros Hq. apply (Qle_trans _ _ _ (nearest_err Hq)).
  destruct (ilog2_spec Hq) as [H _]. unfold ulp_exp, eps, eta.
  pose proof (pow2_pos (-1075)). pose proof (pow2_pos (-53)).
  destruct (Z.max_spec (ilog2 q - 52) (-1074)) as [[_ ->]|[_ ->]].
  - change (-1074 - 1)%Z with (-1075)%Z.
    assert (0 <= pow2 (-53) * q) by (apply Qmult_le_0_compat; lra). lra.
  - replace (ilog2 q - 52 - 1)%Z with (-53 + ilog2 q)%Z by lia.
    rewrite pow2_plus.
    assert (pow2 (-53) * pow2 (ilog2 q) <= pow2 (-53) * q)
      by (apply Qmult_le_l; lra).
    lra.
Qed.


Lemma ilog2_comp (x y : Q) : 0 < x -> x == y -> ilog2 x = ilog2 y.
Proof.
  intros Hx E. assert (Hy : 0 < y) by (rewrite <- E; exact Hx).
  destruct (ilog2_spec Hy) as [Y1 Y2].
  apply ilog2_unique; rewrite E; assumption.
Qed.

Lemma nearest_comp (x y : Q) : 0 < x -> x == y -> nearest x == nearest y.
Proof.
  intros Hx E. unfold nearest, ulp_exp. rewrite (ilog2_comp Hx E).
  rewrite (@round_even_comp (x / pow2 (Z.max (ilog2 y - 52) (-1074)))
             (y / pow2 (Z.max (ilog2 y - 52) (-1074))))
    by (rewrite E; reflexivity).
  reflexivity.
Qed.

Lemma round_pos_comp (x y : Q) : 0 < x -> x == y -> round_pos x = round_pos y.
Proof.
  intros Hx E. unfold round_pos. pose proof (nearest_comp Hx E) as N.
  assert (B : Qle_bool (pow2 1024) (nearest x)
              = Qle_bool (pow2 1024) (nearest y)).
  { destruct (Qle_bool (pow2 1024) (nearest y)) eqn:T.
    - apply Qle_bool_iff. apply Qle_bool_iff in T. rewrite N. exact T.
    - destruct (Qle_bool (pow2 1024) (nearest x)) eqn:T'; [|reflexivity].
      apply Qle_bool_iff in T'. rewrite N in T'. apply Qle_bool_iff in T'.
      congruence. }
  rewrite B, (Qred_complete _ _ N). reflexivity.
Qed.

Lemma round64_comp (x y : Q) : x == y -> round64 x = round64 y.
Proof.
  intros E. unfold round64. rewrite (Qcompare_comp _ _ E _ _ (Qeq_refl 0)).
  destruct (Qcompare_spec y 0) as [H|H|H]; [reflexivity| |].
  - f_equal. apply round_pos_comp; [rewrite E; lra|rewrite E; reflexivity].
  - apply round_pos_comp; [rewrite E; lra|exact E].
Qed.

Lemma round_pos_le (x y : Q) :
  0 < x -> x <= y -> num_le (round_pos x) (round_pos y).
Proof.
  intros Hx Hxy. pose proof (nearest_le Hx Hxy) as H. unfold round_pos.
  destruct (Qle_bool (pow2 1024) (nearest x)) eqn:Tx;
    destruct (Qle_bool (pow2 1024) (nearest y)) eqn:Ty; cbn [num_le]; auto.
  - apply Qle_bool_iff in Tx.
    assert (Qle_bool (pow2 1024) (nearest y) = true).
    { apply Qle_bool_iff. lra. }
    congruence.
  - rewrite !Qred_correct. exact H.
Qed.

Lemma round_pos_nonneg (x : Q) : 0 < x -> num_le (Fin 0) (round_pos x).
Proof.
  intros Hx. unfold round_pos. destruct (Qle_bool _ _); cbn [num_le]; auto.
  rewrite Qred_correct. apply nearest_nonneg, Hx.
Qed.

Lemma num_le_neg (a b : number) : num_le a b -> num_le (neg b) (neg a).
Proof.
  destruct a, b; cbn [num_le neg]; auto. intros H. lra.
Qed.

Lemma num_le_trans (a b c : number) : num_le a b -> num_le b c -> num_le a c.
Proof.
  destruct a, b, c; cbn [num_le]; auto; try tauto. intros H1 H2. lra.
Qed.

Lemma round64_le (x y : Q) : x <= y -> num_le (round64 x) (round64 y).
Proof.
  intros Hxy. unfold round64.
  destruct (Qcompare_spec x 0) as [Hx|Hx|Hx];
    destruct (Qcompare_spec y 0) as [Hy|Hy|Hy];
    try (exfalso; lra).
  - cbn [num_le]. lra.
  - apply round_pos_nonneg, Hy.
  - apply (num_le_neg (Fin 0)). apply round_pos_nonneg. lra.
  - apply num_le_neg. apply round_pos_le; lra.
  - apply (@num_le_trans _ (Fin 0)).
    + apply (num_le_neg (Fin 0)). apply round_pos_nonneg. lra.
    + apply round_pos_nonneg, Hy.
  - apply round_pos_le; assumption.
Qed.

Lemma round_pos_err (x r : Q) :
  0 < x -> round_pos x = Fin r -> Qabs (r - x) <= eps * x + eta.
Proof.
  intros Hx. unfold round_pos. destruct (Qle_bool _ _); [discriminate|].
  intros H. injection H as <-.
  assert (E : Qred (nearest x) - x == nearest x - x)
    by (rewrite Qred_correct; reflexivity).
  rewrite (Qabs_wd _ _ E). apply nearest_err_rel, Hx.
Qed.

Lemma round64_err (x r : Q) :
  round64 x = Fin r -> Qabs (r - x) <= eps * Qabs x + eta.
Proof.
  unfold round64. destruct (Qcompare_spec x 0) as [Hx|Hx|Hx].
  - intros H. injection H as <-. rewrite Hx.
    assert (0 < eta) by apply pow2_pos. change (Qabs 0) with 0.
    setoid_replace (0 - 0) with 0 by ring. change (Qabs 0) with 0. lra.
  - destruct (round_pos (- x)) as [r'| | |] eqn:E; try discriminate.
    cbn [neg]. intros H. injection H as <-.
    pose proof (@round_pos_err (- x) r' ltac:(lra) E) as H.
    rewrite (Qabs_neg x) by lra.
    setoid_replace (- r' - x) with (- (r' - - x)) by ring.
    rewrite Qabs_opp. exact H.
  - intros H. rewrite (Qabs_pos x) by lra. apply round_pos_err; assumption.
Qed.

Lemma round_pos_fin (x : Q) :
  0 < x -> x <= pow2 1023 -> exists r, round_pos x = Fin r.
Proof.
  intros Hx Hb. unfold round_pos.
  destruct (Qle_bool (pow2 1024) (nearest x)) eqn:T; [|eauto].
  exfalso. apply Qle_bool_iff in T.
  pose proof (nearest_err_rel Hx) as H. apply Qabs_Qle_condition in H.
  assert (E : eps * x <= eps * pow2 1023).
  { apply Qmult_le_l; [apply pow2_pos|exact Hb]. }
  assert (N : eps * pow2 1023 + eta + pow2 1023 < pow2 1024).
  { vm_compute. reflexivity. }
  lra.
Qed.

Lemma round64_fin (x : Q) :
  Qabs x <= pow2 1023 -> exists r, round64 x = Fin r.
Proof.
  intros Hb. unfold round64. destruct (Qcompare_spec x 0) as [Hx|Hx|Hx].
  - eauto.
  - rewrite (Qabs_neg x) in Hb by lra.
    destruct (@round_pos_fin (- x)) as [r E]; [lra|exact Hb|].
    rewrite E. cbn [neg]. eauto.
  - rewrite (Qabs_pos x) in Hb by lra. apply round_pos_fin; assumption.
Qed.


(** *** Numbers that need no rounding *)

Lemma round_pos_exact (q : Q) (m e : Z) :
  (0 < m < 2 ^ 53)%Z -> (-1074 <= e)%Z -> q == inject_Z m * pow2 e ->
  q < pow2 1024 -> round_pos q = Fin (Qred q).
Proof.
  intros Hm He E Hb.
  assert (Hq : 0 < q).
  { rewrite E. apply Qmult_lt_0_compat; [|apply pow2_pos].
    change 0 with (inject_Z 0). rewrite <- Zlt_Qlt. lia. }
  destruct (ilog2_spec Hq) as [L1 L2].
  assert (Hl : (ilog2 q < 53 + e)%Z).
  { destruct (Z_lt_ge_dec (ilog2 q) (53 + e)) as [H|H]; [exact H|].
    exfalso. assert (pow2 (53 + e) <= pow2 (ilog2 q)) by (apply pow2_le; lia).
    assert (q < pow2 (53 + e)).
    { rewrite E, pow2_plus. apply Qmult_lt_compat_r; [apply pow2_pos|].
      rewrite <- pow2_Z by lia. rewrite <- Zlt_Qlt. lia. }
    lra. }
  assert (Hu : (ulp_exp q <= e)%Z) by (unfold ulp_exp; lia).
  assert (S : q / pow2 (ulp_exp q) == inject_Z (m * 2 ^ (e - ulp_exp q))).
  { revert Hu. generalize (ulp_exp q) as u. intros u Hu.
    rewrite inject_Z_mult, pow2_Z by lia. rewrite pow2_minus, E.
    field. pose proof (pow2_pos u). lra. }
  assert (N : nearest q == q).
  { unfold nearest. rewrite (round_even_comp S), round_even_Z.
    revert S. generalize (ulp_exp q) as u. intros u S. rewrite <- S.
    field. pose proof (pow2_pos u). lra. }
  unfold round_pos.
  destruct (Qle_bool (pow2 1024) (nearest q)) eqn:T.
  - exfalso. apply Qle_bool_iff in T. lra.
  - rewrite (Qred_complete _ _ N). reflexivity.
Qed.

Lemma round_pos_idem (x r : Q) :
  0 < x -> round_pos x = Fin r -> round64 r = Fin r.
Proof.
  intros Hx. unfold round_pos.
  destruct (Qle_bool (pow2 1024) (nearest x)) eqn:T; [discriminate|].
  intros H. assert (Er : r = Qred (nearest x)) by congruence.
  clear H. subst r.
  assert (Hb : nearest x < pow2 1024).
  { apply Qnot_le_lt. intros H. apply Qle_bool_iff in H. congruence. }
  set (M := round_even (x / pow2 (ulp_exp x))).
  assert (HM : (0 <= M <= 2 ^ 53)%Z).
  { split.
    - apply round_even_ge. change (inject_Z 0) with 0.
      apply Qlt_le_weak, Qlt_shift_div_l; [apply pow2_pos|lra].
    - apply round_even_ub. apply Qlt_le_weak, scaled_lt, Hx. }
  assert (EN : nearest x == inject_Z M * pow2 (ulp_exp x)) by reflexivity.
  assert (Hu : (-1074 <= ulp_exp x)%Z) by (unfold ulp_exp; lia).
  destruct (Z.eq_dec M 0) as [Z0|NZ].
  - assert (E0 : nearest x == 0) by (rewrite EN, Z0; ring).
    rewrite (Qred_complete _ _ E0). reflexivity.
  - assert (Hpos : 0 < nearest x).
    { rewrite EN. apply Qmult_lt_0_compat; [|apply pow2_pos].
      change 0 with (inject_Z 0). rewrite <- Zlt_Qlt. lia. }
    assert (Hr : 0 < Qred (nearest x)) by (rewrite Qred_correct; exact Hpos).
    unfold round64. apply Qgt_alt in Hr. rewrite Hr.
    assert (G : forall m e, (0 < m < 2 ^ 53)%Z -> (-1074 <= e)%Z ->
                  nearest x == inject_Z m * pow2 e ->
                  round_pos (Qred (nearest x)) = Fin (Qred (nearest x))).
    { intros m e Hm He E.
      rewrite (@round_pos_exact (Qred (nearest x)) m e Hm He).
      - rewrite (Qred_complete _ _ (Qred_correct (nearest x))). reflexivity.
      - rewrite Qred_correct. exact E.
      - rewrite Qred_correct. exact Hb. }
    destruct (Z.eq_dec M (2 ^ 53)) as [Top|NT].
    + apply (G (2 ^ 52)%Z (ulp_exp x + 1)%Z); [lia|lia|].
      rewrite EN, Top, pow2_S.
      change (2 ^ 53)%Z with (2 * 2 ^ 52)%Z. rewrite inject_Z_mult.
      change (inject_Z 2) with 2. ring.
    + apply (G M (ulp_exp x)); [lia|lia|exact EN].
Qed.

Lemma neg_neg (a : number) : neg (neg a) = a.
Proof.
  destruct a as [[n d]| | |]; try reflexivity. cbn [neg]. unfold Qopp.
  cbn [Qnum Qden]. rewrite Z.opp_involutive. reflexivity.
Qed.

Lemma round64_opp (q : Q) : round64 (- q) = neg (round64 q).
Proof.
  unfold round64. destruct (Qcompare_spec q 0) as [H|H|H].
  - assert (C : (- q ?= 0) = Eq) by (apply Qeq_alt; rewrite H; reflexivity).
    rewrite C. reflexivity.
  - assert (C : (- q ?= 0) = Gt).
    { assert (P : 0 < - q) by lra. apply Qgt_alt. exact P. }
    rewrite C, neg_neg. reflexivity.
  - assert (C : (- q ?= 0) = Lt).
    { assert (P : - q < 0) by lra. apply Qlt_alt. exact P. }
    rewrite C. f_equal. apply round_pos_comp; [lra|ring].
Qed.

Lemma round64_pos (q : Q) : 0 < q -> round64 q = round_pos q.
Proof.
  intros H. unfold round64. apply Qgt_alt in H. rewrite H. reflexivity.
Qed.

Lemma round64_idem (x r : Q) : round64 x = Fin r -> round64 r = Fin r.
Proof.
  destruct (Qcompare_spec x 0) as [Hx|Hx|Hx].
  - rewrite (@round64_comp x 0 Hx). intros H. injection H as <-. reflexivity.
  - assert (E : round64 x = neg (round_pos (- x))).
    { rewrite <- (round64_pos (q := - x)) by lra. rewrite round64_opp, neg_neg.
      reflexivity. }
    rewrite E. destruct (round_pos (- x)) as [r'| | |] eqn:E'; try discriminate.
    cbn [neg]. intros H. assert (Er : r = - r') by congruence. subst r.
    rewrite round64_opp.
    rewrite (@round_pos_idem (- x) r' ltac:(lra) E'). reflexivity.
  - rewrite (@round64_pos x Hx). apply round_pos_idem, Hx.
Qed.


Lemma is_double_round (q : Q) :
  is_double q = true -> exists r, round64 q = Fin r /\ r == q.
Proof.
  unfold is_double. destruct (round64 q) as [r| | |]; try discriminate.
  intros H. apply Qeq_bool_iff in H. eauto.
Qed.

Lemma round64_is_double (x r : Q) : round64 x = Fin r -> is_double r = true.
Proof.
  intros H. unfold is_double. rewrite (@round64_idem x r H).
  apply Qeq_bool_iff. reflexivity.
Qed.

End Rounding.

Section LinearScale.
Local Open Scope Q_scope.

Lemma yScale_range (data : Data) :
  d3.lin_range (yScale data) = (svgHeight - bottom svgMargin, top svgMargin).
Proof. reflexivity. Qed.

Lemma yScale_domain (data : Data) :
  d3.lin_domain (yScale data)
  = let d1 := d3.coerce (d3.max (map value data)) in
    if Js.lt d1 (Fin 0)
    then let '(lo, hi) := d3.nice_interval d1 (Fin 0) in (hi, lo)
    else d3.nice_interval (Fin 0) d1.
Proof. reflexivity. Qed.

Lemma yScale_empty : d3.lin_domain (yScale []) = (Fin 0, NaN).
Proof. reflexivity. Qed.

End LinearScale.

(** *** The band scale *)

Lemma index_of_lt (x : string) (l : list string) (i : nat) :
  d3.index_of x l = Some i -> i < List.length l.
Proof.
  revert i. induction l as [|y r IH]; intros i; simpl; [discriminate|].
  destruct (String.eqb x y).
  - intros [= <-]. lia.
  - destruct (d3.index_of x r) as [j|]; simpl; [|discriminate].
    intros [= <-]. specialize (IH j eq_refl). lia.
Qed.

Lemma index_of_in (x : string) (l : list string) :
  In x l -> exists i, d3.index_of x l = Some i.
Proof.
  induction l as [|y r IH]; simpl; [tauto|]. intros H.
  destruct (String.eqb_spec x y) as [E|E]; [eauto|].
  destruct H as [H|H]; [congruence|]. destruct (IH H) as [i ->]. simpl. eauto.
Qed.

Lemma existsb_eqb_in (x : string) (l : list string) :
  existsb (String.eqb x) l = true <-> In x l.
Proof.
  rewrite existsb_exists. split.
  - intros [y [Hy E]]. apply String.eqb_eq in E. subst. assumption.
  - intros H. exists x. split; [assumption|apply String.eqb_refl].
Qed.

Lemma intern_in (names seen : list string) (x : string) :
  In x names -> In x seen \/ In x (d3.intern seen names).
Proof.
  revert seen. induction names as [|y r IH]; intros seen; simpl; [tauto|].
  intros [<-|H].
  - destruct (existsb (String.eqb y) seen) eqn:E.
    + left. apply existsb_eqb_in. assumption.
    + right. left. reflexivity.
  - destruct (existsb (String.eqb y) seen) eqn:E.
    + apply IH. assumption.
    + destruct (IH (y :: seen) H) as [[<-|H1]|H1]; simpl; auto.
Qed.

Lemma intern_incl (names seen : list string) (x : string) :
  In x (d3.intern seen names) -> In x names.
Proof.
  revert seen. induction names as [|y r IH]; intros seen; simpl; [tauto|].
  destruct (existsb (String.eqb y) seen).
  - intros H. right. eapply IH. eassumption.
  - intros [H|H]; [left; assumption|right; eapply IH; eassumption].
Qed.

Lemma intern_nodup (names seen : list string) :
  NoDup names -> (forall x, In x names -> ~ In x seen) ->
  d3.intern seen names = names.
Proof.
  revert seen. induction names as [|y r IH]; intros seen Hnd Hs; [reflexivity|].
  inversion Hnd as [|? ? Hy Hr]; subst. simpl.
  destruct (existsb (String.eqb y) seen) eqn:E.
  - apply existsb_eqb_in in E. exfalso. apply (Hs y); simpl; auto.
  - f_equal. apply IH; [assumption|].
    intros x Hx [<-|Hin]; [contradiction|]. apply (Hs x); simpl; auto.
Qed.

Lemma nth_error_map_seq {A} (f : nat -> A) (n i : nat) :
  i < n -> nth_error (map f (seq 0 n)) i = Some (f i).
Proof.
  intros H. rewrite nth_error_map, nth_error_seq.
  destruct (Nat.ltb_spec i n); [reflexivity|lia].
Qed.

Section BandScale.
Local Open Scope Q_scope.
Variable data : Data.

Let n : Q := inject_Z (Z.of_nat (List.length (d3.band_domain (xScale data)))).

Lemma xScale_domain : d3.band_domain (xScale data) = d3.intern [] (map name data).
Proof. reflexivity. Qed.

Lemma xScale_range :
  d3.band_range (xScale data) = (left svgMargin, svgWidth - right svgMargin).
Proof. reflexivity. Qed.

Lemma xScale_step :
  d3.step (xScale data) = (595 - 25) / Qmax 1 (n - (4 # 10) + (4 # 10) * 2).
Proof. reflexivity. Qed.

Lemma xScale_start :
  d3.band_start (xScale data)
  = 25 + (595 - 25 - d3.step (xScale data) * (n - (4 # 10))) * (1 # 2).
Proof. reflexivity. Qed.

Lemma xScale_bandwidth :
  d3.bandwidth (xScale data) = d3.step (xScale data) * (1 - (4 # 10)).
Proof. reflexivity. Qed.

Lemma xScale_values (i : nat) :
  (i < List.length (d3.band_domain (xScale data)))%nat ->
  nth_error (d3.band_values (xScale data)) i
  = Some (d3.band_start (xScale data)
          + d3.step (xScale data) * inject_Z (Z.of_nat i)).
Proof.
  intros H. unfold d3.band_values.
  change (d3.band_reverse (xScale data)) with false. cbv iota.
  apply (nth_error_map_seq
           (fun i => d3.band_start (xScale data)
                     + d3.step (xScale data) * inject_Z (Z.of_nat i)) H).
Qed.

(** Every band lies within the range. *)
Lemma xScale_within (nm : string) (x : Q) :
  d3.band_apply (xScale data) nm = Some x ->
  25 <= x /\ x + d3.bandwidth (xScale data) <= 595.
Proof.
  unfold d3.band_apply. destruct (d3.index_of nm _) as [i|] eqn:E; [|discriminate].
  apply index_of_lt in E. rewrite (xScale_values E). intros [= <-].
  rewrite xScale_bandwidth, xScale_start, xScale_step. fold n.
  assert (Hi : 0 <= inject_Z (Z.of_nat i)).
  { change 0 with (inject_Z 0). rewrite <- Zle_Qle. lia. }
  assert (Hn : inject_Z (Z.of_nat i) + 1 <= n).
  { unfold n. change 1 with (inject_Z 1). rewrite <- inject_Z_plus, <- Zle_Qle. lia. }
  set (k := inject_Z (Z.of_nat i)) in *.
  assert (Hm : Qmax 1 (n - (4 # 10) + (4 # 10) * 2) == n + (4 # 10)).
  { rewrite Q.max_r; lra. }
  rewrite Hm. set (s := (595 - 25) / (n + (4 # 10))).
  assert (Hs : s * (n + (4 # 10)) == 570).
  { unfold s. field. lra. }
  assert (Hp : 0 < s).
  { unfold s. apply Qlt_shift_div_l; lra. }
  assert (H1 : 0 <= s * k) by (apply Qmult_le_0_compat; lra).
  assert (H2 : 0 <= s * (n - k - 1)) by (apply Qmult_le_0_compat; lra).
  split; lra.
Qed.
End BandScale.

(** *** The attributes written from a datum *)

Lemma attrs_geometry (data : Data) (d : Datum) (e : Elem) :
  attrs (geometry data d e)
  = box_attrs (xScale data) (yScale data) (name d) (value d) (attrs e).
Proof.
  unfold geometry, box_attrs, set_x, height_of. cbn [setAttribute with_attrs attrs].
  destruct (d3.band_apply (xScale data) (name d)); reflexivity.
Qed.

Lemma attrs_bar_class (d : Datum) (e : Elem) : attrs (bar_class d e) = attrs e.
Proof.
  unfold bar_class, classList_add, classList_remove.
  destruct (flag (primary d)); cbn [negb];
    repeat match goal with |- context [if ?b then _ else _] => destruct b end;
    reflexivity.
Qed.

Lemma attrs_bar_style (data : Data) (d : Datum) (e : Elem) :
  attrs (bar_style data d e)
  = box_attrs (xScale data) (yScale data) (name d) (value d) (attrs e).
Proof. unfold bar_style. rewrite attrs_bar_class. apply attrs_geometry. Qed.

Lemma zip_style_attrs (sty : Datum -> Elem -> Elem)
  (F : string -> Q -> list (string * AttrValue) -> list (string * AttrValue))
  (es : list Elem) (ds : Data) :
  (forall d e, attrs (sty d e) = F (name d) (value d) (attrs e)) ->
  map attrs (zip_style sty es ds)
  = zip_box F (map attrs es) (map name_value ds).
Proof.
  intros H. revert ds. induction es as [|e r IH]; intros [|d ds]; simpl; auto.
  rewrite H, IH. reflexivity.
Qed.

Lemma styled_created_attrs (sty : Datum -> Elem -> Elem)
  (F : string -> Q -> list (string * AttrValue) -> list (string * AttrValue))
  (nm : string) (f : nat) (ds : Data) :
  (forall d e, attrs (sty d e) = F (name d) (value d) (attrs e)) ->
  map attrs (map (styled sty) (map root_elem (created nm f ds)))
  = map (fun nv => F (fst nv) (snd nv) []) (map name_value ds).
Proof.
  intros H. revert f. induction ds as [|d r IH]; intros f; [reflexivity|].
  cbn [created map]. rewrite IH. f_equal.
  unfold styled. cbn. rewrite H. reflexivity.
Qed.

Lemma bars_attrs (data : Data) (st : State) :
  wf st -> top_level is_bar (svg st) ->
  map attrs (selected "rect" (bars_tree data st))
  = boxes (xScale data) (yScale data)
      (map attrs (selected "rect" (svg st))) (map name_value data).
Proof.
  intros Hwf Ht. rewrite bars_selected by assumption. unfold boxes.
  rewrite map_app. f_equal.
  - apply zip_style_attrs. intros d e. apply attrs_bar_style.
  - rewrite (@styled_created_attrs (bar_style data)
               (box_attrs (xScale data) (yScale data))).
    + rewrite length_map, skipn_map. reflexivity.
    + intros d e. apply attrs_bar_style.
Qed.

Lemma lab_nodes_roots_attrs (data : Data) (kids : nat -> Datum -> list Node)
  (f g : nat) (ds : Data) :
  map attrs (map root_elem (lab_nodes (fo_elem data) kids f g ds))
  = map (fun nv => box_attrs (xScale data) (yScale data) (fst nv) (snd nv) [])
        (map name_value ds).
Proof.
  revert f g. induction ds as [|d r IH]; intros f g; [reflexivity|].
  cbn [lab_nodes map root_elem]. rewrite IH. f_equal.
  unfold fo_elem. rewrite attrs_geometry. reflexivity.
Qed.

Lemma labels_attrs (data : Data) (st : State) :
  wf st -> top_level is_label (svg st) ->
  map attrs (selected "foreignObject" (labels_tree data st))
  = boxes (xScale data) (yScale data)
      (map attrs (selected "foreignObject" (svg st))) (map name_value data).
Proof.
  intros Hwf Ht. rewrite labels_selected by assumption. unfold boxes.
  rewrite map_app. f_equal.
  - apply zip_style_attrs. intros d e. apply attrs_geometry.
  - unfold new_labels. rewrite lab_nodes_roots_attrs.
    rewrite length_map, skipn_map. reflexivity.
Qed.

(** *** Datasets that agree on names and values *)

Lemma xScale_ext (data1 data2 : Data) :
  map name_value data1 = map name_value data2 -> xScale data1 = xScale data2.
Proof.
  intros H. unfold xScale.
  assert (E : map name data1 = map name data2).
  { apply (f_equal (map fst)) in H. rewrite !map_map in H. exact H. }
  rewrite E. reflexivity.
Qed.

Lemma yScale_ext (data1 data2 : Data) :
  map name_value data1 = map name_value data2 -> yScale data1 = yScale data2.
Proof.
  intros H. unfold yScale.
  assert (E : map value data1 = map value data2).
  { apply (f_equal (map snd)) in H. rewrite !map_map in H. exact H. }
  rewrite E. reflexivity.
Qed.

Lemma axes_state_ext (data1 data2 : Data) (st : State) :
  map name_value data1 = map name_value data2 ->
  axes_state data1 st = axes_state data2 st.
Proof.
  intros H. unfold axes_state, axes_tree, bottom_axis, left_axis.
  rewrite (xScale_ext _ _ H), (yScale_ext _ _ H). reflexivity.
Qed.

Lemma redraw_bars_attrs (data : Data) (st : State) :
  chart_inv st ->
  map attrs (selected "rect" (svg (redraw data st)))
  = boxes (xScale data) (yScale data)
      (map attrs (selected "rect" (axes_tree data st))) (map name_value data).
Proof.
  intros H. rewrite redraw_bars by assumption.
  pose proof (axes_inv data H) as [Hwf [Hb _]].
  apply (bars_attrs data Hwf Hb).
Qed.

Lemma redraw_labels_attrs (data : Data) (st : State) :
  chart_inv st ->
  map attrs (selected "foreignObject" (svg (redraw data st)))
  = boxes (xScale data) (yScale data)
      (map attrs (selected "foreignObject" (axes_tree data st)))
      (map name_value data).
Proof.
  intros H. pose proof (axes_inv data H) as H1.
  pose proof (bars_inv data H1) as [Hwf [_ [Hl _]]].
  unfold redraw, labels_state. cbn [svg].
  rewrite (labels_attrs data Hwf Hl). cbn [bars_state svg].
  rewrite (bars_keep_labels data H1). reflexivity.
Qed.

Lemma map_box (l1 l2 : list Elem) :
  map attrs l1 = map attrs l2 -> map box l1 = map box l2.
Proof.
  intros H.
  assert (E : forall l, map box l
                        = map (fun a => (assoc_get "x" a, assoc_get "y" a,
                                         assoc_get "width" a, assoc_get "height" a))
                              (map attrs l)).
  { intros l. rewrite map_map. reflexivity. }
  rewrite !E, H. reflexivity.
Qed.

Lemma redraw_box_ext (data1 data2 : Data) (st : State) :
  chart_inv st -> map name_value data1 = map name_value data2 ->
  map box (selected "rect" (svg (redraw data1 st)))
  = map box (selected "rect" (svg (redraw data2 st)))
  /\ map box (selected "foreignObject" (svg (redraw data1 st)))
     = map box (selected "foreignObject" (svg (redraw data2 st))).
Proof.
  intros Hinv H.
  pose proof (f_equal svg (@axes_state_ext data1 data2 st H)) as Ha. cbn [axes_state svg] in Ha.
  split; apply map_box.
  - rewrite !redraw_bars_attrs by assumption.
    rewrite (xScale_ext _ _ H), (yScale_ext _ _ H), H, Ha. reflexivity.
  - rewrite !redraw_labels_attrs by assumption.
    rewrite (xScale_ext _ _ H), (yScale_ext _ _ H), H, Ha. reflexivity.
Qed.

(** *** Reading the attributes back *)

Lemma assoc_get_set (k : string) (v : AttrValue) (l : list (string * AttrValue)) :
  assoc_get k (assoc_set k v l) = Some v.
Proof.
  induction l as [|[k' v'] r IH]; simpl.
  - rewrite String.eqb_refl. reflexivity.
  - destruct (String.eqb k k') eqn:E; simpl.
    + rewrite String.eqb_refl. reflexivity.
    + rewrite E. exact IH.
Qed.

Lemma assoc_get_set_other (k k' : string) (v : AttrValue)
  (l : list (string * AttrValue)) :
  k <> k' -> assoc_get k (assoc_set k' v l) = assoc_get k l.
Proof.
  intros Hne. apply String.eqb_neq in Hne.
  induction l as [|[k2 v2] r IH]; simpl.
  - rewrite Hne. reflexivity.
  - destruct (String.eqb k' k2) eqn:E; simpl.
    + apply String.eqb_eq in E. subst k2. rewrite Hne. reflexivity.
    + destruct (String.eqb k k2); [reflexivity|exact IH].
Qed.

Lemma box_attrs_width (x : d3.BandScale) (y : d3.LinearScale) (nm : string)
  (v : Q) (l : list (string * AttrValue)) :
  assoc_get "width" (box_attrs x y nm v l) = Some (VNum (Fin (d3.bandwidth x))).
Proof.
  unfold box_attrs. rewrite assoc_get_set_other by discriminate.
  apply assoc_get_set.
Qed.

Lemma box_attrs_height (x : d3.BandScale) (y : d3.LinearScale) (nm : string)
  (v : Q) (l : list (string * AttrValue)) :
  assoc_get "height" (box_attrs x y nm v l)
  = Some (VNum (Js.sub (Fin (svgHeight - bottom svgMargin)%Q) (d3.lin_apply y v))).
Proof. unfold box_attrs. apply assoc_get_set. Qed.

Lemma box_attrs_y (x : d3.BandScale) (y : d3.LinearScale) (nm : string)
  (v : Q) (l : list (string * AttrValue)) :
  assoc_get "y" (box_attrs x y nm v l) = Some (VNum (d3.lin_apply y v)).
Proof.
  unfold box_attrs. rewrite !assoc_get_set_other by discriminate.
  apply assoc_get_set.
Qed.

Lemma assoc_get_remove (k : string) (l : list (string * AttrValue)) :
  assoc_get k (assoc_remove k l) = None.
Proof.
  unfold assoc_remove. induction l as [|[k' v'] r IH]; simpl; [reflexivity|].
  destruct (String.eqb k k') eqn:E; simpl; [exact IH|].
  rewrite E. exact IH.
Qed.

Lemma box_attrs_x (x : d3.BandScale) (y : d3.LinearScale) (nm : string)
  (v : Q) (l : list (string * AttrValue)) :
  assoc_get "x" (box_attrs x y nm v l)
  = option_map (fun q => VNum (Fin q)) (d3.band_apply x nm).
Proof.
  unfold box_attrs. rewrite !assoc_get_set_other by discriminate.
  destruct (d3.band_apply x nm); simpl;
    [apply assoc_get_set|apply assoc_get_remove].
Qed.

Lemma zip_box_in (F : string -> Q -> list (string * AttrValue)
                      -> list (string * AttrValue))
  (ls : list (list (string * AttrValue))) (nvs : list (string * Q))
  (a : list (string * AttrValue)) :
  In a (zip_box F ls nvs) ->
  exists n v l, In (n, v) nvs /\ a = F n v l.
Proof.
  revert nvs. induction ls as [|l r IH]; intros [|[n v] nvs]; simpl; try tauto.
  intros [<-|H].
  - exists n, v, l. auto.
  - destruct (IH _ H) as [n' [v' [l' [H1 H2]]]]. exists n', v', l'. auto.
Qed.

Lemma boxes_in (x : d3.BandScale) (y : d3.LinearScale)
  (ls : list (list (string * AttrValue))) (nvs : list (string * Q))
  (a : list (string * AttrValue)) :
  In a (boxes x y ls nvs) ->
  exists n v l, In (n, v) nvs /\ a = box_attrs x y n v l.
Proof.
  unfold boxes. intros H. apply in_app_or in H. destruct H as [H|H].
  - apply zip_box_in in H. exact H.
  - apply in_map_iff in H. destruct H as [[n v] [<- H]].
    exists n, v, []. split; [|reflexivity]. eapply in_skipn. eassumption.
Qed.

(** *** What a redraw places *)

Lemma redraw_placed (data : Data) (st : State) (e : Elem) :
  chart_inv st ->
  In e (selected "rect" (svg (redraw data st))
        ++ selected "foreignObject" (svg (redraw data st))) ->
  exists n v l, In (n, v) (map name_value data)
    /\ attrs e = box_attrs (xScale data) (yScale data) n v l.
Proof.
  intros Hinv He. apply in_app_or in He. destruct He as [He|He];
    apply (in_map attrs) in He.
  - rewrite redraw_bars_attrs in He by assumption. apply boxes_in in He. exact He.
  - rewrite redraw_labels_attrs in He by assumption. apply boxes_in in He.
    exact He.
Qed.

(** *** The classes of bars and labels *)

Lemma bar_class_primary (d : Datum) (e : Elem) :
  has_class "primaryBar" (bar_class d e) = flag (primary d).
Proof.
  unfold bar_class. destruct (flag (primary d)); cbn [negb].
  - rewrite has_class_remove by discriminate. apply has_class_add_same.
  - rewrite has_class_add by discriminate. apply has_class_remove_same.
Qed.

Lemma bar_class_secondary (d : Datum) (e : Elem) :
  has_class "secondaryBar" (bar_class d e) = negb (flag (primary d)).
Proof.
  unfold bar_class. destruct (flag (primary d)); cbn [negb].
  - apply has_class_remove_same.
  - apply has_class_add_same.
Qed.

Lemma clash_bar_style (data : Data) (d : Datum) (e : Elem) :
  clash e = false -> clash (bar_style data d e) = false.
Proof.
  unfold clash. intros H. apply orb_false_iff in H. destruct H as [_ H].
  unfold bar_style at 1 2. rewrite bar_class_primary, bar_class_secondary.
  rewrite !has_class_bar_style by discriminate. rewrite H.
  destruct (flag (primary d)); reflexivity.
Qed.

Lemma clash_on_bar (I : list nat) (data : Data) (e : Elem) :
  clash e = false -> clash (on I (bar_style data) e) = false.
Proof.
  intros H. unfold on. destruct (mem _ _); [|assumption].
  destruct (datum e); [|assumption]. apply clash_bar_style. assumption.
Qed.

Lemma clash_bindf (al : list (nat * Datum)) (e : Elem) :
  clash (bindf al e) = clash e.
Proof. unfold bindf. destruct (assoc_nat _ _); reflexivity. Qed.

Lemma clash_place (data : Data) (st : State) (e : Elem) :
  clash (place data st e) = clash e.
Proof. unfold clash. rewrite !has_class_place. reflexivity. Qed.

Lemma clash_fo_elem (data : Data) (i : nat) (d : Datum) :
  clash (fo_elem data i d) = false.
Proof. unfold clash. rewrite !has_class_fo_elem. reflexivity. Qed.

Lemma clash_div_elem (j : nat) (d : Datum) : clash (div_elem j d) = false.
Proof. destruct d as [n v [[|]|]]; reflexivity. Qed.

Lemma axis_blind_clash : axis_blind clash.
Proof. intros id x. repeat split. Qed.

Lemma nowhere_map_weak (P : Elem -> bool) (h : Elem -> Elem) (l : list Elem) :
  (forall e, P e = false -> P (h e) = false) -> nowhere P l -> nowhere P (map h l).
Proof.
  intros Hh. unfold nowhere. rewrite !Forall_forall. intros Hl e He.
  apply in_map_iff in He. destruct He as [x [<- Hx]]. auto.
Qed.

Lemma axes_no_clash (data : Data) (st : State) :
  nowhere clash (descendants (svg st)) ->
  nowhere clash (descendants (axes_tree data st)).
Proof.
  intros H. apply axes_nowhere; auto. apply axis_blind_clash.
Qed.

Lemma bars_no_clash (data : Data) (st : State) :
  nowhere clash (descendants (svg st)) ->
  nowhere clash (descendants (bars_tree data st)).
Proof.
  intros H. unfold bars_tree.
  eapply nowhere_incl; [apply descendants_prune_incl|].
  rewrite descendants_tmap. apply nowhere_map_weak.
  { intros e. apply clash_on_bar. }
  rewrite joined_descendants. apply nowhere_app. split.
  - apply nowhere_map; [intros e; apply clash_bindf|assumption].
  - generalize (fresh st).
    induction (skipn _ data) as [|d r IH]; intros f; constructor; auto.
    apply IH.
Qed.

Lemma labels_no_clash (data : Data) (st : State) :
  nowhere clash (descendants (svg st)) ->
  nowhere clash (descendants (labels_tree data st)).
Proof.
  intros H. rewrite labels_tree_eq. apply shape_nowhere.
  - intros e. apply clash_place.
  - assumption.
  - apply lab_nodes_nowhere; [apply clash_fo_elem|apply clash_div_elem].
Qed.

Lemma redraw_no_clash (data : Data) (st : State) :
  nowhere clash (descendants (svg st)) ->
  nowhere clash (descendants (svg (redraw data st))).
Proof.
  intros H. unfold redraw, labels_state, bars_state, axes_state. cbn [svg].
  apply labels_no_clash. cbn [svg]. apply bars_no_clash. cbn [svg].
  apply axes_no_clash. assumption.
Qed.

Lemma reachable_no_clash (st : State) :
  reachable st -> nowhere clash (descendants (svg st)).
Proof.
  induction 1 as [|arg st st' Hr IH E]; [constructor|].
  rewrite (updateSvg_spec arg (reachable_inv Hr)) in E. injection E as <-.
  apply redraw_no_clash, IH.
Qed.

Lemma zip_style_forall (P : Elem -> Prop) (sty : Datum -> Elem -> Elem)
  (es : list Elem) (ds : Data) :
  (forall d e, P (sty d (with_datum (Some d) e))) ->
  Forall P (zip_style sty es ds).
Proof.
  intros H. revert ds. induction es as [|e r IH]; intros [|d ds]; simpl;
    constructor; auto.
Qed.

Lemma styled_created_forall (P : Elem -> Prop) (sty : Datum -> Elem -> Elem)
  (nm : string) (f : nat) (ds : Data) :
  (forall d i, P (sty d (root_elem (d3.create nm (Some d) i)))) ->
  Forall P (map (styled sty) (map root_elem (created nm f ds))).
Proof.
  intros H. revert f. induction ds as [|d r IH]; intros f; [constructor|].
  cbn [created map]. constructor; [|apply IH]. apply H.
Qed.

Lemma bar_style_classed (data : Data) (d : Datum) (e : Elem) :
  datum e = Some d -> bar_classed (bar_style data d e).
Proof.
  intros H. exists d. unfold bar_style at 2 3.
  rewrite (stylish_datum (stylish_bar_style data d)), bar_class_primary,
    bar_class_secondary. auto.
Qed.

Lemma redraw_bars_classed (data : Data) (st : State) :
  chart_inv st ->
  Forall bar_classed (selected "rect" (svg (redraw data st))).
Proof.
  intros H. rewrite redraw_bars by assumption.
  pose proof (axes_inv data H) as [Hwf [Hb _]].
  rewrite bars_selected by assumption. apply Forall_app. split.
  - apply zip_style_forall. intros d e. apply bar_style_classed. reflexivity.
  - apply styled_created_forall. intros d i. apply bar_style_classed.
    reflexivity.
Qed.

(** *** Checking the invariant by computation *)

Lemma distinct_nodup (l : list nat) : distinct l = true -> NoDup l.
Proof.
  induction l as [|i r IH]; simpl; intros H; constructor.
  - apply andb_true_iff in H. destruct H as [H _].
    apply negb_true_iff in H. apply mem_false. assumption.
  - apply IH. apply andb_true_iff in H. tauto.
Qed.

Lemma noneb_nowhere (P : Elem -> bool) (l : list Elem) :
  noneb P l = true -> nowhere P l.
Proof.
  unfold noneb, nowhere. rewrite forallb_forall, Forall_forall.
  intros H e He. apply negb_true_iff. auto.
Qed.

Lemma chart_invb_sound (st : State) : chart_invb st = true -> chart_inv st.
Proof.
  unfold chart_invb. rewrite !andb_true_iff.
  intros [[[[H1 H2] H3] H4] H5]. repeat split.
  - apply distinct_nodup. assumption.
  - rewrite Forall_forall. rewrite forallb_forall in H2. intros i Hi.
    apply Nat.ltb_lt. auto.
  - unfold top_level. rewrite Forall_forall. rewrite forallb_forall in H3.
    intros c Hc. apply noneb_nowhere. auto.
  - unfold top_level. rewrite Forall_forall. rewrite forallb_forall in H4.
    intros c Hc. apply noneb_nowhere. auto.
  - apply noneb_nowhere. assumption.
Qed.

(* ================================================================== *)
(** ** Further lemmas on the component *)

(** *** The box of a datum *)

Lemma box_of_box_attrs (data : Data) (d : Datum) (l : list (string * AttrValue)) :
  box_of_attrs (box_attrs (xScale data) (yScale data) (name d) (value d) l)
  = box_of data d.
Proof.
  unfold box_of_attrs, box_of, height_of.
  rewrite box_attrs_x, box_attrs_y, box_attrs_width, box_attrs_height.
  reflexivity.
Qed.

Lemma boxes_box_of (data : Data) (ls : list (list (string * AttrValue)))
  (ds : Data) :
  map box_of_attrs (boxes (xScale data) (yScale data) ls (map name_value ds))
  = map (box_of data) ds.
Proof.
  unfold boxes. revert ds. induction ls as [|l r IH]; intros ds.
  - cbn [zip_box List.length skipn app]. rewrite !map_map. apply map_ext.
    intros d. apply box_of_box_attrs.
  - destruct ds as [|d ds]; [reflexivity|].
    cbn [map zip_box List.length skipn app name_value fst snd].
    rewrite (box_of_box_attrs data d l). f_equal. apply IH.
Qed.

Lemma map_box_attrs (l : list Elem) : map box l = map box_of_attrs (map attrs l).
Proof. rewrite map_map. reflexivity. Qed.

Lemma map_pair {A B C D} (f : A -> C) (g : A -> D) (f' : B -> C) (g' : B -> D)
  (l : list A) (m : list B) :
  map f l = map f' m -> map g l = map g' m ->
  map (fun a => (f a, g a)) l = map (fun b => (f' b, g' b)) m.
Proof.
  revert m. induction l as [|a r IH]; intros [|b m]; simpl; try discriminate;
    [reflexivity|].
  intros [= E1 E2] [= E3 E4]. rewrite E1, E3. f_equal. apply IH; assumption.
Qed.

Lemma redraw_bars_boxes (data : Data) (st : State) :
  chart_inv st ->
  map (fun e => (datum e, box e)) (selected "rect" (svg (redraw data st)))
  = map (fun d => (Some d, box_of data d)) data.
Proof.
  intros H. apply map_pair; [apply redraw_bars_data, H|].
  rewrite map_box_attrs, redraw_bars_attrs by assumption. apply boxes_box_of.
Qed.

Lemma redraw_labels_boxes (data : Data) (st : State) :
  chart_inv st ->
  map (fun e => (datum e, box e))
      (selected "foreignObject" (svg (redraw data st)))
  = map (fun d => (Some d, box_of data d)) data.
Proof.
  intros H. apply map_pair; [apply redraw_labels_data, H|].
  rewrite map_box_attrs, redraw_labels_attrs by assumption. apply boxes_box_of.
Qed.

(** *** Bands of different names *)

Lemma index_of_inj (a b : string) (l : list string) (i : nat) :
  d3.index_of a l = Some i -> d3.index_of b l = Some i -> a = b.
Proof.
  revert i. induction l as [|y r IH]; intros i; simpl; [discriminate|].
  destruct (String.eqb_spec a y) as [Ea|Ea];
    destruct (String.eqb_spec b y) as [Eb|Eb].
  - congruence.
  - intros [= <-]. destruct (d3.index_of b r); discriminate.
  - destruct (d3.index_of a r); simpl; [|discriminate]. intros [= <-]. discriminate.
  - destruct (d3.index_of a r) as [j|] eqn:Ja; simpl; [|discriminate].
    destruct (d3.index_of b r) as [k|] eqn:Jb; simpl; [|discriminate].
    intros [= <-] [= E]. subst k. apply (IH j); reflexivity.
Qed.

Section Bands.
Local Open Scope Q_scope.
Variable data : Data.

Lemma xScale_step_pos : 0 < d3.step (xScale data).
Proof.
  rewrite xScale_step.
  set (n := inject_Z (Z.of_nat (List.length (d3.band_domain (xScale data))))).
  assert (Hm : 1 <= Qmax 1 (n - (4 # 10) + (4 # 10) * 2)) by apply Q.le_max_l.
  apply Qlt_shift_div_l; lra.
Qed.

Lemma xScale_bandwidth_pos : 0 < d3.bandwidth (xScale data).
Proof.
  rewrite xScale_bandwidth. pose proof xScale_step_pos.
  apply Qmult_lt_0_compat; lra.
Qed.

Lemma xScale_at (nm : string) (i : nat) :
  d3.index_of nm (d3.band_domain (xScale data)) = Some i ->
  d3.band_apply (xScale data) nm
  = Some (d3.band_start (xScale data)
          + d3.step (xScale data) * inject_Z (Z.of_nat i)).
Proof.
  intros E. unfold d3.band_apply. rewrite E. apply xScale_values.
  apply index_of_lt in E. exact E.
Qed.

Lemma xScale_index (nm : string) (x : Q) :
  d3.band_apply (xScale data) nm = Some x ->
  exists i, d3.index_of nm (d3.band_domain (xScale data)) = Some i
            /\ x = d3.band_start (xScale data)
                   + d3.step (xScale data) * inject_Z (Z.of_nat i).
Proof.
  intros H. destruct (d3.index_of nm _) as [i|] eqn:E.
  - exists i. split; [reflexivity|]. rewrite (xScale_at _ E) in H. congruence.
  - unfold d3.band_apply in H. rewrite E in H. discriminate.
Qed.

Lemma xScale_apart (nm1 nm2 : string) (x1 x2 : Q) :
  nm1 <> nm2 ->
  d3.band_apply (xScale data) nm1 = Some x1 ->
  d3.band_apply (xScale data) nm2 = Some x2 ->
  x1 + d3.bandwidth (xScale data) < x2 \/ x2 + d3.bandwidth (xScale data) < x1.
Proof.
  intros Hne H1 H2.
  destruct (xScale_index _ H1) as [i [Ei ->]].
  destruct (xScale_index _ H2) as [j [Ej ->]].
  rewrite xScale_bandwidth. pose proof xScale_step_pos as Hs.
  set (s := d3.step (xScale data)) in *. set (b := d3.band_start (xScale data)).
  assert (Hij : i <> j).
  { intros ->. apply Hne. eapply index_of_inj; eassumption. }
  destruct (Nat.lt_total i j) as [Hlt|[Heq|Hgt]]; [left|contradiction|right].
  - assert (Hq : inject_Z (Z.of_nat i) + 1 <= inject_Z (Z.of_nat j)).
    { change 1 with (inject_Z 1). rewrite <- inject_Z_plus, <- Zle_Qle. lia. }
    assert (Hm : s * (inject_Z (Z.of_nat i) + 1) <= s * inject_Z (Z.of_nat j)).
    { apply Qmult_le_l; assumption. }
    lra.
  - assert (Hq : inject_Z (Z.of_nat j) + 1 <= inject_Z (Z.of_nat i)).
    { change 1 with (inject_Z 1). rewrite <- inject_Z_plus, <- Zle_Qle. lia. }
    assert (Hm : s * (inject_Z (Z.of_nat j) + 1) <= s * inject_Z (Z.of_nat i)).
    { apply Qmult_le_l; assumption. }
    lra.
Qed.
End Bands.

(** *** The y scale as a formula *)


(** *** The identities of a selection after the join *)

Lemma zip_style_ids (sty : Datum -> Elem -> Elem) (es : list Elem) (ds : Data) :
  (forall d, stylish (sty d)) ->
  map eid (zip_style sty es ds) = firstn (List.length ds) (map eid es).
Proof.
  intros Hs. revert ds. induction es as [|e r IH]; intros [|d ds]; simpl; auto.
  rewrite (stylish_eid (Hs d)). simpl. f_equal. apply IH.
Qed.

Lemma styled_ids (sty : Datum -> Elem -> Elem) (l : list Elem) :
  (forall d, stylish (sty d)) -> map eid (map (styled sty) l) = map eid l.
Proof.
  intros Hs. rewrite map_map. apply map_ext. intros e. unfold styled.
  destruct (datum e) as [d|]; [apply (stylish_eid (Hs d))|reflexivity].
Qed.

Lemma bars_ids (data : Data) (st : State) :
  wf st -> top_level is_bar (svg st) ->
  map eid (selected "rect" (bars_tree data st)) = merged_ids "rect" data st.
Proof.
  intros Hwf Ht. rewrite bars_selected by assumption. unfold merged_ids.
  rewrite map_app, zip_style_ids, styled_ids, created_ids
    by apply stylish_bar_style.
  rewrite length_skipn, length_map. reflexivity.
Qed.

Lemma labels_ids (data : Data) (st : State) :
  wf st -> top_level is_label (svg st) ->
  map eid (selected "foreignObject" (labels_tree data st))
  = merged_ids "foreignObject" data st.
Proof.
  intros Hwf Ht. rewrite labels_selected by assumption. unfold merged_ids.
  rewrite map_app, zip_style_ids by apply stylish_geometry.
  unfold new_labels. rewrite lab_nodes_roots_ids by apply fo_elem_id.
  rewrite length_skipn, length_map. reflexivity.
Qed.

Lemma prune_gone (X : list nat) (t : Node) (i : nat) :
  In i X -> ~ In (eid (root_elem t)) X -> ~ In i (ids (prune (outside X) t)).
Proof.
  intros Hi Hr Hin. rewrite ids_eq, root_prune in Hin. destruct Hin as [E|Hin].
  - apply Hr. rewrite E. exact Hi.
  - apply in_map_iff in Hin. destruct Hin as [e [<- He]].
    apply descendants_prune_keep in He. unfold outside in He.
    apply negb_true_iff, mem_false in He. contradiction.
Qed.

Lemma bars_exit_gone (data : Data) (st : State) (i : nat) :
  wf st -> In i (exit_ids "rect" data st) -> ~ In i (ids (bars_tree data st)).
Proof.
  intros Hwf Hi. unfold bars_tree. apply prune_gone; [exact Hi|].
  rewrite root_tmap.
  rewrite (stylish_eid (stylish_on _ _ (stylish_bar_style data))).
  unfold joined_tree. cbn [root_elem]. intros Hin.
  apply (wf_root_not_selected "rect" Hwf). unfold exit_ids in Hin.
  eapply in_skipn. eassumption.
Qed.

Lemma labels_exit_gone (data : Data) (st : State) (i : nat) :
  wf st -> In i (exit_ids "foreignObject" data st) ->
  ~ In i (ids (labels_tree data st)).
Proof.
  intros Hwf Hi. unfold labels_tree. apply prune_gone; [exact Hi|].
  cbn [root_elem]. intros Hin.
  apply (wf_root_not_selected "foreignObject" Hwf). unfold exit_ids in Hin.
  eapply in_skipn. eassumption.
Qed.

(** *** The children of the svg element *)

Lemma children_prune (keep : Elem -> bool) (t : Node) :
  children (prune keep t)
  = filter (fun c => keep (root_elem c)) (map (prune keep) (children t)).
Proof. destruct t; reflexivity. Qed.

Lemma filter_map_root (P : Elem -> bool) (cs : list Node) :
  filter P (map root_elem cs)
  = map root_elem (filter (fun c => P (root_elem c)) cs).
Proof.
  induction cs as [|c r IH]; simpl; [reflexivity|].
  destruct (P (root_elem c)); simpl; rewrite IH; reflexivity.
Qed.

Lemma top_level_filter (P : Elem -> bool) (t : Node) :
  top_level P t ->
  filter P (descendants t) = filter P (map root_elem (children t)).
Proof.
  unfold top_level. unfold descendants at 2. generalize (children t) as cs.
  induction 1 as [|c r Hc _ IH]; [reflexivity|].
  rewrite elemsF_cons, elems_eq, filter_app. cbn [map filter].
  rewrite (nowhere_filter Hc), IH.
  destruct (P (root_elem c)); reflexivity.
Qed.

Lemma in_child_descendants (t c : Node) (e : Elem) :
  In c (children t) -> In e (elems c) -> In e (descendants t).
Proof.
  intros Hc He. unfold descendants, elemsF. apply in_flat_map. eauto.
Qed.

Lemma elems_descendants (c : Node) (e : Elem) :
  In e (descendants c) -> In e (elems c).
Proof. rewrite elems_eq. intros H. right. exact H. Qed.

(** Keeping the elements whose identity is not among the last ones keeps
    the first ones. *)
Lemma filter_firstn {A} (f : A -> nat) (l : list A) (n : nat) :
  NoDup (map f l) ->
  filter (fun c => negb (mem (f c) (skipn n (map f l)))) l = firstn n l.
Proof.
  revert n. induction l as [|a r IH]; intros n Hnd.
  - destruct n; reflexivity.
  - inversion Hnd as [|? ? Ha Hr]; subst. destruct n as [|n].
    + cbn [skipn firstn].
      rewrite (@filter_ext_in _ _ (fun _ => false)).
      * clear. induction (a :: r); simpl; auto.
      * intros c Hc. apply negb_false_iff, mem_true.
        apply in_map. exact Hc.
    + cbn [map skipn firstn filter].
      assert (Hm : mem (f a) (skipn n (map f r)) = false).
      { apply mem_false. intros Hin. apply Ha. eapply in_skipn. eassumption. }
      rewrite Hm. cbn [negb]. f_equal. apply IH. assumption.
Qed.

(** *** The labels after [updateLabels], as trees *)

Lemma assoc_nat_combine_nth (R : list nat) (data : Data) (i id : nat) (d : Datum) :
  NoDup R -> nth_error R i = Some id -> nth_error data i = Some d ->
  assoc_nat id (combine R data) = Some d.
Proof.
  revert data i. induction R as [|r R IH]; intros data i Hnd HR Hd.
  - destruct i; discriminate.
  - inversion Hnd as [|? ? Hr HR']; subst. destruct data as [|d0 ds].
    + destruct i; discriminate.
    + destruct i as [|i]; simpl in *.
      * injection HR as ->. injection Hd as ->. rewrite Nat.eqb_refl. reflexivity.
      * destruct (Nat.eqb_spec id r) as [E|E].
        -- exfalso. apply Hr. subst r. eapply nth_error_In. eassumption.
        -- eapply IH; eassumption.
Qed.

Lemma nth_error_firstn_in {A} (l : list A) (n i : nat) (a : A) :
  nth_error l i = Some a -> i < n -> In a (firstn n l).
Proof.
  revert n i. induction l as [|x r IH]; intros n i H Hlt.
  - destruct i; discriminate.
  - destruct n as [|n]; [lia|]. destruct i as [|i]; simpl in *.
    + injection H as ->. left. reflexivity.
    + right. apply (IH n i); [assumption|lia].
Qed.

Lemma place_at (data : Data) (st : State) (e : Elem) (i : nat) (d : Datum) :
  wf st ->
  nth_error (map eid (selected "foreignObject" (svg st))) i = Some (eid e) ->
  nth_error data i = Some d ->
  place data st e = geometry data d (with_datum (Some d) e).
Proof.
  intros Hwf HR Hd. unfold place.
  assert (Hnd : NoDup (map eid (selected "foreignObject" (svg st)))).
  { apply selected_nodup, Hwf. }
  assert (Hb : bindf (combine (map eid (selected "foreignObject" (svg st))) data) e
               = with_datum (Some d) e).
  { unfold bindf. rewrite (@assoc_nat_combine_nth _ data i (eid e) d Hnd HR Hd). reflexivity. }
  rewrite Hb. apply on_hit; [|reflexivity].
  apply mem_true. cbn [with_datum eid]. eapply nth_error_firstn_in; [eassumption|].
  apply nth_error_Some. congruence.
Qed.

Lemma rebound_map (data : Data) (g : Node -> Node) (cs : list Node) (ds : Data) :
  (forall i c d, nth_error cs i = Some c -> nth_error ds i = Some d ->
     g c = N (geometry data d (with_datum (Some d) (root_elem c))) (children c)) ->
  map g (firstn (List.length ds) cs) = rebound data cs ds.
Proof.
  revert ds. induction cs as [|c r IH]; intros ds H.
  - rewrite firstn_nil. destruct ds; reflexivity.
  - destruct ds as [|d ds]; [reflexivity|]. cbn [List.length firstn map rebound].
    rewrite (H 0 c d eq_refl eq_refl). f_equal. apply IH.
    intros i c' d' Hc Hd. apply (H (S i)); assumption.
Qed.

Lemma filter_comm {A} (P Q : A -> bool) (l : list A) :
  filter P (filter Q l) = filter Q (filter P l).
Proof.
  induction l as [|a r IH]; simpl; [reflexivity|].
  destruct (P a) eqn:Ep, (Q a) eqn:Eq; simpl; rewrite ?Ep, ?Eq, IH; reflexivity.
Qed.

Lemma filter_map_pred {A B} (P : B -> bool) (Q : A -> bool) (h : A -> B)
  (l : list A) :
  (forall a, P (h a) = Q a) -> filter P (map h l) = map h (filter Q l).
Proof.
  intros H. induction l as [|a r IH]; simpl; [reflexivity|].
  rewrite H. destruct (Q a); simpl; rewrite IH; reflexivity.
Qed.

Section LabelNodes.
Variables (data : Data) (st : State).
Hypothesis Hwf : wf st.
Hypothesis Htop : top_level is_label (svg st).

Let R := map eid (selected "foreignObject" (svg st)).
Let X := exit_ids "foreignObject" data st.

Lemma label_nodes_ids : map (fun c => eid (root_elem c)) (label_nodes (svg st)) = R.
Proof.
  unfold R, selected, querySelectorAll, label_nodes.
  change (matches (selector "foreignObject")) with is_label.
  rewrite (top_level_filter Htop), filter_map_root, map_map. reflexivity.
Qed.

Lemma exit_below (i : nat) : In i X -> i < fresh st.
Proof.
  intros H. apply (@wf_selected_lt "foreignObject" st i Hwf).
  unfold X, exit_ids in H. eapply in_skipn. eassumption.
Qed.

Lemma exit_labels (e : Elem) :
  In e (descendants (svg st)) -> In (eid e) X -> is_label e = true.
Proof.
  intros He Hi. apply (@selected_by_id "foreignObject" (svg st) e (proj1 Hwf) He).
  unfold X, exit_ids in Hi. eapply in_skipn. eassumption.
Qed.

(** A label that was there keeps its children. *)
Lemma old_label_node (c : Node) :
  In c (label_nodes (svg st)) ->
  prune (outside X) (tmap (place data st) c)
  = N (place data st (root_elem c)) (children c).
Proof.
  intros Hc. unfold label_nodes in Hc. apply filter_In in Hc.
  destruct Hc as [Hc Hl].
  assert (Hd : forall e, In e (descendants c) -> is_label e = false).
  { unfold top_level in Htop. rewrite Forall_forall in Htop.
    specialize (Htop c Hc). unfold nowhere in Htop.
    rewrite Forall_forall in Htop. exact Htop. }
  assert (Hin : forall e, In e (descendants c) -> In e (descendants (svg st))).
  { intros e He. eapply in_child_descendants; [exact Hc|].
    apply elems_descendants. exact He. }
  assert (Hk : map (tmap (place data st)) (children c) = children c).
  { rewrite <- (map_id (children c)) at 2. apply map_ext_in. intros k Hk.
    apply tmap_id_in. intros e He. apply place_fixed.
    assert (Hed : In e (descendants c)).
    { unfold descendants, elemsF. apply in_flat_map. eauto. }
    apply (@not_selected "foreignObject" st e Hwf (Hin e Hed) (Hd e Hed)). }
  destruct c as [r ks]. cbn [tmap root_elem children] in *. rewrite Hk.
  apply prune_id_in. intros e He.
  change (descendants (N (place data st r) ks)) with (descendants (N r ks)) in He.
  unfold outside. apply negb_true_iff, mem_false. intros Hx.
  pose proof (@exit_labels e (Hin e He) Hx) as Hlab. rewrite (Hd e He) in Hlab.
  discriminate.
Qed.

Lemma new_label_node (c : Node) :
  In c (new_labels data st) ->
  prune (outside X) c = c /\ outside X (root_elem c) = true
  /\ is_label (root_elem c) = true.
Proof.
  intros Hc.
  assert (Hi : forall e, In e (elems c) -> ~ In (eid e) X).
  { intros e He Hx. apply exit_below in Hx.
    assert (Hid : In (eid e) (idsF (new_labels data st))).
    { unfold idsF. apply in_map. unfold elemsF. apply in_flat_map. eauto. }
    apply new_labels_ids in Hid. lia. }
  split; [|split].
  - apply prune_id_in. intros e He. unfold outside.
    apply negb_true_iff, mem_false, Hi, elems_descendants, He.
  - unfold outside. apply negb_true_iff, mem_false, Hi.
    rewrite elems_eq. left. reflexivity.
  - unfold new_labels in Hc. revert Hc.
    generalize (fresh st + (List.length data
                  - List.length (selected "foreignObject" (svg st)))) as g.
    generalize (fresh st) as f.
    induction (skipn _ data) as [|d r IH]; intros f g; [intros []|].
    cbn [lab_nodes]. intros [<-|H]; [|eapply IH; eassumption].
    cbn [root_elem]. rewrite is_label_tag, fo_elem_tag. reflexivity.
Qed.

Lemma labels_nodes :
  label_nodes (labels_tree data st)
  = rebound data (label_nodes (svg st)) data ++ new_labels data st.
Proof.
  unfold label_nodes at 1. rewrite labels_tree_eq, children_prune.
  cbn [children]. fold X. rewrite map_app, !filter_app. f_equal.
  - (* the labels that were there *)
    set (g := fun c => N (place data st (root_elem c)) (children c)).
    set (f := fun c : Node => eid (root_elem c)).
    rewrite filter_comm, map_map.
    rewrite (@filter_map_pred _ _ (fun c => is_label (root_elem c))
               (fun c => is_label (root_elem c))).
    2:{ intros c. rewrite root_prune, root_tmap. apply place_stylish_tag. }
    fold (label_nodes (svg st)).
    rewrite (map_ext_in _ g) by (intros c Hc; apply old_label_node, Hc).
    rewrite (@filter_map_pred _ _ (fun c => outside X (root_elem c))
               (fun c => negb (mem (f c) (skipn (List.length data)
                                            (map f (label_nodes (svg st))))))).
    2:{ intros c. unfold g, f, outside. cbn [root_elem].
        rewrite place_eid. unfold f. rewrite label_nodes_ids. reflexivity. }
    rewrite filter_firstn.
    2:{ unfold f. rewrite label_nodes_ids. apply selected_nodup, Hwf. }
    apply rebound_map. intros i c d Hc Hd. unfold g. f_equal.
    apply (@place_at data st (root_elem c) i d Hwf); [|exact Hd].
    fold R. rewrite <- label_nodes_ids.
    apply (map_nth_error (fun c => eid (root_elem c)) _ _ Hc).
  - (* the new labels *)
    assert (E : map (prune (outside X)) (new_labels data st) = new_labels data st).
    { rewrite <- (map_id (new_labels data st)) at 2. apply map_ext_in.
      intros c Hc. apply new_label_node, Hc. }
    rewrite E. rewrite (@filter_all _ _ (new_labels data st)).
    + apply filter_all. rewrite Forall_forall. intros c Hc.
      apply new_label_node, Hc.
    + rewrite Forall_forall. intros c Hc. apply new_label_node, Hc.
Qed.
End LabelNodes.

Lemma rebound_views (data : Data) (cs : list Node) (ds : Data) :
  map label_view (rebound data cs ds) = zip_views cs ds.
Proof.
  revert ds. induction cs as [|c r IH]; intros [|d ds]; simpl; auto.
  rewrite IH. f_equal. unfold label_view. cbn [root_elem].
  rewrite (stylish_datum (stylish_geometry data d)). reflexivity.
Qed.

Lemma div_elem_view (j : nat) (d : Datum) :
  (tag (div_elem j d), classes (div_elem j d), text (div_elem j d))
  = ("div",
     ["label"; if flag (primary d) then "primaryLabel" else "secondaryLabel"],
     Some (Pts (value d))).
Proof. destruct d as [n v [[|]|]]; reflexivity. Qed.

Lemma new_labels_views (data : Data) (f g : nat) (ds : Data) :
  map label_view
      (lab_nodes (fo_elem data) (fun j d => [N (div_elem j d) []]) f g ds)
  = map new_view ds.
Proof.
  revert f g. induction ds as [|d r IH]; intros f g; [reflexivity|].
  cbn [lab_nodes map]. rewrite IH. f_equal.
  unfold label_view, new_view, kids_view. cbn [root_elem children map].
  rewrite fo_elem_datum, div_elem_view. reflexivity.
Qed.

Lemma labels_views (data : Data) (st : State) :
  wf st -> top_level is_label (svg st) ->
  map label_view (label_nodes (labels_tree data st))
  = zip_views (label_nodes (svg st)) data
    ++ map new_view (skipn (List.length (label_nodes (svg st))) data).
Proof.
  intros Hwf Ht. rewrite (@labels_nodes data st Hwf Ht), map_app, rebound_views.
  f_equal. unfold new_labels. rewrite new_labels_views.
  rewrite <- (length_map (fun c => eid (root_elem c)) (label_nodes (svg st))).
  rewrite (@label_nodes_ids st Ht), length_map. reflexivity.
Qed.

(** *** The kinds of children the component draws *)

Lemma only_chart_prune (keep : Elem -> bool) (t : Node) :
  only_chart t -> only_chart (prune keep t).
Proof.
  unfold only_chart. rewrite children_prune, !Forall_forall.
  intros H c Hc. apply filter_In in Hc. destruct Hc as [Hc _].
  apply in_map_iff in Hc. destruct Hc as [c0 [<- Hc0]].
  rewrite root_prune. auto.
Qed.

Lemma only_chart_tmap (h : Elem -> Elem) (t : Node) :
  (forall e, chart_child (h e) = chart_child e) ->
  only_chart t -> only_chart (tmap h t).
Proof.
  unfold only_chart. rewrite children_tmap, !Forall_forall.
  intros Hh H c Hc. apply in_map_iff in Hc. destruct Hc as [c0 [<- Hc0]].
  rewrite root_tmap, Hh. auto.
Qed.

Lemma chart_child_ext (e e' : Elem) :
  tag e' = tag e -> has_class "axis" e' = has_class "axis" e ->
  chart_child e' = chart_child e.
Proof.
  intros Ht Hc. unfold chart_child. rewrite !is_axis_class, !is_bar_tag,
    !is_label_tag, Ht, Hc. reflexivity.
Qed.

Lemma chart_child_bindf (al : list (nat * Datum)) (e : Elem) :
  chart_child (bindf al e) = chart_child e.
Proof. unfold bindf. destruct (assoc_nat _ _); reflexivity. Qed.

Lemma chart_child_on_bar (I : list nat) (data : Data) (e : Elem) :
  chart_child (on I (bar_style data) e) = chart_child e.
Proof.
  apply chart_child_ext.
  - apply (stylish_tag (stylish_on _ _ (stylish_bar_style data))).
  - apply has_class_on_bar; discriminate.
Qed.

Lemma chart_child_place (data : Data) (st : State) (e : Elem) :
  chart_child (place data st e) = chart_child e.
Proof.
  apply chart_child_ext; [|apply has_class_place].
  pose proof (place_stylish_tag (tag e) data st e) as H.
  simpl in H. rewrite String.eqb_refl in H. apply String.eqb_eq in H. exact H.
Qed.

Lemma only_chart_axes (data : Data) (st : State) :
  only_chart (svg st) -> only_chart (axes_tree data st).
Proof.
  intros H. unfold axes_tree.
  apply (only_chart_prune (outside (map eid (selected ".axis" (svg st))))) in H.
  unfold only_chart in *. cbn [children]. apply Forall_app. split; [exact H|].
  repeat constructor.
Qed.

Lemma only_chart_bars (data : Data) (st : State) :
  only_chart (svg st) -> only_chart (bars_tree data st).
Proof.
  intros H. unfold bars_tree. apply only_chart_prune, only_chart_tmap.
  { intros e. apply chart_child_on_bar. }
  unfold joined_tree, only_chart. cbn [children]. apply Forall_app. split.
  - rewrite Forall_forall. intros c Hc. apply in_map_iff in Hc.
    destruct Hc as [c0 [<- Hc0]]. rewrite root_tmap, chart_child_bindf.
    unfold only_chart in H. rewrite Forall_forall in H. auto.
  - generalize (fresh st).
    induction (skipn _ data) as [|d r IH]; intros f; constructor; auto.
Qed.

Lemma only_chart_labels (data : Data) (st : State) :
  only_chart (svg st) -> only_chart (labels_tree data st).
Proof.
  intros H. rewrite labels_tree_eq. apply only_chart_prune.
  unfold only_chart. cbn [children]. apply Forall_app. split.
  - rewrite Forall_forall. intros c Hc. apply in_map_iff in Hc.
    destruct Hc as [c0 [<- Hc0]]. rewrite root_tmap, chart_child_place.
    unfold only_chart in H. rewrite Forall_forall in H. auto.
  - unfold new_labels. generalize (fresh st).
    generalize (fresh st + (List.length data
                  - List.length (selected "foreignObject" (svg st)))).
    induction (skipn _ data) as [|d r IH]; intros g f; constructor; auto.
    cbn [root_elem]. unfold chart_child.
    rewrite is_axis_class, has_class_fo_elem, is_label_tag, fo_elem_tag.
    apply orb_true_r.
Qed.

Lemma labels_top_level_axis (data : Data) (st : State) :
  top_level is_axis (svg st) -> top_level is_axis (labels_tree data st).
Proof.
  intros H. rewrite labels_tree_eq. apply shape_top_level.
  - intros e. apply has_class_place.
  - exact H.
  - apply lab_nodes_below. intros j d. apply axis_div_elem.
Qed.

Lemma tidy_empty : tidy empty_svg.
Proof.
  split; [apply chart_inv_empty|]. split; constructor.
Qed.

Lemma redraw_tidy (data : Data) (st : State) : tidy st -> tidy (redraw data st).
Proof.
  intros [Hinv [Ha Hc]]. split; [apply redraw_inv, Hinv|]. split.
  - unfold redraw, labels_state. cbn [svg]. apply labels_top_level_axis.
    cbn [bars_state svg]. apply bars_top_level_class; try discriminate.
    cbn [axes_state svg]. apply axes_top_level_axis.
  - unfold redraw, labels_state, bars_state, axes_state. cbn [svg].
    apply only_chart_labels. cbn [svg]. apply only_chart_bars. cbn [svg].
    apply only_chart_axes. exact Hc.
Qed.

Lemma reachable_tidy (st : State) : reachable st -> tidy st.
Proof.
  induction 1 as [|arg st st' Hr IH E]; [apply tidy_empty|].
  rewrite (updateSvg_spec arg (reachable_inv Hr)) in E. injection E as <-.
  apply redraw_tidy, IH.
Qed.

Lemma kinds_sum (l : list Elem) :
  Forall (fun e => chart_child e = true) l ->
  List.length l
  = List.length (filter is_bar l) + List.length (filter is_label l)
    + List.length (filter is_axis l).
Proof.
  induction 1 as [|e r He _ IH]; [reflexivity|]. cbn [filter List.length].
  unfold chart_child in He. rewrite is_bar_tag, is_label_tag in *.
  destruct (is_axis e).
  - apply String.eqb_eq in He. rewrite He. cbn. lia.
  - destruct (String.eqb_spec (tag e) "rect") as [E|E].
    + rewrite E. cbn. lia.
    + cbn [orb] in He. rewrite He. cbn. lia.
Qed.

Lemma redraw_children (data : Data) (st : State) :
  tidy st ->
  List.length (children (svg (redraw data st))) = 2 * List.length data + 2.
Proof.
  intros Ht. pose proof (redraw_tidy data Ht) as [Hinv [Ha Hc]].
  destruct Ht as [Hinv0 _]. destruct Hinv as [_ [Hb [Hl _]]].
  rewrite <- (length_map root_elem).
  rewrite kinds_sum by (unfold only_chart in Hc; rewrite Forall_map; exact Hc).
  rewrite <- !top_level_filter by assumption.
  change (filter is_bar (descendants (svg (redraw data st))))
    with (selected "rect" (svg (redraw data st))).
  change (filter is_label (descendants (svg (redraw data st))))
    with (selected "foreignObject" (svg (redraw data st))).
  change (filter is_axis (descendants (svg (redraw data st))))
    with (selected ".axis" (svg (redraw data st))).
  rewrite (map_some_length _ _ _ (redraw_bars_data data Hinv0)).
  rewrite (map_some_length _ _ _ (redraw_labels_data data Hinv0)).
  rewrite (redraw_axes_two data Hinv0). lia.
Qed.

(** *** The labels across the other two routines *)

Lemma filter_none {A} (P : A -> bool) (l : list A) :
  (forall a, In a l -> P a = false) -> filter P l = [].
Proof.
  induction l as [|a r IH]; intros H; simpl; [reflexivity|].
  rewrite (H a) by (left; reflexivity). apply IH. intros x Hx. apply H.
  right. exact Hx.
Qed.

Lemma filter_true {A} (P : A -> bool) (l : list A) :
  (forall a, In a l -> P a = true) -> filter P l = l.
Proof.
  induction l as [|a r IH]; intros H; simpl; [reflexivity|].
  rewrite (H a) by (left; reflexivity). f_equal. apply IH. intros x Hx.
  apply H. right. exact Hx.
Qed.

(** Pruning leaves alone the children of a kind whose elements all stay. *)
Lemma untouched_nodes (P keep : Elem -> bool) (t : Node) :
  (forall c, In c (children t) -> P (root_elem c) = true ->
     forall e, In e (elems c) -> keep e = true) ->
  filter (fun c => P (root_elem c)) (children (prune keep t))
  = filter (fun c => P (root_elem c)) (children t).
Proof.
  intros H. rewrite children_prune, filter_comm.
  rewrite (@filter_map_pred _ _ (fun c => P (root_elem c))
             (fun c => P (root_elem c))) by (intros c; rewrite root_prune; reflexivity).
  rewrite (map_ext_in _ (fun c => c)).
  - rewrite map_id. apply filter_true. intros c Hc. apply filter_In in Hc.
    destruct Hc as [Hc HP]. apply (H c Hc HP). rewrite elems_eq. left. reflexivity.
  - intros c Hc. apply filter_In in Hc. destruct Hc as [Hc HP].
    apply prune_id_in. intros e He. apply (H c Hc HP).
    apply elems_descendants. exact He.
Qed.

Section LabelsKept.
Variables (data : Data) (st : State).
Hypothesis Ht : tidy st.

Lemma label_elems (c : Node) (e : Elem) :
  In c (children (svg st)) -> is_label (root_elem c) = true ->
  In e (elems c) ->
  In e (descendants (svg st)) /\ is_bar e = false /\ is_axis e = false.
Proof.
  intros Hc Hl He. destruct Ht as [[Hwf [Hb _]] [Ha Hk]].
  split; [eapply in_child_descendants; eassumption|].
  rewrite elems_eq in He. destruct He as [<-|He].
  - unfold only_chart in Hk. rewrite Forall_forall in Hk.
    specialize (Hk c Hc). unfold chart_child in Hk.
    rewrite is_label_tag in Hl. apply String.eqb_eq in Hl.
    rewrite is_bar_tag, Hl. split; [reflexivity|].
    destruct (is_axis (root_elem c)); [|reflexivity].
    rewrite Hl in Hk. discriminate.
  - unfold top_level in Hb, Ha. rewrite Forall_forall in Hb, Ha.
    specialize (Hb c Hc). specialize (Ha c Hc). unfold nowhere in Hb, Ha.
    rewrite Forall_forall in Hb, Ha. auto.
Qed.

Lemma label_nodes_axes : label_nodes (axes_tree data st) = label_nodes (svg st).
Proof.
  unfold label_nodes, axes_tree. cbn [children]. rewrite filter_app.
  cbn [filter]. rewrite app_nil_r. apply untouched_nodes.
  intros c Hc Hl e He. destruct (label_elems c e Hc Hl He) as [Hd [_ Hx]].
  unfold outside. apply negb_true_iff, mem_false. intros Hin.
  destruct Ht as [[Hwf _] _].
  pose proof (@selected_by_id ".axis" (svg st) e (proj1 Hwf) Hd Hin) as Hm.
  change (matches (selector ".axis") e) with (is_axis e) in Hm. congruence.
Qed.

Lemma label_elem_fixed (c : Node) (e : Elem) :
  In c (children (svg st)) -> is_label (root_elem c) = true ->
  In e (elems c) ->
  on (merged_ids "rect" data st) (bar_style data)
     (bindf (combine (map eid (selected "rect" (svg st))) data) e) = e.
Proof.
  intros Hc Hl He. destruct (label_elems c e Hc Hl He) as [Hd [Hb _]].
  destruct Ht as [[Hwf _] _].
  pose proof (@not_selected "rect" st e Hwf Hd Hb) as Hn.
  rewrite bindf_absent.
  - apply on_miss, mem_false. unfold merged_ids. intros Hin.
    apply in_app_or in Hin. destruct Hin as [Hin|Hin].
    + apply Hn. eapply in_firstn. eassumption.
    + apply in_seq in Hin. destruct Hwf as [_ Hf]. rewrite Forall_forall in Hf.
      assert (eid e < fresh st).
      { apply Hf. rewrite ids_eq. right. apply in_map. exact Hd. }
      lia.
  - intros Hin. apply Hn. eapply in_combine_fst. eassumption.
Qed.

Lemma label_nodes_bars : label_nodes (bars_tree data st) = label_nodes (svg st).
Proof.
  set (h := on (merged_ids "rect" data st) (bar_style data)).
  set (b := bindf (combine (map eid (selected "rect" (svg st))) data)).
  assert (Hh : forall e, is_label (h e) = is_label e).
  { intros e. apply (@matches_tag_stylish "foreignObject" h).
    apply stylish_on, stylish_bar_style. }
  assert (Hb : forall e, is_label (b e) = is_label e).
  { intros e. apply matches_tag_bindf. }
  assert (E : label_nodes (tmap h (joined_tree "rect" "rect" data st))
              = label_nodes (svg st)).
  { unfold label_nodes, joined_tree. cbn [tmap children].
    rewrite map_app, filter_app, map_map.
    rewrite (@filter_none _ _ (map (tmap h) _)).
    - rewrite app_nil_r.
      rewrite (@filter_map_pred _ _ (fun c => is_label (root_elem c))
                 (fun c => is_label (root_elem c))).
      2:{ intros c. rewrite !root_tmap, Hh. apply Hb. }
      rewrite (map_ext_in _ (fun c => c)); [apply map_id|].
      intros c Hc. apply filter_In in Hc. destruct Hc as [Hc Hl].
      rewrite tmap_tmap. apply tmap_id_in. intros e He.
      apply (label_elem_fixed c e Hc Hl He).
    - intros c Hc. apply in_map_iff in Hc. destruct Hc as [c0 [<- Hc0]].
      rewrite root_tmap, Hh. revert Hc0. generalize (fresh st).
      induction (skipn _ data) as [|d r IH]; intros f; [intros []|].
      intros [<-|Hc0]; [reflexivity|eapply IH; eassumption]. }
  unfold bars_tree. fold h. rewrite <- E. apply untouched_nodes.
  intros c' Hc' Hl e' He'. unfold joined_tree in Hc'. cbn [tmap children] in Hc'.
  apply in_map_iff in Hc'. destruct Hc' as [c0 [<- Hc0]].
  rewrite root_tmap, Hh in Hl. rewrite elems_tmap in He'.
  apply in_map_iff in He'. destruct He' as [e0 [<- He0]].
  apply in_app_or in Hc0. destruct Hc0 as [Hc0|Hc0].
  - apply in_map_iff in Hc0. destruct Hc0 as [c [<- Hc]].
    rewrite root_tmap, Hb in Hl. rewrite elems_tmap in He0.
    apply in_map_iff in He0. destruct He0 as [e [<- He]].
    pose proof (label_elem_fixed c e Hc Hl He) as Hfix. fold h in Hfix.
    cbv zeta. rewrite Hfix.
    destruct (label_elems c e Hc Hl He) as [Hd [Hbar _]].
    destruct Ht as [[Hwf _] _].
    unfold outside. apply negb_true_iff, mem_false. intros Hin.
    apply (@not_selected "rect" st e Hwf Hd Hbar).
    unfold exit_ids in Hin. eapply in_skipn. eassumption.
  - exfalso. revert Hc0 Hl. generalize (fresh st).
    induction (skipn _ data) as [|d r IH]; intros f; [intros []|].
    intros [<-|Hc0]; [discriminate|eapply IH; eassumption].
Qed.
End LabelsKept.

Lemma redraw_labels_views (data : Data) (st : State) :
  tidy st ->
  map label_view (label_nodes (svg (redraw data st)))
  = zip_views (label_nodes (svg st)) data
    ++ map new_view (skipn (List.length (label_nodes (svg st))) data).
Proof.
  intros Ht. destruct Ht as [Hinv [Ha Hc]].
  pose proof (axes_inv data Hinv) as H1.
  pose proof (bars_inv data H1) as [Hwf [_ [Hl _]]].
  unfold redraw, labels_state. cbn [svg]. rewrite (labels_views data Hwf Hl).
  assert (T1 : tidy (axes_state data st)).
  { split; [exact H1|]. split.
    - apply axes_top_level_axis.
    - apply only_chart_axes, Hc. }
  cbn [bars_state svg]. rewrite (@label_nodes_bars data (axes_state data st) T1).
  cbn [axes_state svg].
  rewrite (@label_nodes_axes data st (conj Hinv (conj Ha Hc))). reflexivity.
Qed.

(** *** Successive redraws *)

Lemma updates_last (args : list (option Data)) (a : option Data) (st : State) :
  chart_inv st ->
  exists s, chart_inv s
            /\ updates (args ++ [a]) st = Some (tt, redraw (data_of a) s)
            /\ (reachable st -> reachable s).
Proof.
  revert st. induction args as [|b r IH]; intros st Hinv.
  - exists st. split; [exact Hinv|]. split; [|auto]. cbn [app updates].
    erewrite bind_some by (apply updateSvg_spec, Hinv). reflexivity.
  - destruct (IH (redraw (data_of b) st) (redraw_inv (data_of b) Hinv))
      as [s [Hs [E Hr]]].
    exists s. split; [exact Hs|]. split.
    + cbn [app updates].
      erewrite bind_some by (apply updateSvg_spec, Hinv). exact E.
    + intros H. apply Hr. eapply reach_update; [exact H|].
      apply updateSvg_spec, Hinv.
Qed.

(** *** The svg element itself *)

Lemma redraw_root (data : Data) (st : State) :
  chart_inv st -> root_elem (svg (redraw data st)) = root_elem (svg st).
Proof.
  intros Hinv. pose proof (axes_inv data Hinv) as [Hwf _].
  unfold redraw, labels_state. cbn [svg]. unfold labels_tree.
  rewrite root_prune. cbn [root_elem bars_state svg]. unfold bars_tree.
  rewrite root_prune, root_tmap. unfold joined_tree. cbn [root_elem].
  rewrite on_miss.
  - cbn [axes_state svg]. unfold axes_tree. cbn [root_elem]. apply root_prune.
  - apply mem_false. unfold merged_ids. intros Hin. apply in_app_or in Hin.
    destruct Hin as [Hin|Hin].
    + apply (wf_root_not_selected "rect" Hwf). eapply in_firstn. eassumption.
    + apply in_seq in Hin. destruct Hwf as [_ Hf]. rewrite Forall_forall in Hf.
      assert (eid (root_elem (svg (axes_state data st)))
              < fresh (axes_state data st)).
      { apply Hf. rewrite ids_eq. left. reflexivity. }
      lia.
Qed.

(** *** The ticks of the axes *)

Lemma tick_nodes_texts (id : nat) (labels : list Text) :
  texts (elemsF (d3.tick_nodes id labels)) = labels.
Proof.
  revert id. induction labels as [|l r IH]; intros id; [reflexivity|].
  cbn [d3.tick_nodes]. rewrite elemsF_cons. unfold texts.
  rewrite flat_map_app. fold (texts (elemsF (d3.tick_nodes (id + 3) r))).
  rewrite IH. reflexivity.
Qed.

Lemma axis_group_texts (id : nat) (tr : string) (d : option Datum)
  (a : d3.Axis) :
  texts (descendants (axis_group id tr d a)) = d3.tick_labels a.
Proof.
  unfold descendants, axis_group. cbn [children]. unfold d3.axis_nodes.
  rewrite elemsF_cons. unfold texts. rewrite flat_map_app.
  fold (texts (elemsF (d3.tick_nodes (S id + 1) (d3.tick_labels a)))).
  rewrite tick_nodes_texts. reflexivity.
Qed.

Lemma tick_nodes_groups (id : nat) (labels : list Text) :
  map (fun c => (tag (root_elem c), classes (root_elem c)))
      (d3.tick_nodes id labels)
  = repeat ("g", ["tick"]) (List.length labels).
Proof.
  revert id. induction labels as [|l r IH]; intros id; [reflexivity|].
  cbn [d3.tick_nodes map List.length repeat]. rewrite IH. reflexivity.
Qed.

(** *** An element without datum in the selection *)

Lemma unbound_modify (id i : nat) (g : Elem -> Elem) (t : Node) :
  stylish g -> unbound id t -> unbound id (modify i g t).
Proof.
  intros Hg [e [Hf Hd]]. unfold modify.
  set (h := fun e => if has_id i e then g e else e).
  assert (Hh : stylish h).
  { intros x. unfold h. destruct (has_id i x); [apply Hg|auto]. }
  exists (h e). split.
  - rewrite (@find_tmap h id t (stylish_eid Hh)), Hf. reflexivity.
  - rewrite (stylish_datum Hh). exact Hd.
Qed.

Lemma each_unbound (f : Datum -> Elem -> Elem) (id : nat)
  (s : list (option nat)) :
  (forall d, stylish (f d)) ->
  forall t, unbound id t -> In (Some id) s ->
  d3.each (fun i => d3.callback (fun d => modify i (f d)) i) s t = None.
Proof.
  intros Hf. induction s as [|[i|] r IH]; intros t Hu Hin; [destruct Hin| |].
  - cbn [d3.each]. unfold d3.callback at 1.
    destruct Hu as [e [He Hd]].
    destruct (find i t) as [e'|] eqn:Ei.
    + destruct (datum e') as [d|] eqn:Ed; [|reflexivity].
      apply IH.
      * apply unbound_modify; [apply Hf|]. exists e. auto.
      * destruct Hin as [E|Hin]; [|exact Hin]. injection E as ->. congruence.
    + apply IH; [exists e; auto|].
      destruct Hin as [E|Hin]; [|exact Hin]. injection E as ->. congruence.
  - cbn [d3.each]. apply IH; [exact Hu|].
    destruct Hin as [E|Hin]; [discriminate|exact Hin].
Qed.

Lemma node_data_unbound (id : nat) (s : list (option nat)) (t : Node) :
  unbound id t -> In (Some id) s -> d3.node_data s t = None.
Proof.
  intros [e [He Hd]]. induction s as [|[i|] r IH]; intros Hin; [destruct Hin| |].
  - cbn [d3.node_data]. destruct Hin as [E|Hin].
    + injection E as ->. rewrite He, Hd. reflexivity.
    + rewrite (IH Hin). destruct (find i t) as [e'|]; [|reflexivity].
      destruct (datum e'); reflexivity.
  - cbn [d3.node_data]. apply IH. destruct Hin as [E|Hin]; [discriminate|exact Hin].
Qed.

Lemma setSize_unbound (s : d3.Selection) (data : option Data) (st : State)
  (id : nat) :
  unbound id (svg st) -> In (Some id) (d3.nodes s) ->
  setSizeAndPositionToRect s data st = None.
Proof.
  intros Hu Hin. unfold setSizeAndPositionToRect. destruct data as [ds|].
  - unfold bind at 1. unfold ret at 1. unfold bind at 1. unfold bind at 1.
    unfold bind at 1. unfold bind at 1. unfold ret at 1.
    unfold d3.attr_fn at 1, d3.for_each.
    rewrite (@each_unbound
               (fun d => match option_map (fun q => VNum (Fin q))
                                 (d3.band_apply (xScale ds) (name d)) with
                         | Some v => setAttribute "x" v
                         | None => removeAttribute "x"
                         end) id (d3.nodes s)); auto.
    intros d. destruct (option_map _ _);
      [apply stylish_setAttribute|apply stylish_removeAttribute].
  - unfold bind at 1. unfold d3.get_data.
    rewrite (@node_data_unbound id (d3.nodes s) (svg st) Hu Hin). reflexivity.
Qed.

(** *** The axis groups as trees *)

Lemma has_class_bindf (c : string) (al : list (nat * Datum)) (e : Elem) :
  has_class c (bindf al e) = has_class c e.
Proof. unfold bindf. destruct (assoc_nat _ _); reflexivity. Qed.

Lemma axis_groups_axes (data : Data) (st : State) :
  wf st ->
  axis_groups (axes_tree data st)
  = [axis_group (fresh st) "translate(0, 285)"
       (datum (root_elem (svg st))) (bottom_axis data);
     axis_group (fresh st + axis_span (bottom_axis data)) "translate(25, 0)"
       (datum (root_elem (svg st))) (left_axis data)].
Proof.
  intros Hwf. unfold axis_groups, axes_tree. cbn [children].
  rewrite filter_app, root_prune. cbn [filter axis_group root_elem].
  rewrite filter_none; [reflexivity|].
  intros c Hc. destruct (is_axis (root_elem c)) eqn:E; [|reflexivity].
  exfalso. rewrite children_prune in Hc. apply filter_In in Hc.
  destruct Hc as [Hc Hk]. apply in_map_iff in Hc. destruct Hc as [c0 [<- Hc0]].
  rewrite root_prune in E, Hk. unfold outside in Hk.
  apply negb_true_iff, mem_false in Hk. apply Hk. apply in_map.
  unfold selected, querySelectorAll. apply filter_In. split; [|exact E].
  apply (in_child_descendants (svg st) c0); [exact Hc0|].
  rewrite elems_eq. left. reflexivity.
Qed.

Section AxesKept.
Variables (data : Data) (st : State).
Hypothesis Hinv : chart_inv st.
Hypothesis Hg : forall c, In c (children (svg st)) ->
  is_axis (root_elem c) = true -> tag (root_elem c) = "g".

Lemma axis_elems (c : Node) (e : Elem) :
  In c (children (svg st)) -> is_axis (root_elem c) = true ->
  In e (elems c) ->
  In e (descendants (svg st)) /\ is_bar e = false /\ is_label e = false.
Proof.
  intros Hc Hl He. destruct Hinv as [Hwf [Hb [Hlab _]]].
  split; [eapply in_child_descendants; eassumption|].
  rewrite elems_eq in He. destruct He as [<-|He].
  - rewrite is_bar_tag, is_label_tag, (Hg c Hc Hl). split; reflexivity.
  - unfold top_level in Hb, Hlab. rewrite Forall_forall in Hb, Hlab.
    specialize (Hb c Hc). specialize (Hlab c Hc). unfold nowhere in Hb, Hlab.
    rewrite Forall_forall in Hb, Hlab. auto.
Qed.

Lemma axis_elem_fixed (c : Node) (e : Elem) :
  In c (children (svg st)) -> is_axis (root_elem c) = true ->
  In e (elems c) ->
  on (merged_ids "rect" data st) (bar_style data)
     (bindf (combine (map eid (selected "rect" (svg st))) data) e) = e.
Proof.
  intros Hc Hl He. destruct (axis_elems c e Hc Hl He) as [Hd [Hb _]].
  destruct Hinv as [Hwf _].
  pose proof (@not_selected "rect" st e Hwf Hd Hb) as Hn.
  rewrite bindf_absent.
  - apply on_miss, mem_false. unfold merged_ids. intros Hin.
    apply in_app_or in Hin. destruct Hin as [Hin|Hin].
    + apply Hn. eapply in_firstn. eassumption.
    + apply in_seq in Hin. destruct Hwf as [_ Hf]. rewrite Forall_forall in Hf.
      assert (eid e < fresh st).
      { apply Hf. rewrite ids_eq. right. apply in_map. exact Hd. }
      lia.
  - intros Hin. apply Hn. eapply in_combine_fst. eassumption.
Qed.

Lemma axis_groups_bars : axis_groups (bars_tree data st) = axis_groups (svg st).
Proof.
  set (h := on (merged_ids "rect" data st) (bar_style data)).
  set (b := bindf (combine (map eid (selected "rect" (svg st))) data)).
  assert (Hh : forall e, is_axis (h e) = is_axis e).
  { intros e. apply has_class_on_bar; discriminate. }
  assert (Hb : forall e, is_axis (b e) = is_axis e).
  { intros e. apply has_class_bindf. }
  assert (E : axis_groups (tmap h (joined_tree "rect" "rect" data st))
              = axis_groups (svg st)).
  { unfold axis_groups, joined_tree. cbn [tmap children].
    rewrite map_app, filter_app, map_map.
    rewrite (@filter_none _ _ (map (tmap h) _)).
    - rewrite app_nil_r.
      rewrite (@filter_map_pred _ _ (fun c => is_axis (root_elem c))
                 (fun c => is_axis (root_elem c))).
      2:{ intros c. rewrite !root_tmap, Hh. apply Hb. }
      rewrite (map_ext_in _ (fun c => c)); [apply map_id|].
      intros c Hc. apply filter_In in Hc. destruct Hc as [Hc Hl].
      rewrite tmap_tmap. apply tmap_id_in. intros e He.
      apply (axis_elem_fixed c e Hc Hl He).
    - intros c Hc. apply in_map_iff in Hc. destruct Hc as [c0 [<- Hc0]].
      rewrite root_tmap, Hh. revert Hc0. generalize (fresh st).
      induction (skipn _ data) as [|d r IH]; intros f; [intros []|].
      intros [<-|Hc0]; [reflexivity|eapply IH; eassumption]. }
  unfold bars_tree. fold h. rewrite <- E. apply untouched_nodes.
  intros c' Hc' Hl e' He'. unfold joined_tree in Hc'. cbn [tmap children] in Hc'.
  apply in_map_iff in Hc'. destruct Hc' as [c0 [<- Hc0]].
  rewrite root_tmap, Hh in Hl. rewrite elems_tmap in He'.
  apply in_map_iff in He'. destruct He' as [e0 [<- He0]].
  apply in_app_or in Hc0. destruct Hc0 as [Hc0|Hc0].
  - apply in_map_iff in Hc0. destruct Hc0 as [c [<- Hc]].
    rewrite root_tmap, Hb in Hl. rewrite elems_tmap in He0.
    apply in_map_iff in He0. destruct He0 as [e [<- He]].
    pose proof (axis_elem_fixed c e Hc Hl He) as Hfix. fold h in Hfix.
    cbv zeta. rewrite Hfix.
    destruct (axis_elems c e Hc Hl He) as [Hd [Hbar _]].
    destruct Hinv as [Hwf _].
    unfold outside. apply negb_true_iff, mem_false. intros Hin.
    apply (@not_selected "rect" st e Hwf Hd Hbar).
    unfold exit_ids in Hin. eapply in_skipn. eassumption.
  - exfalso. revert Hc0 Hl. generalize (fresh st).
    induction (skipn _ data) as [|d r IH]; intros f; [intros []|].
    intros [<-|Hc0]; [discriminate|eapply IH; eassumption].
Qed.

Lemma axis_groups_labels :
  axis_groups (labels_tree data st) = axis_groups (svg st).
Proof.
  destruct Hinv as [Hwf _].
  assert (Hp : forall e, is_axis (place data st e) = is_axis e).
  { intros e. apply has_class_place. }
  assert (Hfix : forall c e, In c (children (svg st)) ->
            is_axis (root_elem c) = true -> In e (elems c) ->
            place data st e = e
            /\ ~ In (eid e) (map eid (selected "foreignObject" (svg st)))).
  { intros c e Hc Hl He. destruct (axis_elems c e Hc Hl He) as [Hd [_ Hlab]].
    pose proof (@not_selected "foreignObject" st e Hwf Hd Hlab) as Hn.
    split; [apply place_fixed; exact Hn|exact Hn]. }
  assert (E : axis_groups
                (N (root_elem (svg st))
                   (map (tmap (place data st)) (children (svg st))
                    ++ new_labels data st))
              = axis_groups (svg st)).
  { unfold axis_groups. cbn [children]. rewrite filter_app.
    rewrite (@filter_none _ _ (new_labels data st)).
    - rewrite app_nil_r.
      rewrite (@filter_map_pred _ _ (fun c => is_axis (root_elem c))
                 (fun c => is_axis (root_elem c))).
      2:{ intros c. rewrite root_tmap. apply Hp. }
      rewrite (map_ext_in _ (fun c => c)); [apply map_id|].
      intros c Hc. apply filter_In in Hc. destruct Hc as [Hc Hl].
      apply tmap_id_in. intros e He. apply (Hfix c e Hc Hl He).
    - intros c Hc. unfold new_labels in Hc. revert Hc.
      generalize (fresh st + (List.length data
                              - List.length (selected "foreignObject" (svg st)))).
      generalize (fresh st).
      induction (skipn _ data) as [|d r IH]; intros f g; [intros []|].
      intros [<-|Hc]; [apply has_class_fo_elem|eapply IH; eassumption]. }
  rewrite labels_tree_eq, <- E. apply untouched_nodes.
  intros c' Hc' Hl e' He'. cbn [children] in Hc'.
  apply in_app_or in Hc'. destruct Hc' as [Hc'|Hc'].
  - apply in_map_iff in Hc'. destruct Hc' as [c [<- Hc]].
    rewrite root_tmap, Hp in Hl. rewrite elems_tmap in He'.
    apply in_map_iff in He'. destruct He' as [e [<- He]].
    destruct (Hfix c e Hc Hl He) as [Hf Hn]. rewrite Hf.
    unfold outside. apply negb_true_iff, mem_false. intros Hin.
    apply Hn. unfold exit_ids in Hin. eapply in_skipn. eassumption.
  - exfalso. unfold new_labels in Hc'. revert Hc' Hl.
    generalize (fresh st + (List.length data
                            - List.length (selected "foreignObject" (svg st)))).
    generalize (fresh st).
    induction (skipn _ data) as [|d r IH]; intros f g; [intros []|].
    intros [<-|Hc];
      [cbn [root_elem]; rewrite is_axis_class, has_class_fo_elem; discriminate
      |eapply IH; eassumption].
Qed.
End AxesKept.

(** The axis groups after a redraw: the two that [updateAxises] drew. *)
Lemma redraw_axis_groups (data : Data) (st : State) :
  chart_inv st ->
  axis_groups (svg (redraw data st))
  = [axis_group (fresh st) "translate(0, 285)"
       (datum (root_elem (svg st))) (bottom_axis data);
     axis_group (fresh st + axis_span (bottom_axis data)) "translate(25, 0)"
       (datum (root_elem (svg st))) (left_axis data)].
Proof.
  intros Hinv.
  pose proof (axes_inv data Hinv) as H1.
  pose proof (bars_inv data H1) as H2.
  pose proof (axis_groups_axes data (proj1 Hinv)) as E1.
  assert (G : forall t,
            axis_groups t = axis_groups (axes_tree data st) ->
            forall c, In c (children t) -> is_axis (root_elem c) = true ->
                      tag (root_elem c) = "g").
  { intros t Et c Hc Ha.
    assert (Hin : In c (axis_groups t)) by (apply filter_In; auto).
    rewrite Et, E1 in Hin. destruct Hin as [<-|[<-|[]]]; reflexivity. }
  assert (E2 : axis_groups (bars_tree data (axes_state data st))
               = axis_groups (axes_tree data st)).
  { apply (@axis_groups_bars data (axes_state data st) H1).
    apply G. reflexivity. }
  unfold redraw, labels_state. cbn [svg].
  rewrite (@axis_groups_labels data (bars_state data (axes_state data st)) H2).
  - cbn [bars_state svg]. rewrite E2. exact E1.
  - cbn [bars_state svg]. apply G. exact E2.
Qed.

Lemma tick_nodes_view (id : nat) (labels : list Text) :
  map (fun c => (tag (root_elem c), classes (root_elem c), child_tags c))
      (d3.tick_nodes id labels)
  = repeat ("g", ["tick"], ["line"; "text"]) (List.length labels).
Proof.
  revert id. induction labels as [|l r IH]; intros id; [reflexivity|].
  cbn [d3.tick_nodes map List.length repeat]. rewrite IH. reflexivity.
Qed.

Lemma axis_group_view (id : nat) (tr : string) (d : option Datum)
  (a : d3.Axis) :
  axis_view (axis_group id tr d a)
  = axis_shown tr (d3.anchor (d3.orient a)) (d3.tick_labels a).
Proof.
  unfold axis_view, axis_shown. rewrite axis_group_texts.
  unfold axis_group. cbn [root_elem children tag classes attrs].
  unfold d3.axis_nodes. cbn [map]. rewrite tick_nodes_view. reflexivity.
Qed.

Lemma axis_groups_views (data : Data) (d : option Datum) (i j : nat) :
  map axis_view
    [axis_group i "translate(0, 285)" d (bottom_axis data);
     axis_group j "translate(25, 0)" d (left_axis data)]
  = [axis_shown "translate(0, 285)" "middle"
       (map TickName (d3.intern [] (map name data)));
     axis_shown "translate(25, 0)" "end"
       (map TickNumber (d3.lin_ticks (yScale data)))].
Proof. cbn [map]. rewrite !axis_group_view. reflexivity. Qed.

Lemma axes_old_gone (data : Data) (st : State) (e : Elem) :
  wf st -> In e (selected ".axis" (svg st)) ->
  ~ In (eid e) (ids (axes_tree data st)).
Proof.
  intros Hwf He Hin. rewrite (axes_ids data st) in Hin.
  assert (Hi : In (eid e) (map eid (selected ".axis" (svg st))))
    by (apply in_map; exact He).
  apply in_app_or in Hin. destruct Hin as [Hin|Hin].
  - revert Hin. apply prune_gone; [exact Hi|].
    apply wf_root_not_selected, Hwf.
  - apply in_seq in Hin. pose proof (@wf_selected_lt ".axis" st (eid e) Hwf Hi). lia.
Qed.

Lemma axes_selected_groups (data : Data) (st : State) :
  wf st ->
  selected ".axis" (axes_tree data st)
  = map root_elem (axis_groups (axes_tree data st)).
Proof.
  intros Hwf. rewrite (axes_selected data st), (axis_groups_axes data Hwf).
  cbn [map]. rewrite root_prune. reflexivity.
Qed.

Lemma redraw_selected_groups (data : Data) (st : State) :
  chart_inv st ->
  selected ".axis" (svg (redraw data st))
  = map root_elem (axis_groups (svg (redraw data st))).
Proof.
  intros Hinv. rewrite (redraw_axes data Hinv), (redraw_axis_groups data Hinv).
  unfold axis_roots. rewrite (axes_selected data st).
  cbn [map]. rewrite root_prune. reflexivity.
Qed.

Lemma updates_snoc (args : list (option Data)) (st : State) :
  chart_inv st -> args <> [] ->
  exists s, chart_inv s
            /\ updates args st = Some (tt, redraw (last_data args) s)
            /\ (reachable st -> reachable s).
Proof.
  intros Hinv Hne. destruct (exists_last Hne) as [r [a ->]].
  destruct (@updates_last r a st Hinv) as [s [Hs [E Hr]]].
  exists s. unfold last_data. rewrite last_last. auto.
Qed.

(** *** Sequences of public calls *)



(** *** Baseline and width of what a redraw places *)

Section Baseline.
Local Open Scope Q_scope.

(** The height: 285 - y, rounded once. *)
Lemma sub_baseline (q : Q) :
  Js.sub (Fin (svgHeight - bottom svgMargin)) (Fin q) = round64 (285 - q).
Proof.
  unfold Js.sub, Js.neg, Js.add. apply round64_comp.
  unfold svgHeight, svgMargin. cbn [bottom]. ring.
Qed.

Lemma rounded_sum (q k : Q) :
  round64 (285 - q) = Fin k ->
  Qabs (q + k - 285) <= eps * Qabs (285 - q) + eta
  /\ (is_double (285 - q) = true -> q + k == 285).
Proof.
  intros H. split.
  - pose proof (@round64_err (285 - q) k H) as E.
    setoid_replace (q + k - 285) with (k - (285 - q)) by ring. exact E.
  - intros D. destruct (@is_double_round (285 - q) D) as [r [Hr Er]].
    rewrite H in Hr. injection Hr as Hr.
    assert (E : k == 285 - q).
    { rewrite <- Er. rewrite Hr. reflexivity. }
    rewrite E. ring.
Qed.

Lemma redraw_baseline (data : Data) (st : State) (e : Elem) :
  chart_inv st ->
  In e (selected "rect" (svg (redraw data st))
        ++ selected "foreignObject" (svg (redraw data st))) ->
  getAttribute "width" e = Some (VNum (Fin (d3.bandwidth (xScale data))))
  /\ exists y h : number,
       getAttribute "y" e = Some (VNum y)
       /\ getAttribute "height" e = Some (VNum h)
       /\ h = Js.sub (Fin (svgHeight - bottom svgMargin)) y
       /\ forall q, y = Fin q ->
            h = round64 (285 - q)
            /\ forall k, h = Fin k ->
                 Qabs (q + k - 285) <= eps * Qabs (285 - q) + eta
                 /\ (is_double (285 - q) = true -> q + k == 285).
Proof.
  intros Hinv He.
  destruct (@redraw_placed data st e Hinv He) as [n [v [l [Hin Ha]]]].
  unfold getAttribute. rewrite Ha, box_attrs_width, box_attrs_y, box_attrs_height.
  split; [reflexivity|].
  eexists. eexists. split; [reflexivity|]. split; [reflexivity|].
  split; [reflexivity|]. intros q Hq. rewrite Hq, sub_baseline.
  split; [reflexivity|]. intros k Hk. apply rounded_sum, Hk.
Qed.
End Baseline.

(** *** Bounds on one rounding *)

Section Bounds.
Local Open Scope Q_scope.

Lemma eps_pos : 0 < eps.
Proof. apply pow2_pos. Qed.

Lemma eta_pos : 0 < eta.
Proof. apply pow2_pos. Qed.

Lemma eps_le : eps <= 1 # 9007199254740992.
Proof. apply Qle_bool_iff. vm_compute. reflexivity. Qed.

Lemma eta_eps : eta == eps * pow2 (-1022).
Proof. unfold eta, eps. rewrite <- pow2_plus. reflexivity. Qed.

Lemma eta_le_eps : eta <= eps.
Proof. unfold eta, eps. apply pow2_le. lia. Qed.

Lemma round64_near (x r : Q) :
  round64 x = Fin r ->
  - (eps * Qabs x + eta) <= r - x /\ r - x <= eps * Qabs x + eta.
Proof.
  intros H. apply Qabs_Qle_condition. apply round64_err. exact H.
Qed.

(** The error of a rounding of a number bounded by [c]. *)
Lemma round64_bound (x c r : Q) :
  Qabs x <= c -> round64 x = Fin r ->
  - (eps * c + eta) <= r - x /\ r - x <= eps * c + eta.
Proof.
  intros Hc H. destruct (@round64_near x r H) as [H1 H2].
  assert (E : eps * Qabs x <= eps * c).
  { apply Qmult_le_l; [apply eps_pos|exact Hc]. }
  split; lra.
Qed.

(** In the range of the normal numbers a rounding changes a number by
    less than its eighth. *)
Lemma round64_rel (x r : Q) :
  pow2 (-1022) <= x -> round64 x = Fin r ->
  (7 # 8) * x <= r /\ r <= (9 # 8) * x.
Proof.
  intros Hx H. pose proof (pow2_pos (-1022)) as Hp.
  destruct (@round64_near x r H) as [H1 H2].
  rewrite (Qabs_pos x) in H1, H2 by lra.
  pose proof eta_eps as E. pose proof eps_pos as E0. pose proof eps_le as E1.
  assert (A : eps * pow2 (-1022) <= eps * x).
  { apply Qmult_le_l; assumption. }
  assert (B : eps * x <= (1 # 9007199254740992) * x).
  { apply Qmult_le_compat_r; lra. }
  split; lra.
Qed.

(** The same bound as it is: twice the relative error of a rounding. *)
Lemma round64_tight (x r : Q) :
  pow2 (-1022) <= x -> round64 x = Fin r ->
  x - 2 * (eps * x) <= r /\ r <= x + 2 * (eps * x).
Proof.
  intros Hx H. pose proof (pow2_pos (-1022)) as Hp.
  destruct (@round64_near x r H) as [H1 H2].
  rewrite (Qabs_pos x) in H1, H2 by lra.
  pose proof eta_eps as E. pose proof eps_pos as E0.
  assert (A : eps * pow2 (-1022) <= eps * x).
  { apply Qmult_le_l; assumption. }
  revert Hx Hp E A. generalize (pow2 (-1022)). intros p Hx Hp E A.
  split; lra.
Qed.

(** Two bounds from below, one after the other. *)
Lemma below_twice (c x y z : Q) :
  0 <= c -> c * eps <= 1 -> 0 <= x ->
  x - c * (eps * x) <= y -> y - c * (eps * y) <= z ->
  x - (2 * c) * (eps * x) <= z.
Proof.
  intros Hc Hce Hx H1 H2. pose proof eps_pos as E0.
  assert (A : (x - c * (eps * x)) * (1 - c * eps) <= y * (1 - c * eps)).
  { apply Qmult_le_compat_r; lra. }
  assert (B : 0 <= (c * eps) * (c * eps) * x).
  { apply Qmult_le_0_compat; [|exact Hx].
    apply Qmult_le_0_compat; apply Qmult_le_0_compat; lra. }
  revert Hce A B H1 H2. generalize eps. intros e Hce A B H1 H2.
  assert (E1 : (x - c * (e * x)) * (1 - c * e)
               == x - 2 * c * (e * x) + c * e * (c * e) * x) by ring.
  assert (E2 : y * (1 - c * e) == y - c * (e * y)) by ring.
  rewrite E1, E2 in A. lra.
Qed.

Lemma round64_mono (x y rx ry : Q) :
  x <= y -> round64 x = Fin rx -> round64 y = Fin ry -> rx <= ry.
Proof.
  intros H Hx Hy. pose proof (@round64_le x y H) as L. rewrite Hx, Hy in L.
  exact L.
Qed.

Lemma round64_nonneg (x r : Q) : 0 <= x -> round64 x = Fin r -> 0 <= r.
Proof.
  intros H Hx. apply (@round64_mono 0 x 0 r H); [reflexivity|exact Hx].
Qed.

(** A rounding of a number that is not negative is finite or infinite. *)
Lemma round64_nonneg_cases (x : Q) :
  0 <= x -> round64 x = PosInf \/ exists r, round64 x = Fin r /\ 0 <= r.
Proof.
  intros H. pose proof (@round64_le 0 x H) as L.
  change (round64 0) with (Fin 0) in L.
  destruct (round64 x) as [r| | |]; cbn [num_le] in L; try contradiction.
  - right. eauto.
  - left. reflexivity.
Qed.

(** A positive number of the format is at least 2^-1074. *)
Lemma nearest_min (x : Q) : 0 < x -> 0 < nearest x -> pow2 (-1074) <= nearest x.
Proof.
  intros Hx Hn. unfold nearest in *.
  pose proof (pow2_pos (ulp_exp x)) as Hp.
  assert (Hz : (1 <= round_even (x / pow2 (ulp_exp x)))%Z).
  { destruct (Z_lt_le_dec (round_even (x / pow2 (ulp_exp x))) 1) as [L|L];
      [|exact L]. exfalso.
    assert (L' : inject_Z (round_even (x / pow2 (ulp_exp x))) <= 0).
    { change 0 with (inject_Z 0). rewrite <- Zle_Qle. lia. }
    assert (C : inject_Z (round_even (x / pow2 (ulp_exp x))) * pow2 (ulp_exp x)
                <= 0 * pow2 (ulp_exp x)).
    { apply Qmult_le_compat_r; lra. }
    lra. }
  assert (H1 : 1 <= inject_Z (round_even (x / pow2 (ulp_exp x)))).
  { change 1 with (inject_Z 1). rewrite <- Zle_Qle. exact Hz. }
  assert (H2 : pow2 (-1074) <= pow2 (ulp_exp x)).
  { apply pow2_le. unfold ulp_exp. lia. }
  assert (H3 : 1 * pow2 (ulp_exp x)
               <= inject_Z (round_even (x / pow2 (ulp_exp x))) * pow2 (ulp_exp x)).
  { apply Qmult_le_compat_r; lra. }
  lra.
Qed.

Lemma round64_min (x r : Q) :
  0 < x -> round64 x = Fin r -> 0 < r -> pow2 (-1074) <= r.
Proof.
  intros Hx H Hr. rewrite round64_pos in H by exact Hx. unfold round_pos in H.
  destruct (Qle_bool _ _); [discriminate|].
  assert (Er : r = Qred (nearest x)) by congruence. subst r.
  rewrite Qred_correct in *. apply nearest_min; assumption.
Qed.

End Bounds.

(** *** The decimal logarithm *)

Section Log10.
Local Open Scope Q_scope.

Lemma ilog10_spec (fuel : nat) (z : Z) :
  (1 <= z)%Z -> (0 <= d3.ilog10 fuel z)%Z /\ (10 ^ d3.ilog10 fuel z <= z)%Z.
Proof.
  revert z. induction fuel as [|f IH]; intros z Hz; cbn [d3.ilog10].
  - split; [lia|]. change (10 ^ 0)%Z with 1%Z. exact Hz.
  - destruct (z <? 10)%Z eqn:E.
    + split; [lia|]. change (10 ^ 0)%Z with 1%Z. exact Hz.
    + apply Z.ltb_ge in E.
      assert (H : (1 <= z / 10)%Z) by (apply Z.div_le_lower_bound; lia).
      destruct (IH _ H) as [A B]. split; [lia|].
      rewrite Z.pow_add_r by lia. change (10 ^ 1)%Z with 10%Z.
      pose proof (Z.mul_div_le z 10 ltac:(lia)). lia.
Qed.

Lemma scale_aux (q p : Q) :
  0 < q -> 0 < p -> 1 <= q * (2 * p) -> 1 <= q * 10 * p.
Proof.
  intros Hq Hp H. assert (G : 0 <= q * p) by (apply Qmult_le_0_compat; lra).
  lra.
Qed.

Lemma neg_log10_spec (fuel : nat) (q : Q) :
  0 < q -> q < 1 -> 1 <= q * pow2 (Z.of_nat fuel) ->
  (d3.neg_log10 fuel q <= -1)%Z /\ Qpower 10 (d3.neg_log10 fuel q) <= q.
Proof.
  revert q. induction fuel as [|f IH]; intros q H0 H1 Hf.
  - exfalso. assert (Ez : pow2 (Z.of_nat 0) == 1) by reflexivity.
    rewrite Ez in Hf. lra.
  - cbn [d3.neg_log10]. remember (Qred (q * 10)) as q' eqn:Eq'.
    assert (Hq' : q' == q * 10) by (subst; apply Qred_correct). clear Eq'.
    destruct (Qle_bool 1 q') eqn:E.
    + split; [lia|]. apply Qle_bool_iff in E.
      change (Qpower 10 (-1)) with (1 # 10). lra.
    + assert (E' : q' < 1).
      { apply Qnot_le_lt. intros C. apply Qle_bool_iff in C. congruence. }
      assert (P : 0 < q') by lra.
      assert (F : 1 <= q' * pow2 (Z.of_nat f)).
      { rewrite Nat2Z.inj_succ in Hf.
        unfold Z.succ in Hf. rewrite pow2_S in Hf.
        rewrite Hq'. apply scale_aux; [exact H0|apply pow2_pos|exact Hf]. }
      destruct (IH _ P E' F) as [A B]. split; [lia|].
      rewrite Qpower_plus by discriminate.
      change (Qpower 10 (-1)) with (1 # 10).
      revert B. generalize (Qpower 10 (d3.neg_log10 f q')). intros p B. lra.
Qed.

Lemma Qden_bound (q : Q) :
  0 < q -> 1 <= q * pow2 (Z.of_nat (S (Z.to_nat (Z.log2 (Zpos (Qden q)))))).
Proof.
  intros Hq. destruct q as [n d]. cbn [Qden].
  assert (Hn : (1 <= n)%Z).
  { unfold Qlt in Hq. cbn in Hq. lia. }
  rewrite Nat2Z.inj_succ, Z2Nat.id by apply Z.log2_nonneg.
  rewrite <- pow2_Z by (pose proof (Z.log2_nonneg (Zpos d)); lia).
  destruct (Z.log2_spec (Zpos d)) as [_ L]; [lia|].
  rewrite (Qmake_div n d).
  assert (Ha : 1 <= inject_Z n).
  { change 1 with (inject_Z 1). rewrite <- Zle_Qle. exact Hn. }
  assert (Hb : 0 < inject_Z (Z.pos d)).
  { change 0 with (inject_Z 0). rewrite <- Zlt_Qlt. lia. }
  assert (Hp : inject_Z (Z.pos d) <= inject_Z (2 ^ Z.succ (Z.log2 (Z.pos d)))).
  { rewrite <- Zle_Qle. lia. }
  revert Ha Hb Hp. generalize (inject_Z n), (inject_Z (Z.pos d)),
    (inject_Z (2 ^ Z.succ (Z.log2 (Z.pos d)))). intros a b p Ha Hb Hp.
  assert (E : a / b * p == a * p / b) by (field; lra). rewrite E.
  apply Qle_shift_div_l; [exact Hb|].
  assert (G : 1 * p <= a * p) by (apply Qmult_le_compat_r; lra). lra.
Qed.

(** 10 to the power [floor_log10 q] is at most [q]; the power is negative
    for [q] below 1 only. *)
Lemma floor_log10_spec (q : Q) :
  0 < q ->
  Qpower 10 (d3.floor_log10 q) <= q
  /\ ((0 <= d3.floor_log10 q)%Z -> 1 <= q)
  /\ ((d3.floor_log10 q < 0)%Z -> q < 1).
Proof.
  intros Hq. unfold d3.floor_log10. destruct (Qle_bool 1 q) eqn:E.
  - apply Qle_bool_iff in E.
    assert (Hf : (1 <= Qfloor q)%Z).
    { change 1%Z with (Qfloor 1). apply Qfloor_resp_le. exact E. }
    destruct (@ilog10_spec (S (Z.to_nat (Z.log2 (Qfloor q)))) (Qfloor q) Hf)
      as [A B].
    split; [|split; [auto|lia]].
    apply (Qle_trans _ (inject_Z (Qfloor q))); [|apply Qfloor_le].
    change 10 with (inject_Z 10). rewrite <- Zpower_Qpower by exact A.
    rewrite <- Zle_Qle. exact B.
  - assert (E' : q < 1).
    { apply Qnot_le_lt. intros C. apply Qle_bool_iff in C. congruence. }
    destruct (@neg_log10_spec _ q Hq E' (Qden_bound Hq)) as [A B].
    split; [exact B|]. split; [lia|auto].
Qed.

End Log10.

(** *** One rounding of [scale.nice] *)

Section NiceStep.
Local Open Scope Q_scope.

Lemma round64_zero (x : Q) : x == 0 -> round64 x = Fin 0.
Proof. intros E. rewrite (@round64_comp x 0 E). reflexivity. Qed.

Lemma div_fin (a b : Q) :
  ~ b == 0 -> Js.div (Fin a) (Fin b) = round64 (a / b).
Proof.
  intros H. cbn [Js.div].
  assert (E : Qeq_bool b 0 = false) by (apply Qeq_bool_false; exact H).
  rewrite E. reflexivity.
Qed.

Lemma nice_lo_zero (s : Q) : ~ s == 0 -> d3.nice_lo (Fin s) (Fin 0) = Fin 0.
Proof.
  intros H. unfold d3.nice_lo. destruct (Js.gt (Fin s) (Fin 0)).
  - rewrite (div_fin 0 H), (@round64_zero (0 / s)) by (field; exact H).
    cbn [Js.floor Js.mul]. apply round64_zero.
    change (inject_Z (Qfloor 0)) with 0. ring.
  - cbn [Js.mul]. rewrite (@round64_zero (0 * s)) by ring.
    change (Js.ceil (Fin 0)) with (Fin 0).
    rewrite (div_fin 0 H). apply round64_zero. field. exact H.
Qed.

(** Rounding up with a positive step. *)
Lemma nice_hi_pos (s x : Q) :
  0 < s -> s <= 2 * x -> 4 <= x ->
  num_le (Fin (x - 4 * (eps * x))) (d3.nice_hi (Fin s) (Fin x)).
Proof.
  intros Hs Hsx Hx. unfold d3.nice_hi.
  assert (G : Js.gt (Fin s) (Fin 0) = true).
  { cbn [Js.gt Js.lt]. apply Qlt_bool_iff. exact Hs. }
  rewrite G. rewrite div_fin by lra.
  assert (Hq : 1 # 2 <= x / s).
  { apply Qle_shift_div_l; [exact Hs|]. lra. }
  assert (Sg : Qsign s = Gt) by (apply Qgt_alt; exact Hs).
  pose proof eps_pos as E0. pose proof eps_le as E1.
  destruct (@round64_nonneg_cases (x / s)) as [E|[r [E Hr]]]; [lra| |].
  - rewrite E. cbn [Js.ceil Js.mul Js.signed_inf]. rewrite Sg.
    cbn [Js.signed_inf num_le]. exact I.
  - rewrite E. cbn [Js.ceil Js.mul].
    assert (N : pow2 (-1022) <= x / s).
    { apply (Qle_trans _ (1 # 2)); [|exact Hq]. apply Qle_bool_iff.
      vm_compute. reflexivity. }
    destruct (@round64_tight (x / s) r N E) as [R1 _].
    pose proof (Qle_ceiling r) as C. clear N.
    assert (K : x - 2 * (eps * x) <= inject_Z (Qceiling r) * s).
    { assert (K1 : r * s <= inject_Z (Qceiling r) * s).
      { apply Qmult_le_compat_r; lra. }
      assert (K2 : (x / s - 2 * (eps * (x / s))) * s <= r * s).
      { apply Qmult_le_compat_r; lra. }
      assert (K3 : (x / s - 2 * (eps * (x / s))) * s == x - 2 * (eps * x))
        by (field; lra).
      lra. }
    revert K. generalize (inject_Z (Qceiling r) * s). intros y K.
    assert (B : eps * x <= (1 # 9007199254740992) * x).
    { apply Qmult_le_compat_r; lra. }
    destruct (@round64_nonneg_cases y) as [F|[h [F Hh]]]; [lra| |].
    + rewrite F. exact I.
    + rewrite F. cbn [num_le].
      assert (N' : pow2 (-1022) <= y).
      { apply (Qle_trans _ 1); [|lra]. apply Qle_bool_iff.
        vm_compute. reflexivity. }
      destruct (@round64_tight y h N' F) as [R2 _].
      apply (@below_twice 2 x y h); lra.
Qed.

(** Rounding up with a negative step, the inverse of the increment. *)
Lemma nice_hi_neg (s x : Q) :
  s < 0 -> 1 # 4 <= x * - s -> pow2 (-1020) <= x ->
  num_le (Fin (x - 4 * (eps * x))) (d3.nice_hi (Fin s) (Fin x)).
Proof.
  intros Hs Hxs Hx. unfold d3.nice_hi.
  assert (G : Js.gt (Fin s) (Fin 0) = false).
  { cbn [Js.gt Js.lt]. apply Qlt_bool_false. lra. }
  assert (L : Qlt_bool s 0 = true) by (apply Qlt_bool_iff; exact Hs).
  pose proof eps_pos as E0. pose proof eps_le as E1.
  assert (X0 : 0 < x).
  { apply (Qlt_le_trans _ (pow2 (-1020))); [apply pow2_pos|exact Hx]. }
  rewrite G. cbn [Js.mul].
  rewrite (@round64_comp (x * s) (- (x * - s))) by ring.
  rewrite round64_opp.
  destruct (@round64_nonneg_cases (x * - s)) as [E|[r [E Hr]]]; [lra| |].
  - rewrite E. cbn [Js.neg Js.floor Js.div]. rewrite L. exact I.
  - rewrite E. cbn [Js.neg Js.floor]. rewrite div_fin by lra.
    assert (N : pow2 (-1022) <= x * - s).
    { apply (Qle_trans _ (1 # 4)); [|exact Hxs]. apply Qle_bool_iff.
      vm_compute. reflexivity. }
    destruct (@round64_tight (x * - s) r N E) as [R1 _]. clear N.
    pose proof (Qfloor_le (- r)) as C.
    assert (B : eps * x <= (1 # 9007199254740992) * x).
    { apply Qmult_le_compat_r; lra. }
    assert (K : x - 2 * (eps * x) <= inject_Z (Qfloor (- r)) / s).
    { assert (E2 : inject_Z (Qfloor (- r)) / s
                   == - inject_Z (Qfloor (- r)) / - s) by (field; lra).
      rewrite E2. apply Qle_shift_div_l; [lra|].
      assert (E3 : (x - 2 * (eps * x)) * - s
                   == x * - s - 2 * (eps * (x * - s))) by ring.
      rewrite E3. lra. }
    revert K. generalize (inject_Z (Qfloor (- r)) / s). intros y K.
    assert (N' : pow2 (-1022) <= y).
    { apply (Qle_trans _ ((1 # 2) * x)); [|lra].
      apply (Qle_trans _ ((1 # 2) * pow2 (-1020))).
      - apply Qle_bool_iff. vm_compute. reflexivity.
      - apply Qmult_le_l; [reflexivity|exact Hx]. }
    clear Hx.
    destruct (@round64_nonneg_cases y) as [F|[h [F Hh]]]; [lra| |].
    + rewrite F. exact I.
    + rewrite F. cbn [num_le].
      destruct (@round64_tight y h N' F) as [R2 _]. clear N'.
      apply (@below_twice 2 x y h); lra.
Qed.

End NiceStep.

(** *** The tick increment of an interval from zero *)

Section Increment.
Local Open Scope Q_scope.

Lemma tick_factor_cases (e : number) :
  exists f, d3.tick_factor e = Fin f /\ 1 <= f /\ f <= 10.
Proof.
  unfold d3.tick_factor.
  destruct (Js.ge e (Fin d3.e10)); [exists 10; split; [reflexivity|lra]|].
  destruct (Js.ge e (Fin d3.e5)); [exists 5; split; [reflexivity|lra]|].
  destruct (Js.ge e (Fin d3.e2)); [exists 2; split; [reflexivity|lra]|].
  exists 1. split; [reflexivity|lra].
Qed.

Lemma sub_zero (x : Q) :
  is_double x = true -> exists r, Js.sub (Fin x) (Fin 0) = Fin r /\ r == x.
Proof.
  intros D. destruct (@is_double_round x D) as [r [H E]]. exists r.
  split; [|exact E]. cbn [Js.sub Js.neg Js.add]. rewrite <- H.
  apply round64_comp. ring.
Qed.

(** The first step of [tickIncrement]: a tenth of the interval. *)
Lemma step_tenth (x : Q) :
  is_double x = true ->
  Js.div (Js.sub (Fin x) (Fin 0)) (Fin (Qmax 0 10)) = round64 (x / 10).
Proof.
  intros D. destruct (@sub_zero x D) as [r [-> E]].
  change (Qmax 0 10) with 10. rewrite div_fin by discriminate.
  apply round64_comp. rewrite E. reflexivity.
Qed.

(** A positive tenth is at most a quarter of the interval. *)
Lemma tenth_quarter (x q : Q) :
  0 < x -> round64 (x / 10) = Fin q -> 0 < q -> 4 * q <= x.
Proof.
  intros Hx H Hq.
  assert (Hx' : 0 < x / 10) by (apply Qdiv_pos; lra).
  pose proof (@round64_min (x / 10) q Hx' H Hq) as M.
  destruct (@round64_near (x / 10) q H) as [_ R].
  rewrite (Qabs_pos (x / 10)) in R by lra.
  assert (E2 : pow2 (-1074) == 2 * eta).
  { unfold eta. rewrite <- pow2_S. reflexivity. }
  rewrite E2 in M. clear E2.
  pose proof eps_pos as E0. pose proof eps_le as E1.
  assert (B : eps * (x / 10) <= (1 # 9007199254740992) * (x / 10)).
  { apply Qmult_le_compat_r; lra. }
  assert (T : x / 10 == (1 # 10) * x) by (field; discriminate).
  rewrite T in *. lra.
Qed.

(** A power of ten that is finite in the format is at most 10^308. *)
Lemma pow10_finite (e : Z) (p : Q) :
  round64 (Qpower 10 e) = Fin p -> Qpower 10 e <= Qpower 10 308.
Proof.
  intros H. apply Qpower_le_compat_l; [|discriminate].
  destruct (Z_le_gt_dec e 308) as [L|G]; [exact L|]. exfalso.
  assert (A : Qpower 10 309 <= Qpower 10 e).
  { apply Qpower_le_compat_l; [lia|discriminate]. }
  pose proof (@round64_le (Qpower 10 309) (Qpower 10 e) A) as M.
  rewrite H in M.
  assert (I : round64 (Qpower 10 309) = PosInf) by (vm_compute; reflexivity).
  rewrite I in M. exact M.
Qed.

(** A number whose tenth is at least 10^-308 is at least 2^-1020. *)
Lemma tenth_normal (x q : Q) :
  0 < x -> round64 (x / 10) = Fin q -> 1 <= Qpower 10 308 * q ->
  pow2 (-1020) <= x.
Proof.
  intros Hx H Hq.
  destruct (@round64_near (x / 10) q H) as [_ R].
  assert (Hx' : 0 < x / 10) by (apply Qdiv_pos; lra).
  rewrite (Qabs_pos (x / 10)) in R by lra.
  assert (T : x / 10 == (1 # 10) * x) by (field; discriminate).
  rewrite T in R. clear T Hx' H.
  assert (F : Qpower 10 308 * (pow2 (-1020) * (1 + eps) + 10 * eta) <= 10).
  { apply Qle_bool_iff. vm_compute. reflexivity. }
  assert (A0 : 0 < Qpower 10 308) by reflexivity.
  pose proof eps_pos as E0.
  revert Hq F A0 R E0.
  generalize (Qpower 10 308), (pow2 (-1020)), eps, eta.
  intros a b e t Hq F A0 R E0.
  apply (Qmult_le_l _ _ (a * (1 + e))).
  { apply Qmult_lt_0_compat; lra. }
  assert (M : a * (10 * q) <= a * (x + e * x + 10 * t)).
  { apply Qmult_le_l; [exact A0|]. lra. }
  assert (E2 : a * (1 + e) * b == a * (b * (1 + e) + 10 * t) - 10 * (a * t))
    by ring.
  assert (E3 : a * (1 + e) * x == a * (x + e * x + 10 * t) - 10 * (a * t))
    by ring.
  rewrite E2, E3. lra.
Qed.

Lemma tickIncrement_cases (x s : Q) :
  0 < x -> is_double x = true ->
  d3.tickIncrement (Fin 0) (Fin x) 10 = Fin s -> ~ s == 0 ->
  (0 < s /\ s <= 2 * x /\ 4 <= x)
  \/ (s < 0 /\ 1 # 4 <= x * - s /\ pow2 (-1020) <= x).
Proof.
  intros Hx D H Hs. unfold d3.tickIncrement in H.
  rewrite (@step_tenth x D) in H.
  destruct (round64 (x / 10)) as [q| | |] eqn:Hq10; try discriminate.
  destruct (Qlt_bool 0 q) eqn:Lq;
    [|destruct (Qeq_bool q 0); discriminate].
  apply Qlt_bool_iff in Lq.
  pose proof (@tenth_quarter x q Hx Hq10 Lq) as Hq4.
  destruct (@floor_log10_spec q Lq) as [P1 [P2 P3]].
  pose proof (@round64_idem (x / 10) q Hq10) as Qi.
  destruct (tick_factor_cases (Js.div (Fin q) (d3.pow10 (d3.floor_log10 q))))
    as [f [Ef [F1 F2]]].
  rewrite Ef in H. clear Ef.
  destruct (0 <=? d3.floor_log10 q)%Z eqn:Ep.
  - left. apply Z.leb_le in Ep. specialize (P2 Ep).
    unfold d3.pow10 in H.
    assert (T0 : 0 < Qpower 10 (d3.floor_log10 q)).
    { apply Qpower_0_lt. reflexivity. }
    revert H P1 T0. generalize (Qpower 10 (d3.floor_log10 q)). intros t H P1 T0.
    destruct (round64 t) as [p| | |] eqn:Pt;
      try (cbn [Js.mul] in H; destruct (Qsign f); discriminate).
    cbn [Js.mul] in H.
    pose proof (@round64_mono t q p q P1 Pt Qi) as Pq.
    assert (Pp : 0 <= p) by (apply (@round64_nonneg t p); [lra|exact Pt]).
    assert (Hfp : f * p <= 10 * q).
    { assert (A : f * p <= 10 * p) by (apply Qmult_le_compat_r; lra). lra. }
    assert (Hfp0 : 0 <= f * p) by (apply Qmult_le_0_compat; lra).
    assert (S0 : 0 <= s) by (apply (@round64_nonneg (f * p) s); assumption).
    assert (Ab : Qabs (f * p) <= 10 * q) by (rewrite Qabs_pos; lra).
    destruct (@round64_bound (f * p) (10 * q) s Ab H) as [_ R].
    pose proof eps_pos as E0. pose proof eps_le as E1.
    pose proof eta_le_eps as E2. pose proof eta_pos as E3.
    assert (B : eps * (10 * q) <= (1 # 9007199254740992) * (10 * q)).
    { apply Qmult_le_compat_r; lra. }
    assert (Nx : pow2 (-1022) <= x / 10).
    { apply (Qle_trans _ (4 # 10)).
      - apply Qle_bool_iff. vm_compute. reflexivity.
      - apply Qle_shift_div_l; lra. }
    destruct (@round64_rel (x / 10) q Nx Hq10) as [_ Rq]. clear Nx.
    assert (T : x / 10 == (1 # 10) * x) by (field; discriminate).
    rewrite T in Rq.
    split; [|split]; [|lra|lra].
    apply Qle_lt_or_eq in S0. destruct S0 as [S0|S0]; [exact S0|].
    exfalso. apply Hs. symmetry. exact S0.
  - right. apply Z.leb_gt in Ep. specialize (P3 Ep).
    unfold d3.pow10 in H.
    assert (T1 : 1 <= Qpower 10 (- d3.floor_log10 q) * q).
    { rewrite Qpower_opp.
      assert (T0 : 0 < Qpower 10 (d3.floor_log10 q)).
      { apply Qpower_0_lt. reflexivity. }
      revert P1 T0. generalize (Qpower 10 (d3.floor_log10 q)). intros t P1 T0.
      assert (A : / t * t <= / t * q).
      { apply Qmult_le_l; [apply Qinv_lt_0_compat; exact T0|exact P1]. }
      assert (A1 : / t * t == 1) by (field; lra). lra. }
    assert (Tm : forall p, round64 (Qpower 10 (- d3.floor_log10 q)) = Fin p ->
                 Qpower 10 (- d3.floor_log10 q) <= Qpower 10 308).
    { intros p. apply pow10_finite. }
    revert H T1 Tm. generalize (Qpower 10 (- d3.floor_log10 q)).
    intros t H T1 Tm.
    assert (Ht : 1 <= t).
    { destruct (Qlt_le_dec t 1) as [C|C]; [|exact C]. exfalso.
      assert (A : t * q <= 1 * q) by (apply Qmult_le_compat_r; lra). lra. }
    destruct (round64 t) as [p| | |] eqn:Pt; cbn [Js.neg Js.div] in H;
      try discriminate; try (destruct (Qlt_bool f 0); discriminate).
    specialize (Tm p eq_refl).
    assert (Xn : pow2 (-1020) <= x).
    { apply (@tenth_normal x q Hx Hq10).
      apply (Qle_trans _ (t * q)); [exact T1|].
      apply Qmult_le_compat_r; lra. }
    clear Tm.
    assert (Ef : Qeq_bool f 0 = false) by (apply Qeq_bool_false; lra).
    rewrite Ef in H.
    assert (Nt : pow2 (-1022) <= t).
    { apply (Qle_trans _ 1); [|exact Ht]. apply Qle_bool_iff.
      vm_compute. reflexivity. }
    destruct (@round64_rel t p Nt Pt) as [Rp _].
    assert (H' : round64 (p / f) = Fin (- s)).
    { rewrite (@round64_comp (p / f) (- (- p / f))) by (field; lra).
      rewrite round64_opp, H. reflexivity. }
    assert (Hpf : (1 # 10) * p <= p / f).
    { apply Qle_shift_div_l; [lra|].
      assert (A : (1 # 10) * p * f <= (1 # 10) * p * 10).
      { apply Qmult_le_l; [lra|exact F2]. }
      lra. }
    assert (Npf : pow2 (-1022) <= p / f).
    { apply (Qle_trans _ (7 # 80)); [|lra]. apply Qle_bool_iff.
      vm_compute. reflexivity. }
    destruct (@round64_rel (p / f) (- s) Npf H') as [Rs _].
    assert (S1 : (49 # 640) * t <= - s) by lra.
    assert (S2 : (49 # 640) * (t * q) <= - s * q).
    { assert (A : (49 # 640) * t * q <= - s * q).
      { apply Qmult_le_compat_r; lra. }
      lra. }
    assert (S3 : - s * (4 * q) <= - s * x).
    { apply Qmult_le_l; [lra|exact Hq4]. }
    clear Nt Npf.
    split; [lra|]. split; [|exact Xn]. clear Xn. lra.
Qed.

End Increment.

(** *** The domain after [scale.nice] *)

Section NiceDomain.
Local Open Scope Q_scope.

Lemma nice_interval_eq (lo hi : number) :
  d3.nice_interval lo hi
  = if d3.nonzero_step (d3.tickIncrement lo hi 10)
    then
      let s1 := d3.tickIncrement lo hi 10 in
      let s2 := d3.tickIncrement (d3.nice_lo s1 lo) (d3.nice_hi s1 hi) 10 in
      if d3.nonzero_step s2
      then (d3.nice_lo s2 (d3.nice_lo s1 lo), d3.nice_hi s2 (d3.nice_hi s1 hi))
      else (lo, hi)
    else (lo, hi).
Proof.
  unfold d3.nice_interval. cbv zeta.
  destruct (d3.nonzero_step (d3.tickIncrement lo hi 10)) eqn:E.
  - reflexivity.
  - rewrite E. reflexivity.
Qed.

Lemma nice_lo_PosInf (a : number) : d3.nice_lo PosInf a = NaN.
Proof. destruct a; reflexivity. Qed.

Lemma nice_hi_PosInf (a : number) : d3.nice_hi PosInf a = NaN.
Proof. destruct a; reflexivity. Qed.

Lemma nice_lo_NegInf (a : number) : d3.nice_lo NegInf a = NaN.
Proof.
  destruct a as [x| | |]; try reflexivity. unfold d3.nice_lo.
  cbn [Js.gt Js.lt Js.mul]. destruct (Qsign x); reflexivity.
Qed.

Lemma nice_hi_NegInf (a : number) : d3.nice_hi NegInf a = NaN.
Proof.
  destruct a as [x| | |]; try reflexivity. unfold d3.nice_hi.
  cbn [Js.gt Js.lt Js.mul]. destruct (Qsign x); reflexivity.
Qed.

Lemma tickIncrement_NaN (b : number) (c : Q) : d3.tickIncrement NaN b c = NaN.
Proof. destruct b; reflexivity. Qed.

Lemma tickIncrement_PosInf : d3.tickIncrement (Fin 0) PosInf 10 = PosInf.
Proof. reflexivity. Qed.

Lemma mul_double (a b : number) (r : Q) :
  Js.mul a b = Fin r -> is_double r = true.
Proof.
  destruct a as [x| | |], b as [y| | |]; cbn [Js.mul]; try discriminate.
  - apply round64_is_double.
  - destruct (Qsign x); discriminate.
  - destruct (Qsign x); discriminate.
  - destruct (Qsign y); discriminate.
  - destruct (Qsign y); discriminate.
Qed.

Lemma div_double (a b : number) (r : Q) :
  Js.div a b = Fin r -> is_double r = true.
Proof.
  destruct a as [x| | |], b as [y| | |]; cbn [Js.div]; try discriminate.
  - destruct (Qeq_bool y 0).
    + destruct (Qsign x); discriminate.
    + apply round64_is_double.
  - intros H. injection H as <-. reflexivity.
  - intros H. injection H as <-. reflexivity.
  - destruct (Qlt_bool y 0); discriminate.
  - destruct (Qlt_bool y 0); discriminate.
Qed.

Lemma nice_hi_double (s a : number) (h : Q) :
  d3.nice_hi s a = Fin h -> is_double h = true.
Proof.
  unfold d3.nice_hi. destruct (Js.gt s (Fin 0)).
  - apply mul_double.
  - apply div_double.
Qed.

Lemma nonzero_step_fin (s : Q) :
  d3.nonzero_step (Fin s) = true -> ~ s == 0.
Proof.
  unfold d3.nonzero_step. cbn [Js.gt Js.lt]. intros H E.
  apply orb_true_iff in H. destruct H as [H|H]; apply Qlt_bool_iff in H; lra.
Qed.

(** One rounding of an interval from zero. *)
Lemma nice_step (x s : Q) :
  0 < x -> is_double x = true ->
  d3.tickIncrement (Fin 0) (Fin x) 10 = Fin s -> ~ s == 0 ->
  d3.nice_lo (Fin s) (Fin 0) = Fin 0
  /\ num_le (Fin (x - 4 * (eps * x))) (d3.nice_hi (Fin s) (Fin x)).
Proof.
  intros Hx D H Hs. split; [apply nice_lo_zero; exact Hs|].
  destruct (@tickIncrement_cases x s Hx D H Hs) as [[A [B C]]|[A [B C]]].
  - apply nice_hi_pos; assumption.
  - apply nice_hi_neg; assumption.
Qed.

Lemma tickIncrement_zero (m : Q) :
  m == 0 -> is_double m = true -> d3.tickIncrement (Fin 0) (Fin m) 10 = NegInf.
Proof.
  intros E D. unfold d3.tickIncrement. rewrite (@step_tenth m D).
  rewrite (@round64_zero (m / 10)) by (rewrite E; reflexivity).
  reflexivity.
Qed.

(** The domain [0, m] after [scale.nice]: NaN at both ends, or from 0 to
    a number of the format that is at least m but for four roundings. *)
Lemma nice_interval_zero (m : Q) :
  0 <= m -> is_double m = true ->
  d3.nice_interval (Fin 0) (Fin m) = (NaN, NaN)
  \/ exists hi,
       d3.nice_interval (Fin 0) (Fin m) = (Fin 0, hi)
       /\ num_le (Fin (m - 8 * (eps * m))) hi
       /\ forall h, hi = Fin h -> is_double h = true.
Proof.
  intros Hm D. pose proof eps_pos as E0. pose proof eps_le as E1.
  assert (Em : 0 <= eps * m) by (apply Qmult_le_0_compat; lra).
  assert (Keep : exists hi, (Fin 0, Fin m) = (Fin 0, hi)
                   /\ num_le (Fin (m - 8 * (eps * m))) hi
                   /\ forall h, hi = Fin h -> is_double h = true).
  { exists (Fin m). split; [reflexivity|]. split.
    - cbn [num_le]. lra.
    - intros h E. injection E as <-. exact D. }
  rewrite nice_interval_eq.
  destruct (d3.tickIncrement (Fin 0) (Fin m) 10) as [s1| | |] eqn:S1.
  - destruct (d3.nonzero_step (Fin s1)) eqn:N1; [|right; exact Keep].
    apply nonzero_step_fin in N1.
    assert (Hm' : 0 < m).
    { apply Qle_lt_or_eq in Hm. destruct Hm as [Hm|Hm]; [exact Hm|].
      rewrite tickIncrement_zero in S1; [discriminate| |exact D].
      symmetry. exact Hm. }
    destruct (@nice_step m s1 Hm' D S1 N1) as [L1 H1]. cbv zeta.
    rewrite L1.
    assert (Bm : eps * m <= (1 # 9007199254740992) * m).
    { apply Qmult_le_compat_r; lra. }
    destruct (d3.nice_hi (Fin s1) (Fin m)) as [h1| | |] eqn:E1';
      cbn [num_le] in H1; try contradiction.
    + pose proof (@nice_hi_double (Fin s1) (Fin m) h1 E1') as D1.
      assert (Hh1 : 0 < h1) by lra.
      destruct (d3.tickIncrement (Fin 0) (Fin h1) 10) as [s2| | |] eqn:S2.
      * destruct (d3.nonzero_step (Fin s2)) eqn:N2; [|right; exact Keep].
        apply nonzero_step_fin in N2.
        destruct (@nice_step h1 s2 Hh1 D1 S2 N2) as [L2 H2].
        right. exists (d3.nice_hi (Fin s2) (Fin h1)).
        split; [rewrite L2; reflexivity|]. split.
        -- apply (@num_le_trans _ (Fin (h1 - 4 * (eps * h1)))); [|exact H2].
           cbn [num_le].
           assert (G : m - 2 * 4 * (eps * m) <= h1 - 4 * (eps * h1)).
           { apply (@below_twice 4 m h1 (h1 - 4 * (eps * h1))); lra. }
           lra.
        -- intros h E. apply (@nice_hi_double (Fin s2) (Fin h1) h E).
      * right. exact Keep.
      * left. cbn [d3.nonzero_step Js.gt Js.lt orb].
        rewrite nice_lo_PosInf, nice_hi_PosInf. reflexivity.
      * left. cbn [d3.nonzero_step Js.gt Js.lt orb].
        rewrite nice_lo_NegInf, nice_hi_NegInf. reflexivity.
    + rewrite tickIncrement_PosInf. left.
      cbn [d3.nonzero_step Js.gt Js.lt orb].
      rewrite nice_lo_PosInf, nice_hi_PosInf. reflexivity.
  - right. exact Keep.
  - right. cbv zeta. cbn [d3.nonzero_step Js.gt Js.lt orb].
    rewrite nice_lo_PosInf, nice_hi_PosInf, tickIncrement_NaN. exact Keep.
  - right. cbv zeta. cbn [d3.nonzero_step Js.gt Js.lt orb].
    rewrite nice_lo_NegInf, nice_hi_NegInf, tickIncrement_NaN. exact Keep.
Qed.

End NiceDomain.

(** *** The heights over a domain from zero *)

Section Heights.
Local Open Scope Q_scope.

Lemma eta_small : 1024 * eta <= eps.
Proof.
  rewrite eta_eps. pose proof eps_pos as E0.
  assert (P : pow2 (-1022) <= 1 # 1024).
  { apply Qle_bool_iff. vm_compute. reflexivity. }
  revert P. generalize (pow2 (-1022)). intros p P.
  assert (A : eps * p <= eps * (1 # 1024)) by (apply Qmult_le_l; assumption).
  lra.
Qed.

(** One rounding of a number between two numbers of the format. *)
Lemma round64_step (x a b c : Q) :
  a <= x -> x <= b -> - c <= a -> b <= c -> c <= 1024 ->
  round64 a = Fin a -> round64 b = Fin b ->
  exists r, round64 x = Fin r /\ a <= r /\ r <= b
            /\ - (eps * c + eta) <= r - x /\ r - x <= eps * c + eta.
Proof.
  intros Ha Hb Hca Hcb Hc Ra Rb.
  assert (Ab : Qabs x <= c) by (apply Qabs_Qle_condition; split; lra).
  destruct (@round64_fin x) as [r Hr].
  { apply (Qle_trans _ 1024); [lra|]. apply Qle_bool_iff.
    vm_compute. reflexivity. }
  exists r. split; [exact Hr|].
  split; [apply (@round64_mono a x a r Ha Ra Hr)|].
  split; [apply (@round64_mono x b r b Hb Hr Rb)|].
  apply (@round64_bound x c r Ab Hr).
Qed.

Lemma normalize_zero (hi v : Q) :
  0 < hi -> is_double hi = true -> is_double v = true ->
  d3.normalize (Fin 0) (Fin hi) (Fin v) = round64 (v / hi).
Proof.
  intros Hhi Dh Dv. unfold d3.normalize.
  destruct (@sub_zero hi Dh) as [b [-> Eb]].
  destruct (@sub_zero v Dv) as [w [-> Ew]].
  assert (Nb : ~ b == 0) by lra.
  cbn [Js.truthy]. 
  assert (T : Qeq_bool b 0 = false) by (apply Qeq_bool_false; exact Nb).
  rewrite T. cbn [negb]. rewrite (div_fin w Nb).
  apply round64_comp. rewrite Eb, Ew. reflexivity.
Qed.

Lemma normalize_point (hi v : Q) :
  hi == 0 -> is_double hi = true ->
  d3.normalize (Fin 0) (Fin hi) (Fin v) = Fin (1 # 2).
Proof.
  intros Hhi Dh. unfold d3.normalize.
  destruct (@sub_zero hi Dh) as [b [-> Eb]].
  assert (T : Qeq_bool b 0 = true) by (apply Qeq_bool_iff; lra).
  cbn [Js.truthy Js.isNaN]. rewrite T. reflexivity.
Qed.

(** The position of [t] between 285 and 5, and the height over it. *)
Lemma height_near (t0 : Q) :
  0 <= t0 -> t0 <= 2 ->
  exists y h,
    d3.interpolateNumber (svgHeight - bottom svgMargin) (top svgMargin)
      (round64 t0) = Fin y
    /\ Js.sub (Fin (svgHeight - bottom svgMargin)) (Fin y) = Fin h
    /\ 0 <= h
    /\ - (1 # 4398046511104) <= h - 280 * t0
    /\ h - 280 * t0 <= 1 # 4398046511104.
Proof.
  intros H0 H2.
  destruct (@round64_step t0 0 2 2) as [t [Ht [T0 [T2 [Tl Tu]]]]];
    try lra; try reflexivity.
  rewrite Ht. unfold d3.interpolateNumber.
  cbn [Js.sub Js.neg Js.add Js.mul].
  destruct (@round64_step (1 + - t) (- (1)) 1 1) as [u [Hu [U0 [U1 [Ul Uu]]]]];
    try lra; try reflexivity.
  rewrite Hu. cbn [Js.mul].
  rewrite (@round64_comp ((svgHeight - bottom svgMargin) * u) (285 * u))
    by (unfold svgHeight, svgMargin; cbn [bottom]; ring).
  rewrite (@round64_comp (top svgMargin * t) (5 * t))
    by (unfold svgMargin; cbn [top]; ring).
  destruct (@round64_step (285 * u) (- (285)) 285 285)
    as [a [Ha [A0 [A1 [Al Au]]]]]; try lra; try reflexivity.
  destruct (@round64_step (5 * t) 0 10 10)
    as [b [Hb [B0 [B1 [Bl Bu]]]]]; try lra; try reflexivity.
  rewrite Ha, Hb. cbn [Js.add].
  destruct (@round64_step (a + b) (- (285)) 295 295)
    as [y [Hy [Y0 [Y1 [Yl Yu]]]]]; try lra; try reflexivity.
  rewrite Hy.
  destruct (@round64_step (285 - y) (- (10)) 570 570)
    as [h [Hh [K0 [K1 [Kl Ku]]]]]; try lra; try reflexivity.
  exists y, h. split; [reflexivity|]. split.
  { cbn [Js.sub Js.neg Js.add]. rewrite <- Hh. apply round64_comp.
    unfold svgHeight, svgMargin. cbn [bottom]. ring. }
  pose proof eps_pos as E0. pose proof eps_le as E1.
  pose proof eta_pos as E2. pose proof eta_small as E3.
  assert (Yb : y <= 285).
  { destruct (Qlt_le_dec (1 # 281474976710656) t) as [C|C].
    - lra.
    - assert (U : u <= 1) by exact U1.
      assert (B' : b <= 5 # 281474976710656).
      { apply (@round64_mono (5 * t) (5 # 281474976710656) b _);
          [lra|exact Hb|vm_compute; reflexivity]. }
      apply (@round64_mono (a + b) (285 + (5 # 281474976710656)) y 285);
        [lra|exact Hy|vm_compute; reflexivity]. }
  split; [|split; lra].
  apply (@round64_nonneg (285 - y) h); [lra|exact Hh].
Qed.

End Heights.

(** *** The y scale of a dataset without negative values *)

Section YScale.
Local Open Scope Q_scope.

Lemma lin_apply_zero (s : d3.LinearScale) (hi r0 r1 v : Q) :
  d3.lin_domain s = (Fin 0, Fin hi) -> d3.lin_range s = (r0, r1) -> 0 <= hi ->
  d3.lin_apply s v
  = d3.interpolateNumber r0 r1 (d3.normalize (Fin 0) (Fin hi) (Fin v)).
Proof.
  intros D R H. unfold d3.lin_apply. rewrite D, R. cbn [Js.lt].
  assert (L : Qlt_bool hi 0 = false) by (apply Qlt_bool_false; exact H).
  rewrite L. reflexivity.
Qed.

Lemma yScale_domain_nice (data : Data) (m : Q) :
  d3.max (map value data) = Some m -> 0 <= m ->
  d3.lin_domain (yScale data) = d3.nice_interval (Fin 0) (Fin m).
Proof.
  intros E H. rewrite yScale_domain, E. cbn [d3.coerce Js.lt].
  assert (L : Qlt_bool m 0 = false) by (apply Qlt_bool_false; exact H).
  rewrite L. reflexivity.
Qed.

(** The height over a domain that is the point 0. *)
Lemma height_point (data : Data) (hi : Q) (d : Datum) :
  d3.lin_domain (yScale data) = (Fin 0, Fin hi) -> hi == 0 ->
  is_double hi = true -> height_of data d = Fin 140.
Proof.
  intros D H Dh. unfold height_of.
  rewrite (@lin_apply_zero (yScale data) hi _ _ (value d) D (yScale_range data))
    by lra.
  rewrite (@normalize_point hi (value d) H Dh). vm_compute. reflexivity.
Qed.

(** The height over a domain from 0 to a positive number: 280 v / hi
    within 2^-42. *)
Lemma height_over (data : Data) (hi : Q) (d : Datum) :
  d3.lin_domain (yScale data) = (Fin 0, Fin hi) -> 0 < hi ->
  is_double hi = true -> is_double (value d) = true ->
  0 <= value d -> value d - 8 * (eps * value d) <= hi ->
  exists h, height_of data d = Fin h /\ 0 <= h /\ h <= 280 + pow2 (-39)
            /\ Qabs (h - 280 * value d / hi) <= pow2 (-42).
Proof.
  intros D H Dh Dv V0 V2. unfold height_of.
  rewrite (@lin_apply_zero (yScale data) hi _ _ (value d) D (yScale_range data))
    by lra.
  rewrite (@normalize_zero hi (value d) H Dh Dv).
  pose proof eps_pos as E0. pose proof eps_le as E1.
  assert (Bv : eps * value d <= (1 # 9007199254740992) * value d).
  { apply Qmult_le_compat_r; lra. }
  assert (T0 : 0 <= value d / hi).
  { apply Qle_shift_div_l; [exact H|]. lra. }
  assert (T2 : value d / hi <= 2).
  { apply Qle_shift_div_r; [exact H|]. lra. }
  assert (T1 : value d / hi * (1 - (1 # 1125899906842624)) <= 1).
  { assert (F : value d / hi * (1 - (1 # 1125899906842624))
                == value d * (1 - (1 # 1125899906842624)) / hi)
      by (field; lra).
    rewrite F. apply Qle_shift_div_r; [exact H|]. lra. }
  destruct (@height_near (value d / hi) T0 T2) as [y [h [Y [Hh [P [L U]]]]]].
  rewrite Y, Hh. exists h. split; [reflexivity|]. split; [exact P|].
  assert (E : pow2 (-42) == 1 # 4398046511104) by reflexivity.
  assert (E' : pow2 (-39) == 1 # 549755813888) by reflexivity.
  rewrite E, E'. clear E E'.
  assert (F : 280 * value d / hi == 280 * (value d / hi)) by (field; lra).
  rewrite F. clear F. revert T0 T1 T2 L U. generalize (value d / hi).
  intros t T0 T1 T2 L U. split; [lra|].
  apply Qabs_Qle_condition. split; lra.
Qed.

Lemma num_le_eq (x y : Q) (n : number) :
  x == y -> num_le (Fin x) n -> num_le (Fin y) n.
Proof.
  intros E. destruct n; cbn [num_le]; auto. intros H. rewrite <- E. exact H.
Qed.

End YScale.

(** *** The y scale below zero *)

Section Unclamped.
Local Open Scope Q_scope.

(** The position of [t] between 285 and 5 and the height over it, for
    [t] on either side of the domain. *)
Lemma position_near (t0 : Q) :
  - (2) <= t0 -> t0 <= 2 ->
  exists y h,
    d3.interpolateNumber (svgHeight - bottom svgMargin) (top svgMargin)
      (round64 t0) = Fin y
    /\ Js.sub (Fin (svgHeight - bottom svgMargin)) (Fin y) = Fin h
    /\ Qabs (y - (285 - 280 * t0)) <= 1 # 2199023255552
    /\ Qabs (h - 280 * t0) <= 1 # 2199023255552.
Proof.
  intros H0 H2.
  destruct (@round64_step t0 (- (2)) 2 2) as [t [Ht [T0 [T2 [Tl Tu]]]]];
    try lra; try reflexivity.
  rewrite Ht. unfold d3.interpolateNumber.
  cbn [Js.sub Js.neg Js.add Js.mul].
  destruct (@round64_step (1 + - t) (- (1)) 3 3) as [u [Hu [U0 [U1 [Ul Uu]]]]];
    try lra; try reflexivity.
  rewrite Hu. cbn [Js.mul].
  rewrite (@round64_comp ((svgHeight - bottom svgMargin) * u) (285 * u))
    by (unfold svgHeight, svgMargin; cbn [bottom]; ring).
  rewrite (@round64_comp (top svgMargin * t) (5 * t))
    by (unfold svgMargin; cbn [top]; ring).
  destruct (@round64_step (285 * u) (- (285)) 855 855)
    as [a [Ha [A0 [A1 [Al Au]]]]]; try lra; try reflexivity.
  destruct (@round64_step (5 * t) (- (10)) 10 10)
    as [b [Hb [B0 [B1 [Bl Bu]]]]]; try lra; try reflexivity.
  rewrite Ha, Hb. cbn [Js.add].
  destruct (@round64_step (a + b) (- (295)) 865 865)
    as [y [Hy [Y0 [Y1 [Yl Yu]]]]]; try lra; try reflexivity.
  rewrite Hy.
  destruct (@round64_step (285 - y) (- (580)) 580 580)
    as [h [Hh [K0 [K1 [Kl Ku]]]]]; try lra; try reflexivity.
  exists y, h. split; [reflexivity|]. split.
  { cbn [Js.sub Js.neg Js.add]. rewrite <- Hh. apply round64_comp.
    unfold svgHeight, svgMargin. cbn [bottom]. ring. }
  pose proof eps_pos as E0. pose proof eps_le as E1.
  pose proof eta_pos as E2. pose proof eta_small as E3.
  split; apply Qabs_Qle_condition; split; lra.
Qed.

Lemma height_signed (data : Data) (hi : Q) (d : Datum) :
  d3.lin_domain (yScale data) = (Fin 0, Fin hi) -> 0 < hi ->
  is_double hi = true -> is_double (value d) = true ->
  - (2 * hi) <= value d -> value d <= 2 * hi ->
  exists y h,
    d3.lin_apply (yScale data) (value d) = Fin y
    /\ height_of data d = Fin h
    /\ Qabs (y - (285 - 280 * value d / hi)) <= pow2 (-41)
    /\ Qabs (h - 280 * value d / hi) <= pow2 (-41).
Proof.
  intros D H Dh Dv V0 V2. unfold height_of.
  rewrite (@lin_apply_zero (yScale data) hi _ _ (value d) D (yScale_range data))
    by lra.
  rewrite (@normalize_zero hi (value d) H Dh Dv).
  assert (T0 : - (2) <= value d / hi).
  { apply Qle_shift_div_l; [exact H|]. lra. }
  assert (T2 : value d / hi <= 2).
  { apply Qle_shift_div_r; [exact H|]. lra. }
  destruct (@position_near (value d / hi) T0 T2) as [y [h [Y [Hh [L U]]]]].
  rewrite Y, Hh. exists y, h. split; [reflexivity|]. split; [reflexivity|].
  assert (E : pow2 (-41) == 1 # 2199023255552) by reflexivity.
  rewrite E. clear E.
  assert (F : 280 * value d / hi == 280 * (value d / hi)) by (field; lra).
  rewrite F. split; assumption.
Qed.

End Unclamped.

(* ================================================================== *)
(** ** The properties of the specification *)

Lemma first_view_inv : chart_inv first_view.
Proof. apply chart_invb_sound. vm_compute. reflexivity. Qed.

Lemma first_view_reachable : reachable first_view.
Proof.
  apply (reach_update (Some initial_data) reach_init).
  apply (updateSvg_spec (Some initial_data) chart_inv_empty).
Qed.

(** C1. For the empty dataset, passed or taken by default, [updateSvg]
    completes on every graphic of the component and leaves no bar and no
    label, whatever was there before; the two axis groups are drawn. The
    y scale of the empty dataset is computed without failure: [d3.max] of
    no value is undefined, and the domain is [0, NaN]. *)
Theorem updateSvg_empty_dataset (arg : option Data) (st : State) :
  chart_inv st -> arg = None \/ arg = Some [] ->
  d3.max (map value []) = None
  /\ d3.lin_domain (yScale []) = (Fin 0, NaN)
  /\ exists st', updateSvg arg st = Some (tt, st')
       /\ selected "rect" (svg st') = []
       /\ selected "foreignObject" (svg st') = []
       /\ List.length (selected ".axis" (svg st')) = 2.
Proof.
  intros Hinv Harg. split; [reflexivity|]. split; [reflexivity|].
  exists (redraw (data_of arg) st). split; [apply updateSvg_spec, Hinv|].
  assert (E : data_of arg = []) by (destruct Harg; subst; reflexivity).
  rewrite E. repeat split.
  - pose proof (redraw_bars_data [] Hinv) as H.
    destruct (selected "rect" _); [reflexivity|discriminate].
  - pose proof (redraw_labels_data [] Hinv) as H.
    destruct (selected "foreignObject" _); [reflexivity|discriminate].
  - apply redraw_axes_two, Hinv.
Qed.

(** C1 on the graphic of the first view, with the dataset left out: the
    seven bars and labels go. *)
Lemma updateSvg_empty_dataset_witness :
  chart_inv first_view
  /\ (d3.max (map value []) = None
      /\ d3.lin_domain (yScale []) = (Fin 0, NaN)
      /\ exists st', updateSvg None first_view = Some (tt, st')
           /\ selected "rect" (svg st') = []
           /\ selected "foreignObject" (svg st') = []
           /\ List.length (selected ".axis" (svg st')) = 2).
Proof.
  split.
  - apply chart_invb_sound. vm_compute. reflexivity.
  - apply (@updateSvg_empty_dataset None first_view).
    + apply chart_invb_sound. vm_compute. reflexivity.
    + left. reflexivity.
Defined.

(** C2. On every graphic of the component and for every dataset of length
    n, [updateBars] completes and leaves exactly n rect elements, bound to
    the data in order, and [updateLabels] completes and leaves exactly n
    foreignObject elements, bound to the data in order, however many
    there were before. *)
Theorem update_leaves_n_elements (data : Data) (st : State) :
  chart_inv st ->
  (exists st', updateBars data st = Some (tt, st')
     /\ map datum (selected "rect" (svg st')) = map Some data
     /\ List.length (selected "rect" (svg st')) = List.length data)
  /\ (exists st', updateLabels data st = Some (tt, st')
        /\ map datum (selected "foreignObject" (svg st')) = map Some data
        /\ List.length (selected "foreignObject" (svg st'))
           = List.length data).
Proof.
  intros [Hwf [Hb [Hl Hx]]]. split.
  - eexists. split; [apply updateBars_spec, Hwf|]. cbn [svg].
    pose proof (bars_selected_data data Hwf Hb) as H.
    split; [exact H|]. apply (map_some_length _ _ _ H).
  - eexists. split; [apply updateLabels_spec; assumption|]. cbn [svg].
    pose proof (labels_selected_data data Hwf Hl) as H.
    split; [exact H|]. apply (map_some_length _ _ _ H).
Qed.

(** C2 on the graphic of the first view, which holds seven bars and seven
    labels, for a dataset of two. *)
Lemma update_leaves_n_elements_witness :
  chart_inv first_view
  /\ ((exists st', updateBars two_data first_view = Some (tt, st')
         /\ map datum (selected "rect" (svg st')) = map Some two_data
         /\ List.length (selected "rect" (svg st')) = List.length two_data)
      /\ (exists st', updateLabels two_data first_view = Some (tt, st')
            /\ map datum (selected "foreignObject" (svg st'))
               = map Some two_data
            /\ List.length (selected "foreignObject" (svg st'))
               = List.length two_data)).
Proof.
  split.
  - apply chart_invb_sound. vm_compute. reflexivity.
  - apply (@update_leaves_n_elements two_data first_view).
    apply chart_invb_sound. vm_compute. reflexivity.
Defined.


(** C3 (amended). The band scale built by [xScale] has as its domain the
    datum names in data order with repeated names dropped, so exactly the
    sequence of names when these are distinct; its range is
    [svgMargin.left, svgWidth - svgMargin.right], that is [25, 595]; every
    datum name is mapped, and every mapped position together with the
    bandwidth lies within the range. *)
Theorem xScale_band (data : Data) :
  d3.band_domain (xScale data) = d3.intern [] (map name data)
  /\ (NoDup (map name data) -> d3.band_domain (xScale data) = map name data)
  /\ d3.band_range (xScale data)
     = (left svgMargin, (svgWidth - right svgMargin)%Q)
  /\ (left svgMargin == 25 /\ svgWidth - right svgMargin == 595)%Q
  /\ (forall d, In d data ->
        exists x, d3.band_apply (xScale data) (name d) = Some x)
  /\ (forall nm x, d3.band_apply (xScale data) nm = Some x ->
        (25 <= x /\ x + d3.bandwidth (xScale data) <= 595)%Q).
Proof.
  split; [reflexivity|]. split.
  { intros Hnd. rewrite xScale_domain. apply intern_nodup; [assumption|].
    intros x _ []. }
  split; [reflexivity|]. split; [split; reflexivity|]. split.
  - intros d Hd. unfold d3.band_apply. rewrite xScale_domain.
    assert (Hin : In (name d) (d3.intern [] (map name data))).
    { destruct (@intern_in (map name data) [] (name d)) as [[]|H];
        [apply in_map; assumption|exact H]. }
    destruct (index_of_in _ _ Hin) as [i Hi]. rewrite Hi.
    apply index_of_lt in Hi. rewrite <- xScale_domain in Hi.
    rewrite (xScale_values data Hi). eauto.
  - intros nm x. apply xScale_within.
Qed.

(** C3 for the data of [ngAfterViewInit], whose names are distinct. *)
Lemma xScale_band_witness :
  NoDup (map name initial_data)
  /\ d3.band_domain (xScale initial_data) = map name initial_data.
Proof.
  assert (H : NoDup (map name initial_data)).
  { vm_compute. repeat constructor; simpl; intuition discriminate. }
  split; [exact H|].
  exact (proj1 (proj2 (xScale_band initial_data)) H).
Defined.

(** Against C3 as stated: the domain is not the sequence of names when a
    name occurs twice. *)
Lemma xScale_domain_drops_repeated_names :
  d3.band_domain (xScale twins) <> map name twins.
Proof. vm_compute. discriminate. Qed.

(** C4 (amended). For every dataset that is not empty and whose values are
    binary64 numbers, none negative, the range of the y scale is the
    vertical pixel range [285, 5] and its domain is [0, m], m the greatest
    value, as [scale.nice] rounds it in binary64 arithmetic: NaN at both
    ends, or from 0 to a bound that is at least (1 - 2^-50) m (the bound
    can be below m by a rounding error, and it can be infinite). Over a
    domain from 0 to a finite bound hi the height 285 - y(value) of every
    bar is finite, not negative and at most 280 + 2^-39; it is 140 for
    hi = 0, and for hi > 0 it is 280 value / hi within 2^-42, so that of
    two data whose exact heights differ by more than 2^-41 the one of the
    larger value has the larger height. *)
Theorem yScale_heights (data : Data) :
  data <> [] ->
  Forall (fun d => (0 <= value d)%Q /\ is_double (value d) = true) data ->
  exists m,
    d3.max (map value data) = Some m
    /\ (forall d, In d data -> (value d <= m)%Q)
    /\ d3.lin_range (yScale data)
       = ((svgHeight - bottom svgMargin)%Q, top svgMargin)
    /\ d3.lin_domain (yScale data) = d3.nice_interval (Fin 0) (Fin m)
    /\ (d3.lin_domain (yScale data) = (NaN, NaN)
        \/ exists hi, d3.lin_domain (yScale data) = (Fin 0, hi)
                      /\ num_le (Fin ((1 - pow2 (-50)) * m)) hi)
    /\ forall hi, d3.lin_domain (yScale data) = (Fin 0, Fin hi) ->
         (forall d, In d data ->
            exists h, height_of data d = Fin h
              /\ (0 <= h)%Q /\ (h <= 280 + pow2 (-39))%Q
              /\ ((hi == 0)%Q -> h = 140%Q)
              /\ ((0 < hi)%Q ->
                  (Qabs (h - 280 * value d / hi) <= pow2 (-42))%Q))
         /\ (forall d1 d2 h1 h2, In d1 data -> In d2 data ->
               height_of data d1 = Fin h1 -> height_of data d2 = Fin h2 ->
               (0 < hi)%Q ->
               (280 * value d1 / hi + pow2 (-41) < 280 * value d2 / hi)%Q ->
               (h1 < h2)%Q).
Proof.
  intros Hne Hall.
  destruct (@max_spec (map value data)) as [m [E [Hle Hin]]].
  { destruct data; [congruence|discriminate]. }
  rewrite Forall_forall in Hall, Hle.
  assert (Hm : (0 <= m)%Q /\ is_double m = true).
  { apply in_map_iff in Hin. destruct Hin as [d [<- Hd]]. apply Hall, Hd. }
  destruct Hm as [Hm Dm].
  assert (Hv : forall d, In d data -> (value d <= m)%Q).
  { intros d Hd. apply Hle, in_map, Hd. }
  pose proof (@yScale_domain_nice data m E Hm) as Dom.
  exists m. split; [exact E|]. split; [exact Hv|]. split; [reflexivity|].
  split; [exact Dom|].
  assert (E50 : (m - 8 * (eps * m) == (1 - pow2 (-50)) * m)%Q).
  { assert (P : (pow2 (-50) == 8 * eps)%Q) by (vm_compute; reflexivity).
    rewrite P. ring. }
  destruct (@nice_interval_zero m Hm Dm) as [N|[hi' [N [B Dh]]]].
  { split; [left; congruence|]. intros hi C. congruence. }
  split.
  { right. exists hi'. split; [congruence|].
    apply (@num_le_eq _ _ hi' E50 B). }
  intros hi C.
  assert (Ehi : hi' = Fin hi) by congruence. subst hi'.
  cbn [num_le] in B. specialize (Dh hi eq_refl).
  pose proof eps_pos as E0. pose proof eps_le as E1.
  assert (Bm : (eps * m <= (1 # 9007199254740992) * m)%Q).
  { apply Qmult_le_compat_r; lra. }
  assert (Hh : (0 <= hi)%Q) by lra.
  assert (Each : forall d, In d data -> (0 < hi)%Q ->
            exists h, height_of data d = Fin h /\ (0 <= h)%Q
              /\ (h <= 280 + pow2 (-39))%Q
              /\ (Qabs (h - 280 * value d / hi) <= pow2 (-42))%Q).
  { intros d Hd Hp. destruct (Hall d Hd) as [V0 Dv].
    apply (@height_over data hi d C Hp Dh Dv V0).
    pose proof (Hv d Hd) as Vm.
    assert (A : ((1 - 8 * eps) * value d <= (1 - 8 * eps) * m)%Q).
    { apply Qmult_le_l; lra. }
    assert (A1 : ((1 - 8 * eps) * value d
                  == value d - 8 * (eps * value d))%Q) by ring.
    assert (A2 : ((1 - 8 * eps) * m == m - 8 * (eps * m))%Q) by ring.
    rewrite A1, A2 in A. lra. }
  split.
  - intros d Hd. apply Qle_lt_or_eq in Hh. destruct Hh as [Hp|Hz].
    + destruct (Each d Hd Hp) as [h [H1 [H2 [H3 H4]]]]. exists h.
      split; [exact H1|]. split; [exact H2|]. split; [exact H3|].
      split; [|intros _; exact H4]. intros Z. exfalso. lra.
    + exists 140%Q. split.
      * apply (@height_point data hi d C); [symmetry; exact Hz|exact Dh].
      * split; [discriminate|]. split.
        { apply Qle_bool_iff. vm_compute. reflexivity. }
        split; [reflexivity|]. intros Hp. exfalso. lra.
  - intros d1 d2 h1 h2 Hd1 Hd2 H1 H2 Hp Hlt.
    destruct (Each d1 Hd1 Hp) as [k1 [K1 [_ [_ B1]]]].
    destruct (Each d2 Hd2 Hp) as [k2 [K2 [_ [_ B2]]]].
    assert (X1 : k1 = h1) by congruence. assert (X2 : k2 = h2) by congruence.
    subst k1 k2.
    assert (P42 : (pow2 (-42) == 1 # 4398046511104)%Q) by reflexivity.
    assert (P41 : (pow2 (-41) == 2 # 4398046511104)%Q) by reflexivity.
    rewrite P42 in B1, B2. rewrite P41 in Hlt. clear P42 P41.
    apply Qabs_Qle_condition in B1. apply Qabs_Qle_condition in B2.
    revert B1 B2 Hlt.
    generalize (280 * value d1 / hi)%Q, (280 * value d2 / hi)%Q.
    intros a1 a2 B1 B2 Hlt. lra.
Qed.

(** C4 for the data of [ngAfterViewInit], whose domain is [0, 90]: the
    heights are those of the exact scale within 2^-42. *)
Lemma yScale_heights_witness :
  initial_data <> []
  /\ Forall (fun d => (0 <= value d)%Q /\ is_double (value d) = true)
            initial_data
  /\ forall d, In d initial_data ->
       exists h, height_of initial_data d = Fin h
         /\ (0 <= h)%Q /\ (h <= 280 + pow2 (-39))%Q
         /\ (Qabs (h - 280 * value d / 90) <= pow2 (-42))%Q.
Proof.
  assert (H1 : initial_data <> []) by discriminate.
  assert (H2 : Forall (fun d => (0 <= value d)%Q /\ is_double (value d) = true)
                      initial_data).
  { repeat constructor; vm_compute; discriminate. }
  split; [exact H1|]. split; [exact H2|].
  destruct (@yScale_heights initial_data H1 H2) as [m [_ [_ [_ [_ [_ H]]]]]].
  assert (D : d3.lin_domain (yScale initial_data) = (Fin 0, Fin 90)).
  { vm_compute. reflexivity. }
  destruct (H 90%Q D) as [Each _]. intros d Hd.
  destruct (Each d Hd) as [h [A [B [B' [_ C]]]]]. exists h.
  split; [exact A|]. split; [exact B|]. split; [exact B'|].
  apply C. reflexivity.
Defined.

(** Against C4 as stated. The domain of the y scale is not [0, max]: for
    the data of [ngAfterViewInit], of the greatest value 81, it is
    [0, 90]. In binary64 the bound can be below the greatest value: for
    the one datum of the number next above 0.0018 the domain is
    [0, 0.0018], and the height of its bar is above the 280 of the range.
    The height is not strictly increasing: the data of the values 1 and
    1 + 2^-52 get the same height. And the height need not be a number:
    for the value 31 * 2^1019, a binary64 number, the domain is NaN at
    both ends and the height is NaN. *)
Lemma yScale_not_exact :
  (d3.max (map value initial_data) = Some 81%Q
   /\ d3.lin_domain (yScale initial_data) = (Fin 0, Fin 90))
  /\ (Forall (fun d => (0 <= value d)%Q /\ is_double (value d) = true)
             just_above
      /\ d3.lin_domain (yScale just_above)
         = (Fin 0, Fin (4150517416584649 # 2305843009213693952))
      /\ (4150517416584649 # 2305843009213693952
          < 8301034833169299 # 4611686018427387904)%Q
      /\ map (height_of just_above) just_above
         = [Fin (4925812092436481 # 17592186044416)]
      /\ (280 < 4925812092436481 # 17592186044416)%Q)
  /\ (Forall (fun d => (0 <= value d)%Q /\ is_double (value d) = true)
             close_pair
      /\ map value close_pair
         = [1%Q; 4503599627370497 # 4503599627370496; 81%Q]
      /\ map (height_of close_pair) close_pair
         = [Fin (13682811367879 # 4398046511104);
            Fin (13682811367879 # 4398046511104); Fin 252])
  /\ (Forall (fun d => (0 <= value d)%Q /\ is_double (value d) = true) huge
      /\ d3.lin_domain (yScale huge) = (NaN, NaN)
      /\ map (height_of huge) huge = [NaN]).
Proof.
  split; [split; vm_compute; reflexivity|].
  split.
  { split; [repeat constructor; vm_compute; discriminate|].
    split; [vm_compute; reflexivity|]. split; [reflexivity|].
    split; [vm_compute; reflexivity|reflexivity]. }
  split.
  { split; [repeat constructor; vm_compute; discriminate|].
    split; [reflexivity|]. vm_compute. reflexivity. }
  split; [repeat constructor; vm_compute; discriminate|].
  split; vm_compute; reflexivity.
Qed.




(** C6. The primary flag only decides the classes. For two datasets that
    agree on names and values, drawn on the same graphic of the component,
    the x, y, width and height attributes of the bars agree and those of
    the labels agree. Every bar carries exactly one of the classes
    primaryBar and secondaryBar, by the flag of its datum, and no element
    carries both classes of a pair, primaryBar with secondaryBar or
    primaryLabel with secondaryLabel. *)
Theorem primary_flag_only_classes (data1 data2 : Data) (st : State) :
  reachable st -> map name_value data1 = map name_value data2 ->
  exists s1 s2,
    updateSvg (Some data1) st = Some (tt, s1)
    /\ updateSvg (Some data2) st = Some (tt, s2)
    /\ map box (selected "rect" (svg s1)) = map box (selected "rect" (svg s2))
    /\ map box (selected "foreignObject" (svg s1))
       = map box (selected "foreignObject" (svg s2))
    /\ Forall bar_classed (selected "rect" (svg s1))
    /\ nowhere clash (descendants (svg s1)).
Proof.
  intros Hr H. pose proof (reachable_inv Hr) as Hinv.
  exists (redraw data1 st), (redraw data2 st).
  split; [apply (updateSvg_spec (Some data1) Hinv)|].
  split; [apply (updateSvg_spec (Some data2) Hinv)|].
  destruct (@redraw_box_ext data1 data2 st Hinv H) as [Hb Hl].
  split; [exact Hb|]. split; [exact Hl|].
  split; [apply redraw_bars_classed, Hinv|].
  apply redraw_no_clash, reachable_no_clash, Hr.
Qed.

(** C6 on the graphic of the first view, for the data of [ngAfterViewInit]
    with and without the flag. *)
Lemma primary_flag_only_classes_witness :
  reachable first_view
  /\ map name_value initial_data = map name_value unflagged
  /\ exists s1 s2,
       updateSvg (Some initial_data) first_view = Some (tt, s1)
       /\ updateSvg (Some unflagged) first_view = Some (tt, s2)
       /\ map box (selected "rect" (svg s1))
          = map box (selected "rect" (svg s2)).
Proof.
  assert (H1 : reachable first_view).
  { apply (reach_update (Some initial_data) reach_init).
    vm_compute. reflexivity. }
  assert (H2 : map name_value initial_data = map name_value unflagged)
    by reflexivity.
  split; [exact H1|]. split; [exact H2|].
  destruct (@primary_flag_only_classes initial_data unflagged first_view
              H1 H2) as [s1 [s2 [A [B [C _]]]]].
  exists s1, s2. auto.
Defined.

(** C7 (amended). A redraw runs the three routines in the order
    [updateAxises], [updateBars], [updateLabels], each on the dataset the
    redraw was given and on the graphic the step before left. On the empty
    graphic the children of the svg element therefore are, in document
    order, the two axis groups, then the bars, then the labels. *)
Theorem redraw_order (arg : option Data) (st : State) :
  chart_inv st ->
  exists s1 s2 s3,
    updateAxises (data_of arg) st = Some (tt, s1)
    /\ updateBars (data_of arg) s1 = Some (tt, s2)
    /\ updateLabels (data_of arg) s2 = Some (tt, s3)
    /\ updateSvg arg st = Some (tt, s3)
    /\ (st = empty_svg ->
        child_tags (svg s3)
        = ["g"; "g"] ++ repeat "rect" (List.length (data_of arg))
          ++ repeat "foreignObject" (List.length (data_of arg))).
Proof.
  intros Hinv. set (data := data_of arg).
  pose proof (axes_inv data Hinv) as H1.
  pose proof (bars_inv data H1) as H2.
  exists (axes_state data st), (bars_state data (axes_state data st)),
    (redraw data st).
  split; [apply updateAxises_spec, Hinv|].
  split; [apply updateBars_spec, H1|].
  split; [apply updateLabels_spec; apply H2|].
  split; [apply updateSvg_spec, Hinv|].
  intros ->. apply first_redraw_tags.
Qed.

(** C7 for the first redraw, on the empty graphic. *)
Lemma redraw_order_witness :
  chart_inv empty_svg
  /\ exists s3,
       updateSvg (Some initial_data) empty_svg = Some (tt, s3)
       /\ child_tags (svg s3)
          = ["g"; "g"] ++ repeat "rect" 7 ++ repeat "foreignObject" 7.
Proof.
  assert (H : chart_inv empty_svg).
  { apply chart_invb_sound. vm_compute. reflexivity. }
  split; [exact H|].
  destruct (@redraw_order (Some initial_data) empty_svg H)
    as [s1 [s2 [s3 [_ [_ [_ [A B]]]]]]].
  exists s3. split; [exact A|]. apply B. reflexivity.
Defined.

(** Against C7 as stated: the order bars, labels, axes gives another
    document. On the empty graphic the program puts the axis groups first,
    that order puts them last. *)
Lemma specified_order_differs :
  tags_after (updateSvg (Some initial_data)) empty_svg
  <> tags_after (updateSvg_as_specified (Some initial_data)) empty_svg.
Proof. vm_compute. discriminate. Qed.



(** C9 (amended). After a redraw of a graphic of the component every bar
    and every label has as its width the one bandwidth of the band scale
    of the dataset, and as its height the difference
    svgHeight - svgMargin.bottom - y = 285 - y of the baseline and its y
    attribute, as the binary64 subtraction gives it: for a finite y the
    difference rounded once, so that y and a finite height add up to 285
    within one rounding error, 2^-53 |285 - y| + 2^-1075, and to 285
    exactly where 285 - y is a binary64 number. *)
Theorem baseline_and_width (arg : option Data) (st : State) :
  chart_inv st ->
  exists st', updateSvg arg st = Some (tt, st')
    /\ forall e,
         In e (selected "rect" (svg st')
               ++ selected "foreignObject" (svg st')) ->
         getAttribute "width" e
         = Some (VNum (Fin (d3.bandwidth (xScale (data_of arg)))))
         /\ exists y h : number,
              getAttribute "y" e = Some (VNum y)
              /\ getAttribute "height" e = Some (VNum h)
              /\ h = Js.sub (Fin (svgHeight - bottom svgMargin)) y
              /\ forall q, y = Fin q ->
                   h = round64 (285 - q)
                   /\ forall k, h = Fin k ->
                        (Qabs (q + k - 285) <= eps * Qabs (285 - q) + eta
                         /\ (is_double (285 - q) = true -> q + k == 285))%Q.
Proof.
  intros Hinv. exists (redraw (data_of arg) st).
  split; [apply updateSvg_spec, Hinv|].
  intros e He. apply (@redraw_baseline (data_of arg) st e Hinv He).
Qed.

(** C9 on the graphic of the first view, for a dataset of two. *)
Lemma baseline_and_width_witness :
  chart_inv first_view
  /\ exists st', updateSvg (Some two_data) first_view = Some (tt, st')
       /\ forall e,
            In e (selected "rect" (svg st')
                  ++ selected "foreignObject" (svg st')) ->
            getAttribute "width" e
            = Some (VNum (Fin (d3.bandwidth (xScale two_data)))).
Proof.
  assert (H : chart_inv first_view).
  { apply chart_invb_sound. vm_compute. reflexivity. }
  split; [exact H|].
  destruct (@baseline_and_width (Some two_data) first_view H)
    as [st' [A B]].
  exists st'. split; [exact A|]. intros e He. apply (B e He).
Defined.

(** Against C9 as stated: y and the height do not add up to 285 for every
    datum. For the two data of the values 1 and -10^20, both binary64
    numbers, the bar of the second has y = 2.8 10^22 and the height
    -2.8 10^22: the baseline 285 is lost in the rounding of the
    subtraction, and the two add up to 0. *)
Lemma baseline_lost_in_rounding :
  Forall (fun d => is_double (value d) = true) far_below
  /\ exists st', updateSvg (Some far_below) empty_svg = Some (tt, st')
       /\ map (fun e => (getAttribute "y" e, getAttribute "height" e))
              (selected "rect" (svg st'))
          = [(Some (VNum (Fin 5)), Some (VNum (Fin 280)));
             (Some (VNum (Fin 28000000000000000000000)),
              Some (VNum (Fin (- 28000000000000000000000))))]
       /\ ~ (28000000000000000000000 + - 28000000000000000000000 == 285)%Q.
Proof.
  split; [repeat constructor|].
  exists (redraw far_below empty_svg).
  split; [apply (updateSvg_spec (Some far_below) chart_inv_empty)|].
  split; [vm_compute; reflexivity|]. vm_compute. discriminate.
Qed.

(** C10. [updateAxises] removes every element of class axis there was and
    appends two axis groups as the last children of the svg element, the
    bottom x axis and then the left y axis, each drawn by its axis: the
    transform the component wrote, the attributes and the text anchor of
    the orientation (middle for the bottom axis, end for the left one),
    the domain path, and one tick with a line and a text for every name
    of the band scale, respectively for every tick of the y scale. So
    exactly these two are of class axis afterwards; and after any number
    of successive calls of [updateSvg], at least one, the graphic holds
    exactly two elements of class axis, the two axis groups of the dataset
    of the last call. *)
Theorem axes_never_accumulate (data : Data) (args : list (option Data))
  (st : State) :
  chart_inv st -> args <> [] ->
  (exists st', updateAxises data st = Some (tt, st')
     /\ (forall e, In e (selected ".axis" (svg st)) ->
           ~ In (eid e) (ids (svg st')))
     /\ (exists cs, children (svg st') = cs ++ axis_groups (svg st'))
     /\ selected ".axis" (svg st') = map root_elem (axis_groups (svg st'))
     /\ List.length (selected ".axis" (svg st')) = 2
     /\ map axis_view (axis_groups (svg st'))
        = [axis_shown "translate(0, 285)" "middle"
             (map TickName (d3.intern [] (map name data)));
           axis_shown "translate(25, 0)" "end"
             (map TickNumber (d3.lin_ticks (yScale data)))])
  /\ (exists st', updates args st = Some (tt, st')
        /\ selected ".axis" (svg st') = map root_elem (axis_groups (svg st'))
        /\ List.length (selected ".axis" (svg st')) = 2
        /\ map axis_view (axis_groups (svg st'))
           = [axis_shown "translate(0, 285)" "middle"
                (map TickName (d3.intern [] (map name (last_data args))));
              axis_shown "translate(25, 0)" "end"
                (map TickNumber (d3.lin_ticks (yScale (last_data args))))]).
Proof.
  intros Hinv Hne. split.
  - destruct Hinv as [Hwf _]. eexists.
    split; [apply updateAxises_spec, Hwf|]. cbn [svg].
    split; [intros e He; apply (@axes_old_gone data st e Hwf He)|].
    split.
    { rewrite (@axis_groups_axes data st Hwf). unfold axes_tree. cbn [children].
      rewrite root_prune. eexists. reflexivity. }
    split; [apply axes_selected_groups, Hwf|].
    split; [rewrite (axes_selected data st); reflexivity|].
    rewrite (@axis_groups_axes data st Hwf). apply axis_groups_views.
  - destruct (@updates_snoc args st Hinv Hne) as [s [Hs [E _]]].
    exists (redraw (last_data args) s). split; [exact E|].
    split; [apply redraw_selected_groups, Hs|].
    split; [apply redraw_axes_two, Hs|].
    rewrite (@redraw_axis_groups (last_data args) s Hs). apply axis_groups_views.
Qed.

(** C10 for three successive calls on the empty graphic: the two axis
    groups are those of the last dataset, with its two names on the
    bottom axis. *)
Lemma axes_never_accumulate_witness :
  chart_inv empty_svg
  /\ [Some initial_data; None; Some two_data] <> []
  /\ exists st',
       updates [Some initial_data; None; Some two_data] empty_svg
       = Some (tt, st')
       /\ List.length (selected ".axis" (svg st')) = 2
       /\ map (fun g => texts (descendants g)) (axis_groups (svg st'))
          = [map TickName (map name two_data);
             map TickNumber (d3.lin_ticks (yScale two_data))].
Proof.
  assert (H1 : chart_inv empty_svg).
  { apply chart_invb_sound. vm_compute. reflexivity. }
  assert (H2 : [Some initial_data; None; Some two_data] <> [])
    by discriminate.
  split; [exact H1|]. split; [exact H2|].
  destruct (proj2 (@axes_never_accumulate [] _ empty_svg H1 H2))
    as [st' [A [_ [B C]]]].
  exists st'. split; [exact A|]. split; [exact B|].
  apply (f_equal (map (fun v => snd v))) in C. rewrite map_map in C.
  exact C.
Defined.

(* ================================================================== *)
(** ** Further properties of the component *)

(** X1. After any number of calls of [updateSvg] on a graphic of the
    component, the bars and the labels are those of the dataset of the last
    call: the i-th bar and the i-th label carry the i-th datum and the box
    [setSizeAndPositionToRect] computes from it, x = xScale(name),
    y = yScale(value), width = bandwidth, height = 285 - y, whatever the
    calls before drew. *)
Theorem last_dataset_drawn (args : list (option Data)) (a : option Data)
  (st : State) :
  chart_inv st ->
  exists st', updates (args ++ [a]) st = Some (tt, st')
    /\ map (fun e => (datum e, box e)) (selected "rect" (svg st'))
       = map (fun d => (Some d, box_of (data_of a) d)) (data_of a)
    /\ map (fun e => (datum e, box e)) (selected "foreignObject" (svg st'))
       = map (fun d => (Some d, box_of (data_of a) d)) (data_of a).
Proof.
  intros Hinv. destruct (@updates_last args a st Hinv) as [s [Hs [E _]]].
  exists (redraw (data_of a) s). split; [exact E|]. split.
  - apply redraw_bars_boxes, Hs.
  - apply redraw_labels_boxes, Hs.
Qed.

(** X1 for the call with two data after the first view and a call without
    dataset. *)
Lemma last_dataset_drawn_witness :
  chart_inv first_view
  /\ exists st', updates ([None] ++ [Some two_data]) first_view = Some (tt, st')
       /\ map (fun e => (datum e, box e)) (selected "rect" (svg st'))
          = map (fun d => (Some d, box_of two_data d)) two_data.
Proof.
  assert (H : chart_inv first_view).
  { apply chart_invb_sound. vm_compute. reflexivity. }
  split; [exact H|].
  destruct (@last_dataset_drawn [None] (Some two_data) first_view H)
    as [st' [A [B _]]].
  exists st'. split; [exact A|exact B].
Defined.

(** X2. The join of [updateBars] and of [updateLabels] goes by index: the
    first elements that were there are kept, in document order, new
    elements are appended for the data beyond them, and the elements
    beyond the data leave the graphic. *)
Theorem join_reuses_elements (data : Data) (st : State) :
  chart_inv st ->
  (exists st', updateBars data st = Some (tt, st')
     /\ map eid (selected "rect" (svg st'))
        = firstn (List.length data) (map eid (selected "rect" (svg st)))
          ++ seq (fresh st)
               (List.length data - List.length (selected "rect" (svg st)))
     /\ forall i,
          In i (skipn (List.length data) (map eid (selected "rect" (svg st)))) ->
          ~ In i (ids (svg st')))
  /\ (exists st', updateLabels data st = Some (tt, st')
        /\ map eid (selected "foreignObject" (svg st'))
           = firstn (List.length data)
               (map eid (selected "foreignObject" (svg st)))
             ++ seq (fresh st)
                  (List.length data
                   - List.length (selected "foreignObject" (svg st)))
        /\ forall i,
             In i (skipn (List.length data)
                     (map eid (selected "foreignObject" (svg st)))) ->
             ~ In i (ids (svg st'))).
Proof.
  intros [Hwf [Hb [Hl Hx]]]. split.
  - eexists. split; [apply updateBars_spec, Hwf|]. cbn [svg]. split.
    + rewrite (bars_ids data Hwf Hb). unfold merged_ids.
      rewrite length_map. reflexivity.
    + intros i Hi. apply (@bars_exit_gone data st i Hwf Hi).
  - eexists. split; [apply updateLabels_spec; assumption|]. cbn [svg]. split.
    + rewrite (labels_ids data Hwf Hl). unfold merged_ids.
      rewrite length_map. reflexivity.
    + intros i Hi. apply (@labels_exit_gone data st i Hwf Hi).
Qed.

(** X2 on the first view, with seven bars, for a dataset of two. *)
Lemma join_reuses_elements_witness :
  chart_inv first_view
  /\ exists st', updateBars two_data first_view = Some (tt, st')
       /\ map eid (selected "rect" (svg st'))
          = firstn 2 (map eid (selected "rect" (svg first_view))).
Proof.
  assert (H : chart_inv first_view).
  { apply chart_invb_sound. vm_compute. reflexivity. }
  split; [exact H|].
  destruct (@join_reuses_elements two_data first_view H)
    as [[st' [A [B _]]] _].
  exists st'. split; [exact A|]. rewrite B. vm_compute. reflexivity.
Defined.

(** X3. A redraw gives every label it creates one div child of class
    label, with the class primaryLabel or secondaryLabel by the flag of the
    datum, and the text [`${value}pts`]. A label that was there before
    gets the datum of its index but keeps its children as they were, text
    and classes included: [select('xhtml\\:div')] selects nothing, so the
    text of an existing label is not written again. *)
Theorem labels_keep_their_text (arg : option Data) (st : State) :
  reachable st ->
  exists st', updateSvg arg st = Some (tt, st')
    /\ map label_view (label_nodes (svg st'))
       = zip_views (label_nodes (svg st)) (data_of arg)
         ++ map new_view
              (skipn (List.length (label_nodes (svg st))) (data_of arg)).
Proof.
  intros Hr. pose proof (reachable_tidy Hr) as Ht.
  exists (redraw (data_of arg) st).
  split; [apply updateSvg_spec, Ht|]. apply redraw_labels_views, Ht.
Qed.

(** X3 on the first view, for the data with the values doubled: the first
    label is bound to the value 106 and still shows 53pts. *)
Lemma labels_keep_their_text_witness :
  reachable first_view
  /\ exists st', updateSvg (Some doubled) first_view = Some (tt, st')
       /\ hd_error (map label_view (label_nodes (svg st')))
          = Some (hd_error doubled,
                  [("div", ["label"; "secondaryLabel"], Some (Pts 53))]).
Proof.
  assert (H : reachable first_view).
  { apply (reach_update (Some initial_data) reach_init).
    vm_compute. reflexivity. }
  split; [exact H|].
  destruct (@labels_keep_their_text (Some doubled) first_view H)
    as [st' [A B]].
  exists st'. split; [exact A|]. rewrite B. vm_compute. reflexivity.
Defined.

(** X4. The bandwidth of the band scale of [xScale] is positive for every
    dataset, and the bands of two different names do not overlap: one
    ends before the other begins, so that two bars of different names
    never touch. *)
Theorem xScale_layout (data : Data) :
  (0 < d3.bandwidth (xScale data))%Q
  /\ forall (nm1 nm2 : string) (x1 x2 : Q),
       d3.band_apply (xScale data) nm1 = Some x1 ->
       d3.band_apply (xScale data) nm2 = Some x2 ->
       nm1 <> nm2 ->
       (x1 + d3.bandwidth (xScale data) < x2
        \/ x2 + d3.bandwidth (xScale data) < x1)%Q.
Proof.
  split; [apply xScale_bandwidth_pos|].
  intros nm1 nm2 x1 x2 H1 H2 Hne.
  apply (@xScale_apart data nm1 nm2 x1 x2 Hne H1 H2).
Qed.

(** X4 for the two names of a dataset of two. *)
Lemma xScale_layout_witness :
  exists x1 x2,
    d3.band_apply (xScale two_data) "競合A社" = Some x1
    /\ d3.band_apply (xScale two_data) "当社" = Some x2
    /\ "競合A社" <> "当社"
    /\ (x1 + d3.bandwidth (xScale two_data) < x2
        \/ x2 + d3.bandwidth (xScale two_data) < x1)%Q.
Proof.
  pose (get := fun o : option Q => match o with Some x => x | None => 0%Q end).
  assert (H1 : d3.band_apply (xScale two_data) "競合A社"
               = Some (get (d3.band_apply (xScale two_data) "競合A社"))).
  { vm_compute. reflexivity. }
  assert (H2 : d3.band_apply (xScale two_data) "当社"
               = Some (get (d3.band_apply (xScale two_data) "当社"))).
  { vm_compute. reflexivity. }
  assert (H3 : "競合A社" <> "当社") by discriminate.
  exists (get (d3.band_apply (xScale two_data) "競合A社")),
         (get (d3.band_apply (xScale two_data) "当社")).
  split; [exact H1|]. split; [exact H2|]. split; [exact H3|].
  exact (proj2 (xScale_layout two_data) _ _ _ _ H1 H2 H3).
Defined.

(** X5. The y scale does not clamp. For a dataset of binary64 numbers, of
    either sign, whose greatest value m is positive, the domain of the y
    scale is [0, m] as [scale.nice] rounds it; when it is [0, hi] with a
    finite hi, hi is positive and every datum whose value is not below
    -2 hi gets the position 285 - 280 value / hi and the height
    280 value / hi, both within 2^-41: a bar above the baseline for a
    value above zero, and a negative height, below the baseline, for a
    negative value. *)
Theorem value_to_pixels (data : Data) (m : Q) :
  Forall (fun d => is_double (value d) = true) data ->
  d3.max (map value data) = Some m -> (0 < m)%Q ->
  d3.lin_domain (yScale data) = d3.nice_interval (Fin 0) (Fin m)
  /\ forall hi, d3.lin_domain (yScale data) = (Fin 0, Fin hi) ->
       (0 < hi)%Q
       /\ forall d, In d data -> (- (2 * hi) <= value d)%Q ->
            exists y h,
              d3.lin_apply (yScale data) (value d) = Fin y
              /\ height_of data d = Fin h
              /\ (Qabs (y - (285 - 280 * value d / hi)) <= pow2 (-41))%Q
              /\ (Qabs (h - 280 * value d / hi) <= pow2 (-41))%Q
              /\ ((pow2 (-41) < 280 * value d / hi)%Q -> (0 < h)%Q)
              /\ ((280 * value d / hi < - pow2 (-41))%Q -> (h < 0)%Q).
Proof.
  intros Hall E Hm.
  assert (Hne : map value data <> []).
  { intros C. rewrite C in E. discriminate. }
  destruct (@max_spec (map value data) Hne) as [m' [E' [Hle Hin]]].
  assert (Em : m' = m) by congruence. subst m'.
  rewrite Forall_forall in Hall, Hle.
  assert (Dm : is_double m = true).
  { apply in_map_iff in Hin. destruct Hin as [d [<- Hd]]. apply Hall, Hd. }
  assert (Hm0 : (0 <= m)%Q) by lra.
  pose proof (@yScale_domain_nice data m E Hm0) as Dom.
  split; [exact Dom|]. intros hi C.
  destruct (@nice_interval_zero m Hm0 Dm) as [N|[hi' [N [B Dh]]]];
    [congruence|].
  assert (Ehi : hi' = Fin hi) by congruence. subst hi'.
  cbn [num_le] in B. specialize (Dh hi eq_refl).
  pose proof eps_pos as E0. pose proof eps_le as E1.
  assert (Bm : (eps * m <= (1 # 9007199254740992) * m)%Q).
  { apply Qmult_le_compat_r; lra. }
  assert (Hp : (0 < hi)%Q) by lra.
  split; [exact Hp|]. intros d Hd Hlo.
  assert (Hup : (value d <= 2 * hi)%Q).
  { assert (V : (value d <= m)%Q) by (apply Hle, in_map, Hd). lra. }
  destruct (@height_signed data hi d C Hp Dh (Hall d Hd) Hlo Hup)
    as [y [h [Y [H [By Bh]]]]].
  exists y, h. split; [exact Y|]. split; [exact H|]. split; [exact By|].
  split; [exact Bh|].
  assert (P41 : (pow2 (-41) == 1 # 2199023255552)%Q) by reflexivity.
  rewrite P41 in *. clear P41. apply Qabs_Qle_condition in Bh.
  revert Bh. generalize (280 * value d / hi)%Q. intros a Bh.
  split; intros K; lra.
Qed.

(** X5 for the data of the values 3 and -1, whose domain is [0, 3]: the
    bar of -1 has a negative height. *)
Lemma value_to_pixels_witness :
  Forall (fun d => is_double (value d) = true) below_zero
  /\ d3.max (map value below_zero) = Some 3%Q
  /\ (0 < 3)%Q
  /\ forall d, In d below_zero ->
       exists h, height_of below_zero d = Fin h
         /\ ((value d < 0)%Q -> (h < 0)%Q).
Proof.
  assert (H1 : Forall (fun d => is_double (value d) = true) below_zero).
  { repeat constructor. }
  assert (H2 : d3.max (map value below_zero) = Some 3%Q) by reflexivity.
  assert (H3 : (0 < 3)%Q) by reflexivity.
  split; [exact H1|]. split; [exact H2|]. split; [exact H3|].
  destruct (@value_to_pixels below_zero 3%Q H1 H2 H3) as [_ H].
  assert (D : d3.lin_domain (yScale below_zero) = (Fin 0, Fin 3)).
  { vm_compute. reflexivity. }
  destruct (H 3%Q D) as [_ Each]. intros d Hd.
  assert (Lo : (- (2 * 3) <= value d)%Q).
  { destruct Hd as [<-|[<-|[]]]; vm_compute; discriminate. }
  destruct (Each d Hd Lo) as [y [h [_ [A [_ [_ [_ Neg]]]]]]].
  exists h. split; [exact A|]. intros V. apply Neg.
  destruct Hd as [<-|[<-|[]]].
  - exfalso. revert V. vm_compute. discriminate.
  - vm_compute. reflexivity.
Defined.

(** X6. A call of [updateSvg] on a graphic the component has drawn leaves
    the svg element itself as it was and gives it exactly 2 n + 2 children
    for a dataset of n data, each one an axis group, a bar or a label:
    nothing of an earlier dataset stays among the children. *)
Theorem svg_children (arg : option Data) (st : State) :
  reachable st ->
  exists st', updateSvg arg st = Some (tt, st')
    /\ root_elem (svg st') = root_elem (svg st)
    /\ List.length (children (svg st')) = 2 * List.length (data_of arg) + 2
    /\ only_chart (svg st').
Proof.
  intros Hr. pose proof (reachable_tidy Hr) as Ht.
  exists (redraw (data_of arg) st).
  split; [apply updateSvg_spec, Ht|].
  split; [apply redraw_root, Ht|].
  split; [apply redraw_children, Ht|].
  apply (redraw_tidy (data_of arg) Ht).
Qed.

(** X6 on the first view, for a dataset of two. *)
Lemma svg_children_witness :
  reachable first_view
  /\ exists st', updateSvg (Some two_data) first_view = Some (tt, st')
       /\ List.length (children (svg st')) = 6.
Proof.
  assert (H : reachable first_view).
  { apply (reach_update (Some initial_data) reach_init).
    vm_compute. reflexivity. }
  split; [exact H|].
  destruct (@svg_children (Some two_data) first_view H) as [st' [A [_ [B _]]]].
  exists st'. split; [exact A|exact B].
Defined.

(** X8. [setSizeAndPositionToRect] reads the name and the value of the
    datum of every element of its selection; on a selection holding an
    element of the graphic that is bound to no datum the call fails (the
    TypeError of reading a property of undefined), with a dataset or
    without, and nothing is drawn. *)
Theorem setSize_needs_data (s : d3.Selection) (data : option Data)
  (st : State) (id : nat) (e : Elem) :
  In (Some id) (d3.nodes s) ->
  find id (svg st) = Some e -> datum e = None ->
  setSizeAndPositionToRect s data st = None.
Proof.
  intros Hin Hf Hd. apply (@setSize_unbound s data st id); [|exact Hin].
  exists e. split; [exact Hf|exact Hd].
Qed.

(** X8 for the selection of the svg element of the empty graphic. *)
Lemma setSize_needs_data_witness :
  In (Some 0) (d3.nodes svg_alone)
  /\ setSizeAndPositionToRect svg_alone (Some initial_data) empty_svg = None.
Proof.
  assert (H : In (Some 0) (d3.nodes svg_alone)) by (left; reflexivity).
  split; [exact H|].
  apply (@setSize_needs_data svg_alone (Some initial_data) empty_svg 0
           (root_elem (svg empty_svg)) H); reflexivity.
Defined.
